(** * toml_like.js: a shallow embedding of the TOML-like configuration codec

    The development follows the most recent iteration of the library
    (js/libraries/toml_like.js, first program of the file): the character
    source adapter ([generateFrom], [generateFromChunks]), the tokenizer
    ([matchUntil], [checkMatch], [matchNext]), the grammar parsers
    ([matchKey] ... [matchEntries], [decode]) and the encoder
    ([encodeValue] ... [encodeMap], [encode]).

    JavaScript data is modelled as the program has it:
    - a string is its sequence of UTF-16 code units ([jsstring]); iterating
      a string yields one string per code point ([string_iter]);
    - the generator handed to the parsers is a lazy sequence of characters
      that may end by raising ([stream]);
    - thrown errors are a result type ([completion]); loops and recursion that
      are not structural take fuel, and the theorems at the end show that
      the fuel chosen by [decode] and [encode] is always enough;
    - arrays and maps given to the encoder live in a store addressed by
      identity ([heap]), the in-progress WeakSet is threaded as state. *)

From Stdlib Require Import ZArith List Bool Lia String Ascii.
From stdpp Require Import base gmap list.
Import ListNotations.
Local Open Scope Z_scope.
Set Warnings "-register-all".

(** ** Strings of the platform *)

(** A JavaScript string: UTF-16 code units. *)
Abbreviation jsstring := (list Z) (only parsing).

(** A string literal of the source, for ASCII text. *)
Definition str (s : string) : jsstring :=
  map (fun a => Z.of_N (N_of_ascii a)) (list_ascii_of_string s).

Definition jsstring_eqb (a b : jsstring) : bool := bool_decide (a = b).

(** [s.length] *)
Definition jslength (s : jsstring) : Z := Z.of_nat (length s).

(** The string of the line feed. *)
Definition nl : jsstring := [10].

(** [array.join("")] on an array of strings. *)
Definition join (pieces : list jsstring) : jsstring := concat pieces.

(** [array.join(sep)] *)
Fixpoint join_with (sep : jsstring) (pieces : list jsstring) : jsstring :=
  match pieces with
  | [] => []
  | [p] => p
  | p :: rest => p ++ sep ++ join_with sep rest
  end.

Fixpoint is_prefix (p s : jsstring) : bool :=
  match p, s with
  | [], _ => true
  | _ :: _, [] => false
  | a :: p', b :: s' => (a =? b) && is_prefix p' s'
  end.

(** [s.includes(sub)]: [sub] occurs in [s] as a substring. *)
Fixpoint includes (s sub : jsstring) : bool :=
  is_prefix sub s ||
  match s with
  | [] => false
  | _ :: s' => includes s' sub
  end.

(** Code units matched by [\s] and removed by [trim]: WhiteSpace and
    LineTerminator of ECMAScript. *)
Definition is_space (u : Z) : bool :=
  ((9 <=? u) && (u <=? 13)) || (u =? 32) || (u =? 160) || (u =? 5760)
  || ((8192 <=? u) && (u <=? 8202)) || (u =? 8232) || (u =? 8233)
  || (u =? 8239) || (u =? 8287) || (u =? 12288) || (u =? 65279).

Fixpoint trimStart (s : jsstring) : jsstring :=
  match s with
  | u :: s' => if is_space u then trimStart s' else s
  | [] => []
  end.

Definition trimEnd (s : jsstring) : jsstring := rev (trimStart (rev s)).

(** [s.trim()] *)
Definition trim (s : jsstring) : jsstring := trimEnd (trimStart s).

Definition is_digit (u : Z) : bool := (48 <=? u) && (u <=? 57).
Definition is_upper (u : Z) : bool := (65 <=? u) && (u <=? 90).
Definition is_lower (u : Z) : bool := (97 <=? u) && (u <=? 122).

(** [s.match(/[class]/)] is not null: some code unit of [s] is in the class. *)
Definition matches (class : Z -> bool) (s : jsstring) : bool := existsb class s.

(** [s.search(/[class]/)]: index of the first code unit in the class. *)
Fixpoint search (class : Z -> bool) (s : jsstring) : option nat :=
  match s with
  | [] => None
  | u :: s' => if class u then Some O else S <$> search class s'
  end.

(** [s.toLowerCase()] on the ASCII text the program applies it to. *)
Definition toLowerCase (s : jsstring) : jsstring :=
  map (fun u => if is_upper u then u + 32 else u) s.

(** [s.toUpperCase()].  Besides the ASCII letters, the characters whose
    upper-case form is made of ASCII letters are mapped (dotless i, long s,
    sharp s and the Latin ligatures), so that comparing the result with an
    upper-case ASCII keyword is decided as the platform decides it; the
    upper-case forms of other characters contain a non-ASCII code unit and
    are left as they are. *)
Definition toUpperCase_unit (u : Z) : jsstring :=
  if is_lower u then [u - 32]
  else if u =? 305 then [73]
  else if u =? 383 then [83]
  else if u =? 223 then [83; 83]
  else if u =? 64256 then [70; 70]
  else if u =? 64257 then [70; 73]
  else if u =? 64258 then [70; 76]
  else if u =? 64259 then [70; 70; 73]
  else if u =? 64260 then [70; 70; 76]
  else if (u =? 64261) || (u =? 64262) then [83; 84]
  else [u].

Definition toUpperCase (s : jsstring) : jsstring :=
  concat (map toUpperCase_unit s).

(** [s.replace(/u/g, by)] for a one-unit pattern. *)
Definition replace_unit (u : Z) (by_ : jsstring) (s : jsstring) : jsstring :=
  concat (map (fun x => if x =? u then by_ else [x]) s).

(** [s.replace(/sep(\d{3})/g, "$1")]: every separator that is followed by
    three digits is dropped, scanning from the left and resuming after the
    digits. *)
Fixpoint strip_grouping (sep : Z) (s : jsstring) : jsstring :=
  match s with
  | [] => []
  | u :: tl =>
      match tl with
      | d1 :: d2 :: d3 :: rest =>
          if (u =? sep) && is_digit d1 && is_digit d2 && is_digit d3
          then d1 :: d2 :: d3 :: strip_grouping sep rest
          else u :: strip_grouping sep tl
      | _ => u :: strip_grouping sep tl
      end
  end.

Definition is_high_surrogate (u : Z) : bool := (55296 <=? u) && (u <=? 56319).
Definition is_low_surrogate (u : Z) : bool := (56320 <=? u) && (u <=? 57343).

(** Iterating a string ([yield* s], [...s]): one string per code point, a
    surrogate pair staying together. *)
Fixpoint string_iter (s : jsstring) : list jsstring :=
  match s with
  | [] => []
  | u :: tl =>
      match tl with
      | v :: rest =>
          if is_high_surrogate u && is_low_surrogate v
          then [u; v] :: string_iter rest
          else [u] :: string_iter tl
      | [] => [[u]]
      end
  end.

(** The decimal digits of a non-negative integer, most significant first. *)
Fixpoint digits_fuel (fuel : nat) (n : Z) (acc : jsstring) : jsstring :=
  match fuel with
  | O => acc
  | S fuel =>
      if n <? 10 then (48 + n) :: acc
      else digits_fuel fuel (n / 10) ((48 + n mod 10) :: acc)
  end.

Definition digits (n : Z) : jsstring :=
  digits_fuel (S (Z.to_nat (Z.log2 n))) n [].

(** [s.padStart(size, "0")] *)
Definition padStart0 (size : nat) (s : jsstring) : jsstring :=
  repeat 48 (size - length s)%nat ++ s.


(** ** Numbers

    A Number is NaN, an infinity or a finite value.  Finite values are kept
    as exact decimals [m * 10^e] in normal form ([m] has no trailing zero,
    zero is [Finite 0 0]), so that two numbers are equal exactly when their
    numeric values are: the rounding of IEEE-754 doubles to 53 bits, their
    overflow to Infinity and the sign of zero are left out of the model.
    The decimals of 15 significant digits at most, within the range of the
    doubles, are the numbers of the code: the double nearest to such a
    decimal is written as the decimal.  A decimal of more digits is kept as
    it is where the code rounds it: [Number] of 9007199254740993 is
    9007199254740992 in the code. *)

Inductive number :=
| NaN
| Infinity (negative : bool)
| Finite (m e : Z).

Fixpoint strip_zeros (fuel : nat) (m e : Z) : Z * Z :=
  match fuel with
  | O => (m, e)
  | S fuel => if m mod 10 =? 0 then strip_zeros fuel (m / 10) (e + 1) else (m, e)
  end.

(** The finite number [m * 10^e]. *)
Definition finite (m e : Z) : number :=
  if m =? 0 then Finite 0 0
  else let '(m', e') := strip_zeros (S (Z.to_nat (Z.log2 (Z.abs m)))) m e in
       Finite m' e'.

(** [sign * x] for [sign] in {1, -1}. *)
Definition number_times_sign (negative : bool) (x : number) : number :=
  match x with
  | NaN => NaN
  | Infinity n => Infinity (xorb negative n)
  | Finite m e => Finite (if negative then - m else m) e
  end.

(** [Number.isFinite(x)] *)
Definition isFinite (x : number) : bool :=
  match x with Finite _ _ => true | _ => false end.

(** [`${x}`]: Number::toString in radix 10. *)
Definition numberToString (x : number) : jsstring :=
  match x with
  | NaN => str "NaN"
  | Infinity negative => (if negative then str "-" else []) ++ str "Infinity"
  | Finite m e =>
      if m =? 0 then str "0"
      else
        let s := digits (Z.abs m) in
        let k := jslength s in
        let n := k + e in
        (if m <? 0 then str "-" else []) ++
        (if (k <=? n) && (n <=? 21) then s ++ repeat 48 (Z.to_nat (n - k))
         else if (0 <? n) && (n <=? 21)
              then take (Z.to_nat n) s ++ str "." ++ drop (Z.to_nat n) s
         else if (-6 <? n) && (n <=? 0)
              then str "0." ++ repeat 48 (Z.to_nat (- n)) ++ s
         else
           let exponent :=
             (if n - 1 <? 0 then str "-" else str "+") ++ digits (Z.abs (n - 1)) in
           match s with
           | [] => []
           | [d] => [d] ++ str "e" ++ exponent
           | d :: rest => [d] ++ str "." ++ rest ++ str "e" ++ exponent
           end)
  end.

(** [`${n}`] for an integer. *)
Definition intToString (n : Z) : jsstring :=
  (if n <? 0 then str "-" else []) ++ digits (Z.abs n).

Fixpoint span (p : Z -> bool) (s : jsstring) : jsstring * jsstring :=
  match s with
  | u :: s' => if p u then let '(a, b) := span p s' in (u :: a, b) else ([], s)
  | [] => ([], [])
  end.

Definition digit_value (u : Z) : Z :=
  if is_digit u then u - 48
  else if (97 <=? u) && (u <=? 102) then u - 87
  else u - 55.

Definition is_hex_digit (u : Z) : bool :=
  is_digit u || ((97 <=? u) && (u <=? 102)) || ((65 <=? u) && (u <=? 70)).
Definition is_octal_digit (u : Z) : bool := (48 <=? u) && (u <=? 55).
Definition is_binary_digit (u : Z) : bool := (48 <=? u) && (u <=? 49).

Definition radix_value (radix : Z) (ds : jsstring) : Z :=
  fold_left (fun acc d => acc * radix + digit_value d) ds 0.

Definition nonempty_all (p : Z -> bool) (s : jsstring) : bool :=
  match s with [] => false | _ => forallb p s end.

(** ExponentPart after its [e]: an optional sign and digits. *)
Definition parse_exponent (s : jsstring) : option Z :=
  let '(negative, ds) :=
    match s with
    | 43 :: r => (false, r)
    | 45 :: r => (true, r)
    | _ => (false, s)
    end in
  if nonempty_all is_digit ds
  then Some (if negative then - radix_value 10 ds else radix_value 10 ds)
  else None.

(** StrUnsignedDecimalLiteral *)
Definition parse_unsigned_decimal (s : jsstring) : option number :=
  if jsstring_eqb s (str "Infinity") then Some (Infinity false)
  else
    let '(int, r1) := span is_digit s in
    let '(frac, r2) :=
      match r1 with
      | 46 :: r => span is_digit r
      | _ => ([], r1)
      end in
    match int ++ frac with
    | [] => None
    | ds =>
        match r2 with
        | [] => Some (finite (radix_value 10 ds) (- jslength frac))
        | u :: r3 =>
            if (u =? 101) || (u =? 69)
            then x ← parse_exponent r3;
                 Some (finite (radix_value 10 ds) (x - jslength frac))
            else None
        end
    end.

(** NonDecimalIntegerLiteral: [0x], [0o] and [0b] literals. *)
Definition parse_non_decimal (s : jsstring) : option number :=
  match s with
  | 48 :: p :: ds =>
      if ((p =? 120) || (p =? 88)) && nonempty_all is_hex_digit ds
      then Some (finite (radix_value 16 ds) 0)
      else if ((p =? 111) || (p =? 79)) && nonempty_all is_octal_digit ds
      then Some (finite (radix_value 8 ds) 0)
      else if ((p =? 98) || (p =? 66)) && nonempty_all is_binary_digit ds
      then Some (finite (radix_value 2 ds) 0)
      else None
  | _ => None
  end.

(** [Number(s)]: StringToNumber, with the exact value of a decimal for the
    double nearest to it. *)
Definition Number (s : jsstring) : number :=
  match trim s with
  | [] => Finite 0 0
  | t =>
      match parse_non_decimal t with
      | Some x => x
      | None =>
          default NaN
            match t with
            | 43 :: r => parse_unsigned_decimal r
            | 45 :: r => number_times_sign true <$> parse_unsigned_decimal r
            | _ => parse_unsigned_decimal t
            end
      end
  end.

(** [Number.isNaN(x)] *)
Definition isNaN (x : number) : bool :=
  match x with NaN => true | _ => false end.

(** ToIntegerOrInfinity of a finite number: truncation towards zero. *)
Definition truncate (x : number) : Z :=
  match x with
  | Finite m e => if 0 <=? e then m * 10 ^ e else Z.quot m (10 ^ (- e))
  | _ => 0
  end.

(** [x * 1000] *)
Definition times_1000 (x : number) : number :=
  match x with
  | Finite m e => finite m (e + 3)
  | _ => x
  end.

(** ** Dates

    A Date holds a time value: milliseconds since the epoch, or NaN for an
    invalid Date.  The local time zone is the environment's: it enters the
    codec through ECMAScript's [LocalTZA], here in minutes. *)

Inductive date :=
| InvalidDate
| Date (t : Z).

Definition msPerDay : Z := 86400000.

(** Day number of the civil date [y]-[m]-[d], [m] from 1 to 12. *)
Definition days_from_civil (y m d : Z) : Z :=
  let y' := if m <=? 2 then y - 1 else y in
  let era := y' / 400 in
  let yoe := y' - era * 400 in
  let doy := (153 * (if 2 <? m then m - 3 else m + 9) + 2) / 5 + d - 1 in
  let doe := yoe * 365 + yoe / 4 - yoe / 100 + doy in
  era * 146097 + doe - 719468.

(** Civil date (year, month from 1 to 12, day) of a day number. *)
Definition civil_from_days (z : Z) : Z * Z * Z :=
  let z := z + 719468 in
  let era := z / 146097 in
  let doe := z - era * 146097 in
  let yoe := (doe - doe / 1460 + doe / 36524 - doe / 146096) / 365 in
  let doy := doe - (365 * yoe + yoe / 4 - yoe / 100) in
  let mp := (5 * doy + 2) / 153 in
  let d := doy - (153 * mp + 2) / 5 + 1 in
  let m := if mp <? 10 then mp + 3 else mp - 9 in
  (if m <=? 2 then yoe + era * 400 + 1 else yoe + era * 400, m, d).

(** MakeDay(year, month, date), [month] counted from 0 and of any size. *)
Definition MakeDay (year month date : Z) : Z :=
  days_from_civil (year + month / 12) (month mod 12 + 1) 1 + date - 1.

(** MakeTime(hour, min, sec, ms) *)
Definition MakeTime (h min s ms : Z) : Z :=
  h * 3600000 + min * 60000 + s * 1000 + ms.

(** The year argument of the Date constructor and of [Date.UTC]: years 0 to
    99 stand for 1900 to 1999. *)
Definition full_year (year : Z) : Z :=
  if (0 <=? year) && (year <=? 99) then 1900 + year else year.

(** [Date.UTC(year, month, day, h, min, s, ms)] *)
Definition Date_UTC (year month day h min s ms : Z) : Z :=
  MakeDay (full_year year) month day * msPerDay + MakeTime h min s ms.

Definition getUTCFullYear (t : Z) : Z := (civil_from_days (t / msPerDay)).1.1.
Definition getUTCMonth (t : Z) : Z := (civil_from_days (t / msPerDay)).1.2 - 1.
Definition getUTCDate (t : Z) : Z := (civil_from_days (t / msPerDay)).2.
Definition getUTCHours (t : Z) : Z := (t mod msPerDay) / 3600000.
Definition getUTCMinutes (t : Z) : Z := (t mod 3600000) / 60000.
Definition getUTCSeconds (t : Z) : Z := (t mod 60000) / 1000.
Definition getUTCMilliseconds (t : Z) : Z := t mod 1000.

Example numberToString_ex :
  map numberToString
    [Finite 15 (-1); Finite 1 21; Finite 1 20; Finite 1 (-7); Finite (-123) (-5);
     Finite 0 0; Infinity true; NaN; Finite 123456 17]
  = [str "1.5"; str "1e+21"; str "100000000000000000000"; str "1e-7";
     str "-0.00123"; str "0"; str "-Infinity"; str "NaN"; str "1.23456e+22"].
Proof. vm_compute. reflexivity. Qed.

Example Number_ex :
  map Number [str "1.50"; str " 12 "; str "0x1F"; str "1e3"; str ".5"; str "."; str "";
              str "-Infinity"; str "12a"; str "1.e-2"; str "000"]
  = [Finite 15 (-1); Finite 12 0; Finite 31 0; Finite 1 3; Finite 5 (-1); NaN; Finite 0 0;
     Infinity true; NaN; Finite 1 (-2); Finite 0 0].
Proof. vm_compute. reflexivity. Qed.

Example date_ex :
  Date_UTC 2026 10 2 8 22 0 0 = 1793607720000
  /\ civil_from_days (1793607720000 / msPerDay) = (2026, 11, 2)
  /\ Date_UTC 1970 0 1 0 0 0 0 = 0
  /\ civil_from_days (-1) = (1969, 12, 31)
  /\ Date_UTC 2000 1 29 0 0 0 0 = 951782400000.
Proof. vm_compute. auto. Qed.

(** ** The value model *)

(** Values of a decoded document.  The decoder builds fresh arrays and maps
    that nothing else refers to, so they are kept by value; a Table is the
    Map's entries in insertion order. *)
Inductive dvalue :=
| DString (s : jsstring)
| DNumber (n : number)
| DDate (d : date)
| DBool (b : bool)
| DNull
| DArray (items : list dvalue)
| DMap (entries : list (jsstring * dvalue)).

Abbreviation table := (list (list Z * dvalue)) (only parsing).

(** [map.set(key, value)]: an existing key keeps its position. *)
Fixpoint map_set (key : jsstring) (value : dvalue) (map : table) : table :=
  match map with
  | [] => [(key, value)]
  | (k, v) :: map' =>
      if jsstring_eqb k key then (key, value) :: map'
      else (k, v) :: map_set key value map'
  end.

(** [map.get(key)] *)
Fixpoint map_get (key : jsstring) (map : table) : option dvalue :=
  match map with
  | [] => None
  | (k, v) :: map' => if jsstring_eqb k key then Some v else map_get key map'
  end.

(** Values handed to the encoder.  Arrays and maps are objects with an
    identity: a value refers to them by their address in the store. *)
Abbreviation loc := nat (only parsing).

Inductive jvalue :=
| JUndefined
| JNull
| JBool (b : bool)
| JString (s : jsstring)
| JNumber (n : number)
| JDate (d : date)
| JRef (l : loc)
| JFunction.

(** An object of the store: an array-like value with its elements in
    iteration order (Array, typed array, ArrayBuffer, Set), or a Map or
    plain object with the entries [iterOverMap] yields. *)
Inductive object :=
| OArray (items : list jvalue)
| OMap (entries : list (jvalue * jvalue)).

Abbreviation heap := (gmap nat object) (only parsing).

(** ** Errors *)

(** The message of a ConfigError.  Messages that quote a string are built
    in full; those that quote an object through [repr] keep the object. *)
Inductive message :=
| Text (text : jsstring)
| CircularReference (input : loc)
| InvalidInputType (input : loc)
| InvalidKeyType (key : jvalue)
| Unimplemented (input : jvalue).

Inductive error :=
| ConfigError (m : message)
| TypeError.

Inductive completion (A : Type) :=
| Ok (a : A)
| Throw (e : error)
| OutOfFuel.
Arguments Ok {A} a.
Arguments Throw {A} e.
Arguments OutOfFuel {A}.

#[global] Instance completion_ret : MRet completion := fun A a => Ok a.
#[global] Instance completion_bind : MBind completion := fun A B f m =>
  match m with
  | Ok a => f a
  | Throw e => Throw e
  | OutOfFuel => OutOfFuel
  end.

Definition throw {A} (text : jsstring) : completion A := Throw (ConfigError (Text text)).

(** ** Character source adapter *)

(** The generator the parsers pull characters from: it yields a character,
    is done, or raises (a TypeError of the platform). *)
Inductive stream :=
| SDone
| SThrow
| SYield (character : jsstring) (rest : stream).

(** [yield* characters], then the rest. *)
Fixpoint yield_all (characters : list jsstring) (rest : stream) : stream :=
  match characters with
  | [] => rest
  | c :: characters => SYield c (yield_all characters rest)
  end.

Fixpoint stream_length (characters : stream) : nat :=
  match characters with
  | SYield _ rest => S (stream_length rest)
  | _ => O
  end.

(** [generateFrom(value)] for a string. *)
Definition generateFrom (value : jsstring) : stream :=
  yield_all (string_iter value) SDone.

(** [repr(value, {maxLength})] of a string. *)
Definition repr (value : jsstring) (maxLength : Z) : jsstring :=
  let value := [171; 8239] ++ value ++ [8239; 187] in
  let value := replace_unit 92 [92; 92] value in
  let value := replace_unit 13 [92; 114] value in
  let value := replace_unit 10 [92; 110] value in
  let value := replace_unit 9 [92; 116] value in
  let value := replace_unit 12 [92; 102] value in
  let value := replace_unit 11 [92; 118] value in
  let over := jslength value - maxLength in
  if 0 <? over
  then take (Z.to_nat maxLength) value ++ [8230] ++ str " [+" ++ intToString over
       ++ str "]" ++ [8239; 187]
  else value.

(** ** Tokenizer *)

(** "=\n;,()[]{}#" *)
Definition DELIMITERS : jsstring := [61; 10; 59; 44; 40; 41; 91; 93; 123; 125; 35].

Fixpoint matchUntil_loop (characters : stream) (delimiters : jsstring) (endOfInput : bool)
    (result : list jsstring) (isEscaped : bool) : completion (jsstring * jsstring * stream) :=
  match characters with
  | SYield character characters =>
      if isEscaped
      then matchUntil_loop characters delimiters endOfInput (result ++ [character]) false
      else if jsstring_eqb character [92]
      then matchUntil_loop characters delimiters endOfInput result true
      else if includes delimiters character
      then Ok (join result, character, characters)
      else matchUntil_loop characters delimiters endOfInput (result ++ [character]) false
  | SDone =>
      if endOfInput then Ok (join result, [], SDone)
      else throw (if (length delimiters =? 1)%nat
                  then str "delimiter " ++ repr delimiters 60
                       ++ str " expected but end of input reached"
                  else str "delimiter expected but end of input reached")
  | SThrow => Throw TypeError
  end.

(** [matchUntil(characters, delimiters, {endOfInput, start})]: the text read,
    the delimiter reached ("" at the end of input) and the generator. *)
Definition matchUntil (characters : stream) (delimiters : jsstring) (endOfInput : bool)
    (start : jsstring) : completion (jsstring * jsstring * stream) :=
  matchUntil_loop (match start with [] => characters | _ => SYield start characters end)
    delimiters endOfInput [] false.

Inductive token_class :=
| KEY | VALUE | LIST_DIVIDER | LIST_DELIMITER | NEW_LINE | END_OF_INPUT | UNKNOWN.

#[global] Instance token_class_eq_dec : EqDecision token_class.
Proof. solve_decision. Defined.

Definition class_name (type : token_class) : jsstring :=
  match type with
  | KEY => str "KEY"
  | VALUE => str "VALUE"
  | LIST_DIVIDER => str "LIST_DIVIDER"
  | LIST_DELIMITER => str "LIST_DELIMITER"
  | NEW_LINE => str "NEW_LINE"
  | END_OF_INPUT => str "END_OF_INPUT"
  | UNKNOWN => str "UNKNOWN"
  end.

(** [checkMatch(expected, characters, character, type)] *)
Definition checkMatch (expected : list token_class) (characters : stream)
    (character : jsstring) (type : token_class) : completion unit :=
  if bool_decide (type ∈ expected) then Ok tt
  else
    let names := map class_name expected in
    let expected :=
      if (1 <? length names)%nat
      then join_with (str ", ") (removelast names) ++ str " or " ++ default [] (last names)
      else join_with (str ",") names in
    let expected := toLowerCase (replace_unit 95 [32] expected) in
    let type := toLowerCase (replace_unit 95 [32] (class_name type)) in
    '(reached, _, _) ← matchUntil characters [35; 10] true character;
    let reached := trim reached in
    let message :=
      if jsstring_eqb type (str "unknown") then repr reached 20 ++ str " reached"
      else if jsstring_eqb reached [] then type ++ str " reached"
      else type ++ str " " ++ repr reached 20 ++ str " reached" in
    throw (expected ++ str " expected but " ++ message).

(** What a grammar call returns: [[value, end, type]].  A key, and the
    empty text of a divider, a delimiter or a line end, are strings. *)
Record entry := Entry {
  entry_value : dvalue;
  entry_end : jsstring;
  entry_type : token_class
}.

(** [entry[0]] used as a key. *)
Definition entry_key (e : entry) : jsstring :=
  match entry_value e with
  | DString s => s
  | _ => []
  end.

Inductive key_level := FIRST_LEVEL | HIGHER_LEVEL.

(** [matchKey(characters, start, level)] *)
Definition matchKey (characters : stream) (start : jsstring) (level : key_level)
    : completion (entry * stream) :=
  '(match0, match1, characters) ← matchUntil characters DELIMITERS true [];
  '(match0, start) ←
    (if jsstring_eqb start [91] then
       let key := start ++ trim match0 ++ match1 in
       match level with
       | HIGHER_LEVEL =>
           throw (str "key " ++ repr key 60 ++ str " invalid "
                  ++ str "(repr([...]) syntax only at first level)")
       | FIRST_LEVEL =>
           if negb (jsstring_eqb match1 [93]) then
             '(reached, _, _) ← matchUntil characters [35; 10] true match1;
             throw (str "key " ++ repr key 60 ++ str " invalid "
                    ++ str "(" ++ repr [93] 60 ++ str " expected but "
                    ++ repr (trim reached) 20 ++ str " reached")
           else Ok (match0, start)
       end
     else Ok (trim (start ++ match0), []));
  match match0 with
  | [] => throw (str "key " ++ repr (start ++ match1) 60 ++ str " invalid (blank)")
  | _ => Ok (Entry (DString match0) match1 KEY, characters)
  end.

(** [matchString(characters, delimiter)] *)
Definition matchString (characters : stream) (delimiter : jsstring)
    : completion (entry * stream) :=
  '(match0, _, characters) ← matchUntil characters delimiter false [];
  Ok (Entry (DString match0) [] VALUE, characters).

Definition ascii_upper (s : jsstring) : jsstring :=
  map (fun u => if is_lower u then u - 32 else u) s.

(** [s.match(/^(k1|k2|...)$/i)] is not null. *)
Definition is_keyword_i (keywords : list jsstring) (s : jsstring) : bool :=
  bool_decide (ascii_upper s ∈ keywords).

(** ** Grammar parsers *)

(** [\d{n}] at the head of [s]: the digits and what follows them. *)
Definition take_digits (n : nat) (s : jsstring) : option (jsstring * jsstring) :=
  let d := take n s in
  if (length d =? n)%nat && forallb is_digit d then Some (d, drop n s) else None.

(** [ *] at the head of [s]: what follows the spaces. *)
Definition skip_spaces (s : jsstring) : jsstring := (span (Z.eqb 32) s).2.

(** What [matchDate] reads from a match of its pattern: the three fields of
    the date, the fields of the time (the seconds with their fraction), the
    fraction alone, and the offset with its sign. *)
Record date_match := DateMatch {
  dm_year : jsstring; dm_month : jsstring; dm_day : jsstring;
  dm_time : option (jsstring * jsstring * option jsstring);
  dm_fractional : option jsstring;
  dm_offset : option jsstring
}.

(** [(\d{4}-\d{2}-\d{2}|\d{4}/\d{2}/\d{2})] *)
Definition match_datePattern (s : jsstring)
    : option (jsstring * jsstring * jsstring * jsstring) :=
  '(y, s) ← take_digits 4 s;
  match s with
  | sep :: s =>
      if (sep =? 45) || (sep =? 47) then
        '(m, s) ← take_digits 2 s;
        match s with
        | sep' :: s =>
            if sep' =? sep
            then '(d, s) ← take_digits 2 s; Some (y, m, d, s)
            else None
        | [] => None
        end
      else None
  | [] => None
  end.

(** [(\d{2}:\d{2}(:\d{2}(\.\d+)?)?)], the longest match: the text after a
    shorter match starts with a digit, a colon or a dot, which the rest of
    the pattern never accepts. *)
Definition match_timePattern (s : jsstring)
    : option (jsstring * jsstring * option jsstring * option jsstring * jsstring) :=
  '(h, s1) ← take_digits 2 s;
  match s1 with
  | 58 :: s2 =>
      '(min, s3) ← take_digits 2 s2;
      match (match s3 with 58 :: s4 => take_digits 2 s4 | _ => None end) with
      | Some (sec, s5) =>
          match s5 with
          | 46 :: s6 =>
              match span is_digit s6 with
              | ([], _) => Some (h, min, Some sec, None, s5)
              | (fraction, s7) =>
                  Some (h, min, Some (sec ++ [46] ++ fraction), Some (46 :: fraction), s7)
              end
          | _ => Some (h, min, Some sec, None, s5)
          end
      | None => Some (h, min, None, None, s3)
      end
  | _ => None
  end.

(** [ *(?:UTC)? *([+-] *(?:\d{2}:\d{2}|\d{1,2}))?$], case-insensitive: the
    offset, if the whole of [s] matches. *)
Definition match_offsetPattern (s : jsstring) : option (option jsstring) :=
  let s := skip_spaces s in
  let s := if jsstring_eqb (ascii_upper (take 3 s)) (str "UTC") then drop 3 s else s in
  let s := skip_spaces s in
  match s with
  | [] => Some None
  | sign :: r =>
      if (sign =? 43) || (sign =? 45) then
        let r := skip_spaces r in
        let colon_form :=
          match take_digits 2 r with
          | Some (_, 58 :: r') =>
              match take_digits 2 r' with Some (_, []) => true | _ => false end
          | _ => false
          end in
        let short_form := forallb is_digit r && (1 <=? length r)%nat && (length r <=? 2)%nat in
        if colon_form || short_form then Some (Some s) else None
      else None
  end.

(** [raw.match(regex)] for the pattern of [matchDate]. *)
Definition match_date_regex (raw : jsstring) : option date_match :=
  '(y, m, d, s) ← match_datePattern raw;
  let s :=
    match s with
    | u :: s' => if (u =? 84) || (u =? 116) then s' else skip_spaces s
    | [] => []
    end in
  let '(time, fractional, s) :=
    match match_timePattern s with
    | Some (h, min, sec, fractional, s') => (Some (h, min, sec), fractional, s')
    | None => (None, None, s)
    end in
  offset ← match_offsetPattern s;
  Some (DateMatch y m d time fractional offset).

(** [x > n] for a number and an integer. *)
Definition number_gt (x : number) (n : Z) : bool :=
  match x with
  | NaN => false
  | Infinity negative => negb negative
  | Finite m e => if 0 <=? e then n <? m * 10 ^ e else n * 10 ^ (- e) <? m
  end.

(** [text.split(":")] for [offset.slice(1)]. *)
Definition split_colon (s : jsstring) : jsstring * option jsstring :=
  match span (fun u => negb (u =? 58)) s with
  | (a, _ :: b) => (a, Some b)
  | (a, []) => (a, None)
  end.

Section Codec.

(** ECMAScript's LocalTZA(t, isUTC) of the environment, in minutes. *)
Variable LocalTZA : Z -> bool -> Z.

(** [new Date(year, month, day, h, min, s, ms).getTime()] *)
Definition Date_local (year month day h min s ms : Z) : Z :=
  let t := Date_UTC year month day h min s ms in
  t - LocalTZA t false * 60000.

(** [date.getTimezoneOffset()] *)
Definition getTimezoneOffset (t : Z) : Z := - LocalTZA t true.

(** [matchDate(raw, end)] *)
Definition matchDate (raw end_ : jsstring) : completion entry :=
  match match_date_regex raw with
  | None => throw (str "date " ++ repr raw 60 ++ str " invalid")
  | Some m =>
      let year := Number (dm_year m) in
      let month := Number (dm_month m) in
      let day := Number (dm_day m) in
      let '(h, min, s) :=
        match dm_time m with
        | Some (h, min, s) => (Number h, Number min, from_option Number (Finite 0 0) s)
        | None => (Finite 0 0, Finite 0 0, Finite 0 0)
        end in
      if number_gt month 12 || number_gt day 31 || number_gt h 24
         || number_gt min 60 || number_gt s 60
      then throw (str "date " ++ repr raw 60 ++ str " invalid")
      else
        let ms := times_1000 (Number (str "0" ++ default (str ".0") (dm_fractional m))) in
        let dateObject :=
          Date_local (truncate year) (truncate month - 1) (truncate day)
            (truncate h) (truncate min) (truncate s) (truncate ms) in
        let dateObject :=
          match dm_offset m with
          | Some offset =>
              let '(hOffset, minOffset) := split_colon (drop 1 offset) in
              let msOffset :=
                (truncate (Number hOffset) * 60
                 + from_option (fun x => truncate (Number x)) 0 minOffset) * 60 * 1000 in
              let msOffset :=
                if jsstring_eqb (take 1 offset) [45] then - msOffset else msOffset in
              Date_UTC (truncate year) (truncate month - 1) (truncate day)
                (truncate h) (truncate min) (truncate s) (truncate ms) - msOffset
          | None => dateObject
          end in
        Ok (Entry (DDate (Date dateObject)) end_ VALUE)
  end.

(** The class [[-+:/utc]] of [matchNumber], case-insensitive. *)
Definition is_date_character (u : Z) : bool :=
  (u =? 45) || (u =? 43) || (u =? 58) || (u =? 47)
  || (u =? 117) || (u =? 116) || (u =? 99) || (u =? 85) || (u =? 84) || (u =? 67).

(** The rest of [matchNumber] once the text is known not to be a date. *)
Definition parseNumber (negative : bool) (raw end_ : jsstring) : completion entry :=
  let raw := strip_grouping 32 (strip_grouping 95 raw) in
  if is_keyword_i [str "NA"; str "NAN"; str "N/A"] raw
  then Ok (Entry (DNumber (number_times_sign negative NaN)) end_ VALUE)
  else if is_keyword_i [str "INF"; str "INFINITY"] raw
  then Ok (Entry (DNumber (number_times_sign negative (Infinity false))) end_ VALUE)
  else
    let number := Number raw in
    if isNaN number then throw (str "number " ++ repr raw 60 ++ str " invalid")
    else Ok (Entry (DNumber (number_times_sign negative number)) end_ VALUE).

(** The text [matchNumber] examines: the start character unless it is a
    sign, then what was read, trimmed. *)
Definition number_raw (start raw : jsstring) : jsstring :=
  trim ((if jsstring_eqb start [45] || jsstring_eqb start [43] then [] else start) ++ raw).

(** [matchNumber(characters, start)] *)
Definition matchNumber (characters : stream) (start : jsstring)
    : completion (entry * stream) :=
  '(raw, end_, characters) ← matchUntil characters DELIMITERS true [];
  let negative := jsstring_eqb start [45] in
  let raw := number_raw start raw in
  e ← (if bool_decide (is_Some (search is_date_character raw))
       then matchDate raw end_
       else parseNumber negative raw end_);
  Ok (e, characters).

(** [matchKeyword(characters, start)] *)
Definition matchKeyword (characters : stream) (start : jsstring)
    : completion (entry * stream) :=
  '(raw, end_, characters) ← matchUntil characters DELIMITERS true [];
  let raw := trim (start ++ raw) in
  let name := toUpperCase raw in
  let keyword :=
    if jsstring_eqb name (str "TRUE") then Some (DBool true)
    else if jsstring_eqb name (str "FALSE") then Some (DBool false)
    else if jsstring_eqb name (str "NULL") then Some DNull
    else if jsstring_eqb name (str "INF") || jsstring_eqb name (str "INFINITY")
    then Some (DNumber (Infinity false))
    else if jsstring_eqb name (str "NA") || jsstring_eqb name (str "NAN")
            || jsstring_eqb name (str "N/A")
    then Some (DNumber NaN)
    else None in
  match keyword with
  | Some keyword => Ok (Entry keyword end_ VALUE, characters)
  | None => throw (str "keyword " ++ repr raw 60 ++ str " invalid")
  end.

(** [characters.next()] *)
Definition next (characters : stream) : completion (option jsstring * stream) :=
  match characters with
  | SYield c rest => Ok (Some c, rest)
  | SDone => Ok (None, SDone)
  | SThrow => Throw TypeError
  end.

(** The message of a delimiter that is not the one awaited:
    [`${what} expected but ${repr(reached, {maxLength: 20})} reached`]
    with the rest of the line from [found] on. *)
Definition unexpected_delimiter {A} (what : jsstring) (characters : stream)
    (found : jsstring) (suffix : jsstring) : completion A :=
  '(reached, _, _) ← matchUntil characters [35; 10] true found;
  throw (what ++ str "expected but " ++ repr (trim reached) 20 ++ str " reached" ++ suffix).

(** [{"[": "]", "(": ")"}[delimiter]], undefined for another string. *)
Definition closing_delimiter (delimiter : jsstring) : option jsstring :=
  if jsstring_eqb delimiter [91] then Some [93]
  else if jsstring_eqb delimiter [40] then Some [41]
  else None.

(** [matchNext], [matchArray] and [matchMap] call each other, and each is
    a loop.  The body of each function is written first, with the functions
    it calls (itself, for the next turn of its loop) as its first arguments;
    the loops of [matchArray] and [matchMap] are functions of the variables
    they update.  The functions are then defined together by recursion on
    fuel: every call and every turn of a loop takes one unit.  The [options]
    argument (an extended Map, which stores entries as a Map does) is left
    out. *)
Definition matchNext_type : Type :=
  stream -> list token_class -> option key_level -> jsstring -> bool ->
  completion (entry * stream).
Definition matchArray_type : Type :=
  stream -> option jsstring -> list dvalue -> jsstring -> list token_class ->
  completion (entry * stream).
Definition matchMap_type : Type :=
  stream -> table -> jsstring -> list token_class -> completion (entry * stream).

(** [matchNext(characters, {expected, entryKey, start, newLine})] *)
Definition matchNext_body (matchNext : matchNext_type) (matchArray : matchArray_type)
    (matchMap : matchMap_type) : matchNext_type :=
  fun characters expected entryKey start newLine =>
  '(start, characters) ←
    match start with [] => next characters | _ => Ok (Some start, characters) end;
  match start with
  | None =>
      _ ← checkMatch expected characters [] END_OF_INPUT;
      Ok (Entry (DString []) [] END_OF_INPUT, characters)
  | Some start =>
      if matches (fun u => (u =? 10) || (u =? 35)) start then
        _ ← checkMatch expected characters start NEW_LINE;
        characters ←
          (if matches (Z.eqb 35) start
           then '(_, _, characters) ← matchUntil characters [10] true []; Ok characters
           else Ok characters);
        if newLine then Ok (Entry (DString []) [10] NEW_LINE, characters)
        else matchNext characters expected entryKey [] newLine
      else if matches is_space start then
        matchNext characters expected entryKey [] newLine
      else if matches (Z.eqb 44) start then
        _ ← checkMatch expected characters start LIST_DIVIDER;
        Ok (Entry (DString []) start LIST_DIVIDER, characters)
      else if matches (fun u => (u =? 93) || (u =? 41) || (u =? 125)) start then
        _ ← checkMatch expected characters start LIST_DELIMITER;
        Ok (Entry (DString []) start LIST_DELIMITER, characters)
      else
        match entryKey with
        | Some level =>
            _ ← checkMatch expected characters start KEY;
            matchKey characters start level
        | None =>
            if matches (fun u => (u =? 39) || (u =? 34)) start then
              _ ← checkMatch expected characters start VALUE;
              matchString characters start
            else if matches (fun u => is_digit u || (u =? 46) || (u =? 43) || (u =? 45))
                      start then
              _ ← checkMatch expected characters start VALUE;
              matchNumber characters start
            else if matches (fun u => is_lower u || is_upper u || (u =? 95)) start then
              _ ← checkMatch expected characters start VALUE;
              matchKeyword characters start
            else if matches (fun u => (u =? 91) || (u =? 40)) start then
              _ ← checkMatch expected characters start VALUE;
              matchArray characters (closing_delimiter start)
                [] [] [VALUE; LIST_DELIMITER; NEW_LINE]
            else if matches (Z.eqb 123) start then
              _ ← checkMatch expected characters start VALUE;
              matchMap characters [] [] [KEY; LIST_DELIMITER; NEW_LINE]
            else
              _ ← checkMatch expected characters start UNKNOWN;
              Throw TypeError
        end
  end.

(** [matchArray(characters, delimiter)], from the state [result], [start],
    [expected] of its loop; [delimiter] is the closing one. *)
Definition matchArray_body (matchNext : matchNext_type) (matchArray : matchArray_type)
    : matchArray_type :=
  fun characters delimiter result start expected =>
  '(entry, characters) ← matchNext characters expected None start false;
  match entry_type entry with
  | VALUE =>
      matchArray characters delimiter (result ++ [entry_value entry])
        (entry_end entry) [LIST_DIVIDER; LIST_DELIMITER; NEW_LINE]
  | LIST_DIVIDER =>
      matchArray characters delimiter result [] [VALUE; LIST_DELIMITER; NEW_LINE]
  | _ =>
      if bool_decide (Some (entry_end entry) = delimiter)
      then Ok (Entry (DArray result) [] VALUE, characters)
      else unexpected_delimiter
             (str "end of array "
              ++ from_option (fun d => repr d 60) (str "undefined [undefined]") delimiter
              ++ str " ")
             characters (entry_end entry) []
  end.

(** [matchMap(characters)], from the state of its loop. *)
Definition matchMap_body (matchNext : matchNext_type) (matchMap : matchMap_type)
    : matchMap_type :=
  fun characters result start expected =>
  '(entryKey, characters) ← matchNext characters expected (Some HIGHER_LEVEL) start false;
  match entry_type entryKey with
  | LIST_DIVIDER =>
      matchMap characters result [] [KEY; LIST_DELIMITER; NEW_LINE]
  | LIST_DELIMITER =>
      if jsstring_eqb (entry_end entryKey) [125]
      then Ok (Entry (DMap result) [] VALUE, characters)
      else unexpected_delimiter (str "end of map " ++ repr [125] 60 ++ str " ")
             characters (entry_end entryKey) []
  | _ =>
      if negb (jsstring_eqb (entry_end entryKey) [61])
      then unexpected_delimiter (str "assignment character " ++ repr [61] 60 ++ str " ")
             characters (entry_end entryKey) []
      else
        '(entryValue, characters) ← matchNext characters [VALUE] None [] false;
        matchMap characters
          (map_set (entry_key entryKey) (entry_value entryValue) result)
          (entry_end entryValue) [LIST_DIVIDER; LIST_DELIMITER; NEW_LINE]
  end.

Fixpoint matchNext (fuel : nat) (characters : stream) (expected : list token_class)
    (entryKey : option key_level) (start : jsstring) (newLine : bool) {struct fuel}
    : completion (entry * stream) :=
  match fuel with
  | O => OutOfFuel
  | S fuel =>
      matchNext_body (matchNext fuel) (matchArray fuel) (matchMap fuel)
        characters expected entryKey start newLine
  end
with matchArray (fuel : nat) (characters : stream) (delimiter : option jsstring)
    (result : list dvalue) (start : jsstring) (expected : list token_class) {struct fuel}
    : completion (entry * stream) :=
  match fuel with
  | O => OutOfFuel
  | S fuel =>
      matchArray_body (matchNext fuel) (matchArray fuel)
        characters delimiter result start expected
  end
with matchMap (fuel : nat) (characters : stream) (result : table) (start : jsstring)
    (expected : list token_class) {struct fuel} : completion (entry * stream) :=
  match fuel with
  | O => OutOfFuel
  | S fuel =>
      matchMap_body (matchNext fuel) (matchMap fuel) characters result start expected
  end.

(** What the catch clause of [matchEntries] rethrows: a ConfigError with
    the entry appended to its message, any other error as it is. *)
Definition at_entry {A} (key : jsstring) (c : completion A) : completion A :=
  match c with
  | Throw (ConfigError (Text message)) =>
      Throw (ConfigError (Text (message ++ str " at entry " ++ repr key 60)))
  | _ => c
  end.

(** The body of the try block of [matchEntries]: the value of an entry and
    the end of its line. *)
Definition matchEntryValue (matchNext : matchNext_type) (characters : stream)
    : completion (entry * stream) :=
  '(entryValue, characters) ← matchNext characters [VALUE] None [] false;
  if negb (jsstring_eqb (entry_end entryValue) [10]) then
    '(_, characters) ←
      matchNext characters [NEW_LINE; END_OF_INPUT] None (entry_end entryValue) true;
    Ok (entryValue, characters)
  else Ok (entryValue, characters).

(** [target.set(key, value)].  [target] is [result] itself or the Map of
    the section last opened, which [result] holds under the section's key:
    the write is seen through [result]. *)
Definition target_set (target : option (jsstring * table)) (key : jsstring)
    (value : dvalue) (result : table) : table * option (jsstring * table) :=
  match target with
  | None => (map_set key value result, None)
  | Some (section, entries) =>
      let entries := map_set key value entries in
      (map_set section (DMap entries) result, Some (section, entries))
  end.

Definition matchEntries_type : Type :=
  stream -> table -> option (jsstring * table) -> completion table.

(** A turn of the loop of [matchEntries], from its state [result],
    [target]. *)
Definition matchEntries_body (matchNext : matchNext_type)
    (matchEntries : matchEntries_type) : matchEntries_type :=
  fun characters result target =>
  '(entryKey, characters) ←
    matchNext characters [KEY; NEW_LINE; END_OF_INPUT] (Some FIRST_LEVEL) [] false;
  if bool_decide (entry_type entryKey = END_OF_INPUT) then Ok result
  else if jsstring_eqb (entry_end entryKey) [93] then
    matchEntries characters
      (map_set (entry_key entryKey) (DMap []) result) (Some (entry_key entryKey, []))
  else if negb (jsstring_eqb (entry_end entryKey) [61]) then
    unexpected_delimiter (str "assignment character " ++ repr [61] 60 ++ str " ")
      characters (entry_end entryKey)
      (str " at entry " ++ repr (entry_key entryKey) 60)
  else
    '(entryValue, characters) ←
      at_entry (entry_key entryKey) (matchEntryValue matchNext characters);
    let '(result, target) :=
      target_set target (entry_key entryKey) (entry_value entryValue) result in
    matchEntries characters result target.

Fixpoint matchEntries_loop (fuel : nat) (characters : stream) (result : table)
    (target : option (jsstring * table)) {struct fuel} : completion table :=
  match fuel with
  | O => OutOfFuel
  | S fuel =>
      matchEntries_body (matchNext fuel) (matchEntries_loop fuel) characters result target
  end.

(** Fuel for a whole input: two units for each character and three more. *)
Definition decode_fuel (characters : stream) : nat :=
  (2 * stream_length characters + 3)%nat.

(** [matchEntries(characters)] *)
Definition matchEntries (characters : stream) : completion table :=
  matchEntries_loop (decode_fuel characters) characters [] None.

End Codec.

(** ** The incremental UTF-8 decoder of the platform

    [new TextDecoder("utf-8")] with its default options: malformed input is
    replaced by U+FFFD, a byte order mark at the start is dropped.  The
    state kept between [decode(chunk, {stream: true})] calls is the state of
    the UTF-8 decoder of the Encoding standard and its BOM-seen flag. *)

Record utf8_decoder := Utf8Decoder {
  code_point : Z;
  bytes_seen : Z;
  bytes_needed : Z;
  lower_boundary : Z;
  upper_boundary : Z
}.

Definition utf8_initial : utf8_decoder := Utf8Decoder 0 0 0 0x80 0xBF.

(** The decoder's handler on a byte when no bytes are awaited: the new
    state and the code points emitted. *)
Definition utf8_lead (byte : Z) : utf8_decoder * list Z :=
  if (0 <=? byte) && (byte <=? 0x7F) then (utf8_initial, [byte])
  else if (0xC2 <=? byte) && (byte <=? 0xDF)
  then (Utf8Decoder (Z.land byte 0x1F) 0 1 0x80 0xBF, [])
  else if (0xE0 <=? byte) && (byte <=? 0xEF)
  then (Utf8Decoder (Z.land byte 0xF) 0 2
          (if byte =? 0xE0 then 0xA0 else 0x80) (if byte =? 0xED then 0x9F else 0xBF), [])
  else if (0xF0 <=? byte) && (byte <=? 0xF4)
  then (Utf8Decoder (Z.land byte 0x7) 0 3
          (if byte =? 0xF0 then 0x90 else 0x80) (if byte =? 0xF4 then 0x8F else 0xBF), [])
  else (utf8_initial, [0xFFFD]).

(** The handler on a byte. *)
Definition utf8_handler (d : utf8_decoder) (byte : Z) : utf8_decoder * list Z :=
  if bytes_needed d =? 0 then utf8_lead byte
  else if negb ((lower_boundary d <=? byte) && (byte <=? upper_boundary d))
  then let '(d', out) := utf8_lead byte in (d', 0xFFFD :: out)
  else
    let cp := Z.lor (Z.shiftl (code_point d) 6) (Z.land byte 0x3F) in
    if bytes_seen d + 1 =? bytes_needed d then (utf8_initial, [cp])
    else (Utf8Decoder cp (bytes_seen d + 1) (bytes_needed d) 0x80 0xBF, []).

Fixpoint utf8_run (d : utf8_decoder) (bytes : list Z) : utf8_decoder * list Z :=
  match bytes with
  | [] => (d, [])
  | byte :: bytes =>
      let '(d, out) := utf8_handler d byte in
      let '(d, out') := utf8_run d bytes in
      (d, out ++ out')
  end.

(** The UTF-16 code units of a scalar value. *)
Definition utf16_units (cp : Z) : jsstring :=
  if cp <? 0x10000 then [cp]
  else [0xD800 + Z.shiftr (cp - 0x10000) 10; 0xDC00 + Z.land (cp - 0x10000) 0x3FF].

Definition utf16_encode (cps : list Z) : jsstring := concat (map utf16_units cps).

Record TextDecoder := MkTextDecoder {
  td_decoder : utf8_decoder;
  td_BOM_seen : bool
}.

(** [new TextDecoder("utf-8")] *)
Definition new_TextDecoder : TextDecoder := MkTextDecoder utf8_initial false.

(** Serializing the scalar values of one call: the first one ever produced
    is dropped if it is U+FEFF. *)
Definition serialize (BOM_seen : bool) (output : list Z) : jsstring * bool :=
  if BOM_seen then (utf16_encode output, true)
  else
    match output with
    | [] => ([], false)
    | item :: rest => (utf16_encode (if item =? 0xFEFF then rest else output), true)
    end.

(** [decoder.decode(bytes, {stream: true})] *)
Definition TextDecoder_decode_stream (td : TextDecoder) (bytes : list Z)
    : jsstring * TextDecoder :=
  let '(d, output) := utf8_run (td_decoder td) bytes in
  let '(text, seen) := serialize (td_BOM_seen td) output in
  (text, MkTextDecoder d seen).

(** [decoder.decode()]: the end of the stream; an unfinished sequence is
    replaced by U+FFFD. *)
Definition TextDecoder_decode_end (td : TextDecoder) : jsstring :=
  (serialize (td_BOM_seen td)
     (if bytes_needed (td_decoder td) =? 0 then [] else [0xFFFD])).1.

(** [decoder.decode(bytes)], the whole input at once. *)
Definition TextDecoder_decode (bytes : list Z) : jsstring :=
  let '(text, td) := TextDecoder_decode_stream new_TextDecoder bytes in
  text ++ TextDecoder_decode_end td.

(** A chunk of input: text, or raw bytes. *)
Inductive chunk :=
| TextChunk (text : jsstring)
| ByteChunk (bytes : list Z).

(** The [decoder] variable of [generateFromChunks]. *)
Inductive decoder_variable :=
| decoder_null
| decoder_false
| decoder_object (td : TextDecoder).

(** [generateFromChunks(chunks)], from the value of [decoder] and the chunks
    left.  The statement [decoder === false;] of the first branch compares
    and assigns nothing: the variable stays [null] after a text chunk.
    A text chunk handed to [decoder.decode] makes it raise a TypeError.
    ([decoder] never holds [false]; a byte chunk yielded as it is would
    yield numbers, which the stream of characters does not model.) *)
Fixpoint generateFromChunks_loop (decoder : decoder_variable) (chunks : list chunk)
    : stream :=
  match chunks with
  | chunk :: chunks =>
      match decoder, chunk with
      | decoder_false, TextChunk text =>
          yield_all (string_iter text) (generateFromChunks_loop decoder chunks)
      | decoder_false, ByteChunk _ => SThrow
      | decoder_null, TextChunk text =>
          yield_all (string_iter text) (generateFromChunks_loop decoder_null chunks)
      | decoder_null, ByteChunk bytes =>
          let '(text, td) := TextDecoder_decode_stream new_TextDecoder bytes in
          yield_all (string_iter text) (generateFromChunks_loop (decoder_object td) chunks)
      | decoder_object td, ByteChunk bytes =>
          let '(text, td) := TextDecoder_decode_stream td bytes in
          yield_all (string_iter text) (generateFromChunks_loop (decoder_object td) chunks)
      | decoder_object _, TextChunk _ => SThrow
      end
  | [] =>
      match decoder with
      | decoder_object td => yield_all (string_iter (TextDecoder_decode_end td)) SDone
      | _ => SDone
      end
  end.

Definition generateFromChunks (chunks : list chunk) : stream :=
  generateFromChunks_loop decoder_null chunks.

(** The input of [decode]: a string, or an iterable of chunks.  (Streams
    and blobs, which are read asynchronously, are not modelled.) *)
Inductive input :=
| InputString (text : jsstring)
| InputChunks (chunks : list chunk).

(** [decode(input)] *)
Definition decode (LocalTZA : Z -> bool -> Z) (input : input) : completion table :=
  match input with
  | InputString text => matchEntries LocalTZA (generateFrom text)
  | InputChunks chunks => matchEntries LocalTZA (generateFromChunks chunks)
  end.

(** ** Encoder *)

Inductive value_type := STRING | NUMBER | DATE | KEYWORD | ARRAY | MAP.

#[global] Instance value_type_eq_dec : EqDecision value_type.
Proof. solve_decision. Defined.

(** [getValueType(input)].  Every object that is not array-like counts as a
    map.  (A reference to no object of the store is not a value of the
    program: the model raises.) *)
Definition getValueType (h : heap) (input : jvalue) : completion value_type :=
  match input with
  | JString _ => Ok STRING
  | JNumber _ => Ok NUMBER
  | JDate _ => Ok DATE
  | JUndefined | JNull | JBool _ => Ok KEYWORD
  | JRef l =>
      match h !! l with
      | Some (OArray _) => Ok ARRAY
      | Some (OMap _) => Ok MAP
      | None => Throw TypeError
      end
  | JFunction => Throw (ConfigError (Unimplemented input))
  end.

(** [encodeString(input)] *)
Definition encodeString (input : jsstring) : list jsstring :=
  [[34] ++ replace_unit 34 [92; 34] input ++ [34]].

(** [encodeNumber(input)] *)
Definition encodeNumber (input : number) : list jsstring :=
  if isFinite input then [numberToString input]
  else [toUpperCase (numberToString input)].

(** [pad(num, size)] of [encodeDate] *)
Definition pad (num : Z) (size : nat) : jsstring := padStart0 size (intToString num).

(** [encodeDate(input)] *)
Definition encodeDate (LocalTZA : Z -> bool -> Z) (input : date) : list jsstring :=
  match input with
  | InvalidDate => [str "NaN-NaN-NaN NaN:NaN:NaN.NaN UTC-NaN:NaN"]
  | Date t =>
      let year := intToString (getUTCFullYear t) in
      let month := pad (getUTCMonth t + 1) 2 in
      let day := pad (getUTCDate t) 2 in
      let h := pad (getUTCHours t) 2 in
      let min := pad (getUTCMinutes t) 2 in
      let s := pad (getUTCSeconds t) 2 in
      let ms := pad (getUTCMilliseconds t) 3 in
      let localDate := year ++ str "-" ++ month ++ str "-" ++ day in
      let localTime :=
        if jsstring_eqb ms (str "000")
        then h ++ str ":" ++ min ++ str ":" ++ s
        else h ++ str ":" ++ min ++ str ":" ++ s ++ str "." ++ ms in
      let localDateTime := localDate ++ str " " ++ localTime in
      let minOffset := - getTimezoneOffset LocalTZA t in
      let hOffset := pad (Z.abs minOffset / 60) 2 in
      let offsetSign := if 0 <=? minOffset then str "+" else str "-" in
      let minOffset := pad (Z.abs minOffset mod 60) 2 in
      let offset :=
        if jsstring_eqb minOffset (str "00")
        then offsetSign ++ (if jsstring_eqb (take 1 hOffset) (str "0")
                            then take 1 (drop 1 hOffset) else hOffset)
        else offsetSign ++ hOffset ++ str ":" ++ minOffset in
      [localDateTime ++ str " UTC" ++ offset]
  end.

(** ** Descriptions of objects *)

(** The messages that quote a value that is not a string keep the value:
    its description, [repr(value)], is not built.  It is evaluated, though,
    and raises a TypeError where reading [value.constructor.name] or
    converting the value to a string does; this is what the model keeps of
    it.  The properties that are read are those of the store: an Array has
    its elements and a plain object its entries as own properties, and what
    they do not define comes from the prototypes of the platform.  (So a
    Set, a typed array or an ArrayBuffer is described as the Array of its
    elements, and a Map as the plain object of its entries; their own
    descriptions never raise, and are those of the model where no object
    of the store has an entry under [constructor] or [toString], the names
    that [repr] reads.  A function is not called: one that is the
    [toString] or [valueOf] of an object is taken to return a string.) *)

(** [object[name]] where the object has the property as its own. *)
Definition own_property (name : jsstring) (entries : list (jvalue * jvalue))
    : option jvalue :=
  snd <$> List.find (fun entry => match entry.1 with
                                  | JString key => jsstring_eqb key name
                                  | _ => false
                                  end) entries.

(** The conversion of a plain object to a string: [toString] is called,
    then [valueOf], where they are functions; the functions of
    [Object.prototype] return ["[object Object]"] and the object itself,
    which is no string. *)
Definition OrdinaryToPrimitive (entries : list (jvalue * jvalue)) : completion unit :=
  match own_property (str "toString") entries with
  | None | Some JFunction => Ok tt
  | Some _ =>
      match own_property (str "valueOf") entries with
      | Some JFunction => Ok tt
      | _ => Throw TypeError
      end
  end.

(** [Array.prototype.join]: [undefined] and [null] are joined as the empty
    string, the other elements are converted. *)
Fixpoint join_elements (ToString : jvalue -> completion unit) (items : list jvalue)
    : completion unit :=
  match items with
  | [] => Ok tt
  | JUndefined :: items | JNull :: items => join_elements ToString items
  | element :: items => _ ← ToString element; join_elements ToString items
  end.

(** [`${value}`]: the conversion of a value to a string.  An Array is
    joined; one that is being joined already is joined as the empty string
    (the engines keep the set [joining] of these).  Entering an Array takes
    one unit of fuel. *)
Fixpoint ToString (fuel : nat) (h : heap) (joining : gset loc) (value : jvalue)
    {struct fuel} : completion unit :=
  match value with
  | JRef l =>
      match h !! l with
      | Some (OMap entries) => OrdinaryToPrimitive entries
      | Some (OArray items) =>
          if bool_decide (l ∈ joining) then Ok tt
          else
            match fuel with
            | O => OutOfFuel
            | S fuel => join_elements (ToString fuel h (joining ∪ {[l]})) items
            end
      | None => Throw TypeError
      end
  | _ => Ok tt
  end.

(** [value.constructor.name] where [typeof value] is ["object"]: the value
    of the property where an object of the store defines it, and a name of
    the platform or [undefined] otherwise ([None]).  [null] has no
    properties. *)
Definition constructor_name (h : heap) (value : jvalue) : completion (option jvalue) :=
  match value with
  | JNull => Throw TypeError
  | JRef l =>
      match h !! l with
      | Some (OMap entries) =>
          match own_property (str "constructor") entries with
          | None => Ok None
          | Some JUndefined | Some JNull => Throw TypeError
          | Some (JRef constructor) =>
              match h !! constructor with
              | Some (OMap entries) => Ok (own_property (str "name") entries)
              | Some (OArray _) => Ok None
              | None => Throw TypeError
              end
          | Some _ => Ok None
          end
      | Some (OArray _) => Ok None
      | None => Throw TypeError
      end
  | _ => Ok None
  end.

(** [repr(value)] of a value: whether it completes. *)
Definition repr_value (h : heap) (value : jvalue) : completion unit :=
  type ← constructor_name h value;
  _ ← ToString (S (size h)) h ∅ value;
  match type with
  | Some type => ToString (S (size h)) h ∅ type
  | None => Ok tt
  end.

(** [checkKey(key)] *)
Definition checkKey (h : heap) (key : jvalue) : completion jsstring :=
  match key with
  | JString key =>
      let key := trim key in
      match search (fun u => negb (is_lower u || is_upper u || is_digit u
                                   || (u =? 95) || (u =? 45))) key with
      | Some invalid =>
          throw (str "invalid character " ++ repr (take 1 (drop invalid key)) 60
                 ++ str " in key " ++ repr key 60 ++ str " "
                 ++ str "(only letters, digits, " ++ [171; 8239; 95; 8239; 187]
                 ++ str " and " ++ [171; 8239; 45; 8239; 187] ++ str " allowed)")
      | None => Ok key
      end
  | _ => _ ← repr_value h key; Throw (ConfigError (InvalidKeyType key))
  end.

(** [Array.from(items, f)] for a callback that reads and updates the set of
    references and may throw; the callback gets the index too. *)
Fixpoint array_from {A B} (f : A -> nat -> gset loc -> completion (B * gset loc))
    (items : list A) (i : nat) (references : gset loc)
    : completion (list B * gset loc) :=
  match items with
  | [] => Ok ([], references)
  | entry :: items =>
      '(x, references) ← f entry i references;
      '(xs, references) ← array_from f items (S i) references;
      Ok (x :: xs, references)
  end.

(** [result[result.length - 1].pop()] *)
Fixpoint pop_last (result : list (list jsstring)) : list (list jsstring) :=
  match result with
  | [] => []
  | [entry] => [removelast entry]
  | entry :: result => entry :: pop_last result
  end.

(** [entry.reduce((sum, x) => sum + x.length, 0)] *)
Definition pieces_length (entry : list jsstring) : Z :=
  fold_left (fun sum x => sum + jslength x) entry 0.

(** What [encodeValue] is to its callers. *)
Definition encoder : Type :=
  jvalue -> gset loc -> nat -> bool -> completion (value_type * list jsstring * gset loc).

(** The lines of [encodeArray] that lay the encoded entries out. *)
Definition layoutArray (level : nat) (result : list (list jsstring)) : list jsstring :=
  let length := fold_left (fun sum entry => sum + pieces_length entry + 2) result 0 in
  if length =? 0 then [str "[]"]
  else if (level =? 1)%nat && (80 <? length) then
    let result := map (fun entry => [str "    "] ++ entry ++ [str "," ++ nl]) result in
    [str "[" ++ nl] ++ concat result ++ [str "]"]
  else
    let result := map (fun entry => entry ++ [str ", "]) result in
    let result := pop_last result in
    [str "["] ++ concat result ++ [str "]"].

(** The callback of [encodeArray]: the encoded entry. *)
Definition encodeArrayEntry (encodeValue : encoder) (level : nat)
    (entry : jvalue) (i : nat) (references : gset loc)
    : completion (list jsstring * gset loc) :=
  '(_, value, references) ← encodeValue entry references level true;
  Ok (value, references).

(** [encodeArray(input, options, references, level)] *)
Definition encodeArray (encodeValue : encoder) (h : heap) (input : loc)
    (references : gset loc) (level : nat) : completion (list jsstring * gset loc) :=
  if bool_decide (input ∈ references)
  then _ ← repr_value h (JRef input); Throw (ConfigError (CircularReference input))
  else
    let references := references ∪ {[input]} in
    match h !! input with
    | Some (OArray items) =>
        '(result, references) ←
          array_from (encodeArrayEntry encodeValue level) items O references;
        Ok (layoutArray level result, references ∖ {[input]})
    | _ => Throw TypeError
    end.

(** [iterOverMap(input)] *)
Definition iterOverMap (h : heap) (input : loc) : completion (list (jvalue * jvalue)) :=
  match h !! input with
  | Some (OMap entries) => Ok entries
  | Some (OArray _) => _ ← repr_value h (JRef input); Throw (ConfigError (InvalidInputType input))
  | None => Throw TypeError
  end.

(** The grouping loop of [encodeMap] at level 0: the entries whose value is
    not a map, then those whose value is one. *)
Fixpoint groupInput (h : heap) (entries : list (jvalue * jvalue))
    (groupedInput : list (jvalue * jvalue) * list (jvalue * jvalue))
    : completion (list (jvalue * jvalue) * list (jvalue * jvalue)) :=
  match entries with
  | [] => Ok groupedInput
  | entry :: entries =>
      valueType ← getValueType h entry.2;
      groupInput h entries
        (if bool_decide (valueType = MAP)
         then (groupedInput.1, groupedInput.2 ++ [entry])
         else (groupedInput.1 ++ [entry], groupedInput.2))
  end.

(** The lines of [encodeMap] that lay the encoded entries out at level 2
    and deeper. *)
Definition layoutMap (level : nat) (result : list (jsstring * list jsstring))
    : list jsstring :=
  let length :=
    fold_left (fun sum entry =>
                 let keyLength := jslength entry.1 in
                 let valueLength := pieces_length entry.2 in
                 sum + keyLength + valueLength + 5) result 0 in
  if length =? 0 then [str "{}"]
  else if (level =? 2)%nat && (80 <? length) then
    let result :=
      map (fun entry => [str "    "] ++ string_iter entry.1 ++ [str " = "] ++ entry.2
                        ++ [str "," ++ nl]) result in
    [str "{" ++ nl] ++ concat result ++ [str "}"]
  else
    let result :=
      map (fun entry => string_iter entry.1 ++ [str " = "] ++ entry.2 ++ [str ", "])
        result in
    let result := pop_last result in
    [str "{ "] ++ concat result ++ [str " }"].

(** What the callback of [encodeMap] at level 0 returns for an entry of
    index [i], from its checked key, the kind of its value and the encoded
    value: a section with its header, or a line. *)
Definition rootEntry (i : nat) (key : jsstring) (valueType : value_type)
    (value : list jsstring) : list jsstring :=
  if bool_decide (valueType = MAP) then
    let key :=
      match i with
      | O => str "[" ++ key ++ str "]"
      | _ => nl ++ str "[" ++ key ++ str "]"
      end in
    match value with
    | [] => [key; nl]
    | _ => [key; nl] ++ value ++ [nl]
    end
  else [key; str " = "] ++ value ++ [nl].

(** The callback of [encodeMap] at level 0. *)
Definition encodeRootEntry (encodeValue : encoder) (h : heap) (level : nat)
    (entry : jvalue * jvalue) (i : nat) (references : gset loc)
    : completion (list jsstring * gset loc) :=
  let '(key, value) := entry in
  key ← checkKey h key;
  '(valueType, value, references) ← encodeValue value references level true;
  Ok (rootEntry i key valueType value, references).

(** The callback of [encodeMap] at level 1. *)
Definition encodeSectionEntry (encodeValue : encoder) (h : heap) (level : nat)
    (entry : jvalue * jvalue) (i : nat) (references : gset loc)
    : completion (list jsstring * gset loc) :=
  let '(key, value) := entry in
  key ← checkKey h key;
  '(_, value, references) ← encodeValue value references level false;
  Ok ([key; str " = "] ++ value ++ [nl], references).

(** The callback of [encodeMap] at level 2 and deeper: the checked key of
    an entry and its encoded value. *)
Definition encodeInlineEntry (encodeValue : encoder) (h : heap) (level : nat)
    (entry : jvalue * jvalue) (i : nat) (references : gset loc)
    : completion (jsstring * list jsstring * gset loc) :=
  let '(key, value) := entry in
  key ← checkKey h key;
  '(_, value, references) ← encodeValue value references level true;
  Ok ((key, value), references).

(** [encodeMap(input, options, references, level)] *)
Definition encodeMap (encodeValue : encoder) (h : heap) (input : loc)
    (references : gset loc) (level : nat) : completion (list jsstring * gset loc) :=
  if bool_decide (input ∈ references)
  then _ ← repr_value h (JRef input); Throw (ConfigError (CircularReference input))
  else
    let references := references ∪ {[input]} in
    '(result, references) ←
      match level with
      | O =>
          entries ← iterOverMap h input;
          groupedInput ← groupInput h entries ([], []);
          '(result, references) ←
            array_from (encodeRootEntry encodeValue h level)
              (groupedInput.1 ++ groupedInput.2) O references;
          Ok (concat (pop_last result), references)
      | 1%nat =>
          entries ← iterOverMap h input;
          '(result, references) ←
            array_from (encodeSectionEntry encodeValue h level) entries O references;
          Ok (concat (pop_last result), references)
      | _ =>
          entries ← iterOverMap h input;
          '(result, references) ←
            array_from (encodeInlineEntry encodeValue h level) entries O references;
          Ok (layoutMap level result, references)
      end;
    Ok (result, references ∖ {[input]}).

(** [encodeValue(input, options, references, level, levelUpIfNotMap)].
    Entering an array or a map takes one unit of fuel. *)
Fixpoint encodeValue (LocalTZA : Z -> bool -> Z) (fuel : nat) (h : heap) (input : jvalue)
    (references : gset loc) (level : nat) (levelUpIfNotMap : bool) {struct fuel}
    : completion (value_type * list jsstring * gset loc) :=
  type ← getValueType h input;
  match type, input with
  | STRING, JString input => Ok (STRING, encodeString input, references)
  | NUMBER, JNumber input => Ok (NUMBER, encodeNumber input, references)
  | DATE, JDate input => Ok (DATE, encodeDate LocalTZA input, references)
  | KEYWORD, _ =>
      let input := match input with JUndefined => JNull | _ => input end in
      let text :=
        match input with
        | JBool true => str "true"
        | JBool false => str "false"
        | _ => str "null"
        end in
      Ok (KEYWORD, [toUpperCase text], references)
  | ARRAY, JRef input =>
      match fuel with
      | O => OutOfFuel
      | S fuel =>
          let level := (level + if levelUpIfNotMap then 1 else 0)%nat in
          '(result, references) ←
            encodeArray (encodeValue LocalTZA fuel h) h input references level;
          Ok (ARRAY, result, references)
      end
  | MAP, JRef input =>
      match fuel with
      | O => OutOfFuel
      | S fuel =>
          '(result, references) ←
            encodeMap (encodeValue LocalTZA fuel h) h input references (level + 1);
          Ok (MAP, result, references)
      end
  | _, _ => Throw (ConfigError (Unimplemented input))
  end.

(** Fuel for a whole store: no more objects than the store holds can be
    entered at once. *)
Definition encode_fuel (h : heap) : nat := S (size h).

(** [encode(input)]: [input] is the root object, in the store [h]. *)
Definition encode (LocalTZA : Z -> bool -> Z) (h : heap) (input : loc)
    : completion jsstring :=
  '(result, _) ← encodeMap (encodeValue LocalTZA (encode_fuel h) h) h input ∅ 0;
  Ok (join result).

(** * Properties *)

(** A time zone with no offset, for the examples. *)
Definition UTC_zone : Z -> bool -> Z := fun _ _ => 0.

(** [«] NARROW NO-BREAK SPACE [text] NARROW NO-BREAK SPACE [»], as [repr]
    quotes a short string without special characters. *)
Definition quoted (text : jsstring) : jsstring := [171; 8239] ++ text ++ [8239; 187].

(** ** Sample runs *)

Example decode_sections :
  decode UTC_zone
    (InputString (str "x = 1" ++ nl ++ str "[s]" ++ nl
                  ++ str "y = [1, 'two', { k = true }, 2020-01-02 03:04:05.5 UTC+2]  # c"
                  ++ nl ++ str "z = -INF"))
  = Ok [(str "x", DNumber (Finite 1 0));
        (str "s", DMap [(str "y", DArray [DNumber (Finite 1 0); DString (str "two");
                                          DMap [(str "k", DBool true)];
                                          DDate (Date 1577927045500)]);
                        (str "z", DNumber (Infinity true))])].
Proof. vm_compute. reflexivity. Qed.

Definition sample_heap : heap :=
  list_to_map
    [(0%nat, OMap [(JString (str "s"), JRef 1%nat);
                   (JString (str "x"), JNumber (Finite 15 (-1)));
                   (JString (str "t"), JRef 2%nat);
                   (JString (str "l"), JRef 3%nat)]);
     (1%nat, OMap [(JString (str "y"), JRef 3%nat); (JString (str "m"), JRef 4%nat)]);
     (2%nat, OMap []);
     (3%nat, OArray [JNumber (Finite 1 0); JString (str "two"); JRef 4%nat;
                     JDate (Date 1577927045500)]);
     (4%nat, OMap [(JString (str "k"), JBool true)])].

Example encode_sample :
  encode UTC_zone sample_heap 0%nat
  = Ok (str "x = 1.5" ++ nl
        ++ str "l = [1, " ++ [34] ++ str "two" ++ [34]
        ++ str ", { k = TRUE }, 2020-01-02 01:04:05.500 UTC+0]" ++ nl
        ++ nl ++ str "[s]" ++ nl
        ++ str "y = [1, " ++ [34] ++ str "two" ++ [34]
        ++ str ", { k = TRUE }, 2020-01-02 01:04:05.500 UTC+0]" ++ nl
        ++ str "m = { k = TRUE }" ++ nl
        ++ nl ++ str "[t]").
Proof. vm_compute. reflexivity. Qed.

(** ** Undefined values *)

(** C10: an undefined value is of the keyword kind and is encoded as a null
    value is, by the keyword NULL, whatever the references, the level and the
    fuel; encoding it does not fail. *)
Theorem encodeValue_undefined :
  forall LocalTZA fuel h references level levelUpIfNotMap,
    getValueType h JUndefined = Ok KEYWORD
    /\ encodeValue LocalTZA fuel h JUndefined references level levelUpIfNotMap
       = Ok (KEYWORD, [str "NULL"], references)
    /\ encodeValue LocalTZA fuel h JUndefined references level levelUpIfNotMap
       = encodeValue LocalTZA fuel h JNull references level levelUpIfNotMap.
Proof.
  intros. repeat split; destruct fuel; reflexivity.
Qed.

(** ** The chunk adapter *)

(** After a text chunk the [decoder] variable is still [null]: the next
    chunk is examined as a first chunk is. *)
Lemma generateFromChunks_text_chunk :
  forall text chunks,
    generateFromChunks (TextChunk text :: chunks)
    = yield_all (string_iter text) (generateFromChunks chunks).
Proof. reflexivity. Qed.

(** C3 (the code differs): the first chunk is text, the second holds the two
    bytes of U+00E9; the second chunk is decoded as UTF-8, into one
    character, where the claim has it consumed as it is. *)
Theorem generateFromChunks_text_then_bytes :
  generateFromChunks [TextChunk (str "a = "); ByteChunk [0x22; 0xC3; 0xA9; 0x22]]
  = generateFrom (str "a = " ++ [34; 233; 34])
  /\ decode UTC_zone (InputChunks [TextChunk (str "a = "); ByteChunk [0x22; 0xC3; 0xA9; 0x22]])
     = Ok [(str "a", DString [233])].
Proof. split; vm_compute; reflexivity. Qed.

(** ** Round trip *)

Definition negative_infinity_heap : heap :=
  list_to_map [(0%nat, OMap [(JString (str "a"), JNumber (Infinity true))])].

(** C1 (the code differs): the document [{a: -Infinity}] is encoded as
    [a = -INFINITY], which [decode] rejects: the letter T sends the text to
    the date parser. *)
Theorem decode_encode_negative_infinity :
  encode UTC_zone negative_infinity_heap 0%nat = Ok (str "a = -INFINITY")
  /\ decode UTC_zone (InputString (str "a = -INFINITY"))
     = throw (str "date " ++ quoted (str "INFINITY") ++ str " invalid at entry "
              ++ quoted (str "a")).
Proof. split; vm_compute; reflexivity. Qed.

(** Other documents that do not come back: a string with a backslash, and a
    number written with an exponent. *)
Example decode_encode_backslash :
  encode UTC_zone (list_to_map [(0%nat, OMap [(JString (str "a"), JString [98; 92; 99])])]) 0%nat
  = Ok (str "a = " ++ [34; 98; 92; 99; 34])
  /\ decode UTC_zone (InputString (str "a = " ++ [34; 98; 92; 99; 34]))
     = Ok [(str "a", DString (str "bc"))].
Proof. split; vm_compute; reflexivity. Qed.

Example decode_encode_exponent :
  encode UTC_zone (list_to_map [(0%nat, OMap [(JString (str "a"), JNumber (Finite 1 21))])]) 0%nat
  = Ok (str "a = 1e+21")
  /\ decode UTC_zone (InputString (str "a = 1e+21"))
     = throw (str "date " ++ quoted (str "1e+21") ++ str " invalid at entry "
              ++ quoted (str "a")).
Proof. split; vm_compute; reflexivity. Qed.

(** A document that does come back. *)
Example decode_encode_sample :
  (text ← encode UTC_zone sample_heap 0%nat; decode UTC_zone (InputString text))
  = Ok [(str "x", DNumber (Finite 15 (-1)));
        (str "l", DArray [DNumber (Finite 1 0); DString (str "two");
                          DMap [(str "k", DBool true)]; DDate (Date 1577927045500)]);
        (str "s", DMap [(str "y", DArray [DNumber (Finite 1 0); DString (str "two");
                                          DMap [(str "k", DBool true)];
                                          DDate (Date 1577927045500)]);
                        (str "m", DMap [(str "k", DBool true)])]);
        (str "t", DMap [])].
Proof. vm_compute. reflexivity. Qed.

(** ** Numbers and dates *)

(** [text] contains one of the code units of [characters]. *)
Definition contains_any (characters text : jsstring) : bool :=
  existsb (fun u => bool_decide (u ∈ characters)) text.

Lemma search_is_Some (class : Z -> bool) (s : jsstring) :
  bool_decide (is_Some (search class s)) = existsb class s.
Proof.
  induction s as [|u s IH]; simpl.
  - reflexivity.
  - destruct (class u); simpl; [reflexivity |].
    rewrite <- IH. destruct (search class s); reflexivity.
Qed.

Lemma is_date_character_spec (u : Z) :
  is_date_character u = bool_decide (u ∈ str "-+:/utcUTC").
Proof.
  unfold is_date_character.
  destruct (bool_decide (u ∈ str "-+:/utcUTC")) eqn:E.
  - apply bool_decide_eq_true in E. cbn in E.
    repeat (apply elem_of_cons in E as [-> | E]; [reflexivity |]).
    inversion E.
  - apply bool_decide_eq_false in E. cbn in E.
    repeat (apply not_elem_of_cons in E as [? E]).
    repeat (apply orb_false_intro); apply Z.eqb_neq; assumption.
Qed.

Lemma existsb_date_character (text : jsstring) :
  existsb is_date_character text = contains_any (str "-+:/utcUTC") text.
Proof.
  unfold contains_any. induction text as [|u text IH]; [reflexivity |].
  cbn [existsb]. rewrite IH, is_date_character_spec. reflexivity.
Qed.

(** The date parser and the number parser never give the same result. *)
Lemma matchDate_parseNumber_differ LocalTZA negative raw end_ :
  matchDate LocalTZA raw end_ <> parseNumber negative raw end_.
Proof.
  unfold matchDate, parseNumber, throw.
  repeat match goal with
         | |- context [match ?x with _ => _ end] => destruct x
         end; discriminate.
Qed.

(** C5, amended: the text is handed to the date parser exactly when it
    contains [-], [+], [:], [/] or one of the letters u, t, c in either case;
    otherwise it is read as a number. *)
Theorem matchNumber_dispatch :
  forall LocalTZA characters start raw end_ rest,
    matchUntil characters DELIMITERS true [] = Ok (raw, end_, rest) ->
    let text := number_raw start raw in
    matchNumber LocalTZA characters start
    = (if contains_any (str "-+:/utcUTC") text
       then e ← matchDate LocalTZA text end_; Ok (e, rest)
       else e ← parseNumber (jsstring_eqb start [45]) text end_; Ok (e, rest))
    /\ matchDate LocalTZA text end_ <> parseNumber (jsstring_eqb start [45]) text end_.
Proof.
  intros LocalTZA characters start raw end_ rest H text. split.
  - unfold matchNumber. rewrite H. cbn [mbind completion_bind].
    fold text. rewrite search_is_Some, (existsb_date_character text).
    destruct (contains_any _ text); reflexivity.
  - apply matchDate_parseNumber_differ.
Qed.

(** The theorem at the text [12:30], which goes to the date parser. *)
Lemma matchNumber_dispatch_witness :
  matchNumber UTC_zone (generateFrom (str "2:30")) (str "1")
  = (e ← matchDate UTC_zone (str "12:30") []; Ok (e, SDone)).
Proof.
  exact (proj1 (matchNumber_dispatch UTC_zone (generateFrom (str "2:30")) (str "1")
                  (str "2:30") [] SDone eq_refl)).
Defined.

(** C5 as stated fails: the text [1e+5] holds none of [-], [/], [:], u, t, c
    and is handed to the date parser, which rejects it; the number parser
    would have read 100000. *)
Lemma matchNumber_exponent_is_date :
  contains_any (str "-/:utcUTC") (str "1e+5") = false
  /\ matchNumber UTC_zone (generateFrom (str "e+5")) (str "1")
     = throw (str "date " ++ quoted (str "1e+5") ++ str " invalid")
  /\ matchDate UTC_zone (str "1e+5") [] = throw (str "date " ++ quoted (str "1e+5") ++ str " invalid")
  /\ parseNumber false (str "1e+5") [] = Ok (Entry (DNumber (Finite 1 5)) [] VALUE).
Proof. repeat split; vm_compute; reflexivity. Qed.

(** ** Errors at an entry *)

(** C9: the input [a = ] followed by a line feed is rejected with a message
    that names the value awaited, the line end reached and the entry [a];
    and whenever the value of an entry, or the end of its line, raises a
    ConfigError, [matchEntries] raises it with the entry appended. *)
Theorem matchEntries_error_at_entry :
  forall LocalTZA,
    decode LocalTZA (InputString (str "a = " ++ nl))
    = throw (str "value expected but new line reached at entry " ++ quoted (str "a"))
    /\ forall fuel characters result target entryKey rest message,
         matchNext LocalTZA fuel characters [KEY; NEW_LINE; END_OF_INPUT]
           (Some FIRST_LEVEL) [] false = Ok (entryKey, rest) ->
         entry_type entryKey = KEY ->
         entry_end entryKey = [61] ->
         matchEntryValue (matchNext LocalTZA fuel) rest
         = Throw (ConfigError (Text message)) ->
         matchEntries_loop LocalTZA (S fuel) characters result target
         = throw (message ++ str " at entry " ++ repr (entry_key entryKey) 60).
Proof.
  intros LocalTZA. split.
  - vm_compute. reflexivity.
  - intros fuel characters result target entryKey rest message Hkey Htype Hend Hvalue.
    cbn [matchEntries_loop]. unfold matchEntries_body.
    rewrite Hkey. cbn [mbind completion_bind].
    rewrite Htype, Hend, Hvalue. reflexivity.
Qed.

(** The theorem at the entry [k = ,]: the divider reached where a value is
    awaited is reported at the entry [k]. *)
Lemma matchEntries_error_at_entry_witness :
  matchEntries_loop UTC_zone 8 (generateFrom (str "k = ,")) [] None
  = throw (str "value expected but list divider " ++ quoted (str ",")
           ++ str " reached at entry " ++ quoted (str "k")).
Proof.
  exact (proj2 (matchEntries_error_at_entry UTC_zone) 7%nat (generateFrom (str "k = ,")) [] None
           (Entry (DString (str "k")) [61] KEY) (generateFrom (str " ,"))
           (str "value expected but list divider " ++ quoted (str ",") ++ str " reached")
           eq_refl eq_refl eq_refl eq_refl).
Defined.

(** ** Tables in inline form *)

(** The single-line form of the entries of a table: [{ k = v, k2 = v2 }]. *)
Definition inline_table (result : list (jsstring * list jsstring)) : jsstring :=
  str "{ "
  ++ join_with (str ", ") (map (fun entry => entry.1 ++ str " = " ++ join entry.2) result)
  ++ str " }".

(** The form with one entry per line, four spaces before each and a comma
    after each. *)
Definition multiline_table (result : list (jsstring * list jsstring)) : jsstring :=
  str "{" ++ nl
  ++ concat (map (fun entry => str "    " ++ entry.1 ++ str " = " ++ join entry.2
                               ++ str "," ++ nl) result)
  ++ str "}".

Lemma join_string_iter (s : jsstring) : join (string_iter s) = s.
Proof.
  unfold join.
  assert (H : forall n (s : jsstring), (length s <= n)%nat -> concat (string_iter s) = s).
  { clear s. induction n as [|n IH]; intros [|u [|v s]] Hn; simpl in *;
      try reflexivity; try lia.
    destruct (is_high_surrogate u && is_low_surrogate v); simpl.
    - rewrite IH by lia. reflexivity.
    - f_equal. apply (IH (v :: s)). simpl. lia. }
  apply (H (length s)). lia.
Qed.

Lemma pieces_length_join (entry : list jsstring) :
  pieces_length entry = jslength (join entry).
Proof.
  unfold pieces_length, jslength, join.
  assert (H : forall acc, fold_left (fun sum x => sum + Z.of_nat (length x)) entry acc
                          = acc + Z.of_nat (length (concat entry))).
  { induction entry as [|x entry IH]; intros acc; simpl.
    - lia.
    - rewrite IH, length_app. lia. }
  rewrite H. lia.
Qed.

(** The number [encodeMap] compares with 80 is the length of the single-line
    form less 2. *)
Lemma inline_table_length (result : list (jsstring * list jsstring)) :
  result <> [] ->
  jslength (inline_table result)
  = fold_left (fun sum entry => sum + jslength entry.1 + pieces_length entry.2 + 5) result 0
    + 2.
Proof.
  intros Hne. unfold inline_table, jslength.
  rewrite !length_app. change (length (str "{ ")) with 2%nat.
  change (length (str " }")) with 2%nat.
  assert (H : forall acc,
             fold_left (fun sum (entry : jsstring * list jsstring) =>
                          sum + Z.of_nat (length entry.1) + pieces_length entry.2 + 5)
               result acc
             = acc + Z.of_nat (length (join_with (str ", ")
                        (map (fun entry => entry.1 ++ str " = " ++ join entry.2) result)))
               + 2).
  { destruct result as [|e result]; [congruence |]. clear Hne.
    revert e. induction result as [|e' result IH]; intros e acc.
    - simpl. rewrite pieces_length_join, !length_app. unfold jslength. simpl. lia.
    - change (fold_left ?f (e :: e' :: result) acc)
        with (fold_left f (e' :: result) (f acc e)).
      rewrite IH.
      change (join_with ?sep (map ?g (e :: e' :: result)))
        with (g e ++ sep ++ join_with sep (map g (e' :: result))).
      rewrite pieces_length_join, !length_app. unfold jslength. simpl. lia. }
  rewrite H. destruct result; [congruence |]. lia.
Qed.

Lemma concat_pop_last_inline (result : list (jsstring * list jsstring)) :
  join (concat (pop_last (map (fun entry => string_iter entry.1 ++ [str " = "] ++ entry.2
                                             ++ [str ", "]) result)))
  = join_with (str ", ") (map (fun entry => entry.1 ++ str " = " ++ join entry.2) result).
Proof.
  unfold join.
  destruct result as [|e result]; [reflexivity |].
  revert e. induction result as [|e' result IH]; intros e.
  - cbn [map pop_last join_with].
    rewrite !app_assoc, removelast_last, <- !app_assoc.
    cbn [concat]. rewrite app_nil_r, !concat_app.
    pose proof (join_string_iter e.1) as H. unfold join in H. rewrite H.
    cbn [concat]. rewrite app_nil_r. reflexivity.
  - change (pop_last (map ?g (e :: e' :: result)))
      with (g e :: pop_last (map g (e' :: result))).
    change (join_with ?sep (map ?g (e :: e' :: result)))
      with (g e ++ sep ++ join_with sep (map g (e' :: result))).
    rewrite concat_cons, concat_app, IH.
    pose proof (join_string_iter e.1) as H. unfold join in H.
    rewrite !concat_app, H. cbn [concat]. rewrite !app_nil_r.
    rewrite <- !app_assoc. reflexivity.
Qed.

Lemma concat_multiline (result : list (jsstring * list jsstring)) :
  join (concat (map (fun entry => [str "    "] ++ string_iter entry.1 ++ [str " = "]
                                    ++ entry.2 ++ [str "," ++ nl]) result))
  = concat (map (fun entry => str "    " ++ entry.1 ++ str " = " ++ join entry.2
                              ++ str "," ++ nl) result).
Proof.
  unfold join. induction result as [|e result IH]; [reflexivity |].
  cbn [map]. rewrite concat_cons, concat_app, IH.
  pose proof (join_string_iter e.1) as H. unfold join in H.
  rewrite !concat_app, H. cbn [concat]. rewrite !app_nil_r.
  rewrite <- !app_assoc. reflexivity.
Qed.

(** What [layoutMap] returns, as text. *)
Lemma layoutMap_join (level : nat) (result : list (jsstring * list jsstring)) :
  result <> [] ->
  join (layoutMap level result)
  = if (level =? 2)%nat && (82 <? jslength (inline_table result))
    then multiline_table result
    else inline_table result.
Proof.
  intros Hne. rewrite (inline_table_length result Hne).
  unfold layoutMap.
  set (length := fold_left _ result 0).
  assert (Hpos : 0 < length).
  { subst length.
    assert (H : forall acc, 0 <= acc ->
              result <> [] ->
              0 < fold_left (fun sum (entry : jsstring * list jsstring) =>
                               sum + jslength entry.1 + pieces_length entry.2 + 5)
                    result acc).
    { clear Hne. induction result as [|e result IH]; intros acc Hacc Hr; [congruence |].
      simpl. rewrite pieces_length_join. unfold jslength.
      destruct result as [|e' result].
      - simpl. lia.
      - apply IH; [lia | congruence]. }
    apply H; [lia | exact Hne]. }
  replace (length =? 0) with false by (symmetry; apply Z.eqb_neq; lia).
  replace (82 <? length + 2) with (80 <? length)
    by (destruct (Z.ltb_spec 80 length), (Z.ltb_spec 82 (length + 2)); lia || reflexivity).
  destruct ((level =? 2)%nat && (80 <? length)).
  - unfold multiline_table, join. rewrite !concat_app.
    pose proof (concat_multiline result) as H. unfold join in H. rewrite H.
    cbn [concat]. rewrite !app_nil_r. reflexivity.
  - unfold inline_table, join. rewrite !concat_app.
    pose proof (concat_pop_last_inline result) as H. unfold join in H. rewrite H.
    cbn [concat]. rewrite !app_nil_r. reflexivity.
Qed.

(** C4, amended: a table at level 2 or deeper whose entries encode to
    [result] is rendered in the single-line form when that form has at most
    80 characters, and at level 3 and deeper whatever its length; at level 2
    it is rendered with one entry per line when the single-line form has
    more than 82 characters. *)
Theorem encodeMap_table_layout :
  forall (encodeValue : encoder) (h : heap) (input : loc) (references references' : gset loc)
         (level : nat) entries result,
    (2 <= level)%nat ->
    input ∉ references ->
    iterOverMap h input = Ok entries ->
    array_from (encodeInlineEntry encodeValue h level) entries O (references ∪ {[input]})
    = Ok (result, references') ->
    result <> [] ->
    exists pieces,
      encodeMap encodeValue h input references level = Ok (pieces, references' ∖ {[input]})
      /\ (jslength (inline_table result) <= 80 -> join pieces = inline_table result)
      /\ (level = 2%nat -> 82 < jslength (inline_table result) ->
          join pieces = multiline_table result)
      /\ ((3 <= level)%nat -> join pieces = inline_table result).
Proof.
  intros encodeValue h input references references' level entries result
    Hlevel Hfresh Hentries Hresult Hne.
  exists (layoutMap level result). split.
  - unfold encodeMap. rewrite bool_decide_eq_false_2 by exact Hfresh.
    destruct level as [|[|level]]; [lia | lia |].
    rewrite Hentries. cbn [mbind completion_bind]. rewrite Hresult. reflexivity.
  - rewrite (layoutMap_join level result Hne). repeat split.
    + intros Hshort.
      replace (82 <? jslength (inline_table result)) with false
        by (symmetry; apply Z.ltb_ge; lia).
      rewrite andb_false_r. reflexivity.
    + intros -> Hlong.
      replace (82 <? jslength (inline_table result)) with true
        by (symmetry; apply Z.ltb_lt; lia).
      reflexivity.
    + intros Hdeep.
      replace (level =? 2)%nat with false by (symmetry; apply Nat.eqb_neq; lia).
      reflexivity.
Qed.

Definition one_entry_heap : heap :=
  list_to_map [(0%nat, OMap [(JString (str "k"), JBool true)])].

(** The theorem at the table [{k: true}], at level 2. *)
Lemma encodeMap_table_layout_witness :
  exists pieces,
    encodeMap (encodeValue UTC_zone 1 one_entry_heap) one_entry_heap 0%nat ∅ 2
    = Ok (pieces, (∅ ∪ {[0%nat]}) ∖ {[0%nat]})
    /\ (jslength (inline_table [(str "k", [str "TRUE"])]) <= 80 ->
        join pieces = inline_table [(str "k", [str "TRUE"])])
    /\ (2%nat = 2%nat -> 82 < jslength (inline_table [(str "k", [str "TRUE"])]) ->
        join pieces = multiline_table [(str "k", [str "TRUE"])])
    /\ ((3 <= 2)%nat -> join pieces = inline_table [(str "k", [str "TRUE"])]).
Proof.
  apply (encodeMap_table_layout (encodeValue UTC_zone 1 one_entry_heap) one_entry_heap
           0%nat ∅ (∅ ∪ {[0%nat]}) 2 [(JString (str "k"), JBool true)]
           [(str "k", [str "TRUE"])]).
  - lia.
  - apply not_elem_of_empty.
  - reflexivity.
  - reflexivity.
  - discriminate.
Defined.

(** A table of one entry whose single-line form has [n + 10] characters. *)
Definition wide_table (n : nat) : object :=
  OMap [(JString (str "k"), JString (repeat 120 n))].

Definition wide_text (n : nat) : jsstring :=
  str "{ k = " ++ [34] ++ repeat 120 n ++ [34] ++ str " }".

(** C4 as stated fails: at level 2 a table whose single-line form has
    exactly 81 characters stays inline, and at level 3 a table whose
    single-line form has 110 characters stays inline (the table of level 2
    that holds it is the one that is broken into lines). *)
Lemma encodeMap_81_stays_inline :
  jslength (wide_text 71) = 81
  /\ encode UTC_zone
       (list_to_map [(0%nat, OMap [(JString (str "s"), JRef 1%nat)]);
                     (1%nat, OMap [(JString (str "t"), JRef 2%nat)]);
                     (2%nat, wide_table 71)]) 0%nat
     = Ok (str "[s]" ++ nl ++ str "t = " ++ wide_text 71)
  /\ jslength (wide_text 100) = 110
  /\ encode UTC_zone
       (list_to_map [(0%nat, OMap [(JString (str "s"), JRef 1%nat)]);
                     (1%nat, OMap [(JString (str "t"), JRef 2%nat)]);
                     (2%nat, OMap [(JString (str "u"), JRef 3%nat)]);
                     (3%nat, wide_table 100)]) 0%nat
     = Ok (str "[s]" ++ nl ++ str "t = {" ++ nl ++ str "    u = " ++ wide_text 100
           ++ str "," ++ nl ++ str "}").
Proof. repeat split; vm_compute; reflexivity. Qed.

(** At level 2 the form with one entry per line is used from 83 characters
    on. *)
Example encodeMap_83_switches :
  jslength (wide_text 73) = 83
  /\ encode UTC_zone
       (list_to_map [(0%nat, OMap [(JString (str "s"), JRef 1%nat)]);
                     (1%nat, OMap [(JString (str "t"), JRef 2%nat)]);
                     (2%nat, wide_table 73)]) 0%nat
     = Ok (str "[s]" ++ nl ++ str "t = {" ++ nl ++ str "    k = " ++ [34] ++ repeat 120 73
           ++ [34] ++ str "," ++ nl ++ str "}").
Proof. repeat split; vm_compute; reflexivity. Qed.

(** ** Completions *)

Lemma bind_Ok {A B} (m : completion A) (f : A -> completion B) (b : B) :
  m ≫= f = Ok b -> exists a, m = Ok a /\ f a = Ok b.
Proof. destruct m; cbn; intros H; try discriminate. eauto. Qed.

Lemma bind_Throw {A B} (m : completion A) (f : A -> completion B) (e : error) :
  m ≫= f = Throw e -> m = Throw e \/ exists a, m = Ok a /\ f a = Throw e.
Proof.
  destruct m as [a | e' |]; cbn; intros H; try discriminate.
  - right. exists a. auto.
  - left. congruence.
Qed.

Lemma bind_OutOfFuel {A B} (m : completion A) (f : A -> completion B) :
  m ≫= f = OutOfFuel -> m = OutOfFuel \/ exists a, m = Ok a /\ f a = OutOfFuel.
Proof.
  destruct m as [a | e' |]; cbn; intros H; try discriminate.
  - right. exists a. auto.
  - left. reflexivity.
Qed.

(** ** Descriptions that complete *)

Lemma size_register (R : gset loc) (input : loc) :
  input ∉ R -> size (R ∪ {[input]}) = S (size R).
Proof.
  intros H. rewrite size_union.
  - rewrite size_singleton. lia.
  - intros x Hx Hx'. apply elem_of_singleton in Hx'. subst. auto.
Qed.

Lemma join_elements_not_OutOfFuel (convert : jvalue -> completion unit) items :
  (forall value, convert value <> OutOfFuel) -> join_elements convert items <> OutOfFuel.
Proof.
  intros Hconvert. induction items as [|element items IH]; cbn; [discriminate |].
  destruct element; try exact IH;
    (intros H; apply bind_OutOfFuel in H as [H | [? [_ H]]];
     [exact (Hconvert _ H) | exact (IH H)]).
Qed.

(** With more fuel than there are arrays of the store that are not being
    joined, the conversion does not run out of fuel. *)
Lemma ToString_not_OutOfFuel (h : heap) fuel joining value :
  joining ⊆ dom h ->
  (size h < fuel + size joining)%nat ->
  ToString fuel h joining value <> OutOfFuel.
Proof.
  revert joining value. induction fuel as [|fuel IH]; intros joining value Hdom Hsize.
  - apply subseteq_size in Hdom. rewrite size_dom in Hdom. lia.
  - destruct value as [| | | | | | l |]; cbn; try discriminate.
    destruct (h !! l) as [[items | entries] |] eqn:Hobj; try discriminate.
    + case_bool_decide as Hin; [discriminate |].
      apply join_elements_not_OutOfFuel. intros value. apply IH.
      * apply union_subseteq. split; [exact Hdom |].
        apply singleton_subseteq_l, elem_of_dom. eauto.
      * rewrite size_register by exact Hin. lia.
    + unfold OrdinaryToPrimitive.
      repeat (match goal with |- context [match ?x with _ => _ end] => destruct x end);
        discriminate.
Qed.

Lemma ToString_fuel (h : heap) value : ToString (S (size h)) h ∅ value <> OutOfFuel.
Proof.
  apply ToString_not_OutOfFuel; [apply empty_subseteq | rewrite size_empty; lia].
Qed.

Lemma constructor_name_not_OutOfFuel (h : heap) value :
  constructor_name h value <> OutOfFuel.
Proof.
  unfold constructor_name.
  repeat (match goal with |- context [match ?x with _ => _ end] => destruct x end);
    discriminate.
Qed.

(** [repr] returns or raises. *)
Lemma repr_value_not_OutOfFuel (h : heap) value : repr_value h value <> OutOfFuel.
Proof.
  unfold repr_value. intros H.
  apply bind_OutOfFuel in H as [H | [type [_ H]]];
    [exact (constructor_name_not_OutOfFuel _ _ H) |].
  apply bind_OutOfFuel in H as [H | [[] [_ H]]]; [exact (ToString_fuel _ _ H) |].
  destruct type as [type |]; [exact (ToString_fuel _ _ H) | discriminate].
Qed.

(** An error that quotes a value is thrown after the value is described. *)
Lemma quote_Ok {A} (h : heap) value (e : error) (a : A) :
  (_ ← repr_value h value; Throw e) = Ok a -> False.
Proof. intros H. apply bind_Ok in H as [? [_ H]]. discriminate. Qed.

Lemma quote_Throw {A} (h : heap) value (e err : error) :
  (_ ← repr_value h value; @Throw A e) = Throw err ->
  repr_value h value = Throw err \/ (repr_value h value = Ok tt /\ err = e).
Proof.
  intros H. apply bind_Throw in H as [H | [[] [Hr H]]]; [left; exact H |].
  right. split; [exact Hr | congruence].
Qed.

Lemma quote_not_OutOfFuel {A} (h : heap) value (e : error) :
  (_ ← repr_value h value; @Throw A e) <> OutOfFuel.
Proof.
  intros H. apply bind_OutOfFuel in H as [H | [? [_ H]]]; [| discriminate].
  exact (repr_value_not_OutOfFuel _ _ H).
Qed.

(** ** The set of references *)

(** An encoder gives the set of references back as it got it. *)
Definition preserves (enc : encoder) : Prop :=
  forall input R level flag t v R',
    enc input R level flag = Ok (t, v, R') -> R' = R.

(** A callback of [Array.from] that gives the set back as it got it. *)
Definition preserving {A B} (f : A -> nat -> gset loc -> completion (B * gset loc)) : Prop :=
  forall e i R x R', f e i R = Ok (x, R') -> R' = R.

Lemma array_from_Ok {A B} (f : A -> nat -> gset loc -> completion (B * gset loc))
    (items : list A) (i : nat) (R R' : gset loc) (xs : list B) :
  preserving f ->
  array_from f items i R = Ok (xs, R') ->
  R' = R /\ length xs = length items
  /\ forall k e, items !! k = Some e ->
       exists x, xs !! k = Some x /\ f e (i + k)%nat R = Ok (x, R).
Proof.
  intros Hf. revert i xs. induction items as [|e items IH]; intros i xs H; cbn in H.
  - injection H as <- <-. repeat split. intros k e Hk. discriminate.
  - apply bind_Ok in H as [[x R1] [H1 H]].
    apply bind_Ok in H as [[xs' R2] [H2 H]]. injection H as <- <-.
    pose proof (Hf _ _ _ _ _ H1) as ->.
    destruct (IH _ _ H2) as (-> & Hlen & Hk).
    repeat split; [cbn; lia |].
    intros [|k] e' He'; cbn in He'.
    + injection He' as <-. exists x. rewrite Nat.add_0_r. auto.
    + destruct (Hk k e' He') as (x' & Hx' & Hfx').
      exists x'. split; [exact Hx' |].
      replace (i + S k)%nat with (S i + k)%nat by lia. exact Hfx'.
Qed.

Lemma array_from_Throw {A B} (f : A -> nat -> gset loc -> completion (B * gset loc))
    (items : list A) (i : nat) (R : gset loc) (err : error) :
  preserving f ->
  array_from f items i R = Throw err ->
  exists k e, items !! k = Some e /\ f e (i + k)%nat R = Throw err.
Proof.
  intros Hf. revert i. induction items as [|e items IH]; intros i H; cbn in H.
  - discriminate.
  - apply bind_Throw in H as [H | [[x R1] [H1 H]]].
    + exists O, e. rewrite Nat.add_0_r. auto.
    + pose proof (Hf _ _ _ _ _ H1) as ->.
      apply bind_Throw in H as [H | [[xs R2] [H2 H]]]; [| discriminate].
      destruct (IH _ H) as (k & e' & Hk & Hfk).
      exists (S k), e'. split; [exact Hk |].
      replace (i + S k)%nat with (S i + k)%nat by lia. exact Hfk.
Qed.

Lemma array_from_OutOfFuel {A B} (f : A -> nat -> gset loc -> completion (B * gset loc))
    (items : list A) (i : nat) (R : gset loc) :
  preserving f ->
  array_from f items i R = OutOfFuel ->
  exists k e, items !! k = Some e /\ f e (i + k)%nat R = OutOfFuel.
Proof.
  intros Hf. revert i. induction items as [|e items IH]; intros i H; cbn in H.
  - discriminate.
  - apply bind_OutOfFuel in H as [H | [[x R1] [H1 H]]].
    + exists O, e. rewrite Nat.add_0_r. auto.
    + pose proof (Hf _ _ _ _ _ H1) as ->.
      apply bind_OutOfFuel in H as [H | [[xs R2] [H2 H]]]; [| discriminate].
      destruct (IH _ H) as (k & e' & Hk & Hfk).
      exists (S k), e'. split; [exact Hk |].
      replace (i + S k)%nat with (S i + k)%nat by lia. exact Hfk.
Qed.

(** Each callback runs [encodeValue] on the value of its entry, after the
    key of the entry, if it has one, has been checked. *)
Lemma encodeArrayEntry_inv (enc : encoder) level entry i R :
  encodeArrayEntry enc level entry i R
  = '(_, value, references) ← enc entry R level true; Ok (value, references).
Proof. reflexivity. Qed.

Lemma encodeArrayEntry_preserving (enc : encoder) level :
  preserves enc -> preserving (encodeArrayEntry enc level).
Proof.
  intros Henc e i R x R' H. unfold encodeArrayEntry in H.
  apply bind_Ok in H as [[[t v] R1] [H1 H]]. injection H as <- <-. eauto.
Qed.

Lemma encodeRootEntry_preserving (enc : encoder) (h : heap) level :
  preserves enc -> preserving (encodeRootEntry enc h level).
Proof.
  intros Henc [key value] i R x R' H. unfold encodeRootEntry in H.
  apply bind_Ok in H as [key' [_ H]].
  apply bind_Ok in H as [[[t v] R1] [H1 H]]. injection H as <- <-. eauto.
Qed.

Lemma encodeSectionEntry_preserving (enc : encoder) (h : heap) level :
  preserves enc -> preserving (encodeSectionEntry enc h level).
Proof.
  intros Henc [key value] i R x R' H. unfold encodeSectionEntry in H.
  apply bind_Ok in H as [key' [_ H]].
  apply bind_Ok in H as [[[t v] R1] [H1 H]]. injection H as <- <-. eauto.
Qed.

Lemma encodeInlineEntry_preserving (enc : encoder) (h : heap) level :
  preserves enc -> preserving (encodeInlineEntry enc h level).
Proof.
  intros Henc [key value] i R x R' H. unfold encodeInlineEntry in H.
  apply bind_Ok in H as [key' [_ H]].
  apply bind_Ok in H as [[[t v] R1] [H1 H]]. injection H as <- <-. eauto.
Qed.

Lemma register_remove (R : gset loc) (input : loc) :
  input ∉ R -> (R ∪ {[input]}) ∖ {[input]} = R.
Proof.
  intros H. apply set_eq. intros x.
  rewrite elem_of_difference, elem_of_union, elem_of_singleton.
  split; [tauto |]. intros Hx. split; [tauto |]. intros ->. tauto.
Qed.

(** [encodeArray] registers its input and removes it on completion. *)
Lemma encodeArray_Ok (enc : encoder) (h : heap) input R level result R' :
  preserves enc ->
  encodeArray enc h input R level = Ok (result, R') ->
  R' = R /\ (input ∉ R)
  /\ exists items encoded,
       h !! input = Some (OArray items)
       /\ array_from (encodeArrayEntry enc level) items O (R ∪ {[input]})
          = Ok (encoded, R ∪ {[input]})
       /\ result = layoutArray level encoded.
Proof.
  intros Henc H. unfold encodeArray in H.
  case_bool_decide as Hin; [exfalso; exact (quote_Ok _ _ _ _ H) |].
  destruct (h !! input) as [[items | entries] |] eqn:Hobj; try discriminate.
  apply bind_Ok in H as [[encoded R1] [H1 H]]. injection H as <- <-.
  destruct (array_from_Ok _ _ _ _ _ _ (encodeArrayEntry_preserving enc level Henc) H1)
    as (-> & _ & _).
  split; [apply register_remove; exact Hin |]. split; [exact Hin |].
  exists items, encoded. auto.
Qed.

(** [encodeMap] registers its input and removes it on completion. *)
Lemma encodeMap_preserves (enc : encoder) (h : heap) input R level result R' :
  preserves enc ->
  encodeMap enc h input R level = Ok (result, R') ->
  R' = R /\ (input ∉ R).
Proof.
  intros Henc H. unfold encodeMap in H.
  case_bool_decide as Hin; [exfalso; exact (quote_Ok _ _ _ _ H) |].
  apply bind_Ok in H as [[r R1] [H1 H]]. injection H as <- <-.
  split; [| exact Hin].
  destruct level as [|[|level]].
  - apply bind_Ok in H1 as [entries [_ H1]].
    apply bind_Ok in H1 as [grouped [_ H1]].
    apply bind_Ok in H1 as [[encoded R2] [H2 H1]]. injection H1 as <- <-.
    destruct (array_from_Ok _ _ _ _ _ _ (encodeRootEntry_preserving enc _ _ Henc) H2)
      as (-> & _ & _).
    apply register_remove; exact Hin.
  - apply bind_Ok in H1 as [entries [_ H1]].
    apply bind_Ok in H1 as [[encoded R2] [H2 H1]]. injection H1 as <- <-.
    destruct (array_from_Ok _ _ _ _ _ _ (encodeSectionEntry_preserving enc _ _ Henc) H2)
      as (-> & _ & _).
    apply register_remove; exact Hin.
  - apply bind_Ok in H1 as [entries [_ H1]].
    apply bind_Ok in H1 as [[encoded R2] [H2 H1]]. injection H1 as <- <-.
    destruct (array_from_Ok _ _ _ _ _ _ (encodeInlineEntry_preserving enc _ _ Henc) H2)
      as (-> & _ & _).
    apply register_remove; exact Hin.
Qed.

(** The kind [encodeValue] returns is the one [getValueType] finds, and the
    set of references comes back as it went in. *)
Lemma encodeValue_Ok LocalTZA (h : heap) fuel input R level flag t v R' :
  encodeValue LocalTZA fuel h input R level flag = Ok (t, v, R') ->
  getValueType h input = Ok t /\ R' = R.
Proof.
  revert input R level flag t v R'.
  induction fuel as [|fuel IH]; intros input R level flag t v R' H.
  - destruct input as [| | | | | | l |]; cbn in H;
      try (injection H as <- <- <-; split; reflexivity); try discriminate.
    destruct (h !! l) as [[items | entries] |]; cbn in H; discriminate.
  - destruct input as [| | | | | | l |]; cbn in H;
      try (injection H as <- <- <-; split; reflexivity); try discriminate.
    assert (Henc : preserves (encodeValue LocalTZA fuel h)).
    { intros ? ? ? ? ? ? ? Hx. apply IH in Hx. tauto. }
    cbn [getValueType].
    destruct (h !! l) as [[items | entries] |]; cbn in H; try discriminate.
    + apply bind_Ok in H as [[r R1] [H1 H]]. injection H as <- <- <-.
      apply encodeArray_Ok in H1; [| exact Henc]. tauto.
    + apply bind_Ok in H as [[r R1] [H1 H]]. injection H as <- <- <-.
      apply encodeMap_preserves in H1; [| exact Henc]. tauto.
Qed.

Lemma encodeValue_preserves LocalTZA (h : heap) fuel :
  preserves (encodeValue LocalTZA fuel h).
Proof. intros ? ? ? ? ? ? ? H. apply encodeValue_Ok in H. tauto. Qed.

(** ** Termination of the encoder *)

(** An encoder that does not run out of fuel under the references [R]. *)
Definition fuelled (enc : encoder) (R : gset loc) : Prop :=
  forall input level flag, enc input R level flag <> OutOfFuel.

Lemma getValueType_not_OutOfFuel (h : heap) input : getValueType h input <> OutOfFuel.
Proof.
  destruct input as [| | | | | | l |]; cbn; try discriminate.
  destruct (h !! l) as [[|]|]; discriminate.
Qed.

Lemma checkKey_not_OutOfFuel (h : heap) key : checkKey h key <> OutOfFuel.
Proof.
  destruct key; cbn [checkKey]; try apply quote_not_OutOfFuel.
  destruct (search _ _); discriminate.
Qed.

Lemma iterOverMap_not_OutOfFuel (h : heap) input : iterOverMap h input <> OutOfFuel.
Proof.
  unfold iterOverMap.
  destruct (h !! input) as [[|]|]; try discriminate. apply quote_not_OutOfFuel.
Qed.

Lemma groupInput_not_OutOfFuel (h : heap) entries grouped :
  groupInput h entries grouped <> OutOfFuel.
Proof.
  revert grouped. induction entries as [|entry entries IH]; intros grouped; cbn.
  - discriminate.
  - intros H. apply bind_OutOfFuel in H as [H | [t [_ H]]].
    + exact (getValueType_not_OutOfFuel _ _ H).
    + exact (IH _ H).
Qed.

Lemma keyed_callback_not_OutOfFuel {B} (enc : encoder) (h : heap) R level flag
    (k : jsstring -> value_type -> list jsstring -> B) key value :
  fuelled enc R ->
  (key' ← checkKey h key;
   '(t, v, references) ← enc value R level flag;
   Ok (k key' t v, references)) <> OutOfFuel.
Proof.
  intros Henc H.
  apply bind_OutOfFuel in H as [H | [key' [_ H]]].
  - exact (checkKey_not_OutOfFuel _ _ H).
  - apply bind_OutOfFuel in H as [H | [[[t v] R1] [_ H]]]; [| discriminate].
    exact (Henc _ _ _ H).
Qed.

Lemma encodeArray_not_OutOfFuel (enc : encoder) (h : heap) input R level :
  preserves enc ->
  fuelled enc (R ∪ {[input]}) ->
  encodeArray enc h input R level <> OutOfFuel.
Proof.
  intros Hpres Henc H. unfold encodeArray in H.
  case_bool_decide; [exact (quote_not_OutOfFuel _ _ _ H) |].
  destruct (h !! input) as [[items | entries] |]; try discriminate.
  apply bind_OutOfFuel in H as [H | [[encoded R1] [_ H]]]; [| discriminate].
  apply array_from_OutOfFuel in H as (k & e & _ & H);
    [| apply encodeArrayEntry_preserving; exact Hpres].
  unfold encodeArrayEntry in H.
  apply bind_OutOfFuel in H as [H | [[[t v] R1] [_ H]]]; [| discriminate].
  exact (Henc _ _ _ H).
Qed.

Lemma encodeMap_not_OutOfFuel (enc : encoder) (h : heap) input R level :
  preserves enc ->
  fuelled enc (R ∪ {[input]}) ->
  encodeMap enc h input R level <> OutOfFuel.
Proof.
  intros Hpres Henc H. unfold encodeMap in H.
  case_bool_decide; [exact (quote_not_OutOfFuel _ _ _ H) |].
  apply bind_OutOfFuel in H as [H | [[r R1] [_ H]]]; [| discriminate].
  destruct level as [|[|level]].
  - apply bind_OutOfFuel in H as [H | [entries [_ H]]];
      [exact (iterOverMap_not_OutOfFuel _ _ H) |].
    apply bind_OutOfFuel in H as [H | [grouped [_ H]]];
      [exact (groupInput_not_OutOfFuel _ _ _ H) |].
    apply bind_OutOfFuel in H as [H | [[encoded R1] [_ H]]]; [| discriminate].
    apply array_from_OutOfFuel in H as (k & [key value] & _ & H);
      [| apply encodeRootEntry_preserving; exact Hpres].
    exact (keyed_callback_not_OutOfFuel enc _ _ _ _ (rootEntry _) key value Henc H).
  - apply bind_OutOfFuel in H as [H | [entries [_ H]]];
      [exact (iterOverMap_not_OutOfFuel _ _ H) |].
    apply bind_OutOfFuel in H as [H | [[encoded R1] [_ H]]]; [| discriminate].
    apply array_from_OutOfFuel in H as (k & [key value] & _ & H);
      [| apply encodeSectionEntry_preserving; exact Hpres].
    exact (keyed_callback_not_OutOfFuel enc _ _ _ _
             (fun key _ value => [key; str " = "] ++ value ++ [nl]) key value Henc H).
  - apply bind_OutOfFuel in H as [H | [entries [_ H]]];
      [exact (iterOverMap_not_OutOfFuel _ _ H) |].
    apply bind_OutOfFuel in H as [H | [[encoded R1] [_ H]]]; [| discriminate].
    apply array_from_OutOfFuel in H as (k & [key value] & _ & H);
      [| apply encodeInlineEntry_preserving; exact Hpres].
    exact (keyed_callback_not_OutOfFuel enc _ _ _ _
             (fun key _ value => (key, value)) key value Henc H).
Qed.

(** With more fuel than there are objects of the store not yet entered,
    [encodeValue] does not run out of fuel. *)
Lemma encodeValue_not_OutOfFuel LocalTZA (h : heap) fuel input R level flag :
  R ⊆ dom h ->
  (size h < fuel + size R)%nat ->
  encodeValue LocalTZA fuel h input R level flag <> OutOfFuel.
Proof.
  revert input R level flag.
  induction fuel as [|fuel IH]; intros input R level flag HR Hsize.
  - apply subseteq_size in HR. rewrite size_dom in HR. lia.
  - destruct input as [| | | | | | l |]; cbn; try discriminate.
    destruct (h !! l) as [[items | entries] |] eqn:Hobj; cbn; try discriminate.
    + intros H. apply bind_OutOfFuel in H as [H | [[r R1] [_ H]]]; [| discriminate].
      destruct (decide (l ∈ R)) as [Hin | Hin].
      { unfold encodeArray in H. rewrite bool_decide_eq_true_2 in H by exact Hin.
        exact (quote_not_OutOfFuel _ _ _ H). }
      revert H. apply encodeArray_not_OutOfFuel; [apply encodeValue_preserves |].
      intros v lvl fl. apply IH.
      * apply union_subseteq. split; [exact HR |].
        apply singleton_subseteq_l, elem_of_dom. eauto.
      * rewrite size_register by exact Hin. lia.
    + intros H. apply bind_OutOfFuel in H as [H | [[r R1] [_ H]]]; [| discriminate].
      destruct (decide (l ∈ R)) as [Hin | Hin].
      { unfold encodeMap in H. rewrite bool_decide_eq_true_2 in H by exact Hin.
        exact (quote_not_OutOfFuel _ _ _ H). }
      revert H. apply encodeMap_not_OutOfFuel; [apply encodeValue_preserves |].
      intros v lvl fl. apply IH.
      * apply union_subseteq. split; [exact HR |].
        apply singleton_subseteq_l, elem_of_dom. eauto.
      * rewrite size_register by exact Hin. lia.
Qed.

(** [encode] always returns or throws: the fuel it takes is enough, for
    every store, cyclic or not. *)
Lemma encode_not_OutOfFuel LocalTZA (h : heap) (input : loc) :
  encode LocalTZA h input <> OutOfFuel.
Proof.
  unfold encode. intros H.
  apply bind_OutOfFuel in H as [H | [[r R1] [_ H]]]; [| discriminate].
  destruct (h !! input) as [o |] eqn:Hobj.
  - revert H. apply encodeMap_not_OutOfFuel; [apply encodeValue_preserves |].
    intros v lvl fl. apply encodeValue_not_OutOfFuel.
    + apply union_subseteq. split; [apply empty_subseteq |].
      apply singleton_subseteq_l, elem_of_dom. eauto.
    + rewrite size_register by apply not_elem_of_empty.
      unfold encode_fuel. rewrite size_empty. lia.
  - unfold encodeMap, iterOverMap in H. rewrite Hobj in H.
    rewrite bool_decide_eq_false_2 in H by apply not_elem_of_empty.
    cbn in H. discriminate.
Qed.

(** ** Cycles *)

(** The values an object holds. *)
Definition children (o : object) : list jvalue :=
  match o with
  | OArray items => items
  | OMap entries => map snd entries
  end.

(** [l'] is an entry, or the value of an entry, of [l]. *)
Definition edge (h : heap) (l l' : loc) : Prop :=
  exists o, h !! l = Some o /\ JRef l' ∈ children o.

(** The objects reachable from [input] hold a cycle. *)
Definition cyclic (h : heap) (input : loc) : Prop :=
  exists l, rtc (edge h) input l /\ tc (edge h) l l.

(** A value of the value model: not a function, and an object of the store
    if it is one. *)
Definition value_ok (h : heap) (v : jvalue) : bool :=
  match v with
  | JFunction => false
  | JRef l => bool_decide (is_Some (h !! l))
  | _ => true
  end.

(** A key that [checkKey] accepts. *)
Definition key_ok (h : heap) (key : jvalue) : bool :=
  match checkKey h key with
  | Ok _ => true
  | _ => false
  end.

Definition object_ok (h : heap) (o : object) : bool :=
  match o with
  | OArray items => forallb (value_ok h) items
  | OMap entries => forallb (fun entry => key_ok h entry.1 && value_ok h entry.2) entries
  end.

(** The store holds a document under [input]: [input] is a map, and the
    objects of the store hold valid keys and values of the value model. *)
Definition well_formed (h : heap) (input : loc) : bool :=
  match h !! input with
  | Some (OMap _) => true
  | _ => false
  end
  && forallb (fun lo => object_ok h lo.2) (map_to_list h).

Lemma well_formed_object (h : heap) (input l : loc) (o : object) :
  well_formed h input = true -> h !! l = Some o -> object_ok h o = true.
Proof.
  unfold well_formed. intros [_ H]%andb_prop Hobj.
  rewrite forallb_forall in H.
  apply (H (l, o)). apply list_elem_of_In, elem_of_map_to_list. exact Hobj.
Qed.

Lemma object_ok_child (h : heap) (o : object) (v : jvalue) :
  object_ok h o = true -> v ∈ children o -> value_ok h v = true.
Proof.
  destruct o as [items | entries]; cbn; intros H Hv.
  - rewrite forallb_forall in H. apply H, list_elem_of_In, Hv.
  - apply list_elem_of_fmap in Hv as [[key value] [-> Hv]].
    rewrite forallb_forall in H.
    apply list_elem_of_In, H, andb_prop in Hv. tauto.
Qed.

Lemma object_ok_key (h : heap) entries key value :
  object_ok h (OMap entries) = true -> (key, value) ∈ entries -> key_ok h key = true.
Proof.
  cbn. intros H Hv. rewrite forallb_forall in H.
  apply list_elem_of_In, H, andb_prop in Hv. tauto.
Qed.

(** An entry under a name that [repr] reads from the object. *)
Definition names_description (entry : jvalue * jvalue) : bool :=
  match entry.1 with
  | JString key => jsstring_eqb key (str "constructor") || jsstring_eqb key (str "toString")
  | _ => false
  end.

(** The objects of the store are described as the prototypes have it: no
    Map or plain object has an entry under [constructor] or [toString]. *)
Definition inherits_description (h : heap) : bool :=
  forallb (fun lo => match lo.2 with
                     | OArray _ => true
                     | OMap entries => forallb (fun entry => negb (names_description entry)) entries
                     end) (map_to_list h).

Lemma inherits_description_object (h : heap) (l : loc) entries :
  inherits_description h = true -> h !! l = Some (OMap entries) ->
  own_property (str "constructor") entries = None
  /\ own_property (str "toString") entries = None.
Proof.
  unfold inherits_description. intros H Hobj. rewrite forallb_forall in H.
  specialize (H (l, OMap entries)). cbn in H.
  assert (Hentries : forallb (fun entry => negb (names_description entry)) entries = true)
    by (apply H, list_elem_of_In, elem_of_map_to_list; exact Hobj).
  clear H Hobj. unfold own_property.
  induction entries as [|[key value] entries IH]; [split; reflexivity |].
  cbn [forallb] in Hentries. apply andb_prop in Hentries as [Hentry Hentries].
  destruct (IH Hentries) as [IHc IHs]. clear IH.
  unfold names_description in Hentry. cbn [fst] in Hentry. cbn [List.find fst].
  destruct key; try (split; assumption).
  apply negb_true_iff, orb_false_iff in Hentry as [-> ->]. split; assumption.
Qed.

(** In such a store the conversion of a value to a string does not
    raise. *)
Lemma ToString_inherited (h : heap) fuel joining value err :
  inherits_description h = true ->
  (forall l o, h !! l = Some o -> object_ok h o = true) ->
  value_ok h value = true ->
  ToString fuel h joining value <> Throw err.
Proof.
  intros Hinherits Hobjects. revert joining value.
  induction fuel as [|fuel IH]; intros joining value Hvalue;
    destruct value as [| | | | | | l |]; cbn [ToString]; try discriminate.
  all: cbn in Hvalue; apply bool_decide_eq_true in Hvalue as [o Hobj]; rewrite Hobj.
  all: destruct o as [items | entries].
  all: try (unfold OrdinaryToPrimitive;
            destruct (inherits_description_object _ _ _ Hinherits Hobj) as [_ ->];
            discriminate).
  - destruct (bool_decide _); discriminate.
  - destruct (bool_decide _); [discriminate |].
    pose proof (Hobjects _ _ Hobj) as Hitems. cbn in Hitems.
    clear Hobj. induction items as [|element items IHitems]; [discriminate |].
    cbn [forallb] in Hitems. apply andb_prop in Hitems as [Helement Hitems].
    cbn [join_elements].
    destruct element; try exact (IHitems Hitems);
      (intros H; apply bind_Throw in H as [H | [? [_ H]]];
       [exact (IH _ _ Helement H) | exact (IHitems Hitems H)]).
Qed.

(** The description of an object of such a store does not raise. *)
Lemma repr_value_inherited (h : heap) (l : loc) (o : object) :
  inherits_description h = true ->
  (forall l o, h !! l = Some o -> object_ok h o = true) ->
  h !! l = Some o ->
  repr_value h (JRef l) = Ok tt.
Proof.
  intros Hinherits Hobjects Hobj.
  assert (Hvalue : value_ok h (JRef l) = true)
    by (cbn; apply bool_decide_eq_true; eauto).
  assert (Hname : constructor_name h (JRef l) = Ok None).
  { cbn [constructor_name]. rewrite Hobj. destruct o as [items | entries]; [reflexivity |].
    destruct (inherits_description_object _ _ _ Hinherits Hobj) as [-> _]. reflexivity. }
  unfold repr_value. rewrite Hname. cbn [mbind completion_bind].
  destruct (ToString (S (size h)) h ∅ (JRef l)) as [[] | err |] eqn:H.
  - reflexivity.
  - exfalso. exact (ToString_inherited _ _ _ _ _ Hinherits Hobjects Hvalue H).
  - exfalso. exact (ToString_fuel _ _ H).
Qed.

(** The entries whose value is a map, and the others. *)
Definition is_section (h : heap) (entry : jvalue * jvalue) : bool :=
  match getValueType h entry.2 with
  | Ok MAP => true
  | _ => false
  end.

(** The grouping keeps the entries in their order within each group. *)
Lemma groupInput_Ok (h : heap) entries grouped grouped' :
  groupInput h entries grouped = Ok grouped' ->
  grouped' = (grouped.1 ++ List.filter (fun e => negb (is_section h e)) entries,
              grouped.2 ++ List.filter (is_section h) entries).
Proof.
  revert grouped grouped'.
  induction entries as [|entry entries IH]; intros [g1 g2] grouped' H; cbn in H.
  - injection H as <-. cbn. rewrite !app_nil_r. reflexivity.
  - apply bind_Ok in H as [t [Ht H]]. apply IH in H. rewrite H. clear H IH.
    assert (Hs : is_section h entry = match t with MAP => true | _ => false end)
      by (unfold is_section; rewrite Ht; reflexivity).
    cbn [List.filter]. rewrite Hs.
    destruct t;
      rewrite ?bool_decide_eq_true_2 by reflexivity;
      rewrite ?bool_decide_eq_false_2 by discriminate;
      cbn; rewrite <- ?app_assoc; reflexivity.
Qed.

Lemma groupInput_Throw (h : heap) entries grouped err :
  groupInput h entries grouped = Throw err ->
  exists entry, entry ∈ entries /\ getValueType h entry.2 = Throw err.
Proof.
  revert grouped. induction entries as [|entry entries IH]; intros grouped H; cbn in H.
  - discriminate.
  - apply bind_Throw in H as [H | [t [_ H]]].
    + exists entry. split; [left | exact H].
    + destruct (IH _ H) as (e & He & Hte). exists e. split; [right; exact He | exact Hte].
Qed.

Lemma elem_of_filter_groups (h : heap) (entries : list (jvalue * jvalue)) entry :
  entry ∈ List.filter (fun e => negb (is_section h e)) entries
            ++ List.filter (is_section h) entries
  <-> entry ∈ entries.
Proof.
  rewrite elem_of_app, !list_elem_of_In, !filter_In, <- !list_elem_of_In.
  destruct (is_section h entry); cbn; intuition discriminate.
Qed.

Lemma keyed_callback_Ok {B} (enc : encoder) (h : heap) R level flag
    (k : jsstring -> value_type -> list jsstring -> B) key value x R' :
  (key' ← checkKey h key;
   '(t, v, references) ← enc value R level flag;
   Ok (k key' t v, references)) = Ok (x, R') ->
  exists key' t v,
    checkKey h key = Ok key' /\ enc value R level flag = Ok (t, v, R') /\ x = k key' t v.
Proof.
  intros H. apply bind_Ok in H as [key' [Hkey H]].
  apply bind_Ok in H as [[[t v] R1] [Hv H]]. injection H as <- <-.
  exists key', t, v. auto.
Qed.

Lemma keyed_callback_Throw {B} (enc : encoder) (h : heap) R level flag
    (k : jsstring -> value_type -> list jsstring -> B) key value err :
  (key' ← checkKey h key;
   '(t, v, references) ← enc value R level flag;
   Ok (k key' t v, references)) = Throw err ->
  checkKey h key = Throw err \/ enc value R level flag = Throw err.
Proof.
  intros H. apply bind_Throw in H as [H | [key' [_ H]]]; [left; exact H |].
  apply bind_Throw in H as [H | [[[t v] R1] [_ H]]]; [right; exact H | discriminate].
Qed.

(** When [encodeArray] returns, each entry was encoded under the references
    with the array added. *)
Lemma encodeArray_Ok_child (enc : encoder) (h : heap) input R level result R' :
  preserves enc ->
  encodeArray enc h input R level = Ok (result, R') ->
  exists items,
    h !! input = Some (OArray items)
    /\ forall v, v ∈ items -> exists r, enc v (R ∪ {[input]}) level true = Ok r.
Proof.
  intros Henc H.
  destruct (encodeArray_Ok _ _ _ _ _ _ _ Henc H) as (_ & _ & items & encoded & Hobj & Hfrom & _).
  exists items. split; [exact Hobj |].
  intros v [k Hk]%list_elem_of_lookup.
  destruct (array_from_Ok _ _ _ _ _ _ (encodeArrayEntry_preserving enc level Henc) Hfrom)
    as (_ & _ & Hall).
  destruct (Hall k v Hk) as (x & _ & Hx).
  unfold encodeArrayEntry in Hx.
  apply bind_Ok in Hx as [r [Hr _]]. eauto.
Qed.

(** When [encodeMap] returns, the value of each entry was encoded under the
    references with the map added. *)
Lemma encodeMap_Ok_child (enc : encoder) (h : heap) input R level result R' :
  preserves enc ->
  encodeMap enc h input R level = Ok (result, R') ->
  exists entries,
    h !! input = Some (OMap entries)
    /\ forall key value, (key, value) ∈ entries ->
         exists flag r, enc value (R ∪ {[input]}) level flag = Ok r.
Proof.
  intros Henc H. unfold encodeMap in H.
  case_bool_decide as Hin; [exfalso; exact (quote_Ok _ _ _ _ H) |].
  apply bind_Ok in H as [[r R1] [H _]].
  assert (Hiter : forall entries, iterOverMap h input = Ok entries ->
                                  h !! input = Some (OMap entries)).
  { unfold iterOverMap. intros entries.
    destruct (h !! input) as [[|]|]; intros Hx; try discriminate.
    - exfalso. exact (quote_Ok _ _ _ _ Hx).
    - congruence. }
  destruct level as [|[|level]].
  - apply bind_Ok in H as [entries [Hentries H]].
    apply bind_Ok in H as [grouped [Hgrouped H]].
    apply bind_Ok in H as [[encoded R2] [Hfrom _]].
    exists entries. split; [auto |]. intros key value Hkv.
    apply groupInput_Ok in Hgrouped. subst grouped. cbn [fst snd app] in Hfrom.
    apply (elem_of_filter_groups h), list_elem_of_lookup in Hkv as [k Hk].
    destruct (array_from_Ok _ _ _ _ _ _ (encodeRootEntry_preserving enc _ _ Henc) Hfrom)
      as (_ & _ & Hall).
    destruct (Hall k _ Hk) as (x & _ & Hx).
    apply keyed_callback_Ok in Hx as (key' & t & v & _ & Hv & _). eauto.
  - apply bind_Ok in H as [entries [Hentries H]].
    apply bind_Ok in H as [[encoded R2] [Hfrom _]].
    exists entries. split; [auto |]. intros key value [k Hk]%list_elem_of_lookup.
    destruct (array_from_Ok _ _ _ _ _ _ (encodeSectionEntry_preserving enc _ _ Henc) Hfrom)
      as (_ & _ & Hall).
    destruct (Hall k _ Hk) as (x & _ & Hx).
    apply (keyed_callback_Ok enc _ _ _ _
             (fun key _ value => [key; str " = "] ++ value ++ [nl])) in Hx
      as (key' & t & v & _ & Hv & _). eauto.
  - apply bind_Ok in H as [entries [Hentries H]].
    apply bind_Ok in H as [[encoded R2] [Hfrom _]].
    exists entries. split; [auto |]. intros key value [k Hk]%list_elem_of_lookup.
    destruct (array_from_Ok _ _ _ _ _ _ (encodeInlineEntry_preserving enc _ _ Henc) Hfrom)
      as (_ & _ & Hall).
    destruct (Hall k _ Hk) as (x & _ & Hx).
    apply (keyed_callback_Ok enc _ _ _ _ (fun key _ value => (key, value))) in Hx
      as (key' & t & v & _ & Hv & _). eauto.
Qed.

(** What [encodeArray] throws: the circular reference to its input, or what
    the encoding of an entry throws. *)
Lemma encodeArray_Throw (enc : encoder) (h : heap) input R level items err :
  preserves enc ->
  h !! input = Some (OArray items) ->
  encodeArray enc h input R level = Throw err ->
  (input ∈ R
   /\ (repr_value h (JRef input) = Throw err
       \/ (repr_value h (JRef input) = Ok tt
           /\ err = ConfigError (CircularReference input))))
  \/ ((input ∉ R)
      /\ exists v, v ∈ items /\ enc v (R ∪ {[input]}) level true = Throw err).
Proof.
  intros Henc Hobj H. unfold encodeArray in H. rewrite Hobj in H.
  case_bool_decide as Hin; [left; split; [exact Hin | exact (quote_Throw _ _ _ _ H)] |].
  right. split; [exact Hin |].
  apply bind_Throw in H as [H | [[encoded R1] [_ H]]]; [| discriminate].
  apply array_from_Throw in H as (k & v & Hk & H);
    [| apply encodeArrayEntry_preserving; exact Henc].
  exists v. split; [apply list_elem_of_lookup; eauto |].
  unfold encodeArrayEntry in H.
  apply bind_Throw in H as [H | [[[t x] R1] [_ H]]]; [exact H | discriminate].
Qed.

(** What [encodeMap] throws: the circular reference to its input, or what
    the kind, the key or the encoding of an entry throws. *)
Lemma encodeMap_Throw (enc : encoder) (h : heap) input R level entries err :
  preserves enc ->
  h !! input = Some (OMap entries) ->
  encodeMap enc h input R level = Throw err ->
  (input ∈ R
   /\ (repr_value h (JRef input) = Throw err
       \/ (repr_value h (JRef input) = Ok tt
           /\ err = ConfigError (CircularReference input))))
  \/ ((input ∉ R)
      /\ exists key value,
           (key, value) ∈ entries
           /\ (getValueType h value = Throw err \/ checkKey h key = Throw err
               \/ exists flag, enc value (R ∪ {[input]}) level flag = Throw err)).
Proof.
  intros Henc Hobj H. unfold encodeMap in H.
  case_bool_decide as Hin; [left; split; [exact Hin | exact (quote_Throw _ _ _ _ H)] |].
  right. split; [exact Hin |].
  apply bind_Throw in H as [H | [[r R1] [_ H]]]; [| discriminate].
  unfold iterOverMap in H. rewrite Hobj in H. cbn [mbind completion_bind] in H.
  destruct level as [|[|level]].
  - apply bind_Throw in H as [H | [grouped [Hgrouped H]]].
    { apply groupInput_Throw in H as ([key value] & Hkv & H). exists key, value. auto. }
    apply bind_Throw in H as [H | [[encoded R1] [_ H]]]; [| discriminate].
    apply groupInput_Ok in Hgrouped. subst grouped. cbn [fst snd app] in H.
    apply array_from_Throw in H as (k & [key value] & Hk & H);
      [| apply encodeRootEntry_preserving; exact Henc].
    exists key, value. split.
    { apply (elem_of_filter_groups h). apply list_elem_of_lookup. eauto. }
    apply keyed_callback_Throw in H as [H | H]; eauto.
  - apply bind_Throw in H as [H | [[encoded R1] [_ H]]]; [| discriminate].
    apply array_from_Throw in H as (k & [key value] & Hk & H);
      [| apply encodeSectionEntry_preserving; exact Henc].
    exists key, value. split; [apply list_elem_of_lookup; eauto |].
    apply (keyed_callback_Throw enc _ _ _ _
             (fun key _ value => [key; str " = "] ++ value ++ [nl])) in H as [H | H]; eauto.
  - apply bind_Throw in H as [H | [[encoded R1] [_ H]]]; [| discriminate].
    apply array_from_Throw in H as (k & [key value] & Hk & H);
      [| apply encodeInlineEntry_preserving; exact Henc].
    exists key, value. split; [apply list_elem_of_lookup; eauto |].
    apply (keyed_callback_Throw enc _ _ _ _ (fun key _ value => (key, value))) in H
      as [H | H]; eauto.
Qed.

Section CycleSafety.

Variable LocalTZA : Z -> bool -> Z.
Variable h : heap.
Variable input : loc.
Hypothesis Hwf : well_formed h input = true.
Hypothesis Hinherits : inherits_description h = true.

(** The circular reference error is what is thrown at an object in
    progress: its description does not raise. *)
Lemma circular_reference_described (l : loc) (o : object) (err : error) :
  h !! l = Some o ->
  repr_value h (JRef l) = Throw err
  \/ (repr_value h (JRef l) = Ok tt /\ err = ConfigError (CircularReference l)) ->
  err = ConfigError (CircularReference l).
Proof.
  intros Hobj [H | [_ H]]; [| exact H].
  rewrite (repr_value_inherited h l o Hinherits) in H; [discriminate | | exact Hobj].
  intros l' o'. apply well_formed_object with input. exact Hwf.
Qed.

Lemma value_ok_getValueType (v : jvalue) :
  value_ok h v = true -> exists t, getValueType h v = Ok t.
Proof.
  destruct v as [| | | | | | l |]; cbn; intros H; try discriminate; eauto.
  apply bool_decide_eq_true in H as [[items | entries] ->]; eauto.
Qed.

Lemma key_ok_checkKey (key : jvalue) :
  key_ok h key = true -> exists key', checkKey h key = Ok key'.
Proof. unfold key_ok. destruct (checkKey h key); intros H; try discriminate. eauto. Qed.

(** The object about to be entered is reachable from the root, and from
    every object in progress by at least one step. *)
Definition on_path (R : gset loc) (v : jvalue) : Prop :=
  forall l, v = JRef l ->
    rtc (edge h) input l /\ forall r, r ∈ R -> tc (edge h) r l.

Lemma on_path_child (R : gset loc) (l : loc) (o : object) (v : jvalue) :
  on_path R (JRef l) -> h !! l = Some o -> v ∈ children o ->
  on_path (R ∪ {[l]}) v.
Proof.
  intros Hpath Hobj Hv l' ->.
  destruct (Hpath l eq_refl) as [Hreach Htc].
  assert (Hedge : edge h l l') by (exists o; auto).
  split.
  - eapply rtc_r; eauto.
  - intros r [Hr | ->%elem_of_singleton]%elem_of_union.
    + eapply tc_r; eauto.
    + apply tc_once. exact Hedge.
Qed.

(** In a well-formed store, [encodeValue] throws nothing but the circular
    reference error, and throws it only when there is a cycle. *)
Lemma encodeValue_Throw fuel v R level flag err :
  value_ok h v = true ->
  on_path R v ->
  encodeValue LocalTZA fuel h v R level flag = Throw err ->
  (exists l, err = ConfigError (CircularReference l)) /\ cyclic h input.
Proof.
  revert v R level flag.
  induction fuel as [|fuel IH]; intros v R level flag Hv Hpath H.
  - destruct v as [| | | | | | l |]; cbn in H; try discriminate.
    cbn in Hv. apply bool_decide_eq_true in Hv as [[items | entries] Hobj].
    all: rewrite Hobj in H; cbn in H; discriminate.
  - destruct v as [| | | | | | l |]; cbn in H; try discriminate.
    cbn in Hv. apply bool_decide_eq_true in Hv as [o Hobj].
    pose proof (well_formed_object _ _ _ _ Hwf Hobj) as Hok.
    rewrite Hobj in H. destruct o as [items | entries]; cbn in H.
    + apply bind_Throw in H as [H | [[r R1] [_ H]]]; [| discriminate].
      apply (encodeArray_Throw _ _ _ _ _ items) in H;
        [| apply encodeValue_preserves | exact Hobj].
      destruct H as [[Hin H] | [Hin (v & Hv & H)]].
      * apply (circular_reference_described _ _ _ Hobj) in H as ->.
        split; [eauto |]. exists l. destruct (Hpath l eq_refl). auto.
      * eapply IH; [| | exact H].
        -- eapply object_ok_child; eauto.
        -- eapply on_path_child; eauto.
    + apply bind_Throw in H as [H | [[r R1] [_ H]]]; [| discriminate].
      apply (encodeMap_Throw _ _ _ _ _ entries) in H;
        [| apply encodeValue_preserves | exact Hobj].
      destruct H as [[Hin H] | [Hin (key & value & Hkv & H)]].
      * apply (circular_reference_described _ _ _ Hobj) in H as ->.
        split; [eauto |]. exists l. destruct (Hpath l eq_refl). auto.
      * assert (Hchild : value ∈ children (OMap entries)).
        { cbn. apply list_elem_of_fmap. exists (key, value). auto. }
        pose proof (object_ok_child _ _ _ Hok Hchild) as Hvalue.
        destruct H as [H | [H | [flag' H]]].
        -- apply value_ok_getValueType in Hvalue as [t Ht]. congruence.
        -- pose proof (object_ok_key _ _ _ _ Hok Hkv) as Hkey.
           apply key_ok_checkKey in Hkey as [key' Hkey]. congruence.
        -- eapply IH; [exact Hvalue | | exact H].
           eapply on_path_child; eauto.
Qed.

(** The object [l] can be encoded while the objects of [R] are in
    progress. *)
Definition encodes_ok (l : loc) (R : gset loc) : Prop :=
  exists fuel level flag r, encodeValue LocalTZA fuel h (JRef l) R level flag = Ok r.

Lemma encodes_ok_fresh (l : loc) (R : gset loc) : encodes_ok l R -> l ∉ R.
Proof.
  intros (fuel & level & flag & r & H).
  destruct fuel as [|fuel]; cbn in H;
    destruct (h !! l) as [[items | entries] |]; cbn in H; try discriminate.
  - apply bind_Ok in H as [[x R1] [H _]].
    apply encodeArray_Ok in H; [tauto | apply encodeValue_preserves].
  - apply bind_Ok in H as [[x R1] [H _]].
    apply encodeMap_preserves in H; [tauto | apply encodeValue_preserves].
Qed.

Lemma encodes_ok_step (l l' : loc) (R : gset loc) :
  encodes_ok l R -> edge h l l' -> encodes_ok l' (R ∪ {[l]}).
Proof.
  intros (fuel & level & flag & r & H) (o & Hobj & Hchild).
  destruct fuel as [|fuel]; cbn in H; rewrite Hobj in H;
    destruct o as [items | entries]; cbn in H; try discriminate.
  - apply bind_Ok in H as [[x R1] [H _]].
    apply encodeArray_Ok_child in H as (items' & Hobj' & Hall);
      [| apply encodeValue_preserves].
    assert (items' = items) as -> by congruence.
    destruct (Hall _ Hchild) as [r' Hr']. exists fuel. eauto.
  - apply bind_Ok in H as [[x R1] [H _]].
    apply encodeMap_Ok_child in H as (entries' & Hobj' & Hall);
      [| apply encodeValue_preserves].
    assert (entries' = entries) as -> by congruence.
    cbn in Hchild. apply list_elem_of_fmap in Hchild as [[key value] [Hv Hkv]].
    cbn in Hv. subst value.
    destruct (Hall _ _ Hkv) as (flag' & r' & Hr'). exists fuel. eauto.
Qed.

Lemma encodes_ok_tc (l l' : loc) :
  tc (edge h) l l' ->
  forall R, encodes_ok l R -> exists R', l ∈ R' /\ R ⊆ R' /\ encodes_ok l' R'.
Proof.
  induction 1 as [l l' Hedge | l y l' Hedge _ IH]; intros R Hok.
  - exists (R ∪ {[l]}). split; [| split].
    + apply elem_of_union_r, elem_of_singleton. reflexivity.
    + apply union_subseteq_l.
    + apply encodes_ok_step; assumption.
  - destruct (IH (R ∪ {[l]})) as (R' & _ & Hsub & Hok').
    { apply encodes_ok_step; assumption. }
    exists R'. split; [| split; [| exact Hok']].
    + apply Hsub, elem_of_union_r, elem_of_singleton. reflexivity.
    + intros x Hx. apply Hsub, elem_of_union_l, Hx.
Qed.

Lemma encodes_ok_rtc (l l' : loc) :
  rtc (edge h) l l' ->
  forall R, encodes_ok l R -> exists R', encodes_ok l' R'.
Proof.
  intros [-> | Htc]%rtc_tc R Hok; [eauto |].
  destruct (encodes_ok_tc _ _ Htc R Hok) as (R' & _ & _ & Hok'). eauto.
Qed.

(** No cycle is reachable from an object that can be encoded. *)
Lemma encodes_ok_no_cycle (l l' : loc) (R : gset loc) :
  encodes_ok l R -> rtc (edge h) l l' -> tc (edge h) l' l' -> False.
Proof.
  intros Hok Hreach Hcycle.
  destruct (encodes_ok_rtc _ _ Hreach R Hok) as [R1 Hok1].
  destruct (encodes_ok_tc _ _ Hcycle R1 Hok1) as (R2 & Hin & _ & Hok2).
  exact (encodes_ok_fresh _ _ Hok2 Hin).
Qed.

Lemma tc_first_step (x z : loc) :
  tc (edge h) x z -> exists y, edge h x y /\ rtc (edge h) y z.
Proof.
  destruct 1 as [x z Hedge | x y z Hedge Htc].
  - exists z. split; [exact Hedge | apply rtc_refl].
  - exists y. split; [exact Hedge | apply tc_rtc, Htc].
Qed.

(** If [encode] returns, no cycle is reachable from its input. *)
Lemma encode_Ok_acyclic (text : jsstring) :
  encode LocalTZA h input = Ok text -> ~ cyclic h input.
Proof.
  unfold encode. intros H (l & Hreach & Hcycle).
  apply bind_Ok in H as [[r R1] [H _]].
  apply encodeMap_Ok_child in H as (entries & Hobj & Hall);
    [| apply encodeValue_preserves].
  assert (Hfirst : exists y, edge h input y /\ rtc (edge h) y l).
  { apply rtc_inv in Hreach as [-> | Hstep]; [| exact Hstep].
    apply tc_first_step, Hcycle. }
  destruct Hfirst as (y & (o & Hobj' & Hchild) & Hreach').
  assert (o = OMap entries) as -> by congruence.
  cbn in Hchild. apply list_elem_of_fmap in Hchild as [[key value] [Hv Hkv]].
  cbn in Hv. subst value.
  destruct (Hall _ _ Hkv) as (flag & r' & Hr').
  apply (encodes_ok_no_cycle y l (∅ ∪ {[input]})); [| exact Hreach' | exact Hcycle].
  exists (encode_fuel h), O, flag, r'. exact Hr'.
Qed.

(** If [encode] throws, it throws the circular reference error, and a cycle
    is reachable from its input. *)
Lemma encode_Throw_cyclic (err : error) :
  encode LocalTZA h input = Throw err ->
  (exists l, err = ConfigError (CircularReference l)) /\ cyclic h input.
Proof.
  unfold encode. intros H.
  apply bind_Throw in H as [H | [[r R1] [_ H]]]; [| discriminate].
  assert (Hroot : exists entries, h !! input = Some (OMap entries)).
  { unfold well_formed in Hwf. apply andb_prop in Hwf as [Hroot _].
    destruct (h !! input) as [[items | entries] |]; try discriminate. eauto. }
  destruct Hroot as [entries Hobj].
  pose proof (well_formed_object _ _ _ _ Hwf Hobj) as Hok.
  apply (encodeMap_Throw _ _ _ _ _ entries) in H;
    [| apply encodeValue_preserves | exact Hobj].
  destruct H as [[Hin _] | [_ (key & value & Hkv & H)]].
  { exfalso. exact (not_elem_of_empty _ Hin). }
  assert (Hchild : value ∈ children (OMap entries)).
  { cbn. apply list_elem_of_fmap. exists (key, value). auto. }
  pose proof (object_ok_child _ _ _ Hok Hchild) as Hvalue.
  destruct H as [H | [H | [flag H]]].
  - apply value_ok_getValueType in Hvalue as [t Ht]. congruence.
  - pose proof (object_ok_key _ _ _ _ Hok Hkv) as Hkey.
    apply key_ok_checkKey in Hkey as [key' Hkey]. congruence.
  - eapply encodeValue_Throw; [exact Hvalue | | exact H].
    apply (on_path_child ∅ input (OMap entries)); [| exact Hobj | exact Hchild].
    intros l' [= <-]. split; [apply rtc_refl |].
    intros r Hr. exfalso. exact (not_elem_of_empty _ Hr).
Qed.


End CycleSafety.

(** An array that contains itself. *)
Definition self_heap : heap :=
  list_to_map [(0%nat, OMap [(JString (str "a"), JRef 1%nat)]);
               (1%nat, OArray [JNumber (Finite 1 0); JRef 1%nat])].

(** An array and a table that contain each other. *)
Definition mutual_heap : heap :=
  list_to_map [(0%nat, OMap [(JString (str "a"), JRef 1%nat)]);
               (1%nat, OArray [JRef 2%nat]);
               (2%nat, OMap [(JString (str "k"), JRef 1%nat)])].

(** One array in two sibling positions, and once more inside a table. *)
Definition shared_heap : heap :=
  list_to_map [(0%nat, OMap [(JString (str "a"), JRef 1%nat);
                             (JString (str "b"), JRef 1%nat);
                             (JString (str "c"), JRef 2%nat)]);
               (1%nat, OArray [JNumber (Finite 1 0)]);
               (2%nat, OMap [(JString (str "d"), JRef 1%nat)])].

(** A table that contains itself under a key that is not valid, and a
    plain object that contains itself and has a property [constructor] that
    is [null]. *)
Definition invalid_key_cycle : heap :=
  list_to_map [(0%nat, OMap [(JString (str "a b"), JRef 0%nat)])].

Definition null_constructor_cycle : heap :=
  list_to_map [(0%nat, OMap [(JString (str "constructor"), JNull);
                             (JString (str "self"), JRef 0%nat)])].



Example encode_self_reference :
  encode UTC_zone self_heap 0%nat = Throw (ConfigError (CircularReference 1%nat)).
Proof. vm_compute. reflexivity. Qed.

Example encode_mutual_reference :
  encode UTC_zone mutual_heap 0%nat = Throw (ConfigError (CircularReference 1%nat)).
Proof. vm_compute. reflexivity. Qed.

(** An array that contains itself after a plain object whose [toString] is
    no function: the array cannot be described. *)
Example encode_cycle_description_raises :
  encode UTC_zone
    (list_to_map [(0%nat, OMap [(JString (str "a"), JRef 1%nat)]);
                  (1%nat, OArray [JRef 2%nat; JRef 1%nat]);
                  (2%nat, OMap [(JString (str "toString"), JNumber (Finite 1 0))])]) 0%nat
  = Throw TypeError.
Proof. vm_compute. reflexivity. Qed.

Example encode_shared_sibling :
  encode UTC_zone shared_heap 0%nat
  = Ok (str "a = [1]" ++ nl ++ str "b = [1]" ++ nl ++ nl ++ str "[c]" ++ nl ++ str "d = [1]").
Proof. vm_compute. reflexivity. Qed.

(** ** The root of a document *)

(** An encoded entry: its checked key, the kind of its value and the pieces
    of its encoded value. *)
Definition is_map_kind (e : jsstring * value_type * list jsstring) : bool :=
  bool_decide (e.1.2 = MAP).

(** The line of an entry that is not a section. *)
Definition entry_line (e : jsstring * value_type * list jsstring) : list jsstring :=
  [e.1.1; str " = "] ++ e.2 ++ [nl].

(** The lines of a section: its header, after a line feed (an empty line in
    the text) unless it opens the text, then its entries if it has any. *)
Definition section_block (opens_text : bool) (e : jsstring * value_type * list jsstring)
    : list jsstring :=
  [(if opens_text then [] else nl) ++ str "[" ++ e.1.1 ++ str "]"; nl]
  ++ match e.2 with
     | [] => []
     | value => value ++ [nl]
     end.

(** The text of the root, from its encoded entries in insertion order: the
    entries that are not sections, then the sections, each group in its
    order; the line feed that would end the text is left out. *)
Definition root_text (encoded : list (jsstring * value_type * list jsstring)) : jsstring :=
  let scalars := List.filter (fun e => negb (is_map_kind e)) encoded in
  let sections := List.filter is_map_kind encoded in
  join (concat (pop_last
    (map entry_line scalars
     ++ imap (fun j e => section_block ((j =? 0)%nat && (length scalars =? 0)%nat) e)
          sections))).

Lemma array_from_imap {A B} (f : A -> nat -> gset loc -> completion (B * gset loc))
    (g : nat -> A -> B) (items : list A) (i : nat) (R : gset loc) :
  (forall k e, items !! k = Some e -> f e (i + k)%nat R = Ok (g k e, R)) ->
  array_from f items i R = Ok (imap g items, R).
Proof.
  revert g i. induction items as [|e items IH]; intros g i H; cbn.
  - reflexivity.
  - pose proof (H O e eq_refl) as H0. rewrite Nat.add_0_r in H0.
    rewrite H0. cbn [mbind completion_bind].
    rewrite (IH (g ∘ S) (S i)); [reflexivity |].
    intros k e' Hk. replace (S i + k)%nat with (i + S k)%nat by lia.
    apply (H (S k)). exact Hk.
Qed.

Lemma groupInput_total (h : heap) entries :
  (forall entry, entry ∈ entries -> exists t, getValueType h entry.2 = Ok t) ->
  groupInput h entries ([], [])
  = Ok (List.filter (fun e => negb (is_section h e)) entries,
        List.filter (is_section h) entries).
Proof.
  intros Hall. destruct (groupInput h entries ([], [])) as [grouped | err |] eqn:H.
  - apply groupInput_Ok in H. rewrite H. reflexivity.
  - apply groupInput_Throw in H as (entry & Hentry & H).
    destruct (Hall _ Hentry) as [t Ht]. congruence.
  - exfalso. exact (groupInput_not_OutOfFuel _ _ _ H).
Qed.

(** C6, amended: at the root every entry whose value is not a table is
    rendered before every section, whatever the insertion order, each group
    in its order; the header of a section follows an empty line unless the
    section is the first entry rendered. *)
Theorem encode_root_layout :
  forall LocalTZA (h : heap) (input : loc) entries
         (key : jvalue * jvalue -> jsstring) (kind : jvalue * jvalue -> value_type)
         (value : jvalue * jvalue -> list jsstring),
    h !! input = Some (OMap entries) ->
    (forall entry, entry ∈ entries ->
       checkKey h entry.1 = Ok (key entry)
       /\ encodeValue LocalTZA (encode_fuel h) h entry.2 {[input]} 0 true
          = Ok (kind entry, value entry, {[input]})) ->
    encode LocalTZA h input
    = Ok (root_text (map (fun entry => (key entry, kind entry, value entry)) entries)).
Proof.
  intros LocalTZA h input entries key kind value Hobj Hall.
  assert (Hkind : forall entry, entry ∈ entries ->
                    is_section h entry = bool_decide (kind entry = MAP)).
  { intros entry Hentry. destruct (Hall _ Hentry) as [_ H].
    apply encodeValue_Ok in H as [H _]. unfold is_section. rewrite H.
    destruct (kind entry); reflexivity. }
  unfold encode, encodeMap.
  rewrite bool_decide_eq_false_2 by apply not_elem_of_empty.
  rewrite (left_id_L ∅ (∪)).
  unfold iterOverMap. rewrite Hobj. cbn [mbind completion_bind].
  rewrite groupInput_total; cycle 1.
  { intros entry Hentry. destruct (Hall _ Hentry) as [_ H].
    apply encodeValue_Ok in H as [H _]. eauto. }
  cbn [mbind completion_bind fst snd].
  set (scalars := List.filter (fun e => negb (is_section h e)) entries).
  set (sections := List.filter (is_section h) entries).
  rewrite (array_from_imap _
             (fun i entry => rootEntry i (key entry) (kind entry) (value entry))); cycle 1.
  { intros k [key0 value0] Hk. unfold encodeRootEntry.
    assert (Hentry : (key0, value0) ∈ entries).
    { apply (elem_of_filter_groups h). apply list_elem_of_lookup. eauto. }
    destruct (Hall _ Hentry) as [H1 H2]. cbn [fst snd] in H1, H2.
    rewrite H1. cbn [mbind completion_bind]. rewrite H2. reflexivity. }
  cbn [mbind completion_bind]. do 2 f_equal. unfold root_text. do 3 f_equal.
  set (F := fun entry => (key entry, kind entry, value entry)).
  assert (Hscalars : List.filter (fun e => negb (is_map_kind e)) (map F entries)
                     = map F scalars).
  { rewrite filter_map_swap. f_equal. apply filter_ext_in.
    intros entry Hentry%list_elem_of_In. rewrite (Hkind _ Hentry). reflexivity. }
  assert (Hsections : List.filter is_map_kind (map F entries) = map F sections).
  { rewrite filter_map_swap. f_equal. apply filter_ext_in.
    intros entry Hentry%list_elem_of_In. rewrite (Hkind _ Hentry). reflexivity. }
  rewrite Hscalars, Hsections, imap_app, length_map. f_equal.
  - rewrite map_map, <- imap_const. apply imap_ext.
    intros i entry Hi. unfold rootEntry, entry_line, F. cbn [fst snd].
    assert (Hin : entry ∈ scalars) by (apply list_elem_of_lookup; eauto).
    apply list_elem_of_In, filter_In in Hin as [Hin Hs%negb_true_iff].
    rewrite <- (Hkind entry), Hs by (apply list_elem_of_In; exact Hin). reflexivity.
  - change (map F sections) with (F <$> sections). rewrite imap_fmap. apply imap_ext.
    intros j entry Hj. unfold rootEntry, section_block, F, compose. cbn [fst snd].
    assert (Hin : entry ∈ sections) by (apply list_elem_of_lookup; eauto).
    apply list_elem_of_In, filter_In in Hin as [Hin Hs].
    rewrite <- (Hkind entry), Hs by (apply list_elem_of_In; exact Hin).
    destruct j as [|j], (length scalars) as [|n]; cbn -[str]; try reflexivity.
    all: destruct (value entry); reflexivity.
Qed.

(** A root with a section before an entry that is not one. *)
Definition root_heap : heap :=
  list_to_map [(0%nat, OMap [(JString (str "s"), JRef 1%nat);
                             (JString (str "x"), JNumber (Finite 1 0))]);
               (1%nat, OMap [])].

(** The theorem at [{s: {}, x: 1}]. *)
Lemma encode_root_layout_witness :
  encode UTC_zone root_heap 0%nat = Ok (str "x = 1" ++ nl ++ nl ++ str "[s]").
Proof.
  rewrite (encode_root_layout UTC_zone root_heap 0%nat
             [(JString (str "s"), JRef 1%nat); (JString (str "x"), JNumber (Finite 1 0))]
             (fun entry => match entry.1 with JString k => k | _ => [] end)
             (fun entry => match entry.2 with JRef _ => MAP | _ => NUMBER end)
             (fun entry => match entry.2 with JRef _ => [] | _ => [str "1"] end)).
  - reflexivity.
  - reflexivity.
  - intros entry Hentry.
    repeat (apply elem_of_cons in Hentry as [-> | Hentry]).
    + split; vm_compute; reflexivity.
    + split; vm_compute; reflexivity.
    + inversion Hentry.
Defined.

(** C6 as stated fails: the header of the first section follows an empty
    line when an entry that is not a section is rendered before it. *)
Lemma encode_first_section_after_blank_line :
  encode UTC_zone root_heap 0%nat = Ok (str "x = 1" ++ nl ++ nl ++ str "[s]").
Proof. vm_compute. reflexivity. Qed.

(** Without such an entry the first header opens the text, and an empty
    line precedes the next one. *)
Example encode_two_sections :
  encode UTC_zone
    (list_to_map [(0%nat, OMap [(JString (str "s"), JRef 1%nat);
                                (JString (str "t"), JRef 2%nat)]);
                  (1%nat, OMap [(JString (str "y"), JBool false)]);
                  (2%nat, OMap [])]) 0%nat
  = Ok (str "[s]" ++ nl ++ str "y = FALSE" ++ nl ++ nl ++ str "[t]").
Proof. vm_compute. reflexivity. Qed.

(** ** Fuel of the decoder *)

(** [m'] is what [m] is, unless [m] ran out of fuel. *)
Definition approx {A} (m m' : completion A) : Prop := m = OutOfFuel \/ m = m'.

Lemma approx_refl {A} (m : completion A) : approx m m.
Proof. right. reflexivity. Qed.

Lemma approx_trans {A} (m1 m2 m3 : completion A) :
  approx m1 m2 -> approx m2 m3 -> approx m1 m3.
Proof. intros [-> | ->] H; [left; reflexivity | exact H]. Qed.

Lemma approx_bind {A B} (m m' : completion A) (k k' : A -> completion B) :
  approx m m' -> (forall a, approx (k a) (k' a)) -> approx (m ≫= k) (m' ≫= k').
Proof.
  intros [-> | <-] Hk; [left; reflexivity |].
  destruct m as [a | e |]; cbn; [apply Hk | right; reflexivity | left; reflexivity].
Qed.

Lemma approx_at_entry {A} key (m m' : completion A) :
  approx m m' -> approx (at_entry key m) (at_entry key m').
Proof. intros [-> | <-]; [left; reflexivity | right; reflexivity]. Qed.

(** One more unit of fuel changes no result but the lack of fuel. *)
Ltac approx_step :=
  first
    [ apply approx_refl
    | assumption
    | match goal with
      | H : forall _, _ |- approx _ _ => apply H
      end
    | apply approx_bind; [| intros ?]
    | apply approx_at_entry
    | match goal with
      | |- approx (let '(_, _) := ?x in _) _ => destruct x
      | |- approx (if ?b then _ else _) _ => destruct b
      | |- approx (match ?x with _ => _ end) _ => destruct x
      end ].

Section DecoderFuel.

Variable LocalTZA : Z -> bool -> Z.

Lemma matchNext_body_approx (n n' : matchNext_type) (a a' : matchArray_type)
    (m m' : matchMap_type) :
  (forall cs ex ek st nl, approx (n cs ex ek st nl) (n' cs ex ek st nl)) ->
  (forall cs d r st ex, approx (a cs d r st ex) (a' cs d r st ex)) ->
  (forall cs r st ex, approx (m cs r st ex) (m' cs r st ex)) ->
  forall cs ex ek st nl,
    approx (matchNext_body LocalTZA n a m cs ex ek st nl)
           (matchNext_body LocalTZA n' a' m' cs ex ek st nl).
Proof.
  intros Hn Ha Hm cs ex ek st nl. unfold matchNext_body.
  repeat approx_step.
Qed.

Lemma matchArray_body_approx (n n' : matchNext_type) (a a' : matchArray_type) :
  (forall cs ex ek st nl, approx (n cs ex ek st nl) (n' cs ex ek st nl)) ->
  (forall cs d r st ex, approx (a cs d r st ex) (a' cs d r st ex)) ->
  forall cs d r st ex,
    approx (matchArray_body n a cs d r st ex) (matchArray_body n' a' cs d r st ex).
Proof.
  intros Hn Ha cs d r st ex. unfold matchArray_body.
  repeat approx_step.
Qed.

Lemma matchMap_body_approx (n n' : matchNext_type) (m m' : matchMap_type) :
  (forall cs ex ek st nl, approx (n cs ex ek st nl) (n' cs ex ek st nl)) ->
  (forall cs r st ex, approx (m cs r st ex) (m' cs r st ex)) ->
  forall cs r st ex,
    approx (matchMap_body n m cs r st ex) (matchMap_body n' m' cs r st ex).
Proof.
  intros Hn Hm cs r st ex. unfold matchMap_body.
  repeat approx_step.
Qed.

Lemma matchEntries_body_approx (n n' : matchNext_type) (l l' : matchEntries_type) :
  (forall cs ex ek st nl, approx (n cs ex ek st nl) (n' cs ex ek st nl)) ->
  (forall cs r t, approx (l cs r t) (l' cs r t)) ->
  forall cs r t,
    approx (matchEntries_body n l cs r t) (matchEntries_body n' l' cs r t).
Proof.
  intros Hn Hl cs r t. unfold matchEntries_body, matchEntryValue.
  repeat approx_step.
Qed.

Lemma decoder_fuel_succ (fuel : nat) :
  (forall cs ex ek st nl,
     approx (matchNext LocalTZA fuel cs ex ek st nl)
            (matchNext LocalTZA (S fuel) cs ex ek st nl))
  /\ (forall cs d r st ex,
        approx (matchArray LocalTZA fuel cs d r st ex)
               (matchArray LocalTZA (S fuel) cs d r st ex))
  /\ (forall cs r st ex,
        approx (matchMap LocalTZA fuel cs r st ex)
               (matchMap LocalTZA (S fuel) cs r st ex)).
Proof.
  induction fuel as [|fuel (IHn & IHa & IHm)].
  - repeat split; intros; left; reflexivity.
  - repeat split; intros.
    + apply (matchNext_body_approx _ _ _ _ _ _ IHn IHa IHm).
    + apply (matchArray_body_approx _ _ _ _ IHn IHa).
    + apply (matchMap_body_approx _ _ _ _ IHn IHm).
Qed.

(** More fuel changes no result but the lack of fuel. *)
Lemma matchNext_fuel_le (fuel fuel' : nat) cs ex ek st nl :
  (fuel <= fuel')%nat ->
  approx (matchNext LocalTZA fuel cs ex ek st nl)
         (matchNext LocalTZA fuel' cs ex ek st nl).
Proof.
  induction 1 as [|fuel' _ IH]; [apply approx_refl |].
  eapply approx_trans; [exact IH |]. apply decoder_fuel_succ.
Qed.

Lemma matchEntries_loop_fuel_succ (fuel : nat) cs r t :
  approx (matchEntries_loop LocalTZA fuel cs r t)
         (matchEntries_loop LocalTZA (S fuel) cs r t).
Proof.
  revert cs r t. induction fuel as [|fuel IH]; intros cs r t.
  - left; reflexivity.
  - apply matchEntries_body_approx; [| exact IH].
    intros. apply decoder_fuel_succ.
Qed.

Lemma matchEntries_loop_fuel_le (fuel fuel' : nat) cs r t :
  (fuel <= fuel')%nat ->
  approx (matchEntries_loop LocalTZA fuel cs r t)
         (matchEntries_loop LocalTZA fuel' cs r t).
Proof.
  induction 1 as [|fuel' _ IH]; [apply approx_refl |].
  eapply approx_trans; [exact IH |]. apply matchEntries_loop_fuel_succ.
Qed.

End DecoderFuel.

(** ** Termination of the decoder *)

(** [m] does not run out of fuel, and what it returns satisfies [P]. *)
Definition satisfies {A} (m : completion A) (P : A -> Prop) : Prop :=
  m <> OutOfFuel /\ forall a, m = Ok a -> P a.

Lemma satisfies_Ok {A} (a : A) (P : A -> Prop) : P a -> satisfies (Ok a) P.
Proof. intros H. split; [discriminate |]. intros a' [= <-]. exact H. Qed.

Lemma satisfies_Throw {A} (e : error) (P : A -> Prop) : satisfies (Throw e) P.
Proof. split; discriminate. Qed.

Lemma satisfies_bind {A B} (m : completion A) (k : A -> completion B)
    (P : A -> Prop) (Q : B -> Prop) :
  satisfies m P -> (forall a, P a -> satisfies (k a) Q) -> satisfies (m ≫= k) Q.
Proof.
  intros [Hm HP] Hk. destruct m as [a | e |]; cbn.
  - apply Hk, HP. reflexivity.
  - apply satisfies_Throw.
  - congruence.
Qed.

Lemma satisfies_weaken {A} (m : completion A) (P Q : A -> Prop) :
  satisfies m P -> (forall a, P a -> Q a) -> satisfies m Q.
Proof. intros [Hm HP] HPQ. split; [exact Hm |]. intros a Ha. apply HPQ, HP, Ha. Qed.

(** The characters left to read, the one handed over as [start] counted. *)
Definition vlen (start : jsstring) (characters : stream) : nat :=
  (stream_length characters + match start with [] => 0 | _ => 1 end)%nat.

Lemma matchUntil_loop_spec characters delimiters endOfInput result isEscaped :
  satisfies (matchUntil_loop characters delimiters endOfInput result isEscaped)
    (fun r => (vlen r.1.2 r.2 <= stream_length characters)%nat).
Proof.
  revert result isEscaped.
  induction characters as [| | c rest IH]; intros result isEscaped; cbn [matchUntil_loop].
  - destruct endOfInput; [apply satisfies_Ok; cbn; lia | apply satisfies_Throw].
  - apply satisfies_Throw.
  - assert (Hrec : forall result isEscaped,
               satisfies (matchUntil_loop rest delimiters endOfInput result isEscaped)
                 (fun r => (vlen r.1.2 r.2 <= stream_length (SYield c rest))%nat)).
    { intros. eapply satisfies_weaken; [apply IH |]. cbn. intros; lia. }
    destruct isEscaped; [apply Hrec |].
    destruct (jsstring_eqb c [92]); [apply Hrec |].
    destruct (includes delimiters c); [| apply Hrec].
    apply satisfies_Ok. unfold vlen. cbn. destruct c; lia.
Qed.

Lemma matchUntil_spec characters delimiters endOfInput start :
  satisfies (matchUntil characters delimiters endOfInput start)
    (fun r => (vlen r.1.2 r.2 <= vlen start characters)%nat).
Proof.
  unfold matchUntil. eapply satisfies_weaken; [apply matchUntil_loop_spec |].
  intros [[text d] cs']. unfold vlen. destruct start; cbn; lia.
Qed.

Lemma checkMatch_spec expected characters character type :
  satisfies (checkMatch expected characters character type) (fun _ => type ∈ expected).
Proof.
  unfold checkMatch. case_bool_decide as H; [apply satisfies_Ok; exact H |].
  eapply satisfies_bind; [apply matchUntil_spec |].
  intros [[reached d] cs'] _. apply satisfies_Throw.
Qed.

Lemma unexpected_delimiter_spec {A} what characters found suffix (P : A -> Prop) :
  satisfies (unexpected_delimiter what characters found suffix) P.
Proof.
  unfold unexpected_delimiter.
  eapply satisfies_bind; [apply matchUntil_spec |].
  intros [[reached d] cs'] _. apply satisfies_Throw.
Qed.

Lemma next_spec characters :
  satisfies (next characters)
    (fun r => match r.1 with
              | Some _ => stream_length characters = S (stream_length r.2)
              | None => stream_length characters = O /\ stream_length r.2 = O
              end).
Proof.
  destruct characters; cbn; [apply satisfies_Ok | apply satisfies_Throw | apply satisfies_Ok];
    cbn; auto.
Qed.

(** What a grammar call returns with: a value or a key, and the characters
    left, the end character counted, are within [bound]. *)
Definition leaf_post (type : token_class) (bound : nat) (r : entry * stream) : Prop :=
  entry_type r.1 = type /\ (vlen (entry_end r.1) r.2 <= bound)%nat.

Lemma matchKey_spec characters start level :
  satisfies (matchKey characters start level) (leaf_post KEY (stream_length characters)).
Proof.
  unfold matchKey.
  eapply satisfies_bind; [apply matchUntil_spec |].
  intros [[match0 match1] cs'] Hlen. cbn in Hlen.
  eapply satisfies_bind with (P := fun _ => True).
  - destruct (jsstring_eqb start [91]); [| apply satisfies_Ok; exact I].
    destruct level; [| apply satisfies_Throw].
    destruct (negb _); [| apply satisfies_Ok; exact I].
    eapply satisfies_bind; [apply matchUntil_spec |].
    intros [[reached d] cs''] _. apply satisfies_Throw.
  - intros [match0' start'] _. destruct match0'; [apply satisfies_Throw |].
    apply satisfies_Ok. split; [reflexivity |]. cbn. unfold vlen in *. cbn in Hlen. lia.
Qed.

Lemma matchString_spec characters delimiter :
  satisfies (matchString characters delimiter)
    (leaf_post VALUE (stream_length characters)).
Proof.
  unfold matchString.
  eapply satisfies_bind; [apply matchUntil_spec |].
  intros [[match0 match1] cs'] Hlen. cbn in Hlen.
  apply satisfies_Ok. split; [reflexivity |]. unfold vlen in *. cbn in *. lia.
Qed.

Lemma matchDate_spec LocalTZA raw end_ :
  satisfies (matchDate LocalTZA raw end_)
    (fun e => entry_type e = VALUE /\ entry_end e = end_).
Proof.
  unfold matchDate. destruct (match_date_regex raw) as [m |]; [| apply satisfies_Throw].
  destruct (dm_time m) as [[[h min] s] |];
    (destruct (_ || _); [apply satisfies_Throw |]);
    apply satisfies_Ok; auto.
Qed.

Lemma parseNumber_spec negative raw end_ :
  satisfies (parseNumber negative raw end_)
    (fun e => entry_type e = VALUE /\ entry_end e = end_).
Proof.
  unfold parseNumber.
  repeat (match goal with
          | |- satisfies (if ?b then _ else _) _ => destruct b
          end);
    try apply satisfies_Throw; apply satisfies_Ok; auto.
Qed.

Lemma matchNumber_spec LocalTZA characters start :
  satisfies (matchNumber LocalTZA characters start)
    (leaf_post VALUE (stream_length characters)).
Proof.
  unfold matchNumber.
  eapply satisfies_bind; [apply matchUntil_spec |].
  intros [[raw end_] cs'] Hlen. cbn in Hlen.
  eapply satisfies_bind.
  - destruct (bool_decide _); [apply matchDate_spec | apply parseNumber_spec].
  - intros e [Htype Hend]. apply satisfies_Ok. split; [exact Htype |].
    cbn. rewrite Hend. unfold vlen in *. cbn in Hlen. lia.
Qed.

Lemma matchKeyword_spec characters start :
  satisfies (matchKeyword characters start)
    (leaf_post VALUE (stream_length characters)).
Proof.
  unfold matchKeyword.
  eapply satisfies_bind; [apply matchUntil_spec |].
  intros [[raw end_] cs'] Hlen. cbn in Hlen.
  match goal with
  | |- satisfies (match ?k with _ => _ end) _ => destruct k
  end; [| apply satisfies_Throw].
  apply satisfies_Ok. split; [reflexivity |]. cbn. unfold vlen in *. cbn in Hlen. lia.
Qed.

(** What [matchNext] returns with: a token of a class awaited; characters
    were read unless the end of input was reached, and after a value the
    characters left, the end character counted, are fewer than before. *)
Definition next_post (expected : list token_class) (bound : nat) (r : entry * stream)
    : Prop :=
  entry_type r.1 ∈ expected
  /\ (stream_length r.2 <= bound)%nat
  /\ (entry_type r.1 <> END_OF_INPUT -> (stream_length r.2 < bound)%nat)
  /\ (entry_type r.1 = VALUE -> (vlen (entry_end r.1) r.2 < bound)%nat).

Definition next_ok (L : nat) (f : matchNext_type) : Prop :=
  forall cs ex ek st nl,
    (vlen st cs <= L)%nat -> satisfies (f cs ex ek st nl) (next_post ex (vlen st cs)).

(** What [matchArray] and [matchMap] return with: a value with no end
    character. *)
Definition collection_post (bound : nat) (r : entry * stream) : Prop :=
  entry_type r.1 = VALUE /\ entry_end r.1 = [] /\ (stream_length r.2 <= bound)%nat.

Definition array_ok (L : nat) (f : matchArray_type) : Prop :=
  forall cs d r st ex,
    (vlen st cs <= L)%nat -> satisfies (f cs d r st ex) (collection_post (vlen st cs)).

Definition map_ok (L : nat) (f : matchMap_type) : Prop :=
  forall cs r st ex,
    (vlen st cs <= L)%nat -> satisfies (f cs r st ex) (collection_post (vlen st cs)).

Definition entries_ok (L : nat) (f : matchEntries_type) : Prop :=
  forall cs r t, (stream_length cs <= L)%nat -> f cs r t <> OutOfFuel.

Lemma next_post_weaken expected bound bound' r :
  (bound <= bound')%nat -> next_post expected bound r -> next_post expected bound' r.
Proof.
  intros Hle (H1 & H2 & H3 & H4). repeat split; [exact H1 | lia | |].
  - intros H. specialize (H3 H). lia.
  - intros H. specialize (H4 H). lia.
Qed.

Lemma leaf_next_post type expected bound (m : completion (entry * stream)) :
  type ∈ expected -> type <> END_OF_INPUT ->
  satisfies m (leaf_post type bound) ->
  satisfies m (next_post expected (S bound)).
Proof.
  intros Hin Hne Hm. eapply satisfies_weaken; [exact Hm |].
  intros [e cs'] [Htype Hlen]. cbn in *. unfold vlen in *.
  repeat split; cbn; rewrite ?Htype; auto; intros; destruct (entry_end e); lia.
Qed.

Section DecoderTermination.

Variable LocalTZA : Z -> bool -> Z.

Lemma matchNext_body_ok (L : nat) (n : matchNext_type) (a : matchArray_type)
    (m : matchMap_type) :
  (forall L', (L' < L)%nat -> next_ok L' n /\ array_ok L' a /\ map_ok L' m) ->
  next_ok L (matchNext_body LocalTZA n a m).
Proof.
  intros Hrec cs ex ek st nl Hlen. unfold matchNext_body.
  eapply satisfies_bind with
    (P := fun r => match r.1 with
                   | Some _ => vlen st cs = S (stream_length r.2)
                   | None => vlen st cs = O /\ stream_length r.2 = O
                   end).
  { destruct st as [|u st].
    - eapply satisfies_weaken; [apply next_spec |].
      intros [[c |] cs']; unfold vlen; cbn; lia.
    - apply satisfies_Ok. unfold vlen. cbn. lia. }
  intros [[start |] cs1] Hcs1; cbn in Hcs1.
  2:{ eapply satisfies_bind; [apply checkMatch_spec |].
      intros ? Hin. cbn beta in Hin. apply satisfies_Ok. destruct Hcs1 as [H0 H1].
      repeat split; cbn; auto; try lia; intros; congruence. }
  rewrite Hcs1.
  assert (Hnext : forall ex ek nl cs2,
             (stream_length cs2 <= stream_length cs1)%nat ->
             satisfies (n cs2 ex ek [] nl) (next_post ex (S (stream_length cs1)))).
  { intros ex' ek' nl' cs2 Hcs2.
    destruct (Hrec (stream_length cs1)) as (Hn & _ & _); [lia |].
    eapply satisfies_weaken; [apply Hn; unfold vlen; cbn; lia |].
    intros r. apply next_post_weaken. unfold vlen. cbn. lia. }
  destruct (matches _ start).
  { eapply satisfies_bind; [apply checkMatch_spec |]. intros ? Hin. cbn beta in Hin.
    eapply satisfies_bind with (P := fun cs2 => (stream_length cs2 <= stream_length cs1)%nat).
    - destruct (matches _ start); [| apply satisfies_Ok; lia].
      eapply satisfies_bind; [apply matchUntil_spec |].
      intros [[text d] cs2] Hcs2. apply satisfies_Ok. unfold vlen in Hcs2. cbn in *. lia.
    - intros cs2 Hcs2. destruct nl; [| apply Hnext; exact Hcs2].
      apply satisfies_Ok. repeat split; cbn; auto; try lia; intros; congruence. }
  destruct (matches _ start); [apply Hnext; lia |].
  destruct (matches _ start).
  { eapply satisfies_bind; [apply checkMatch_spec |]. intros ? Hin. cbn beta in Hin.
    apply satisfies_Ok. repeat split; cbn; auto; try lia; intros; congruence. }
  destruct (matches _ start).
  { eapply satisfies_bind; [apply checkMatch_spec |]. intros ? Hin. cbn beta in Hin.
    apply satisfies_Ok. repeat split; cbn; auto; try lia; intros; congruence. }
  destruct ek as [level |].
  { eapply satisfies_bind; [apply checkMatch_spec |]. intros ? Hin. cbn beta in Hin.
    apply (leaf_next_post KEY); [exact Hin | discriminate | apply matchKey_spec]. }
  destruct (matches _ start).
  { eapply satisfies_bind; [apply checkMatch_spec |]. intros ? Hin. cbn beta in Hin.
    apply (leaf_next_post VALUE); [exact Hin | discriminate | apply matchString_spec]. }
  destruct (matches _ start).
  { eapply satisfies_bind; [apply checkMatch_spec |]. intros ? Hin. cbn beta in Hin.
    apply (leaf_next_post VALUE); [exact Hin | discriminate | apply matchNumber_spec]. }
  destruct (matches _ start).
  { eapply satisfies_bind; [apply checkMatch_spec |]. intros ? Hin. cbn beta in Hin.
    apply (leaf_next_post VALUE); [exact Hin | discriminate | apply matchKeyword_spec]. }
  destruct (matches _ start).
  { eapply satisfies_bind; [apply checkMatch_spec |]. intros ? Hin. cbn beta in Hin.
    destruct (Hrec (stream_length cs1)) as (_ & Ha & _); [lia |].
    apply (leaf_next_post VALUE); [exact Hin | discriminate |].
    eapply satisfies_weaken; [apply Ha; unfold vlen; cbn; lia |].
    intros [e cs'] (Htype & Hend & Hcs'). cbn in *.
    split; [exact Htype |]. cbn. rewrite Hend. unfold vlen in *. cbn in *. lia. }
  destruct (matches _ start).
  { eapply satisfies_bind; [apply checkMatch_spec |]. intros ? Hin. cbn beta in Hin.
    destruct (Hrec (stream_length cs1)) as (_ & _ & Hm); [lia |].
    apply (leaf_next_post VALUE); [exact Hin | discriminate |].
    eapply satisfies_weaken; [apply Hm; unfold vlen; cbn; lia |].
    intros [e cs'] (Htype & Hend & Hcs'). cbn in *.
    split; [exact Htype |]. cbn. rewrite Hend. unfold vlen in *. cbn in *. lia. }
  eapply satisfies_bind; [apply checkMatch_spec |]. intros ? _. apply satisfies_Throw.
Qed.

Lemma matchArray_body_ok (L : nat) (n : matchNext_type) (a : matchArray_type) :
  next_ok L n ->
  (forall L', (L' < L)%nat -> array_ok L' a) ->
  array_ok L (matchArray_body n a).
Proof.
  intros Hn Ha cs d r st ex Hlen. unfold matchArray_body.
  eapply satisfies_bind; [apply Hn; exact Hlen |].
  intros [entry cs1] (Hin & Hle & Hlt & Hvalue). cbn in *.
  assert (Hrec : forall r st' ex',
             (vlen st' cs1 < vlen st cs)%nat ->
             satisfies (a cs1 d r st' ex') (collection_post (vlen st cs))).
  { intros r' st' ex' Hst'.
    eapply satisfies_weaken; [apply (Ha (vlen st' cs1)); lia |].
    intros [e cs'] (H1 & H2 & H3). repeat split; auto. cbn in *. lia. }
  destruct (entry_type entry) eqn:Htype;
    try (destruct (bool_decide _);
         [apply satisfies_Ok; repeat split; cbn; auto; lia
         | apply unexpected_delimiter_spec]).
  - apply Hrec. apply Hvalue. reflexivity.
  - apply Hrec. unfold vlen at 1. cbn. specialize (Hlt ltac:(discriminate)). lia.
Qed.

Lemma matchMap_body_ok (L : nat) (n : matchNext_type) (m : matchMap_type) :
  next_ok L n ->
  (forall L', (L' < L)%nat -> map_ok L' m) ->
  map_ok L (matchMap_body n m).
Proof.
  intros Hn Hm cs r st ex Hlen. unfold matchMap_body.
  eapply satisfies_bind; [apply Hn; exact Hlen |].
  intros [entryKey cs1] (Hin & Hle & Hlt & _). cbn in *.
  assert (Hrec : forall cs2 r st' ex',
             (vlen st' cs2 < vlen st cs)%nat ->
             satisfies (m cs2 r st' ex') (collection_post (vlen st cs))).
  { intros cs2 r' st' ex' Hst'.
    eapply satisfies_weaken; [apply (Hm (vlen st' cs2)); lia |].
    intros [e cs'] (H1 & H2 & H3). repeat split; auto. cbn in *. lia. }
  assert (Hentry :
            satisfies
              (if negb (jsstring_eqb (entry_end entryKey) [61])
               then unexpected_delimiter
                      (str "assignment character " ++ repr [61] 60 ++ str " ")
                      cs1 (entry_end entryKey) []
               else
                 '(entryValue, characters) ← n cs1 [VALUE] None [] false;
                 m characters (map_set (entry_key entryKey) (entry_value entryValue) r)
                   (entry_end entryValue) [LIST_DIVIDER; LIST_DELIMITER; NEW_LINE])
              (collection_post (vlen st cs))).
  { destruct (negb _); [apply unexpected_delimiter_spec |].
    eapply satisfies_bind; [apply Hn; unfold vlen; cbn; lia |].
    intros [entryValue cs2] (Hin2 & _ & _ & Hvalue2). cbn in *.
    apply Hrec. apply list_elem_of_singleton in Hin2.
    specialize (Hvalue2 Hin2). unfold vlen in *. cbn in *. lia. }
  destruct (entry_type entryKey) eqn:Htype; try exact Hentry.
  - apply Hrec. unfold vlen at 1. cbn. specialize (Hlt ltac:(discriminate)). lia.
  - clear Hentry.
    destruct (jsstring_eqb (entry_end entryKey) [125]);
      [| apply unexpected_delimiter_spec].
    apply satisfies_Ok. repeat split; cbn; auto; lia.
Qed.

Lemma matchEntryValue_spec (L : nat) (n : matchNext_type) cs :
  next_ok L n -> (stream_length cs <= L)%nat ->
  satisfies (matchEntryValue n cs)
    (fun r => (stream_length r.2 < stream_length cs)%nat).
Proof.
  intros Hn Hlen. unfold matchEntryValue.
  eapply satisfies_bind; [apply Hn; unfold vlen; cbn; lia |].
  intros [entryValue cs1] (Hin & _ & _ & Hvalue). cbn in *.
  apply list_elem_of_singleton in Hin. specialize (Hvalue Hin).
  destruct (negb _).
  - eapply satisfies_bind; [apply Hn; unfold vlen in *; cbn in *; lia |].
    intros [e cs2] (_ & Hle & _). apply satisfies_Ok.
    unfold vlen in *. cbn in *. lia.
  - apply satisfies_Ok. unfold vlen in *. cbn in *. lia.
Qed.

Lemma at_entry_spec {A} key (m : completion A) (P : A -> Prop) :
  satisfies m P -> satisfies (at_entry key m) P.
Proof.
  intros [Hm HP]. destruct m as [a | [[] |] |]; cbn; try (split; [discriminate |]; auto).
  all: try (intros; discriminate). congruence.
Qed.

Lemma matchEntries_body_ok (L : nat) (n : matchNext_type) (l : matchEntries_type) :
  next_ok L n ->
  (forall L', (L' < L)%nat -> entries_ok L' l) ->
  entries_ok L (matchEntries_body n l).
Proof.
  intros Hn Hl cs r t Hlen.
  enough (H : satisfies (matchEntries_body n l cs r t) (fun _ => True)) by apply H.
  unfold matchEntries_body.
  eapply satisfies_bind; [apply Hn; unfold vlen; cbn; lia |].
  intros [entryKey cs1] (_ & Hle & Hlt & _). cbn in *. unfold vlen in Hle, Hlt. cbn in *.
  case_bool_decide as Htype; [apply satisfies_Ok; exact I |].
  specialize (Hlt Htype).
  destruct (jsstring_eqb _ [93]).
  { split; [| auto]. apply (Hl (stream_length cs1)); lia. }
  destruct (negb _); [apply unexpected_delimiter_spec |].
  eapply satisfies_bind.
  { apply at_entry_spec. apply (matchEntryValue_spec L); [exact Hn | lia]. }
  intros [entryValue cs2] Hcs2. cbn in Hcs2.
  destruct (target_set _ _ _ _) as [r' t'].
  split; [| auto]. apply (Hl (stream_length cs2)); lia.
Qed.

(** With two units of fuel for each character left and one more (two more
    for the loops), the parsers do not run out of fuel. *)
Lemma decoder_total (fuel : nat) :
  forall L,
    ((2 * L + 1 <= fuel)%nat -> next_ok L (matchNext LocalTZA fuel))
    /\ ((2 * L + 2 <= fuel)%nat -> array_ok L (matchArray LocalTZA fuel))
    /\ ((2 * L + 2 <= fuel)%nat -> map_ok L (matchMap LocalTZA fuel)).
Proof.
  induction fuel as [|fuel IH]; intros L.
  - split; [| split]; intros; lia.
  - split; [| split]; intros Hfuel.
    + apply matchNext_body_ok. intros L' HL'.
      destruct (IH L') as (Hn & Ha & Hm).
      split; [| split]; [apply Hn | apply Ha | apply Hm]; lia.
    + apply matchArray_body_ok.
      * apply IH. lia.
      * intros L' HL'. apply IH. lia.
    + apply matchMap_body_ok.
      * apply IH. lia.
      * intros L' HL'. apply IH. lia.
Qed.

Lemma matchEntries_loop_total (fuel : nat) :
  forall L, (2 * L + 2 <= fuel)%nat -> entries_ok L (matchEntries_loop LocalTZA fuel).
Proof.
  induction fuel as [|fuel IH]; intros L Hfuel; [lia |].
  apply matchEntries_body_ok.
  - apply decoder_total. lia.
  - intros L' HL'. apply IH. lia.
Qed.

(** [matchEntries] returns or throws on every sequence of characters. *)
Lemma matchEntries_not_OutOfFuel characters :
  matchEntries LocalTZA characters <> OutOfFuel.
Proof.
  unfold matchEntries, decode_fuel.
  apply (matchEntries_loop_total _ (stream_length characters)); lia.
Qed.

(** Above the fuel [matchEntries] takes, the fuel does not matter. *)
Lemma matchEntries_loop_fuel (fuel : nat) characters :
  (decode_fuel characters <= fuel)%nat ->
  matchEntries_loop LocalTZA fuel characters [] None = matchEntries LocalTZA characters.
Proof.
  intros Hfuel. symmetry.
  destruct (matchEntries_loop_fuel_le LocalTZA _ _ characters [] None Hfuel) as [H | H].
  - exfalso. exact (matchEntries_not_OutOfFuel _ H).
  - exact H.
Qed.

End DecoderTermination.

(** [decode] returns or throws on every input. *)
Lemma decode_not_OutOfFuel LocalTZA (input : input) : decode LocalTZA input <> OutOfFuel.
Proof. destruct input; apply matchEntries_not_OutOfFuel. Qed.

(** ** Chunks of UTF-8

    A text is a sequence of scalar values; as a string it is its UTF-16
    code units, as bytes its UTF-8 encoding. *)

(** A scalar value: a code point that is no surrogate. *)
Definition is_scalar_value (cp : Z) : bool :=
  ((0 <=? cp) && (cp <? 0xD800)) || ((0xE000 <=? cp) && (cp <=? 0x10FFFF)).

(** The UTF-8 encoding of a scalar value. *)
Definition utf8_bytes (cp : Z) : list Z :=
  if cp <? 0x80 then [cp]
  else if cp <? 0x800 then [0xC0 + cp / 0x40; 0x80 + cp mod 0x40]
  else if cp <? 0x10000
  then [0xE0 + cp / 0x1000; 0x80 + cp / 0x40 mod 0x40; 0x80 + cp mod 0x40]
  else [0xF0 + cp / 0x40000; 0x80 + cp / 0x1000 mod 0x40;
        0x80 + cp / 0x40 mod 0x40; 0x80 + cp mod 0x40].

(** The UTF-8 encoding of a text. *)
Definition utf8_encode (text : list Z) : list Z := concat (map utf8_bytes text).

(** A text without the byte order mark it starts with, if it does. *)
Definition drop_BOM (text : list Z) : list Z :=
  match text with
  | cp :: rest => if cp =? 0xFEFF then rest else text
  | [] => []
  end.

Lemma land_ones_mod (a n : Z) : 0 <= n -> Z.land a (Z.ones n) = a mod 2 ^ n.
Proof. apply Z.land_ones. Qed.

Lemma testbit_below (b n i : Z) : 0 <= b < 2 ^ n -> 0 <= n <= i -> Z.testbit b i = false.
Proof.
  intros Hb Hn. rewrite <- (Z.mod_small b (2 ^ n)) by exact Hb.
  apply Z.mod_pow2_bits_high. exact Hn.
Qed.

(** Six more bits, put below the ones read so far. *)
Lemma lor_shiftl_6 (a b : Z) : 0 <= b < 64 -> Z.lor (Z.shiftl a 6) b = a * 64 + b.
Proof.
  intros Hb. rewrite Z.shiftl_mul_pow2 by lia.
  rewrite <- Z.lxor_lor, <- Z.add_nocarry_lxor; try reflexivity.
  all: apply Z.bits_inj'; intros i Hi; rewrite Z.land_spec, Z.bits_0.
  all: destruct (Z.lt_ge_cases i 6) as [Hlt | Hge];
    [ rewrite Z.mul_pow2_bits_low by lia; reflexivity
    | rewrite (testbit_below b 6 i) by (cbn; lia); apply andb_false_r ].
Qed.

Lemma continuation_bits (byte : Z) : Z.land byte 0x3F = byte mod 64.
Proof. apply (land_ones_mod byte 6). lia. Qed.

Lemma lead_bits_2 (byte : Z) : Z.land byte 0x1F = byte mod 32.
Proof. apply (land_ones_mod byte 5). lia. Qed.

Lemma lead_bits_3 (byte : Z) : Z.land byte 0xF = byte mod 16.
Proof. apply (land_ones_mod byte 4). lia. Qed.

Lemma lead_bits_4 (byte : Z) : Z.land byte 0x7 = byte mod 8.
Proof. apply (land_ones_mod byte 3). lia. Qed.

(** The tests of the decoder on a byte in a known range. *)
Ltac settle_tests :=
  repeat first
    [ rewrite Z.eqb_refl
    | match goal with
      | |- context [?a <=? ?b] =>
          first [ rewrite (proj2 (Z.leb_le a b)) by lia
                | rewrite (proj2 (Z.leb_gt a b)) by lia ]
      | |- context [?a =? ?b] =>
          first [ rewrite (proj2 (Z.eqb_eq a b)) by lia
                | rewrite (proj2 (Z.eqb_neq a b)) by lia ]
      end
    | progress cbn [andb orb negb code_point bytes_seen bytes_needed
                    lower_boundary upper_boundary] ].

Lemma utf8_run_1 (b1 : Z) :
  0 <= b1 <= 0x7F -> utf8_run utf8_initial [b1] = (utf8_initial, [b1]).
Proof.
  intros H1. unfold utf8_run, utf8_handler, utf8_lead, utf8_initial.
  settle_tests. reflexivity.
Qed.

Lemma utf8_run_2 (b1 b2 : Z) :
  0xC2 <= b1 <= 0xDF -> 0x80 <= b2 <= 0xBF ->
  utf8_run utf8_initial [b1; b2] = (utf8_initial, [b1 mod 32 * 64 + b2 mod 64]).
Proof.
  intros H1 H2. unfold utf8_run, utf8_handler, utf8_lead, utf8_initial.
  settle_tests.
  rewrite continuation_bits, lor_shiftl_6 by (apply Z.mod_pos_bound; lia).
  rewrite lead_bits_2. reflexivity.
Qed.

Lemma utf8_run_3 (b1 b2 b3 : Z) :
  0xE0 <= b1 <= 0xEF ->
  (if b1 =? 0xE0 then 0xA0 else 0x80) <= b2 <= (if b1 =? 0xED then 0x9F else 0xBF) ->
  0x80 <= b3 <= 0xBF ->
  utf8_run utf8_initial [b1; b2; b3]
  = (utf8_initial, [(b1 mod 16 * 64 + b2 mod 64) * 64 + b3 mod 64]).
Proof.
  intros H1. unfold utf8_run, utf8_handler, utf8_lead, utf8_initial.
  destruct (Z.eqb_spec b1 0xE0) as [-> | HE0];
    [| destruct (Z.eqb_spec b1 0xED) as [-> | HED] ];
    intros H2 H3; cbn [Z.eqb Pos.eqb] in H2;
    settle_tests;
    rewrite !continuation_bits, !lor_shiftl_6 by (apply Z.mod_pos_bound; lia);
    rewrite lead_bits_3; reflexivity.
Qed.

Lemma utf8_run_4 (b1 b2 b3 b4 : Z) :
  0xF0 <= b1 <= 0xF4 ->
  (if b1 =? 0xF0 then 0x90 else 0x80) <= b2 <= (if b1 =? 0xF4 then 0x8F else 0xBF) ->
  0x80 <= b3 <= 0xBF -> 0x80 <= b4 <= 0xBF ->
  utf8_run utf8_initial [b1; b2; b3; b4]
  = (utf8_initial,
     [((b1 mod 8 * 64 + b2 mod 64) * 64 + b3 mod 64) * 64 + b4 mod 64]).
Proof.
  intros H1. unfold utf8_run, utf8_handler, utf8_lead, utf8_initial.
  destruct (Z.eqb_spec b1 0xF0) as [-> | HF0];
    [| destruct (Z.eqb_spec b1 0xF4) as [-> | HF4] ];
    intros H2 H3 H4; cbn [Z.eqb Pos.eqb] in H2;
    settle_tests;
    rewrite !continuation_bits, !lor_shiftl_6 by (apply Z.mod_pos_bound; lia);
    rewrite lead_bits_4; reflexivity.
Qed.

(** The decoder reads the encoding of a scalar value back. *)
Lemma utf8_run_bytes (cp : Z) :
  is_scalar_value cp = true -> utf8_run utf8_initial (utf8_bytes cp) = (utf8_initial, [cp]).
Proof.
  unfold is_scalar_value, utf8_bytes. intros Hcp.
  assert (Hrange : 0 <= cp < 0xD800 \/ 0xE000 <= cp <= 0x10FFFF) by lia.
  clear Hcp.
  destruct (Z.ltb_spec cp 0x80); [apply utf8_run_1; lia |].
  destruct (Z.ltb_spec cp 0x800).
  { rewrite utf8_run_2 by (Z.div_mod_to_equations; lia).
    do 2 f_equal. Z.div_mod_to_equations. lia. }
  destruct (Z.ltb_spec cp 0x10000).
  { rewrite utf8_run_3.
    - do 2 f_equal. Z.div_mod_to_equations. lia.
    - Z.div_mod_to_equations. lia.
    - destruct (Z.eqb_spec (0xE0 + cp / 0x1000) 0xE0), (Z.eqb_spec (0xE0 + cp / 0x1000) 0xED);
        Z.div_mod_to_equations; lia.
    - Z.div_mod_to_equations. lia. }
  rewrite utf8_run_4.
  - do 2 f_equal. Z.div_mod_to_equations. lia.
  - Z.div_mod_to_equations. lia.
  - destruct (Z.eqb_spec (0xF0 + cp / 0x40000) 0xF0), (Z.eqb_spec (0xF0 + cp / 0x40000) 0xF4);
      Z.div_mod_to_equations; lia.
  - Z.div_mod_to_equations. lia.
  - Z.div_mod_to_equations. lia.
Qed.

Lemma utf8_run_app (d : utf8_decoder) (bytes bytes' : list Z) :
  utf8_run d (bytes ++ bytes')
  = let '(d1, out) := utf8_run d bytes in
    let '(d2, out') := utf8_run d1 bytes' in (d2, out ++ out').
Proof.
  revert d. induction bytes as [|b bytes IH]; intros d; cbn [utf8_run app].
  - destruct (utf8_run d bytes'). reflexivity.
  - destruct (utf8_handler d b) as [d1 o1]. rewrite IH.
    destruct (utf8_run d1 bytes) as [d2 o2]. destruct (utf8_run d2 bytes') as [d3 o3].
    rewrite app_assoc. reflexivity.
Qed.

(** The decoder reads the encoding of a text back, and awaits no byte at
    its end. *)
Lemma utf8_run_encode (text : list Z) :
  forallb is_scalar_value text = true ->
  utf8_run utf8_initial (utf8_encode text) = (utf8_initial, text).
Proof.
  induction text as [|cp text IH]; intros H; [reflexivity |].
  cbn [forallb] in H. apply andb_true_iff in H as [Hcp Htext].
  unfold utf8_encode. cbn [map concat].
  rewrite utf8_run_app, (utf8_run_bytes cp Hcp).
  fold (utf8_encode text). rewrite (IH Htext). reflexivity.
Qed.

(** Iterating a string takes the code units of a scalar value together. *)
Lemma string_iter_units (cp : Z) (rest : list Z) :
  is_scalar_value cp = true ->
  string_iter (utf16_units cp ++ rest) = utf16_units cp :: string_iter rest.
Proof.
  unfold is_scalar_value, utf16_units. intros Hcp.
  destruct (Z.ltb_spec cp 0x10000) as [Hlt | Hge].
  - cbn [app string_iter].
    assert (Hhigh : is_high_surrogate cp = false) by (unfold is_high_surrogate; lia).
    rewrite Hhigh. destruct rest; reflexivity.
  - cbn [app string_iter].
    rewrite Z.shiftr_div_pow2 by lia.
    change 0x3FF with (Z.ones 10). rewrite Z.land_ones by lia.
    assert (Hhigh : is_high_surrogate (0xD800 + (cp - 0x10000) / 2 ^ 10) = true).
    { unfold is_high_surrogate. Z.div_mod_to_equations. lia. }
    assert (Hlow : is_low_surrogate (0xDC00 + (cp - 0x10000) mod 2 ^ 10) = true).
    { unfold is_low_surrogate. Z.div_mod_to_equations. lia. }
    rewrite Hhigh, Hlow. reflexivity.
Qed.

Lemma string_iter_utf16_encode (text : list Z) :
  forallb is_scalar_value text = true ->
  string_iter (utf16_encode text) = map utf16_units text.
Proof.
  induction text as [|cp text IH]; intros H; [reflexivity |].
  cbn [forallb] in H. apply andb_true_iff in H as [Hcp Htext].
  unfold utf16_encode. cbn [map concat].
  rewrite (string_iter_units cp _ Hcp). fold (utf16_encode text).
  rewrite (IH Htext). reflexivity.
Qed.

Lemma yield_all_app (characters characters' : list (list Z)) (rest : stream) :
  yield_all (characters ++ characters') rest
  = yield_all characters (yield_all characters' rest).
Proof.
  induction characters as [|c characters IH]; cbn; [reflexivity |].
  rewrite IH. reflexivity.
Qed.

(** The characters yielded for byte chunks, from any state of the decoder,
    when the bytes left end a text: the text the decoder reads from all of
    them together, whatever the chunks. *)
Lemma generateFromChunks_loop_bytes (chunks : list (list Z)) :
  forall (td : TextDecoder) (d : utf8_decoder) (output : list Z),
    utf8_run (td_decoder td) (concat chunks) = (d, output) ->
    bytes_needed d = 0 ->
    forallb is_scalar_value output = true ->
    generateFromChunks_loop (decoder_object td) (map ByteChunk chunks)
    = yield_all
        (map utf16_units (if td_BOM_seen td then output else drop_BOM output)) SDone.
Proof.
  induction chunks as [|bytes chunks IH]; intros [d0 seen] d output Hrun Hd Hout.
  - cbn in Hrun. injection Hrun as <- <-.
    cbn [map generateFromChunks_loop]. unfold TextDecoder_decode_end.
    cbn [td_decoder td_BOM_seen]. rewrite Hd. cbn [Z.eqb].
    destruct seen; reflexivity.
  - cbn [concat td_decoder] in Hrun. rewrite utf8_run_app in Hrun.
    cbn [map generateFromChunks_loop]. unfold TextDecoder_decode_stream.
    cbn [td_decoder td_BOM_seen].
    destruct (utf8_run d0 bytes) as [d1 o1].
    destruct (utf8_run d1 (concat chunks)) as [d2 o2] eqn:Hrest.
    injection Hrun as <- <-.
    rewrite forallb_app in Hout. apply andb_true_iff in Hout as [Ho1 Ho2].
    destruct (serialize seen o1) as [text seen1] eqn:Hserialize.
    rewrite (IH (MkTextDecoder d1 seen1) d2 o2 Hrest Hd Ho2).
    cbn [td_BOM_seen]. unfold serialize in Hserialize.
    destruct seen.
    + injection Hserialize as <- <-.
      rewrite (string_iter_utf16_encode _ Ho1), map_app, yield_all_app. reflexivity.
    + destruct o1 as [|item o1].
      * injection Hserialize as <- <-. reflexivity.
      * injection Hserialize as <- <-.
        cbn [app drop_BOM forallb] in *. apply andb_true_iff in Ho1 as [Hitem Ho1].
        destruct (item =? 0xFEFF).
        -- rewrite (string_iter_utf16_encode _ Ho1), map_app, yield_all_app. reflexivity.
        -- rewrite string_iter_utf16_encode
             by (cbn [forallb]; rewrite Hitem, Ho1; reflexivity).
           rewrite <- yield_all_app, <- map_app. reflexivity.
Qed.

(** The characters yielded for the encoding of a text, cut into chunks
    anywhere. *)
Lemma generateFromChunks_bytes (text : list Z) (chunks : list (list Z)) :
  forallb is_scalar_value text = true ->
  concat chunks = utf8_encode text ->
  generateFromChunks (map ByteChunk chunks)
  = yield_all (map utf16_units (drop_BOM text)) SDone.
Proof.
  intros Htext Hchunks.
  transitivity
    (generateFromChunks_loop (decoder_object new_TextDecoder) (map ByteChunk chunks)).
  - destruct chunks; reflexivity.
  - apply (generateFromChunks_loop_bytes chunks new_TextDecoder utf8_initial text).
    + cbn [new_TextDecoder td_decoder]. rewrite Hchunks. apply utf8_run_encode, Htext.
    + reflexivity.
    + exact Htext.
Qed.

(** A byte order mark in front of the characters is skipped as a space
    is. *)
Lemma matchNext_BOM LocalTZA (fuel : nat) cs ex ek nl :
  (2 * stream_length cs + 2 <= fuel)%nat ->
  matchNext LocalTZA fuel (SYield [0xFEFF] cs) ex ek [] nl
  = matchNext LocalTZA fuel cs ex ek [] nl.
Proof.
  intros Hfuel. destruct fuel as [|fuel]; [lia |].
  transitivity (matchNext LocalTZA fuel cs ex ek [] nl); [reflexivity |].
  destruct (matchNext_fuel_le LocalTZA fuel (S fuel) cs ex ek [] nl) as [H | H];
    [lia | | exact H].
  exfalso.
  destruct (decoder_total LocalTZA fuel (stream_length cs)) as (Hn & _ & _).
  refine (proj1 (Hn _ cs ex ek [] nl _) H); unfold vlen; lia.
Qed.

Lemma matchEntries_BOM LocalTZA cs :
  matchEntries LocalTZA (SYield [0xFEFF] cs) = matchEntries LocalTZA cs.
Proof.
  transitivity
    (matchEntries_loop LocalTZA (decode_fuel (SYield [0xFEFF] cs)) cs [] None).
  - unfold matchEntries, decode_fuel. cbn [stream_length].
    replace (2 * S (stream_length cs) + 3)%nat
      with (S (2 * stream_length cs + 4)) by lia.
    cbn [matchEntries_loop]. unfold matchEntries_body.
    rewrite matchNext_BOM by lia. reflexivity.
  - apply matchEntries_loop_fuel. unfold decode_fuel. cbn [stream_length]. lia.
Qed.

(** Decoding a text as a string: a byte order mark it starts with changes
    nothing. *)
Lemma decode_drop_BOM LocalTZA (text : list Z) :
  forallb is_scalar_value text = true ->
  decode LocalTZA (InputString (utf16_encode text))
  = matchEntries LocalTZA (yield_all (map utf16_units (drop_BOM text)) SDone).
Proof.
  intros Htext. unfold decode, generateFrom.
  rewrite (string_iter_utf16_encode _ Htext).
  destruct text as [|cp text]; [reflexivity |].
  cbn [drop_BOM]. destruct (Z.eqb_spec cp 0xFEFF) as [-> |]; [| reflexivity].
  apply matchEntries_BOM.
Qed.

(** C2: the bytes of a text in UTF-8, cut into chunks at any offsets (inside
    the encoding of a character too), go through the chunk adapter as the
    characters of the text, a byte order mark at its start apart, with no
    replacement character; and decoding the chunks gives what decoding the
    text as one string gives, a document or an error. *)
Theorem decode_chunks_utf8 LocalTZA (text : list Z) (chunks : list (list Z)) :
  forallb is_scalar_value text = true ->
  concat chunks = utf8_encode text ->
  generateFromChunks (map ByteChunk chunks)
  = yield_all (map utf16_units (drop_BOM text)) SDone
  /\ decode LocalTZA (InputChunks (map ByteChunk chunks))
     = decode LocalTZA (InputString (utf16_encode text)).
Proof.
  intros Htext Hchunks.
  pose proof (generateFromChunks_bytes text chunks Htext Hchunks) as Hstream.
  split; [exact Hstream |].
  rewrite (decode_drop_BOM _ _ Htext). unfold decode. rewrite Hstream. reflexivity.
Qed.

(** [face = "U+1F600"], with a byte order mark in front, cut inside the mark and
    inside the four bytes of U+1F600. *)
Definition face_text : list Z :=
  [0xFEFF] ++ str "face = " ++ [34; 0x1F600; 34; 10].

Definition face_chunks : list (list Z) :=
  [[0xEF; 0xBB]; [0xBF; 102; 97; 99; 101; 32; 61; 32; 34; 0xF0]; [0x9F]; [];
   [0x98; 0x80; 34]; [10]].

Lemma decode_chunks_utf8_witness :
  forallb is_scalar_value face_text = true
  /\ concat face_chunks = utf8_encode face_text
  /\ decode UTC_zone (InputChunks (map ByteChunk face_chunks))
     = decode UTC_zone (InputString (utf16_encode face_text)).
Proof.
  split; [reflexivity |]. split; [reflexivity |].
  apply (decode_chunks_utf8 UTC_zone face_text face_chunks); reflexivity.
Defined.

Example decode_face_chunks :
  decode UTC_zone (InputChunks (map ByteChunk face_chunks))
  = Ok [(str "face", DString [0xD83D; 0xDE00])].
Proof. vm_compute. reflexivity. Qed.

(** A byte sequence that is no text does give replacement characters: the
    hypothesis on the bytes is needed. *)
Example generateFromChunks_truncated :
  generateFromChunks [ByteChunk [0xF0; 0x9F]; ByteChunk [0x98]]
  = SYield [0xFFFD] SDone.
Proof. reflexivity. Qed.

(** ** Keys assigned more than once *)

Lemma map_get_set (key : list Z) (value : dvalue) (map : list (list Z * dvalue)) :
  map_get key (map_set key value map) = Some value.
Proof.
  induction map as [|[k v] map IH]; cbn; unfold jsstring_eqb.
  - rewrite bool_decide_eq_true_2 by reflexivity. reflexivity.
  - case_bool_decide as Hk; cbn; unfold jsstring_eqb.
    + rewrite bool_decide_eq_true_2 by reflexivity. reflexivity.
    + rewrite bool_decide_eq_false_2 by exact Hk. exact IH.
Qed.

Lemma map_get_set_other (key key' : list Z) (value : dvalue)
    (map : list (list Z * dvalue)) :
  key <> key' -> map_get key' (map_set key value map) = map_get key' map.
Proof.
  intros Hne. induction map as [|[k v] map IH]; cbn; unfold jsstring_eqb.
  - rewrite bool_decide_eq_false_2 by exact Hne. reflexivity.
  - case_bool_decide as Hk; cbn; unfold jsstring_eqb.
    + subst k. rewrite !bool_decide_eq_false_2 by exact Hne. reflexivity.
    + rewrite IH. reflexivity.
Qed.

(** [map.set] keeps the keys a Map has where they are, and puts a new one
    last. *)
Lemma map_set_keys (key : list Z) (value : dvalue) (map : list (list Z * dvalue)) :
  (map_set key value map).*1
  = if bool_decide (key ∈ map.*1) then map.*1 else map.*1 ++ [key].
Proof.
  induction map as [|[k v] map IH]; cbn; unfold jsstring_eqb.
  - rewrite bool_decide_eq_false_2 by apply not_elem_of_nil. reflexivity.
  - destruct (decide (k = key)) as [-> | Hk].
    + rewrite (bool_decide_eq_true_2 (key = key)) by reflexivity. cbn.
      rewrite bool_decide_eq_true_2 by apply list_elem_of_here. reflexivity.
    + rewrite (bool_decide_eq_false_2 (k = key)) by exact Hk. cbn.
      rewrite IH. destruct (decide (key ∈ map.*1)) as [Hin | Hin].
      * rewrite !bool_decide_eq_true_2; [reflexivity | | exact Hin].
        apply list_elem_of_further, Hin.
      * rewrite !bool_decide_eq_false_2; [reflexivity | | exact Hin].
        intros Hin'. apply elem_of_cons in Hin' as [-> | Hin']; contradiction.
Qed.

Lemma map_set_NoDup (key : list Z) (value : dvalue) (map : list (list Z * dvalue)) :
  NoDup map.*1 -> NoDup (map_set key value map).*1.
Proof.
  intros Hmap. rewrite map_set_keys. case_bool_decide as Hin; [exact Hmap |].
  apply NoDup_app. split; [exact Hmap |]. split; [| apply NoDup_singleton].
  intros k Hk Hk'. apply list_elem_of_singleton in Hk'. subst k. contradiction.
Qed.

(** The writes of the loop of [matchEntries] for the entries it reads. *)
Fixpoint matchEntries_writes (entries : list (list Z * dvalue))
    (result : list (list Z * dvalue)) (target : option (list Z * list (list Z * dvalue)))
    : list (list Z * dvalue) :=
  match entries with
  | [] => result
  | (key, value) :: entries =>
      let '(result, target) := target_set target key value result in
      matchEntries_writes entries result target
  end.

(** At the root, the writes are those of [map.set], one after the other. *)
Lemma matchEntries_writes_root (entries result : list (list Z * dvalue)) :
  matchEntries_writes entries result None
  = fold_left (fun result entry => map_set entry.1 entry.2 result) entries result.
Proof.
  revert result. induction entries as [|[key value] entries IH]; intros result;
    [reflexivity |].
  cbn. apply IH.
Qed.

Lemma matchEntries_writes_app (entries entries' result : list (list Z * dvalue)) :
  matchEntries_writes (entries ++ entries') result None
  = matchEntries_writes entries' (matchEntries_writes entries result None) None.
Proof.
  revert result. induction entries as [|[key value] entries IH]; intros result;
    [reflexivity |].
  cbn. apply IH.
Qed.

Lemma matchEntries_writes_NoDup (entries result : list (list Z * dvalue)) :
  NoDup result.*1 -> NoDup (matchEntries_writes entries result None).*1.
Proof.
  revert result. induction entries as [|[key value] entries IH]; intros result Hresult;
    [exact Hresult |].
  cbn. apply IH, map_set_NoDup, Hresult.
Qed.

Lemma matchEntries_writes_get (key : list Z) (entries result : list (list Z * dvalue)) :
  key ∉ entries.*1 ->
  map_get key (matchEntries_writes entries result None) = map_get key result.
Proof.
  revert result. induction entries as [|[k v] entries IH]; intros result Hkey;
    [reflexivity |].
  cbn in *. apply not_elem_of_cons in Hkey as [Hne Hkey].
  rewrite (IH _ Hkey). apply map_get_set_other. congruence.
Qed.

Lemma map_set_prefix (key : list Z) (value : dvalue) (map : list (list Z * dvalue)) :
  map.*1 `prefix_of` (map_set key value map).*1.
Proof.
  rewrite map_set_keys. case_bool_decide; [reflexivity |].
  apply prefix_app_r. reflexivity.
Qed.

(** The keys written keep their places. *)
Lemma matchEntries_writes_prefix (entries result : list (list Z * dvalue)) :
  result.*1 `prefix_of` (matchEntries_writes entries result None).*1.
Proof.
  revert result. induction entries as [|[key value] entries IH]; intros result;
    [reflexivity |].
  cbn. etransitivity; [apply (map_set_prefix key value) | apply IH].
Qed.

Lemma map_set_elem_of (key k : list Z) (value : dvalue) (map : list (list Z * dvalue)) :
  k ∈ (map_set key value map).*1 <-> k ∈ map.*1 \/ k = key.
Proof.
  rewrite map_set_keys. case_bool_decide as Hin.
  - split; [auto |]. intros [H | ->]; assumption.
  - rewrite elem_of_app, list_elem_of_singleton. reflexivity.
Qed.

Lemma matchEntries_writes_elem_of (k : list Z) (entries result : list (list Z * dvalue)) :
  k ∈ (matchEntries_writes entries result None).*1 <-> k ∈ result.*1 \/ k ∈ entries.*1.
Proof.
  revert result. induction entries as [|[key value] entries IH]; intros result.
  - cbn. split; [auto |]. intros [H | H]; [exact H |]. inversion H.
  - cbn. rewrite IH, map_set_elem_of, elem_of_cons. tauto.
Qed.

(** As many keys as were assigned, each counted once. *)
Lemma matchEntries_writes_length (entries : list (list Z * dvalue)) :
  length (matchEntries_writes entries [] None) = length (remove_dups entries.*1).
Proof.
  rewrite <- (length_fmap fst).
  apply Permutation_length, NoDup_Permutation.
  - apply matchEntries_writes_NoDup. constructor.
  - apply NoDup_remove_dups.
  - intros k. rewrite matchEntries_writes_elem_of, elem_of_remove_dups.
    split; [| auto]. intros [H | H]; [inversion H | exact H].
Qed.

(** In a section, the writes are those of [map.set] on the Map of the
    section, which the document holds under the section's key. *)
Lemma matchEntries_writes_section (entries result : list (list Z * dvalue))
    (section : list Z) (written : list (list Z * dvalue)) :
  map_get section result = Some (DMap written) ->
  map_get section (matchEntries_writes entries result (Some (section, written)))
  = Some (DMap (matchEntries_writes entries written None)).
Proof.
  revert result written.
  induction entries as [|[key value] entries IH]; intros result written Hsection;
    [exact Hsection |].
  cbn. apply IH, map_get_set.
Qed.

(** What a turn of the loop of [matchEntries] reads: an entry
    [key = value], or the header [[key]] of a section. *)
Inductive item :=
| Assignment (key : list Z) (value : dvalue)
| Section_header (key : list Z).

Definition assignment (entry : list Z * dvalue) : item := Assignment entry.1 entry.2.

(** The state of the loop after the items it reads: [result] and [target].
    A header puts a new Map under its key and makes it the target. *)
Fixpoint matchEntries_state (items : list item) (result : list (list Z * dvalue))
    (target : option (list Z * list (list Z * dvalue)))
    : list (list Z * dvalue) * option (list Z * list (list Z * dvalue)) :=
  match items with
  | [] => (result, target)
  | Assignment key value :: items =>
      let '(result, target) := target_set target key value result in
      matchEntries_state items result target
  | Section_header key :: items =>
      matchEntries_state items (map_set key (DMap []) result) (Some (key, []))
  end.

(** The writes of the loop for the items it reads. *)
Fixpoint matchEntries_items (items : list item) (result : list (list Z * dvalue))
    (target : option (list Z * list (list Z * dvalue))) : list (list Z * dvalue) :=
  match items with
  | [] => result
  | Assignment key value :: items =>
      let '(result, target) := target_set target key value result in
      matchEntries_items items result target
  | Section_header key :: items =>
      matchEntries_items items (map_set key (DMap []) result) (Some (key, []))
  end.

(** The characters are items, read by [matchEntries] one after the other
    up to the end of the input. *)
Inductive reads_items (LocalTZA : Z -> bool -> Z) : stream -> list item -> Prop :=
| reads_end fuel cs entryKey cs1 :
    matchNext LocalTZA fuel cs [KEY; NEW_LINE; END_OF_INPUT] (Some FIRST_LEVEL) [] false
    = Ok (entryKey, cs1) ->
    entry_type entryKey = END_OF_INPUT ->
    reads_items LocalTZA cs []
| reads_header fuel cs entryKey cs1 items :
    matchNext LocalTZA fuel cs [KEY; NEW_LINE; END_OF_INPUT] (Some FIRST_LEVEL) [] false
    = Ok (entryKey, cs1) ->
    entry_type entryKey <> END_OF_INPUT ->
    entry_end entryKey = [93] ->
    reads_items LocalTZA cs1 items ->
    reads_items LocalTZA cs (Section_header (entry_key entryKey) :: items)
| reads_assignment fuel cs entryKey cs1 entryValue cs2 items :
    matchNext LocalTZA fuel cs [KEY; NEW_LINE; END_OF_INPUT] (Some FIRST_LEVEL) [] false
    = Ok (entryKey, cs1) ->
    entry_type entryKey <> END_OF_INPUT ->
    entry_end entryKey = [61] ->
    matchEntryValue (matchNext LocalTZA fuel) cs1 = Ok (entryValue, cs2) ->
    reads_items LocalTZA cs2 items ->
    reads_items LocalTZA cs
      (Assignment (entry_key entryKey) (entry_value entryValue) :: items).

Lemma approx_Ok {A} (m m' : completion A) (a : A) : approx m m' -> m = Ok a -> m' = Ok a.
Proof. intros [-> | <-] H; [discriminate | exact H]. Qed.

Lemma matchEntryValue_fuel_le LocalTZA (fuel fuel' : nat) cs :
  (fuel <= fuel')%nat ->
  approx (matchEntryValue (matchNext LocalTZA fuel) cs)
         (matchEntryValue (matchNext LocalTZA fuel') cs).
Proof.
  intros Hfuel. unfold matchEntryValue.
  apply approx_bind; [apply matchNext_fuel_le, Hfuel |]. intros [entryValue cs1].
  destruct (negb _); [| apply approx_refl].
  apply approx_bind; [apply matchNext_fuel_le, Hfuel |]. intros [? ?]. apply approx_refl.
Qed.

Lemma matchMap_fuel_le LocalTZA (fuel fuel' : nat) cs r st ex :
  (fuel <= fuel')%nat ->
  approx (matchMap LocalTZA fuel cs r st ex) (matchMap LocalTZA fuel' cs r st ex).
Proof.
  induction 1 as [|fuel' _ IH]; [apply approx_refl |].
  eapply approx_trans; [exact IH |]. apply decoder_fuel_succ.
Qed.

(** The loop of [matchEntries] makes the writes of the items it reads, in
    their order. *)
Lemma matchEntries_loop_items LocalTZA cs items :
  reads_items LocalTZA cs items ->
  forall result target, exists fuel0, forall fuel, (fuel0 <= fuel)%nat ->
    matchEntries_loop LocalTZA fuel cs result target
    = Ok (matchEntries_items items result target).
Proof.
  induction 1 as [fuel0 cs entryKey cs1 Hkey Htype
                 | fuel0 cs entryKey cs1 items Hkey Htype Hend _ IH
                 | fuel0 cs entryKey cs1 entryValue cs2 items Hkey Htype Hend Hvalue _ IH];
    intros result target.
  - exists (S fuel0). intros [|fuel] Hfuel; [lia |].
    cbn [matchEntries_loop matchEntries_items]. unfold matchEntries_body.
    rewrite (approx_Ok _ _ _ (matchNext_fuel_le LocalTZA fuel0 fuel _ _ _ _ _ ltac:(lia)) Hkey).
    cbn. rewrite bool_decide_eq_true_2 by exact Htype. reflexivity.
  - destruct (IH (map_set (entry_key entryKey) (DMap []) result)
                (Some (entry_key entryKey, []))) as [fuel1 Hrest].
    exists (S (Nat.max fuel0 fuel1)). intros [|fuel] Hfuel; [lia |].
    cbn [matchEntries_loop matchEntries_items]. unfold matchEntries_body.
    rewrite (approx_Ok _ _ _ (matchNext_fuel_le LocalTZA fuel0 fuel _ _ _ _ _ ltac:(lia)) Hkey).
    cbn [mbind completion_bind]. rewrite bool_decide_eq_false_2 by exact Htype.
    rewrite Hend. change (jsstring_eqb [93] [93]) with true. cbv iota.
    apply Hrest. lia.
  - destruct (target_set target (entry_key entryKey) (entry_value entryValue) result)
      as [result' target'] eqn:Hset.
    destruct (IH result' target') as [fuel1 Hrest].
    exists (S (Nat.max fuel0 fuel1)). intros [|fuel] Hfuel; [lia |].
    cbn [matchEntries_loop matchEntries_items]. unfold matchEntries_body.
    rewrite (approx_Ok _ _ _ (matchNext_fuel_le LocalTZA fuel0 fuel _ _ _ _ _ ltac:(lia)) Hkey).
    cbn [mbind completion_bind]. rewrite bool_decide_eq_false_2 by exact Htype.
    rewrite Hend. cbn [jsstring_eqb negb].
    rewrite (approx_Ok _ _ _ (matchEntryValue_fuel_le LocalTZA fuel0 fuel _ ltac:(lia)) Hvalue).
    cbn [at_entry mbind completion_bind]. rewrite Hset. apply Hrest. lia.
Qed.

(** [matchEntries] returns the document of the items it reads. *)
Lemma matchEntries_reads_items LocalTZA cs items :
  reads_items LocalTZA cs items ->
  matchEntries LocalTZA cs = Ok (matchEntries_items items [] None).
Proof.
  intros Hitems.
  destruct (matchEntries_loop_items _ _ _ Hitems [] None) as [fuel0 Hloop].
  rewrite <- (matchEntries_loop_fuel LocalTZA (Nat.max fuel0 (decode_fuel cs))) by lia.
  apply Hloop. lia.
Qed.

Lemma matchEntries_items_state (items : list item) :
  forall result target,
    matchEntries_items items result target = (matchEntries_state items result target).1.
Proof.
  induction items as [|[key value | key] items IH]; intros result target;
    [reflexivity | |].
  - cbn [matchEntries_items matchEntries_state].
    destruct (target_set target key value result). apply IH.
  - apply IH.
Qed.

Lemma matchEntries_items_app (items items' : list item) :
  forall result target,
    matchEntries_items (items ++ items') result target
    = matchEntries_items items' (matchEntries_state items result target).1
        (matchEntries_state items result target).2.
Proof.
  induction items as [|[key value | key] items IH]; intros result target;
    [reflexivity | |].
  - cbn [app matchEntries_items matchEntries_state].
    destruct (target_set target key value result). apply IH.
  - apply IH.
Qed.

(** At the root, the entries read are written to the document. *)
Lemma matchEntries_state_root (entries result : list (list Z * dvalue)) :
  matchEntries_state (map assignment entries) result None
  = (matchEntries_writes entries result None, None).
Proof.
  revert result. induction entries as [|[key value] entries IH]; intros result;
    [reflexivity |].
  cbn. apply IH.
Qed.

(** In a section, they are written to the Map of the section, which the
    document holds under the key of the section. *)
Lemma matchEntries_state_section (entries result : list (list Z * dvalue))
    (section : list Z) (written : list (list Z * dvalue)) :
  map_get section result = Some (DMap written) ->
  exists result',
    matchEntries_state (map assignment entries) result (Some (section, written))
    = (result', Some (section, matchEntries_writes entries written None))
    /\ map_get section result' = Some (DMap (matchEntries_writes entries written None)).
Proof.
  revert result written.
  induction entries as [|[key value] entries IH]; intros result written Hsection.
  - exists result. split; [reflexivity | exact Hsection].
  - cbn [map assignment matchEntries_state target_set fst snd matchEntries_writes].
    apply IH, map_get_set.
Qed.

(** Once a section is open, the document keeps what it holds under a key
    that no header opens again. *)
Lemma matchEntries_items_other (key : list Z) (items : list item) :
  forall result section written,
    section <> key -> Section_header key ∉ items ->
    map_get key (matchEntries_items items result (Some (section, written)))
    = map_get key result.
Proof.
  induction items as [|[k v | k] items IH]; intros result section written Hne Hkey;
    [reflexivity | |].
  - cbn [matchEntries_items target_set].
    rewrite (IH _ section _ Hne) by (intros H; apply Hkey; right; exact H).
    apply map_get_set_other, Hne.
  - assert (Hk : k <> key) by (intros ->; apply Hkey; left).
    cbn [matchEntries_items].
    rewrite (IH _ k _ Hk) by (intros H; apply Hkey; right; exact H).
    apply map_get_set_other, Hk.
Qed.

(** The items that follow the entries of a table: none, or the header of
    the next section. *)
Definition starts_section (items : list item) : Prop :=
  match items with
  | Assignment _ _ :: _ => False
  | _ => True
  end.

Lemma matchEntries_items_next (key : list Z) (items : list item)
    (result : list (list Z * dvalue))
    (target : option (list Z * list (list Z * dvalue))) :
  starts_section items -> Section_header key ∉ items ->
  map_get key (matchEntries_items items result target) = map_get key result.
Proof.
  destruct items as [|[k v | k] items]; [reflexivity | intros [] |]. intros _ Hkey.
  assert (Hk : k <> key) by (intros ->; apply Hkey; left).
  cbn [matchEntries_items].
  rewrite (matchEntries_items_other key items _ k [] Hk)
    by (intros H; apply Hkey; right; exact H).
  apply map_get_set_other, Hk.
Qed.

(** The keys of the document keep their places, and each is there once. *)
Lemma target_set_keys (target : option (list Z * list (list Z * dvalue)))
    (key : list Z) (value : dvalue) (result : list (list Z * dvalue)) :
  result.*1 `prefix_of` (target_set target key value result).1.*1
  /\ (NoDup result.*1 -> NoDup (target_set target key value result).1.*1).
Proof.
  destruct target as [[section written] |]; cbn [target_set fst];
    (split; [apply map_set_prefix | apply map_set_NoDup]).
Qed.

Lemma matchEntries_items_keys (items : list item) :
  forall result target,
    result.*1 `prefix_of` (matchEntries_items items result target).*1
    /\ (NoDup result.*1 -> NoDup (matchEntries_items items result target).*1).
Proof.
  induction items as [|[key value | key] items IH]; intros result target.
  - split; [reflexivity | auto].
  - cbn [matchEntries_items].
    destruct (target_set_keys target key value result) as [Hprefix Hunique].
    destruct (target_set target key value result) as [result' target'].
    destruct (IH result' target') as [Hprefix' Hunique'].
    split; [etransitivity; eassumption | auto].
  - cbn [matchEntries_items].
    destruct (IH (map_set key (DMap []) result) (Some (key, []))) as [Hprefix' Hunique'].
    split; [etransitivity; [apply map_set_prefix | exact Hprefix'] |].
    intros H. apply Hunique', map_set_NoDup, H.
Qed.

(** The characters are the entries of an inline table up to its closing
    brace, read by [matchMap] one after the other from the state [start],
    [expected] of its loop; [rest] is what follows the brace. *)
Inductive reads_entries (LocalTZA : Z -> bool -> Z)
    : stream -> list Z -> list token_class -> list (list Z * dvalue) -> stream -> Prop :=
| entries_end fuel cs start expected entryKey rest :
    matchNext LocalTZA fuel cs expected (Some HIGHER_LEVEL) start false
    = Ok (entryKey, rest) ->
    entry_type entryKey = LIST_DELIMITER ->
    entry_end entryKey = [125] ->
    reads_entries LocalTZA cs start expected [] rest
| entries_divider fuel cs start expected entryKey cs1 entries rest :
    matchNext LocalTZA fuel cs expected (Some HIGHER_LEVEL) start false
    = Ok (entryKey, cs1) ->
    entry_type entryKey = LIST_DIVIDER ->
    reads_entries LocalTZA cs1 [] [KEY; LIST_DELIMITER; NEW_LINE] entries rest ->
    reads_entries LocalTZA cs start expected entries rest
| entries_entry fuel cs start expected entryKey cs1 entryValue cs2 entries rest :
    matchNext LocalTZA fuel cs expected (Some HIGHER_LEVEL) start false
    = Ok (entryKey, cs1) ->
    entry_type entryKey <> LIST_DIVIDER ->
    entry_type entryKey <> LIST_DELIMITER ->
    entry_end entryKey = [61] ->
    matchNext LocalTZA fuel cs1 [VALUE] None [] false = Ok (entryValue, cs2) ->
    reads_entries LocalTZA cs2 (entry_end entryValue)
      [LIST_DIVIDER; LIST_DELIMITER; NEW_LINE] entries rest ->
    reads_entries LocalTZA cs start expected
      ((entry_key entryKey, entry_value entryValue) :: entries) rest.

(** The loop of [matchMap] writes the entries it reads, in their order, to
    the Map it returns. *)
Lemma matchMap_reads_entries LocalTZA cs start expected entries rest :
  reads_entries LocalTZA cs start expected entries rest ->
  forall result, exists fuel0, forall fuel, (fuel0 <= fuel)%nat ->
    matchMap LocalTZA fuel cs result start expected
    = Ok (Entry (DMap (matchEntries_writes entries result None)) [] VALUE, rest).
Proof.
  induction 1 as [fuel0 cs start expected entryKey rest Hkey Htype Hend
                 | fuel0 cs start expected entryKey cs1 entries rest Hkey Htype _ IH
                 | fuel0 cs start expected entryKey cs1 entryValue cs2 entries rest
                     Hkey Hdivider Hdelimiter Hend Hvalue _ IH];
    intros result.
  - exists (S fuel0). intros [|fuel] Hfuel; [lia |].
    cbn [matchMap matchEntries_writes]. unfold matchMap_body.
    rewrite (approx_Ok _ _ _ (matchNext_fuel_le LocalTZA fuel0 fuel _ _ _ _ _ ltac:(lia)) Hkey).
    cbn [mbind completion_bind]. rewrite Htype, Hend. reflexivity.
  - destruct (IH result) as [fuel1 Hrest].
    exists (S (Nat.max fuel0 fuel1)). intros [|fuel] Hfuel; [lia |].
    cbn [matchMap]. unfold matchMap_body.
    rewrite (approx_Ok _ _ _ (matchNext_fuel_le LocalTZA fuel0 fuel _ _ _ _ _ ltac:(lia)) Hkey).
    cbn [mbind completion_bind]. rewrite Htype. apply Hrest. lia.
  - destruct (IH (map_set (entry_key entryKey) (entry_value entryValue) result))
      as [fuel1 Hrest].
    exists (S (Nat.max fuel0 fuel1)). intros [|fuel] Hfuel; [lia |].
    cbn [matchMap matchEntries_writes target_set]. unfold matchMap_body.
    rewrite (approx_Ok _ _ _ (matchNext_fuel_le LocalTZA fuel0 fuel _ _ _ _ _ ltac:(lia)) Hkey).
    cbn [mbind completion_bind]. rewrite Hend. cbn [jsstring_eqb negb].
    rewrite (approx_Ok _ _ _ (matchNext_fuel_le LocalTZA fuel0 fuel _ _ _ _ _ ltac:(lia))
               Hvalue).
    cbn [mbind completion_bind].
    destruct (entry_type entryKey); try contradiction; apply Hrest; lia.
Qed.

(** What holds of a table and the entries assigned to it one after the
    other: the table has one entry for each key; the entry of a key holds
    the value of the last assignment to it, and it is where the first
    assignment put it: after the entries of the keys assigned before, each
    counted once. *)
Definition keeps_last (entries table : list (list Z * dvalue)) : Prop :=
  NoDup table.*1
  /\ forall before key value after,
       entries = before ++ (key, value) :: after ->
       (key ∉ after.*1 -> map_get key table = Some value)
       /\ (key ∉ before.*1 -> table.*1 !! length (remove_dups before.*1) = Some key).

Lemma matchEntries_writes_last (entries : list (list Z * dvalue)) :
  keeps_last entries (matchEntries_writes entries [] None).
Proof.
  split; [apply matchEntries_writes_NoDup; constructor |].
  intros before key value after ->.
  rewrite matchEntries_writes_app. cbn [matchEntries_writes target_set].
  set (written := matchEntries_writes before [] None). split; intros Hkey.
  - rewrite (matchEntries_writes_get _ _ _ Hkey). apply map_get_set.
  - eapply prefix_lookup_Some; [| apply matchEntries_writes_prefix].
    rewrite map_set_keys, bool_decide_eq_false_2.
    + rewrite <- matchEntries_writes_length. fold written.
      rewrite <- (length_fmap fst written). apply list_lookup_middle. reflexivity.
    + unfold written. rewrite matchEntries_writes_elem_of.
      intros [H | H]; [inversion H | contradiction].
Qed.

(** Every inline table is read by [matchMap] from the empty Map: by
    [matchNext] where a value is awaited, on an opening brace. *)
Lemma matchNext_brace LocalTZA (fuel : nat) (cs : stream) (expected : list token_class) :
  VALUE ∈ expected ->
  matchNext LocalTZA (S fuel) (SYield [123] cs) expected None [] false
  = matchMap LocalTZA fuel cs [] [] [KEY; LIST_DELIMITER; NEW_LINE].
Proof.
  intros Hexpected. cbn [matchNext]. unfold matchNext_body.
  cbn [next mbind completion_bind matches existsb Z.eqb Pos.eqb orb andb is_space is_digit
       is_lower is_upper Z.leb Z.compare Pos.compare Pos.compare_cont].
  unfold checkMatch. rewrite bool_decide_eq_true_2 by exact Hexpected. reflexivity.
Qed.

(** C8: a key that is assigned more than once within one table.  Whatever
    the input, where [matchEntries] reads entries [key = value] at the root
    (up to the end of the input or to the first section), where it reads
    them in a section (after its header, up to the end of the input or to
    the next section), and where [matchMap] reads them in an inline table
    (after its opening brace, up to its closing brace), the table has one entry for each key assigned; the entry of a key holds
    the value of the last assignment to it, and it is where the first
    assignment put it: after the entries of the keys assigned before, each
    counted once.  (A section whose key is that of an entry of the root
    takes the place of the entry; a header given again opens a new
    section.) *)
Theorem duplicate_keys_last_assignment LocalTZA :
  (forall cs entries sections,
     reads_items LocalTZA cs (map assignment entries ++ sections) ->
     starts_section sections ->
     exists document,
       matchEntries LocalTZA cs = Ok document
       /\ NoDup document.*1
       /\ forall before key value after,
            entries = before ++ (key, value) :: after ->
            (key ∉ after.*1 -> Section_header key ∉ sections ->
             map_get key document = Some value)
            /\ (key ∉ before.*1 ->
                document.*1 !! length (remove_dups before.*1) = Some key))
  /\ (forall cs before section entries sections,
        reads_items LocalTZA cs
          (before ++ Section_header section :: map assignment entries ++ sections) ->
        starts_section sections -> Section_header section ∉ sections ->
        exists document table,
          matchEntries LocalTZA cs = Ok document
          /\ map_get section document = Some (DMap table)
          /\ keeps_last entries table)
  /\ (forall cs entries rest,
        reads_entries LocalTZA cs [] [KEY; LIST_DELIMITER; NEW_LINE] entries rest ->
        exists table fuel0,
          (forall fuel, (fuel0 <= fuel)%nat ->
             matchMap LocalTZA fuel cs [] [] [KEY; LIST_DELIMITER; NEW_LINE]
             = Ok (Entry (DMap table) [] VALUE, rest))
          /\ keeps_last entries table).
Proof.
  split; [| split].
  - intros cs entries sections Hitems Hsections.
    exists (matchEntries_items (map assignment entries ++ sections) [] None).
    split; [apply matchEntries_reads_items, Hitems |].
    rewrite matchEntries_items_app, matchEntries_state_root. cbn [fst snd].
    set (written := matchEntries_writes entries [] None).
    destruct (matchEntries_items_keys sections written None) as [Hprefix Hunique].
    destruct (matchEntries_writes_last entries) as [Hwritten Hlast]. fold written in Hwritten, Hlast.
    split; [apply Hunique, Hwritten |].
    intros before key value after Hentries.
    destruct (Hlast before key value after Hentries) as [Hvalue Hplace].
    split.
    + intros Hafter Hheader.
      rewrite (matchEntries_items_next key sections written None Hsections Hheader).
      apply Hvalue, Hafter.
    + intros Hbefore. eapply prefix_lookup_Some; [apply Hplace, Hbefore | exact Hprefix].
  - intros cs before section entries sections Hitems Hsections Hheader.
    exists (matchEntries_items
              (before ++ Section_header section :: map assignment entries ++ sections)
              [] None),
           (matchEntries_writes entries [] None).
    split; [apply matchEntries_reads_items, Hitems |].
    split; [| apply matchEntries_writes_last].
    rewrite matchEntries_items_app.
    destruct (matchEntries_state before [] None) as [result target]. cbn [fst snd].
    cbn [matchEntries_items]. rewrite matchEntries_items_app.
    destruct (matchEntries_state_section entries
                (map_set section (DMap []) result) section [] (map_get_set _ _ _))
      as (result' & -> & Hsection).
    cbn [fst snd].
    rewrite (matchEntries_items_next section sections result' _ Hsections Hheader).
    exact Hsection.
  - intros cs entries rest Hentries.
    destruct (matchMap_reads_entries _ _ _ _ _ _ Hentries []) as [fuel0 Hmap].
    exists (matchEntries_writes entries [] None), fuel0.
    split; [exact Hmap | apply matchEntries_writes_last].
Qed.

(** [a] is assigned, then [b], then [a] again: at the root, in a section
    and in an inline table. *)
Definition twice_text : list Z :=
  str "a = 1" ++ [10] ++ str "b = 2" ++ [10] ++ str "a = 3" ++ [10].

Definition twice_entries : list (list Z * dvalue) :=
  [(str "a", DNumber (Finite 1 0)); (str "b", DNumber (Finite 2 0));
   (str "a", DNumber (Finite 3 0))].

Definition twice_root_text : list Z := twice_text ++ str "[s]" ++ [10] ++ str "a = 4".

Definition twice_section_text : list Z :=
  str "c = 0" ++ [10] ++ str "[s]" ++ [10] ++ twice_text ++ str "[t]" ++ [10] ++ str "a = 4".

Definition twice_table_text : list Z := str "a = 1, b = 2, a = 3}" ++ [10].

Ltac read_assignment key value end_ :=
  eapply (reads_assignment UTC_zone 30 _ (Entry (DString key) [61] KEY) _
            (Entry value end_ VALUE));
  [vm_compute; reflexivity | discriminate | reflexivity | vm_compute; reflexivity |].

Ltac read_header key :=
  eapply (reads_header UTC_zone 30 _ (Entry (DString key) [93] KEY));
  [vm_compute; reflexivity | discriminate | reflexivity |].

Ltac read_end :=
  eapply (reads_end UTC_zone 30); [vm_compute; reflexivity | reflexivity].

Ltac read_entry key value end_ :=
  eapply (entries_entry UTC_zone 30 _ _ _ (Entry (DString key) [61] KEY) _
            (Entry value end_ VALUE));
  [vm_compute; reflexivity | discriminate | discriminate | reflexivity
  | vm_compute; reflexivity |].

Ltac read_divider :=
  eapply (entries_divider UTC_zone 30); [vm_compute; reflexivity | reflexivity |].

Example twice_root_items :
  reads_items UTC_zone (generateFrom twice_root_text)
    (map assignment twice_entries
     ++ [Section_header (str "s"); Assignment (str "a") (DNumber (Finite 4 0))]).
Proof.
  cbn [map app assignment twice_entries fst snd].
  read_assignment (str "a") (DNumber (Finite 1 0)) [10].
  read_assignment (str "b") (DNumber (Finite 2 0)) [10].
  read_assignment (str "a") (DNumber (Finite 3 0)) [10].
  read_header (str "s").
  read_assignment (str "a") (DNumber (Finite 4 0)) (@nil Z).
  read_end.
Qed.

Example twice_section_items :
  reads_items UTC_zone (generateFrom twice_section_text)
    ([Assignment (str "c") (DNumber (Finite 0 0))]
     ++ Section_header (str "s")
        :: map assignment twice_entries
           ++ [Section_header (str "t"); Assignment (str "a") (DNumber (Finite 4 0))]).
Proof.
  cbn [map app assignment twice_entries fst snd].
  read_assignment (str "c") (DNumber (Finite 0 0)) [10].
  read_header (str "s").
  read_assignment (str "a") (DNumber (Finite 1 0)) [10].
  read_assignment (str "b") (DNumber (Finite 2 0)) [10].
  read_assignment (str "a") (DNumber (Finite 3 0)) [10].
  read_header (str "t").
  read_assignment (str "a") (DNumber (Finite 4 0)) (@nil Z).
  read_end.
Qed.

Example twice_table_entries :
  reads_entries UTC_zone (generateFrom twice_table_text) [] [KEY; LIST_DELIMITER; NEW_LINE]
    twice_entries (SYield [10] SDone).
Proof.
  unfold twice_entries.
  read_entry (str "a") (DNumber (Finite 1 0)) [44].
  read_divider.
  read_entry (str "b") (DNumber (Finite 2 0)) [44].
  read_divider.
  read_entry (str "a") (DNumber (Finite 3 0)) [125].
  eapply (entries_end UTC_zone 30); [vm_compute; reflexivity | reflexivity | reflexivity].
Qed.

Lemma duplicate_keys_last_assignment_witness :
  (exists document,
     matchEntries UTC_zone (generateFrom twice_root_text) = Ok document
     /\ NoDup document.*1
     /\ forall before key value after,
          twice_entries = before ++ (key, value) :: after ->
          (key ∉ after.*1 ->
           Section_header key
             ∉ [Section_header (str "s"); Assignment (str "a") (DNumber (Finite 4 0))] ->
           map_get key document = Some value)
          /\ (key ∉ before.*1 ->
              document.*1 !! length (remove_dups before.*1) = Some key))
  /\ (exists document table,
        matchEntries UTC_zone (generateFrom twice_section_text) = Ok document
        /\ map_get (str "s") document = Some (DMap table)
        /\ keeps_last twice_entries table)
  /\ (exists table fuel0,
        (forall fuel, (fuel0 <= fuel)%nat ->
           matchMap UTC_zone fuel (generateFrom twice_table_text) [] []
             [KEY; LIST_DELIMITER; NEW_LINE]
           = Ok (Entry (DMap table) [] VALUE, SYield [10] SDone))
        /\ keeps_last twice_entries table).
Proof.
  pose proof (duplicate_keys_last_assignment UTC_zone) as (Hroot & Hsection & Htable).
  split; [| split].
  - apply (Hroot _ twice_entries _ twice_root_items).
    cbn [starts_section]. exact I.
  - apply (Hsection _ [Assignment (str "c") (DNumber (Finite 0 0))] (str "s") twice_entries
             _ twice_section_items).
    + cbn [starts_section]. exact I.
    + intros H. apply elem_of_cons in H as [H | H]; [discriminate H |].
      apply elem_of_cons in H as [H | H]; [discriminate H | inversion H].
  - apply (Htable _ twice_entries _ twice_table_entries).
Defined.

(** The tables of the three texts. *)
Example duplicate_keys_tables :
  decode UTC_zone (InputString twice_root_text)
  = Ok [(str "a", DNumber (Finite 3 0)); (str "b", DNumber (Finite 2 0));
        (str "s", DMap [(str "a", DNumber (Finite 4 0))])]
  /\ decode UTC_zone (InputString twice_section_text)
     = Ok [(str "c", DNumber (Finite 0 0));
           (str "s", DMap [(str "a", DNumber (Finite 3 0)); (str "b", DNumber (Finite 2 0))]);
           (str "t", DMap [(str "a", DNumber (Finite 4 0))])]
  /\ decode UTC_zone (InputString (str "x = {" ++ twice_table_text))
     = Ok [(str "x", DMap [(str "a", DNumber (Finite 3 0)); (str "b", DNumber (Finite 2 0))])].
Proof. repeat split; vm_compute; reflexivity. Qed.

Example decode_twice :
  decode UTC_zone (InputString twice_text)
  = Ok [(str "a", DNumber (Finite 3 0)); (str "b", DNumber (Finite 2 0))].
Proof. vm_compute. reflexivity. Qed.

(** The same in a section and in an inline table. *)
Example decode_twice_in_tables :
  decode UTC_zone
    (InputString
       (str "[s]" ++ [10] ++ str "a = 1" ++ [10]
        ++ str "c = {x = 1, y = 2, x = 3}" ++ [10] ++ str "a = 2" ++ [10]))
  = Ok [(str "s",
         DMap [(str "a", DNumber (Finite 2 0));
               (str "c", DMap [(str "x", DNumber (Finite 3 0));
                               (str "y", DNumber (Finite 2 0))])])].
Proof. vm_compute. reflexivity. Qed.

(** *** Every table of a document

    Whatever the input, a Table that is decoded (the document, a section,
    an inline table, at any depth) holds each of its keys once. *)

Inductive unique_keys : dvalue -> Prop :=
| unique_keys_string s : unique_keys (DString s)
| unique_keys_number n : unique_keys (DNumber n)
| unique_keys_date d : unique_keys (DDate d)
| unique_keys_bool b : unique_keys (DBool b)
| unique_keys_null : unique_keys DNull
| unique_keys_array items : Forall unique_keys items -> unique_keys (DArray items)
| unique_keys_map entries :
    NoDup entries.*1 -> Forall (fun e => unique_keys e.2) entries ->
    unique_keys (DMap entries).

(** What [m] returns, if it returns, has the property. *)
Definition returns {A} (m : completion A) (P : A -> Prop) : Prop :=
  forall a, m = Ok a -> P a.

Lemma returns_Ok {A} (a : A) (P : A -> Prop) : P a -> returns (Ok a) P.
Proof. intros H a' [= <-]. exact H. Qed.

Lemma returns_Throw {A} (e : error) (P : A -> Prop) : returns (Throw e) P.
Proof. intros a [=]. Qed.

Lemma returns_OutOfFuel {A} (P : A -> Prop) : returns OutOfFuel P.
Proof. intros a [=]. Qed.

Lemma returns_bind {A B} (m : completion A) (k : A -> completion B)
    (P : A -> Prop) (Q : B -> Prop) :
  returns m P -> (forall a, P a -> returns (k a) Q) -> returns (m ≫= k) Q.
Proof.
  intros Hm Hk b. destruct m as [a | e |]; cbn; [| discriminate ..].
  apply Hk, Hm. reflexivity.
Qed.

Lemma returns_anything {A} (m : completion A) : returns m (fun _ => True).
Proof. intros a _. exact I. Qed.

Lemma returns_at_entry {A} key (m : completion A) (P : A -> Prop) :
  returns m P -> returns (at_entry key m) P.
Proof.
  intros Hm a. destruct m as [a' | [[] |] |]; cbn; try discriminate. apply Hm.
Qed.

Lemma map_set_unique_keys (key : list Z) (value : dvalue)
    (entries : list (list Z * dvalue)) :
  unique_keys value -> unique_keys (DMap entries) ->
  unique_keys (DMap (map_set key value entries)).
Proof.
  intros Hvalue Hentries. inversion Hentries as [| | | | | | ? Hkeys Hvalues]; subst.
  constructor; [apply map_set_NoDup, Hkeys |].
  clear Hkeys Hentries. induction Hvalues as [|[k v] entries Hv Hvalues IH]; cbn.
  - constructor; [exact Hvalue | constructor].
  - destruct (jsstring_eqb k key); constructor; cbn; assumption.
Qed.

(** The steps of a proof that a parser returns a value with a property:
    what is read on the way matters only where a parser is called. *)
Ltac returns_step :=
  match goal with
  | |- returns (Throw _) _ => apply returns_Throw
  | |- returns (throw _) _ => apply returns_Throw
  | |- returns OutOfFuel _ => apply returns_OutOfFuel
  | |- returns (Ok _) _ => apply returns_Ok; cbn; repeat constructor; assumption
  | |- returns (at_entry _ _) _ => apply returns_at_entry
  | |- returns (_ ≫= _) _ => eapply returns_bind; [apply returns_anything | intros ? _]
  | |- returns (let '(_, _) := ?x in _) _ => destruct x
  | |- returns (if ?b then _ else _) _ => destruct b
  | |- returns (match ?x with _ => _ end) _ => destruct x
  end.

Definition value_post (r : entry * stream) : Prop := unique_keys (entry_value r.1).

Lemma matchKey_unique_keys characters start level :
  returns (matchKey characters start level) value_post.
Proof. unfold matchKey, value_post, throw. repeat returns_step. Qed.

Lemma matchString_unique_keys characters delimiter :
  returns (matchString characters delimiter) value_post.
Proof. unfold matchString, value_post. repeat returns_step. Qed.

Lemma matchNumber_unique_keys LocalTZA characters start :
  returns (matchNumber LocalTZA characters start) value_post.
Proof.
  unfold matchNumber, value_post.
  eapply returns_bind; [apply returns_anything | intros [[raw end_] cs] _].
  eapply returns_bind with (P := fun e => unique_keys (entry_value e)).
  - destruct (bool_decide _).
    + unfold matchDate, throw. repeat returns_step.
    + unfold parseNumber, throw. repeat returns_step.
  - intros e He. apply returns_Ok. exact He.
Qed.

Lemma matchKeyword_unique_keys characters start :
  returns (matchKeyword characters start) value_post.
Proof.
  unfold matchKeyword, value_post, throw.
  eapply returns_bind; [apply returns_anything | intros [[raw end_] cs] _].
  cbv zeta.
  repeat match goal with
         | |- context [if ?b then _ else _] => destruct b
         end;
    repeat returns_step.
Qed.

Section DecodedTables.

Variable LocalTZA : Z -> bool -> Z.

Definition next_unique (f : matchNext_type) : Prop :=
  forall cs ex ek st nl, returns (f cs ex ek st nl) value_post.

Definition array_unique (f : matchArray_type) : Prop :=
  forall cs d r st ex, Forall unique_keys r -> returns (f cs d r st ex) value_post.

Definition map_unique (f : matchMap_type) : Prop :=
  forall cs r st ex, unique_keys (DMap r) -> returns (f cs r st ex) value_post.

(** The state of the loop of [matchEntries]: the document, and the Map of
    the section that is written to. *)
Definition entries_unique (f : matchEntries_type) : Prop :=
  forall cs r t,
    unique_keys (DMap r) ->
    match t with Some (_, written) => unique_keys (DMap written) | None => True end ->
    returns (f cs r t) (fun document => unique_keys (DMap document)).

Lemma matchNext_body_unique (n : matchNext_type) (a : matchArray_type)
    (m : matchMap_type) :
  next_unique n -> array_unique a -> map_unique m ->
  next_unique (matchNext_body LocalTZA n a m).
Proof.
  intros Hn Ha Hm cs ex ek st nl. unfold matchNext_body.
  eapply returns_bind; [apply returns_anything |]. intros [start cs1] _.
  repeat first
    [ apply Hn
    | apply Ha; constructor
    | apply Hm; repeat constructor
    | apply matchKey_unique_keys
    | apply matchString_unique_keys
    | apply matchNumber_unique_keys
    | apply matchKeyword_unique_keys
    | returns_step ].
Qed.

Lemma matchArray_body_unique (n : matchNext_type) (a : matchArray_type) :
  next_unique n -> array_unique a -> array_unique (matchArray_body n a).
Proof.
  intros Hn Ha cs d r st ex Hr. unfold matchArray_body.
  eapply returns_bind; [apply Hn |]. intros [entry cs1] Hentry.
  unfold value_post in Hentry. cbn in Hentry.
  destruct (entry_type entry);
    try (destruct (bool_decide _);
         [ apply returns_Ok; unfold value_post; cbn; constructor; exact Hr
         | unfold unexpected_delimiter; repeat returns_step ]).
  - apply Ha. apply Forall_app. split; [exact Hr |]. constructor; [exact Hentry | constructor].
  - apply Ha, Hr.
Qed.

Lemma matchMap_body_unique (n : matchNext_type) (m : matchMap_type) :
  next_unique n -> map_unique m -> map_unique (matchMap_body n m).
Proof.
  intros Hn Hm cs r st ex Hr. unfold matchMap_body.
  eapply returns_bind; [apply returns_anything |]. intros [entryKey cs1] _.
  assert (Hentry :
            returns
              (if negb (jsstring_eqb (entry_end entryKey) [61])
               then unexpected_delimiter
                      (str "assignment character " ++ repr [61] 60 ++ str " ")
                      cs1 (entry_end entryKey) []
               else
                 '(entryValue, characters) ← n cs1 [VALUE] None [] false;
                 m characters (map_set (entry_key entryKey) (entry_value entryValue) r)
                   (entry_end entryValue) [LIST_DIVIDER; LIST_DELIMITER; NEW_LINE])
              value_post).
  { destruct (negb _); [unfold unexpected_delimiter; repeat returns_step |].
    eapply returns_bind; [apply Hn |]. intros [entryValue cs2] Hvalue.
    apply Hm, map_set_unique_keys; [exact Hvalue | exact Hr]. }
  destruct (entry_type entryKey); try exact Hentry.
  - apply Hm, Hr.
  - clear Hentry. destruct (jsstring_eqb (entry_end entryKey) [125]).
    + apply returns_Ok. exact Hr.
    + unfold unexpected_delimiter. repeat returns_step.
Qed.

Lemma matchEntries_body_unique (n : matchNext_type) (l : matchEntries_type) :
  next_unique n -> entries_unique l -> entries_unique (matchEntries_body n l).
Proof.
  intros Hn Hl cs r t Hr Ht. unfold matchEntries_body.
  eapply returns_bind; [apply returns_anything |]. intros [entryKey cs1] _.
  destruct (bool_decide _); [apply returns_Ok, Hr |].
  destruct (jsstring_eqb _ [93]).
  { apply Hl; [| repeat constructor].
    apply map_set_unique_keys; [repeat constructor | exact Hr]. }
  destruct (negb _); [unfold unexpected_delimiter; repeat returns_step |].
  eapply returns_bind.
  { apply returns_at_entry. unfold matchEntryValue.
    eapply returns_bind; [apply Hn |]. intros [entryValue cs2] Hvalue.
    instantiate (1 := value_post).
    destruct (negb _); [| apply returns_Ok, Hvalue].
    eapply returns_bind; [apply returns_anything |]. intros [? cs3] _.
    apply returns_Ok, Hvalue. }
  intros [entryValue cs2] Hvalue. unfold target_set.
  destruct t as [[section written] |].
  - apply Hl; [| apply map_set_unique_keys; assumption].
    apply map_set_unique_keys; [| exact Hr].
    apply map_set_unique_keys; assumption.
  - apply Hl; [| exact I]. apply map_set_unique_keys; assumption.
Qed.

Lemma decoder_unique_keys (fuel : nat) :
  next_unique (matchNext LocalTZA fuel)
  /\ array_unique (matchArray LocalTZA fuel)
  /\ map_unique (matchMap LocalTZA fuel).
Proof.
  induction fuel as [|fuel (IHn & IHa & IHm)].
  - split; [| split]; intros ?; intros; apply returns_OutOfFuel.
  - split; [| split].
    + apply matchNext_body_unique; assumption.
    + apply matchArray_body_unique; assumption.
    + apply matchMap_body_unique; assumption.
Qed.

Lemma matchEntries_loop_unique_keys (fuel : nat) :
  entries_unique (matchEntries_loop LocalTZA fuel).
Proof.
  induction fuel as [|fuel IH].
  - intros ?; intros; apply returns_OutOfFuel.
  - apply matchEntries_body_unique; [apply decoder_unique_keys | exact IH].
Qed.

End DecodedTables.

(** X9: every table of a decoded document holds each of its keys once. *)
Lemma decode_unique_keys LocalTZA (input : input) (document : list (list Z * dvalue)) :
  decode LocalTZA input = Ok document -> unique_keys (DMap document).
Proof.
  destruct input; apply matchEntries_loop_unique_keys; repeat constructor.
Qed.

(** * Further properties of the decoder *)

(** ** What is skipped in front of an entry *)

(** Iterating a string: a code unit that is no high surrogate is a
    character of its own. *)
Lemma string_iter_cons (u : Z) (s : list Z) :
  is_high_surrogate u = false -> string_iter (u :: s) = [u] :: string_iter s.
Proof. intros Hu. cbn [string_iter]. rewrite Hu. destruct s; reflexivity. Qed.

Lemma string_iter_two (a b : Z) (s : list Z) :
  string_iter (a :: b :: s)
  = if is_high_surrogate a && is_low_surrogate b
    then [a; b] :: string_iter s else [a] :: string_iter (b :: s).
Proof. reflexivity. Qed.

(** A code unit that is no surrogate separates what is before it from what
    is after it. *)
Lemma string_iter_middle (s : list Z) (u : Z) (s' : list Z) :
  is_high_surrogate u = false -> is_low_surrogate u = false ->
  string_iter (s ++ u :: s') = string_iter s ++ [u] :: string_iter s'.
Proof.
  intros Hhigh Hlow.
  assert (H : forall n (s : list Z), (length s <= n)%nat ->
              string_iter (s ++ u :: s') = string_iter s ++ [u] :: string_iter s').
  { clear s. induction n as [|n IH]; intros [|a [|b s]] Hn; cbn [length] in Hn; try lia.
    - apply string_iter_cons, Hhigh.
    - apply string_iter_cons, Hhigh.
    - change ([a] ++ u :: s') with (a :: u :: s').
      rewrite string_iter_two, Hlow, andb_false_r.
      rewrite (string_iter_cons u s' Hhigh). reflexivity.
    - change ((a :: b :: s) ++ u :: s') with (a :: b :: (s ++ u :: s')).
      rewrite !string_iter_two. destruct (is_high_surrogate a && is_low_surrogate b).
      + rewrite (IH s) by lia. reflexivity.
      + change (b :: s ++ u :: s') with ((b :: s) ++ u :: s').
        rewrite (IH (b :: s)) by (cbn [length]; lia). reflexivity. }
  apply (H (length s)). lia.
Qed.

Lemma is_space_not_surrogate (u : Z) :
  is_space u = true -> is_high_surrogate u = false /\ is_low_surrogate u = false.
Proof. unfold is_space, is_high_surrogate, is_low_surrogate. lia. Qed.

(** With the fuel that is enough for the characters left, more fuel changes
    nothing. *)
Lemma matchNext_fuel_enough LocalTZA (fuel fuel' : nat) cs ex ek st nl :
  (2 * vlen st cs + 1 <= fuel)%nat -> (fuel <= fuel')%nat ->
  matchNext LocalTZA fuel cs ex ek st nl = matchNext LocalTZA fuel' cs ex ek st nl.
Proof.
  intros Hfuel Hle.
  destruct (matchNext_fuel_le LocalTZA fuel fuel' cs ex ek st nl Hle) as [H | H];
    [| exact H].
  exfalso.
  destruct (decoder_total LocalTZA fuel (vlen st cs)) as (Hn & _ & _).
  exact (proj1 (Hn Hfuel cs ex ek st nl ltac:(lia)) H).
Qed.

(** If the first call of [matchNext] in the loop of [matchEntries] goes on
    from fewer characters as if it had been given them at once, so does
    [matchEntries]. *)
Lemma matchEntries_skip LocalTZA (cs' cs : stream) :
  (stream_length cs < stream_length cs')%nat ->
  (forall fuel,
     matchNext LocalTZA (S fuel) cs' [KEY; NEW_LINE; END_OF_INPUT] (Some FIRST_LEVEL)
       [] false
     = matchNext LocalTZA fuel cs [KEY; NEW_LINE; END_OF_INPUT] (Some FIRST_LEVEL)
         [] false) ->
  matchEntries LocalTZA cs' = matchEntries LocalTZA cs.
Proof.
  intros Hlen Hskip.
  transitivity (matchEntries_loop LocalTZA (decode_fuel cs') cs [] None).
  - unfold matchEntries, decode_fuel.
    destruct (stream_length cs') as [|n] eqn:Hn; [lia |].
    replace (2 * S n + 3)%nat with (S (S (2 * n + 3))) by lia.
    cbn [matchEntries_loop]. unfold matchEntries_body.
    rewrite Hskip.
    rewrite (matchNext_fuel_enough LocalTZA (2 * n + 3) (S (2 * n + 3)))
      by (unfold vlen; lia).
    reflexivity.
  - apply matchEntries_loop_fuel. unfold decode_fuel. lia.
Qed.

(** A white space character, a line feed too, is skipped where a key is
    awaited. *)
Lemma matchNext_space LocalTZA (fuel : nat) (u : Z) cs ek :
  is_space u = true ->
  matchNext LocalTZA (S fuel) (SYield [u] cs) [KEY; NEW_LINE; END_OF_INPUT] ek [] false
  = matchNext LocalTZA fuel cs [KEY; NEW_LINE; END_OF_INPUT] ek [] false.
Proof.
  intros Hu. cbn [matchNext]. unfold matchNext_body.
  cbn [next mbind completion_bind matches existsb].
  destruct (Z.eqb_spec u 10) as [-> | H10]; [reflexivity |].
  assert (H35 : (u =? 35) = false) by (unfold is_space in Hu; lia).
  rewrite H35, Hu. reflexivity.
Qed.

Lemma matchEntries_space LocalTZA (u : Z) cs :
  is_space u = true -> matchEntries LocalTZA (SYield [u] cs) = matchEntries LocalTZA cs.
Proof.
  intros Hu. apply matchEntries_skip; [cbn; lia |].
  intros fuel. apply matchNext_space, Hu.
Qed.

(** X4: white space and empty lines in front of a document change nothing
    of what [decode] returns or throws. *)
Theorem decode_leading_space LocalTZA (space text : list Z) :
  forallb is_space space = true ->
  decode LocalTZA (InputString (space ++ text)) = decode LocalTZA (InputString text).
Proof.
  unfold decode, generateFrom. induction space as [|u space IH]; intros Hspace;
    [reflexivity |].
  cbn [forallb] in Hspace. apply andb_true_iff in Hspace as [Hu Hspace].
  cbn [app]. rewrite string_iter_cons by apply is_space_not_surrogate, Hu.
  cbn [yield_all]. rewrite (matchEntries_space _ _ _ Hu). apply IH, Hspace.
Qed.

Lemma decode_leading_space_witness :
  forallb is_space (str "  " ++ [10; 9]) = true
  /\ decode UTC_zone (InputString ((str "  " ++ [10; 9]) ++ str "a = 1"))
     = decode UTC_zone (InputString (str "a = 1")).
Proof.
  split; [reflexivity |].
  apply (decode_leading_space UTC_zone (str "  " ++ [10; 9]) (str "a = 1")).
  reflexivity.
Defined.

(** ** Reading up to a delimiter *)

(** A character that [matchUntil] takes as text: it is no backslash and
    does not occur in the delimiters. *)
Definition plain_character (delimiters character : list Z) : bool :=
  negb (jsstring_eqb character [92]) && negb (includes delimiters character).

(** A code unit of such a character. *)
Definition plain_unit (delimiters : list Z) (u : Z) : bool :=
  negb (u =? 92) && negb (existsb (Z.eqb u) delimiters).

Lemma includes_head (delimiters : list Z) (u : Z) (s : list Z) :
  existsb (Z.eqb u) delimiters = false -> includes delimiters (u :: s) = false.
Proof.
  induction delimiters as [|d delimiters IH]; cbn; [reflexivity |].
  intros H. apply orb_false_iff in H as [Hd H]. rewrite Hd, (IH H). reflexivity.
Qed.

Lemma plain_unit_character (delimiters : list Z) (u : Z) (s : list Z) :
  plain_unit delimiters u = true -> plain_character delimiters (u :: s) = true.
Proof.
  unfold plain_unit, plain_character, jsstring_eqb. intros H.
  apply andb_true_iff in H as [H92 Hd].
  rewrite includes_head by (destruct (existsb _ _); [discriminate | reflexivity]).
  rewrite bool_decide_eq_false_2; [reflexivity |].
  intros [= -> _]. discriminate.
Qed.

(** The characters of a text whose code units are plain are plain. *)
Lemma string_iter_plain (delimiters : list Z) (s : list Z) :
  forallb (plain_unit delimiters) s = true ->
  Forall (fun c => plain_character delimiters c = true) (string_iter s).
Proof.
  assert (H : forall n (s : list Z), (length s <= n)%nat ->
              forallb (plain_unit delimiters) s = true ->
              Forall (fun c => plain_character delimiters c = true) (string_iter s)).
  { clear s. induction n as [|n IH]; intros [|a [|b s]] Hn Hs; cbn [length] in Hn;
      try lia; try (constructor; fail).
    - cbn [forallb] in Hs. apply andb_true_iff in Hs as [Ha _].
      constructor; [apply plain_unit_character, Ha | constructor].
    - cbn [forallb] in Hs. apply andb_true_iff in Hs as [Ha Hs].
      rewrite string_iter_two. destruct (is_high_surrogate a && is_low_surrogate b).
      + constructor; [apply plain_unit_character, Ha |].
        apply IH; [lia |]. apply andb_true_iff in Hs as [_ Hs]. exact Hs.
      + constructor; [apply plain_unit_character, Ha |].
        apply IH; [cbn [length]; lia | exact Hs]. }
  apply (H (length s)). lia.
Qed.

(** [matchUntil] takes plain characters as text. *)
Lemma matchUntil_loop_text (text : list (list Z)) (rest : stream)
    (delimiters : list Z) (endOfInput : bool) (result : list (list Z)) :
  Forall (fun c => plain_character delimiters c = true) text ->
  matchUntil_loop (yield_all text rest) delimiters endOfInput result false
  = matchUntil_loop rest delimiters endOfInput (result ++ text) false.
Proof.
  intros Htext. revert result.
  induction Htext as [|c text Hc _ IH]; intros result; cbn [yield_all].
  - rewrite app_nil_r. reflexivity.
  - cbn [matchUntil_loop]. unfold plain_character in Hc.
    apply andb_true_iff in Hc as [H92 Hd].
    apply negb_true_iff in H92. apply negb_true_iff in Hd. rewrite H92, Hd.
    rewrite IH, <- app_assoc. reflexivity.
Qed.

Lemma includes_unit (delimiters : list Z) (d : Z) :
  existsb (Z.eqb d) delimiters = true -> includes delimiters [d] = true.
Proof.
  induction delimiters as [|x delimiters IH]; cbn; [discriminate |].
  destruct (d =? x); [reflexivity |]. cbn. exact IH.
Qed.

Lemma matchUntil_loop_delimiter (text : list Z) (delimiters : list Z) (endOfInput : bool)
    (result : list (list Z)) (d : Z) (rest : stream) :
  forallb (plain_unit delimiters) text = true ->
  d <> 92 -> existsb (Z.eqb d) delimiters = true ->
  matchUntil_loop (yield_all (string_iter text) (SYield [d] rest)) delimiters endOfInput
    result false
  = Ok (join result ++ text, [d], rest).
Proof.
  intros Htext H92 Hd. apply string_iter_plain in Htext.
  rewrite (matchUntil_loop_text _ _ _ _ _ Htext). cbn [matchUntil_loop].
  unfold jsstring_eqb. rewrite bool_decide_eq_false_2 by congruence.
  rewrite (includes_unit _ _ Hd). unfold join.
  rewrite concat_app. pose proof (join_string_iter text) as H. unfold join in H.
  rewrite H. reflexivity.
Qed.

Lemma matchUntil_loop_end (text : list Z) (delimiters : list Z)
    (result : list (list Z)) :
  forallb (plain_unit delimiters) text = true ->
  matchUntil_loop (yield_all (string_iter text) SDone) delimiters true result false
  = Ok (join result ++ text, [], SDone).
Proof.
  intros Htext. apply string_iter_plain in Htext.
  rewrite (matchUntil_loop_text _ _ _ _ _ Htext). cbn [matchUntil_loop].
  unfold join. rewrite concat_app.
  pose proof (join_string_iter text) as H. unfold join in H. rewrite H. reflexivity.
Qed.

(** X6: [matchUntil] on a text with no backslash and no delimiter.  Followed
    by a delimiter: the text, the delimiter, and the characters after it
    are left unread.  At the end of the input: the text and no delimiter if
    the end is allowed, an error if it is not. *)
Theorem matchUntil_text (text : list Z) (delimiters : list Z) (endOfInput : bool) :
  forallb (plain_unit delimiters) text = true ->
  (forall (d : Z) (rest : stream),
     d <> 92 -> existsb (Z.eqb d) delimiters = true ->
     matchUntil (yield_all (string_iter text) (SYield [d] rest)) delimiters endOfInput []
     = Ok (text, [d], rest))
  /\ matchUntil (yield_all (string_iter text) SDone) delimiters true []
     = Ok (text, [], SDone)
  /\ matchUntil (yield_all (string_iter text) SDone) delimiters false []
     = throw (if (length delimiters =? 1)%nat
              then str "delimiter " ++ repr delimiters 60
                   ++ str " expected but end of input reached"
              else str "delimiter expected but end of input reached").
Proof.
  intros Htext. apply string_iter_plain in Htext.
  unfold matchUntil. split; [| split].
  - intros d rest H92 Hd.
    rewrite (matchUntil_loop_text _ _ _ _ _ Htext). cbn [matchUntil_loop app].
    unfold jsstring_eqb. rewrite bool_decide_eq_false_2 by congruence.
    assert (Hincludes : includes delimiters [d] = true).
    { clear -Hd. induction delimiters as [|x delimiters IH]; cbn in *; [discriminate |].
      destruct (d =? x); [reflexivity |]. cbn in *. apply IH, Hd. }
    rewrite Hincludes, join_string_iter. reflexivity.
  - rewrite (matchUntil_loop_text _ _ _ _ _ Htext). cbn [matchUntil_loop app].
    rewrite join_string_iter. reflexivity.
  - rewrite (matchUntil_loop_text _ _ _ _ _ Htext). reflexivity.
Qed.

Lemma matchUntil_text_witness :
  forallb (plain_unit DELIMITERS) (str "key ") = true
  /\ matchUntil (yield_all (string_iter (str "key ")) (SYield [61] SDone))
       DELIMITERS true []
     = Ok (str "key ", [61], SDone).
Proof.
  split; [reflexivity |].
  apply (proj1 (matchUntil_text (str "key ") DELIMITERS true eq_refl));
    [discriminate | reflexivity].
Defined.

Lemma stream_length_yield_all (characters : list (list Z)) (rest : stream) :
  stream_length (yield_all characters rest)
  = (length characters + stream_length rest)%nat.
Proof. induction characters as [|c characters IH]; cbn; [reflexivity | lia]. Qed.

(** A comment is skipped up to its line feed where a key is awaited. *)
Lemma matchNext_comment LocalTZA (fuel : nat) (comment : list (list Z)) cs ek :
  Forall (fun c => plain_character [10] c = true) comment ->
  matchNext LocalTZA (S fuel) (SYield [35] (yield_all comment (SYield [10] cs)))
    [KEY; NEW_LINE; END_OF_INPUT] ek [] false
  = matchNext LocalTZA fuel cs [KEY; NEW_LINE; END_OF_INPUT] ek [] false.
Proof.
  intros Hcomment. cbn [matchNext]. unfold matchNext_body.
  cbn [next mbind completion_bind matches existsb Z.eqb Pos.eqb orb].
  unfold checkMatch. rewrite bool_decide_eq_true_2
    by (apply list_elem_of_further, list_elem_of_here).
  cbn [mbind completion_bind]. unfold matchUntil.
  rewrite (matchUntil_loop_text _ _ _ _ _ Hcomment). reflexivity.
Qed.

(** X5: a comment line in front of a document, with no backslash in it,
    changes nothing of what [decode] returns or throws. *)
Theorem decode_leading_comment LocalTZA (comment text : list Z) :
  forallb (plain_unit [10]) comment = true ->
  decode LocalTZA (InputString ([35] ++ comment ++ [10] ++ text))
  = decode LocalTZA (InputString text).
Proof.
  intros Hcomment. unfold decode, generateFrom.
  cbn [app]. rewrite string_iter_cons by reflexivity.
  rewrite string_iter_middle by reflexivity.
  cbn [yield_all]. rewrite yield_all_app. cbn [yield_all]. apply matchEntries_skip.
  - cbn [stream_length]. rewrite !stream_length_yield_all. cbn [stream_length].
    rewrite stream_length_yield_all. lia.
  - intros fuel. apply matchNext_comment, string_iter_plain, Hcomment.
Qed.

Lemma decode_leading_comment_witness :
  forallb (plain_unit [10]) (str " settings") = true
  /\ decode UTC_zone (InputString ([35] ++ str " settings" ++ [10] ++ str "a = 1"))
     = decode UTC_zone (InputString (str "a = 1")).
Proof.
  split; [reflexivity |].
  apply (decode_leading_comment UTC_zone (str " settings") (str "a = 1")).
  reflexivity.
Defined.

(** A backslash at the end of a comment takes the line feed into the
    comment: the next line is skipped too. *)
Example decode_comment_backslash :
  decode UTC_zone
    (InputString ([35] ++ str " c" ++ [92; 10] ++ str "a = 1" ++ [10] ++ str "b = 2"))
  = Ok [(str "b", DNumber (Finite 2 0))].
Proof. vm_compute. reflexivity. Qed.

(** * Further properties of the character source adapter *)

(** ** Chunks of any bytes *)

(** [generateFrom(value)] for bytes: one call of [decoder.decode]. *)
Definition generateFrom_bytes (value : list Z) : stream :=
  yield_all (string_iter (TextDecoder_decode value)) SDone.

(** The code points from [low] to [high] are scalar values. *)
Definition scalar_range (low high : Z) : Prop :=
  0 <= low /\ low <= high /\ high <= 0x10FFFF /\ (high < 0xD800 \/ 0xE000 <= low).

(** What holds of the state of the decoder between two bytes: whatever the
    bytes awaited are, within the boundaries, the code point they complete
    is a scalar value. *)
Definition decoder_ok (d : utf8_decoder) : Prop :=
  bytes_needed d = 0
  \/ (bytes_needed d <> 0
      /\ 0x80 <= lower_boundary d /\ lower_boundary d <= upper_boundary d
      /\ upper_boundary d <= 0xBF
      /\ ((bytes_needed d - bytes_seen d = 1
           /\ scalar_range (code_point d * 64 + (lower_boundary d - 0x80))
                           (code_point d * 64 + (upper_boundary d - 0x80)))
          \/ (bytes_needed d - bytes_seen d = 2
              /\ scalar_range ((code_point d * 64 + (lower_boundary d - 0x80)) * 64)
                              ((code_point d * 64 + (upper_boundary d - 0x80)) * 64 + 63))
          \/ (bytes_needed d - bytes_seen d = 3
              /\ scalar_range ((code_point d * 64 + (lower_boundary d - 0x80)) * 4096)
                              ((code_point d * 64 + (upper_boundary d - 0x80)) * 4096
                               + 4095)))).

(** What the decoder emits at the end of the stream. *)
Definition utf8_flush (d : utf8_decoder) : list Z :=
  if bytes_needed d =? 0 then [] else [0xFFFD].

Lemma utf8_lead_ok (byte : Z) :
  decoder_ok (utf8_lead byte).1 /\ forallb is_scalar_value (utf8_lead byte).2 = true.
Proof.
  unfold utf8_lead.
  destruct ((0 <=? byte) && (byte <=? 0x7F)) eqn:H1.
  { split; [left; reflexivity |]. cbn. unfold is_scalar_value. lia. }
  destruct ((0xC2 <=? byte) && (byte <=? 0xDF)) eqn:H2.
  { split; [| reflexivity]. right. cbn [fst code_point bytes_seen bytes_needed
                                        lower_boundary upper_boundary].
    rewrite lead_bits_2. unfold scalar_range.
    repeat split; try lia. left. split; [lia |]. Z.div_mod_to_equations. lia. }
  destruct ((0xE0 <=? byte) && (byte <=? 0xEF)) eqn:H3.
  { split; [| reflexivity]. right. cbn [fst code_point bytes_seen bytes_needed
                                        lower_boundary upper_boundary].
    rewrite lead_bits_3. unfold scalar_range.
    destruct (Z.eqb_spec byte 0xE0), (Z.eqb_spec byte 0xED);
      (repeat split; try lia); right; left; (split; [lia |]);
      Z.div_mod_to_equations; lia. }
  destruct ((0xF0 <=? byte) && (byte <=? 0xF4)) eqn:H4.
  { split; [| reflexivity]. right. cbn [fst code_point bytes_seen bytes_needed
                                        lower_boundary upper_boundary].
    rewrite lead_bits_4. unfold scalar_range.
    destruct (Z.eqb_spec byte 0xF0), (Z.eqb_spec byte 0xF4);
      (repeat split; try lia); right; right; (split; [lia |]);
      Z.div_mod_to_equations; lia. }
  split; [left; reflexivity | reflexivity].
Qed.

Lemma utf8_handler_ok (d : utf8_decoder) (byte : Z) :
  decoder_ok d ->
  decoder_ok (utf8_handler d byte).1
  /\ forallb is_scalar_value (utf8_handler d byte).2 = true.
Proof.
  intros Hd. unfold utf8_handler.
  destruct (Z.eqb_spec (bytes_needed d) 0) as [Hneeded | Hneeded];
    [apply utf8_lead_ok |].
  destruct Hd as [Hd | (_ & Hlower & Hbounds & Hupper & Hd)]; [contradiction |].
  destruct ((lower_boundary d <=? byte) && (byte <=? upper_boundary d)) eqn:Hbyte;
    cbn [negb].
  2:{ pose proof (utf8_lead_ok byte) as [H1 H2].
      destruct (utf8_lead byte) as [d' out]. split; [exact H1 |].
      cbn [snd forallb] in *. rewrite H2. reflexivity. }
  rewrite continuation_bits, lor_shiftl_6 by (apply Z.mod_pos_bound; lia).
  assert (Hlow : byte mod 64 = byte - 0x80) by (Z.div_mod_to_equations; lia).
  rewrite Hlow. unfold scalar_range in Hd.
  destruct (Z.eqb_spec (bytes_seen d + 1) (bytes_needed d)) as [Hseen | Hseen].
  - split; [left; reflexivity |]. cbn [snd forallb]. unfold is_scalar_value.
    destruct Hd as [[Hr Hd] | [[Hr Hd] | [Hr Hd]]]; lia.
  - split; [| reflexivity]. right.
    cbn [fst code_point bytes_seen bytes_needed lower_boundary upper_boundary].
    unfold scalar_range.
    destruct Hd as [[Hr Hd] | [[Hr Hd] | [Hr Hd]]]; [lia | |].
    + repeat split; lia.
    + repeat split; lia.
Qed.

(** The decoder emits scalar values only, and keeps its state as said. *)
Lemma utf8_run_ok (bytes : list Z) :
  forall d, decoder_ok d ->
    decoder_ok (utf8_run d bytes).1
    /\ forallb is_scalar_value (utf8_run d bytes).2 = true.
Proof.
  induction bytes as [|byte bytes IH]; intros d Hd; cbn [utf8_run].
  - split; [exact Hd | reflexivity].
  - pose proof (utf8_handler_ok d byte Hd) as [H1 H2].
    destruct (utf8_handler d byte) as [d1 o1]. cbn [fst snd] in H1, H2.
    pose proof (IH d1 H1) as [H3 H4].
    destruct (utf8_run d1 bytes) as [d2 o2]. cbn [fst snd] in *.
    split; [exact H3 |]. rewrite forallb_app, H2, H4. reflexivity.
Qed.

Lemma utf8_flush_scalar (d : utf8_decoder) :
  forallb is_scalar_value (utf8_flush d) = true.
Proof. unfold utf8_flush. destruct (_ =? _); reflexivity. Qed.

Lemma utf16_encode_app (text text' : list Z) :
  utf16_encode (text ++ text') = utf16_encode text ++ utf16_encode text'.
Proof. unfold utf16_encode. rewrite map_app, concat_app. reflexivity. Qed.

(** The text of one call of [decoder.decode], character by character: what
    the decoder emits for the bytes and at their end, less a byte order
    mark in front. *)
Lemma TextDecoder_decode_characters (bytes : list Z) :
  string_iter (TextDecoder_decode bytes)
  = map utf16_units
      (drop_BOM ((utf8_run utf8_initial bytes).2
                 ++ utf8_flush (utf8_run utf8_initial bytes).1)).
Proof.
  unfold TextDecoder_decode, TextDecoder_decode_stream, TextDecoder_decode_end.
  cbn [new_TextDecoder td_decoder td_BOM_seen].
  pose proof (utf8_run_ok bytes utf8_initial ltac:(left; reflexivity)) as [_ Hout].
  destruct (utf8_run utf8_initial bytes) as [d out]. cbn [fst snd] in *.
  pose proof (utf8_flush_scalar d) as Hflush.
  destruct out as [|item out]; cbn [serialize app drop_BOM td_decoder td_BOM_seen fst].
  - unfold utf8_flush. destruct (bytes_needed d =? 0); reflexivity.
  - cbn [forallb] in Hout. apply andb_true_iff in Hout as [Hitem Hout].
    fold (utf8_flush d).
    destruct (item =? 0xFEFF);
      rewrite <- utf16_encode_app; apply string_iter_utf16_encode;
      [| cbn [app forallb]; rewrite Hitem];
      rewrite forallb_app, Hout, Hflush; reflexivity.
Qed.

(** The characters yielded for byte chunks, from any state of the decoder. *)
Lemma generateFromChunks_loop_any_bytes (chunks : list (list Z)) :
  forall td : TextDecoder,
    decoder_ok (td_decoder td) ->
    generateFromChunks_loop (decoder_object td) (map ByteChunk chunks)
    = yield_all
        (map utf16_units
           (let output :=
              (utf8_run (td_decoder td) (concat chunks)).2
              ++ utf8_flush (utf8_run (td_decoder td) (concat chunks)).1 in
            if td_BOM_seen td then output else drop_BOM output))
        SDone.
Proof.
  induction chunks as [|bytes chunks IH]; intros [d0 seen] Hd0;
    cbn [td_decoder td_BOM_seen] in *; cbv zeta.
  - cbn [map concat utf8_run fst snd app generateFromChunks_loop].
    unfold TextDecoder_decode_end, utf8_flush. cbn [td_decoder td_BOM_seen].
    destruct seen, (bytes_needed d0 =? 0); reflexivity.
  - cbn [map concat generateFromChunks_loop]. unfold TextDecoder_decode_stream.
    cbn [td_decoder td_BOM_seen]. rewrite utf8_run_app.
    pose proof (utf8_run_ok bytes d0 Hd0) as [Hd1 Ho1].
    destruct (utf8_run d0 bytes) as [d1 o1]. cbn [fst snd] in Hd1, Ho1.
    destruct (serialize seen o1) as [text seen1] eqn:Hserialize.
    rewrite (IH (MkTextDecoder d1 seen1) Hd1).
    cbn [td_decoder td_BOM_seen]. cbv zeta.
    destruct (utf8_run d1 (concat chunks)) as [d2 o2]. cbn [fst snd].
    unfold serialize in Hserialize.
    destruct seen.
    + injection Hserialize as <- <-.
      rewrite (string_iter_utf16_encode _ Ho1), <- yield_all_app, <- map_app, app_assoc.
      reflexivity.
    + destruct o1 as [|item o1].
      * injection Hserialize as <- <-. reflexivity.
      * injection Hserialize as <- <-.
        cbn [app drop_BOM forallb] in *. apply andb_true_iff in Ho1 as [Hitem Ho1].
        destruct (item =? 0xFEFF).
        -- rewrite (string_iter_utf16_encode _ Ho1), <- yield_all_app, <- map_app,
             app_assoc. reflexivity.
        -- rewrite string_iter_utf16_encode
             by (cbn [forallb]; rewrite Hitem, Ho1; reflexivity).
           rewrite <- yield_all_app, <- map_app, <- (app_assoc o1). reflexivity.
Qed.

Lemma generateFromChunks_one_piece (chunks : list (list Z)) :
  generateFromChunks (map ByteChunk chunks) = generateFrom_bytes (concat chunks).
Proof.
  unfold generateFrom_bytes. rewrite TextDecoder_decode_characters.
  transitivity
    (generateFromChunks_loop (decoder_object new_TextDecoder) (map ByteChunk chunks)).
  - destruct chunks; reflexivity.
  - apply (generateFromChunks_loop_any_bytes chunks new_TextDecoder).
    left. reflexivity.
Qed.

(** X10: however bytes are cut into chunks, well-formed or not, the chunk
    adapter yields the characters that [generateFrom] yields for the bytes
    in one piece, and so [decode] depends on the bytes only. *)
Theorem generateFromChunks_any_bytes LocalTZA (chunks chunks' : list (list Z)) :
  generateFromChunks (map ByteChunk chunks) = generateFrom_bytes (concat chunks)
  /\ (concat chunks = concat chunks' ->
      decode LocalTZA (InputChunks (map ByteChunk chunks))
      = decode LocalTZA (InputChunks (map ByteChunk chunks'))).
Proof.
  split; [apply generateFromChunks_one_piece |].
  intros Hbytes. unfold decode.
  rewrite !generateFromChunks_one_piece, Hbytes. reflexivity.
Qed.

Lemma generateFromChunks_any_bytes_witness :
  concat [[0x61; 0xE2]; [0x82]; [0xAC; 0x3D]] = concat [[0x61]; [0xE2; 0x82; 0xAC; 0x3D]]
  /\ decode UTC_zone (InputChunks (map ByteChunk [[0x61; 0xE2]; [0x82]; [0xAC; 0x3D]]))
     = decode UTC_zone (InputChunks (map ByteChunk [[0x61]; [0xE2; 0x82; 0xAC; 0x3D]])).
Proof.
  split; [reflexivity |].
  apply (proj2 (generateFromChunks_any_bytes UTC_zone [[0x61; 0xE2]; [0x82]; [0xAC; 0x3D]]
                  [[0x61]; [0xE2; 0x82; 0xAC; 0x3D]])).
  reflexivity.
Defined.

(** Bytes that are no text: the replacement characters are the same. *)
Example generateFromChunks_malformed :
  generateFromChunks [ByteChunk [0x61; 0xE2]; ByteChunk [0x82]; ByteChunk [0x62; 0xFF]]
  = yield_all [[0x61]; [0xFFFD]; [0x62]; [0xFFFD]] SDone.
Proof. reflexivity. Qed.

(** ** Chunks of text *)

(** The text ends with the first half of a surrogate pair. *)
Definition ends_with_high_surrogate (text : list Z) : bool :=
  match last text with
  | Some u => is_high_surrogate u
  | None => false
  end.

Lemma string_iter_app (s s' : list Z) :
  ends_with_high_surrogate s = false ->
  string_iter (s ++ s') = string_iter s ++ string_iter s'.
Proof.
  assert (H : forall n (s : list Z), (length s <= n)%nat ->
              ends_with_high_surrogate s = false ->
              string_iter (s ++ s') = string_iter s ++ string_iter s').
  { clear s. induction n as [|n IH]; intros [|a [|b s]] Hn Hs; cbn [length] in Hn;
      try lia; try reflexivity.
    - apply (string_iter_cons a s'). exact Hs.
    - change ((a :: b :: s) ++ s') with (a :: b :: (s ++ s')).
      rewrite !string_iter_two. destruct (is_high_surrogate a && is_low_surrogate b).
      + rewrite (IH s); [reflexivity | lia |].
        destruct s; [reflexivity | exact Hs].
      + change (b :: s ++ s') with ((b :: s) ++ s').
        rewrite (IH (b :: s)); [reflexivity | cbn [length]; lia | exact Hs]. }
  apply (H (length s)). lia.
Qed.

(** Text chunks are iterated one after the other. *)
Lemma generateFromChunks_texts (texts : list (list Z)) :
  generateFromChunks (map TextChunk texts)
  = yield_all (concat (map string_iter texts)) SDone.
Proof.
  induction texts as [|text texts IH]; [reflexivity |].
  cbn [map concat]. rewrite yield_all_app, <- IH. reflexivity.
Qed.

(** X11: when no text chunk ends inside a surrogate pair, the chunk adapter
    yields the characters of the chunks joined, and [decode] returns what
    it returns for the joined text. *)
Theorem decode_text_chunks LocalTZA (texts : list (list Z)) :
  forallb (fun text => negb (ends_with_high_surrogate text)) texts = true ->
  generateFromChunks (map TextChunk texts) = generateFrom (concat texts)
  /\ decode LocalTZA (InputChunks (map TextChunk texts))
     = decode LocalTZA (InputString (concat texts)).
Proof.
  intros Htexts.
  assert (H : generateFromChunks (map TextChunk texts) = generateFrom (concat texts)).
  { rewrite generateFromChunks_texts. unfold generateFrom. f_equal.
    induction texts as [|text texts IH]; [reflexivity |].
    cbn [forallb] in Htexts. apply andb_true_iff in Htexts as [Htext Htexts].
    cbn [map concat]. rewrite string_iter_app by (apply negb_true_iff, Htext).
    rewrite (IH Htexts). reflexivity. }
  split; [exact H |]. unfold decode. rewrite H. reflexivity.
Qed.

Lemma decode_text_chunks_witness :
  forallb (fun text => negb (ends_with_high_surrogate text))
    [str "a = "; [34; 0xD83D; 0xDE00]; []; [34; 10]] = true
  /\ decode UTC_zone
       (InputChunks (map TextChunk [str "a = "; [34; 0xD83D; 0xDE00]; []; [34; 10]]))
     = decode UTC_zone
         (InputString (concat [str "a = "; [34; 0xD83D; 0xDE00]; []; [34; 10]])).
Proof.
  split; [reflexivity |].
  apply (decode_text_chunks UTC_zone [str "a = "; [34; 0xD83D; 0xDE00]; []; [34; 10]]).
  reflexivity.
Defined.

(** A surrogate pair cut by the chunks is yielded as two characters. *)
Example generateFromChunks_split_pair :
  generateFromChunks [TextChunk [0xD83D]; TextChunk [0xDE00]]
  = yield_all [[0xD83D]; [0xDE00]] SDone
  /\ generateFrom [0xD83D; 0xDE00] = yield_all [[0xD83D; 0xDE00]] SDone.
Proof. split; reflexivity. Qed.

(** X12: text chunks, then byte chunks: the texts are iterated, and the bytes
    are decoded from the first byte chunk on as [generateFrom] decodes them
    in one piece. *)
Theorem generateFromChunks_texts_before_bytes (texts chunks : list (list Z)) :
  generateFromChunks (map TextChunk texts ++ map ByteChunk chunks)
  = yield_all (concat (map string_iter texts)) (generateFrom_bytes (concat chunks)).
Proof.
  induction texts as [|text texts IH].
  - apply generateFromChunks_one_piece.
  - cbn [map app concat]. rewrite yield_all_app, <- IH. reflexivity.
Qed.

(** The texts [decoder.decode(chunk, {stream: true})] gives for byte
    chunks, one call after the other. *)
Fixpoint decode_stream_chunks (td : TextDecoder) (chunks : list (list Z))
    : list (list Z) * TextDecoder :=
  match chunks with
  | [] => ([], td)
  | bytes :: chunks =>
      let '(text, td) := TextDecoder_decode_stream td bytes in
      let '(texts, td) := decode_stream_chunks td chunks in
      (text :: texts, td)
  end.

(** The characters yielded for byte chunks, from any state of the decoder,
    when a text chunk follows them and when the input ends with them. *)
Lemma generateFromChunks_loop_stream (chunks : list (list Z)) :
  forall (td : TextDecoder) (text : list Z) (rest : list chunk),
    generateFromChunks_loop (decoder_object td)
      (map ByteChunk chunks ++ TextChunk text :: rest)
    = yield_all (concat (map string_iter (decode_stream_chunks td chunks).1)) SThrow
    /\ generateFromChunks_loop (decoder_object td) (map ByteChunk chunks)
       = yield_all (concat (map string_iter (decode_stream_chunks td chunks).1))
           (yield_all (string_iter (TextDecoder_decode_end (decode_stream_chunks td chunks).2))
              SDone).
Proof.
  induction chunks as [|c chunks IH]; intros td text rest.
  - split; reflexivity.
  - cbn [map app generateFromChunks_loop decode_stream_chunks].
    destruct (TextDecoder_decode_stream td c) as [t td'].
    destruct (IH td' text rest) as [Hthrow Hend]. rewrite Hthrow, Hend.
    destruct (decode_stream_chunks td' chunks) as [texts td''].
    cbn [fst snd map concat]. rewrite !yield_all_app. split; reflexivity.
Qed.

(** What the end of the stream adds: nothing, or the replacement character
    for a sequence that is not finished. *)
Lemma TextDecoder_decode_end_cases (td : TextDecoder) :
  TextDecoder_decode_end td = [] \/ TextDecoder_decode_end td = [0xFFFD].
Proof.
  unfold TextDecoder_decode_end, serialize.
  destruct (bytes_needed (td_decoder td) =? 0), (td_BOM_seen td); auto.
Qed.

(** X13: once a byte chunk has been decoded, a text chunk makes the adapter
    raise, whatever the chunks after it.  It raises after the characters of
    the chunks before it: those of the texts, then what the decoder gives
    for each byte chunk.  These are the characters the adapter yields when
    the input ends before the text chunk, less what the end of the stream
    adds then (the replacement character, where the bytes end within a
    sequence). *)
Theorem generateFromChunks_text_after_bytes (texts : list (list Z)) (bytes : list Z)
    (chunks : list (list Z)) (text : list Z) (rest : list chunk) :
  let characters :=
    concat (map string_iter
              (texts ++ (decode_stream_chunks new_TextDecoder (bytes :: chunks)).1)) in
  generateFromChunks
    (map TextChunk texts ++ ByteChunk bytes :: map ByteChunk chunks
     ++ TextChunk text :: rest)
  = yield_all characters SThrow
  /\ exists last,
       (last = [] \/ last = [[0xFFFD]])
       /\ generateFromChunks (map TextChunk texts ++ ByteChunk bytes :: map ByteChunk chunks)
          = yield_all characters (yield_all last SDone).
Proof.
  cbv zeta.
  set (decoded := decode_stream_chunks new_TextDecoder (bytes :: chunks)).
  assert (Hbytes :
            generateFromChunks_loop decoder_null
              (ByteChunk bytes :: map ByteChunk chunks ++ TextChunk text :: rest)
            = yield_all (concat (map string_iter decoded.1)) SThrow
            /\ generateFromChunks_loop decoder_null (ByteChunk bytes :: map ByteChunk chunks)
               = yield_all (concat (map string_iter decoded.1))
                   (yield_all (string_iter (TextDecoder_decode_end decoded.2)) SDone)).
  { subst decoded. cbn [generateFromChunks_loop decode_stream_chunks].
    destruct (TextDecoder_decode_stream new_TextDecoder bytes) as [t td].
    destruct (generateFromChunks_loop_stream chunks td text rest) as [Hthrow Hend].
    rewrite Hthrow, Hend. destruct (decode_stream_chunks td chunks) as [ts td'].
    cbn [fst snd map concat]. rewrite !yield_all_app. split; reflexivity. }
  destruct Hbytes as [Hthrow Hend].
  assert (Htexts : forall tail,
            generateFromChunks_loop decoder_null (map TextChunk texts ++ tail)
            = yield_all (concat (map string_iter texts))
                (generateFromChunks_loop decoder_null tail)).
  { intros tail. induction texts as [|t texts IH]; [reflexivity |].
    cbn [map app concat generateFromChunks_loop]. rewrite IH, yield_all_app. reflexivity. }
  unfold generateFromChunks. rewrite map_app, concat_app. split.
  - rewrite Htexts, Hthrow, yield_all_app. reflexivity.
  - exists (string_iter (TextDecoder_decode_end decoded.2)). split.
    + destruct (TextDecoder_decode_end_cases decoded.2) as [-> | ->]; auto.
    + rewrite Htexts, Hend, yield_all_app. reflexivity.
Qed.

(** Two byte chunks that end within a sequence, then a text chunk: the
    adapter raises after the characters read so far; where the input ends
    there, the replacement character comes last. *)
Example generateFromChunks_text_after_bytes_ex :
  generateFromChunks [TextChunk (str "a"); ByteChunk [98; 0xE2]; ByteChunk [0x82];
                      TextChunk (str "c"); ByteChunk [100]]
  = yield_all [[97]; [98]] SThrow
  /\ generateFromChunks [TextChunk (str "a"); ByteChunk [98; 0xE2]; ByteChunk [0x82]]
     = yield_all [[97]; [98]; [0xFFFD]] SDone.
Proof. split; reflexivity. Qed.

(** * Further properties of the encoder *)

(** ** Arrays in one line and in lines *)

(** The single-line form of the entries of an array: [[a, b, c]]. *)
Definition inline_array (result : list (list (list Z))) : list Z :=
  str "[" ++ join_with (str ", ") (map join result) ++ str "]".

(** The form with one entry per line, four spaces before each and a comma
    after each. *)
Definition multiline_array (result : list (list (list Z))) : list Z :=
  str "[" ++ nl
  ++ concat (map (fun entry => str "    " ++ join entry ++ str "," ++ nl) result)
  ++ str "]".

(** The number [encodeArray] compares with 80 is the length of the
    single-line form. *)
Lemma inline_array_length (result : list (list (list Z))) :
  result <> [] ->
  jslength (inline_array result)
  = fold_left (fun sum entry => sum + pieces_length entry + 2) result 0.
Proof.
  intros Hne. unfold inline_array, jslength.
  rewrite !length_app. change (length (str "[")) with 1%nat.
  change (length (str "]")) with 1%nat.
  assert (H : forall acc,
             fold_left (fun sum entry => sum + pieces_length entry + 2) result acc
             = acc + Z.of_nat (length (join_with (str ", ") (map join result))) + 2).
  { destruct result as [|e result]; [congruence |]. clear Hne.
    revert e. induction result as [|e' result IH]; intros e acc.
    - cbn [fold_left map join_with]. rewrite pieces_length_join. unfold jslength. lia.
    - change (fold_left ?f (e :: e' :: result) acc)
        with (fold_left f (e' :: result) (f acc e)).
      rewrite IH.
      change (join_with ?sep (map ?g (e :: e' :: result)))
        with (g e ++ sep ++ join_with sep (map g (e' :: result))).
      rewrite pieces_length_join, !length_app. unfold jslength.
      change (length (str ", ")) with 2%nat. lia. }
  rewrite H. lia.
Qed.

Lemma concat_pop_last_array (result : list (list (list Z))) :
  join (concat (pop_last (map (fun entry => entry ++ [str ", "]) result)))
  = join_with (str ", ") (map join result).
Proof.
  unfold join.
  destruct result as [|e result]; [reflexivity |].
  revert e. induction result as [|e' result IH]; intros e.
  - cbn [map pop_last join_with]. rewrite removelast_last.
    cbn [concat]. rewrite app_nil_r. reflexivity.
  - change (pop_last (map ?g (e :: e' :: result)))
      with (g e :: pop_last (map g (e' :: result))).
    change (join_with ?sep (map ?g (e :: e' :: result)))
      with (g e ++ sep ++ join_with sep (map g (e' :: result))).
    rewrite concat_cons, concat_app, IH, concat_app. cbn [concat].
    rewrite app_nil_r, <- app_assoc. reflexivity.
Qed.

Lemma concat_multiline_array (result : list (list (list Z))) :
  join (concat (map (fun entry => [str "    "] ++ entry ++ [str "," ++ nl]) result))
  = concat (map (fun entry => str "    " ++ join entry ++ str "," ++ nl) result).
Proof.
  unfold join. induction result as [|e result IH]; [reflexivity |].
  cbn [map]. rewrite concat_cons, concat_app, IH.
  rewrite !concat_app. cbn [concat]. rewrite !app_nil_r, <- !app_assoc. reflexivity.
Qed.

(** What [layoutArray] returns, as text. *)
Lemma layoutArray_join (level : nat) (result : list (list (list Z))) :
  join (layoutArray level result)
  = match result with
    | [] => str "[]"
    | _ =>
        if (level =? 1)%nat && (80 <? jslength (inline_array result))
        then multiline_array result
        else inline_array result
    end.
Proof.
  destruct result as [|e result]; [reflexivity |].
  set (entries := e :: result).
  assert (Hne : entries <> []) by discriminate.
  rewrite (inline_array_length entries Hne).
  unfold layoutArray.
  set (length := fold_left _ entries 0).
  assert (Hpos : 0 < length).
  { subst length. rewrite <- (inline_array_length entries Hne).
    unfold inline_array, jslength. rewrite !length_app.
    change (Datatypes.length (str "[")) with 1%nat. lia. }
  replace (length =? 0) with false by (symmetry; apply Z.eqb_neq; lia).
  destruct ((level =? 1)%nat && (80 <? length)).
  - unfold multiline_array, join. rewrite !concat_app.
    pose proof (concat_multiline_array entries) as H. unfold join in H. rewrite H.
    cbn [concat]. rewrite !app_nil_r. reflexivity.
  - unfold inline_array, join. rewrite !concat_app.
    pose proof (concat_pop_last_array entries) as H. unfold join in H. rewrite H.
    cbn [concat]. rewrite !app_nil_r. reflexivity.
Qed.

(** X14: an array whose entries encode to [result] is rendered [[]] when it
    is empty; else in one line, [[a, b]], unless it is at level 1 (the value
    of an entry of the root or of a section) and that line has more than 80
    characters: then with one entry per line, four spaces before each and a
    comma after each. *)
Theorem encodeArray_layout (encodeValue : encoder) (h : heap) (input : loc)
    (references references' : gset loc) (level : nat) (items : list jvalue)
    (result : list (list (list Z))) :
  input ∉ references ->
  h !! input = Some (OArray items) ->
  array_from (encodeArrayEntry encodeValue level) items O (references ∪ {[input]})
  = Ok (result, references') ->
  exists pieces,
    encodeArray encodeValue h input references level
    = Ok (pieces, references' ∖ {[input]})
    /\ join pieces
       = match result with
         | [] => str "[]"
         | _ =>
             if (level =? 1)%nat && (80 <? jslength (inline_array result))
             then multiline_array result
             else inline_array result
         end.
Proof.
  intros Hfresh Hitems Hresult. exists (layoutArray level result). split.
  - unfold encodeArray. rewrite bool_decide_eq_false_2 by exact Hfresh.
    rewrite Hitems, Hresult. reflexivity.
  - apply layoutArray_join.
Qed.

(** An array of sixteen numbers of five digits: its line has 112
    characters. *)
Definition long_array_heap : heap :=
  list_to_map [(0%nat, OMap [(JString (str "a"), JRef 1%nat);
                             (JString (str "b"), JRef 2%nat)]);
               (1%nat, OArray (repeat (JNumber (Finite 12345 0)) 16));
               (2%nat, OArray [JRef 1%nat])].

Lemma encodeArray_layout_witness :
  exists pieces,
    encodeArray (encodeValue UTC_zone 1 long_array_heap) long_array_heap 1%nat ∅ 1
    = Ok (pieces, (∅ ∪ {[1%nat]}) ∖ {[1%nat]})
    /\ join pieces
       = match repeat [str "12345"] 16 with
         | [] => str "[]"
         | _ =>
             if (1 =? 1)%nat && (80 <? jslength (inline_array (repeat [str "12345"] 16)))
             then multiline_array (repeat [str "12345"] 16)
             else inline_array (repeat [str "12345"] 16)
         end.
Proof.
  apply (encodeArray_layout (encodeValue UTC_zone 1 long_array_heap) long_array_heap
           1%nat ∅ (∅ ∪ {[1%nat]}) 1 (repeat (JNumber (Finite 12345 0)) 16)
           (repeat [str "12345"] 16)).
  - apply not_elem_of_empty.
  - reflexivity.
  - reflexivity.
Defined.

(** The array is broken into lines as the value of an entry, and stays in
    one line inside another array (which is the one broken into lines). *)
Example encode_long_array :
  encode UTC_zone long_array_heap 0%nat
  = Ok (str "a = [" ++ nl
        ++ concat (repeat (str "    12345," ++ nl) 16) ++ str "]" ++ nl
        ++ str "b = [" ++ nl
        ++ str "    [" ++ join_with (str ", ") (repeat (str "12345") 16) ++ str "],"
        ++ nl ++ str "]").
Proof. vm_compute. reflexivity. Qed.

(** * Documents of entries and sections *)

(** ** Line feeds in front of the items [matchEntries] reads *)

(** A line feed in front of the items is skipped. *)
Lemma reads_items_line_feed LocalTZA cs items :
  reads_items LocalTZA cs items -> reads_items LocalTZA (SYield [10] cs) items.
Proof.
  intros Hitems.
  destruct Hitems as [fuel cs entryKey cs1 Hkey Htype
                     | fuel cs entryKey cs1 items Hkey Htype Hend Hrest
                     | fuel cs entryKey cs1 entryValue cs2 items Hkey Htype Hend Hvalue Hrest].
  - apply (reads_end LocalTZA (S fuel) _ entryKey cs1); [| exact Htype].
    rewrite matchNext_space by reflexivity. exact Hkey.
  - apply (reads_header LocalTZA (S fuel) _ entryKey cs1); try assumption.
  - apply (reads_assignment LocalTZA (S fuel) _ entryKey cs1 entryValue cs2);
      try assumption.
    exact (approx_Ok _ _ _
             (matchEntryValue_fuel_le LocalTZA fuel (S fuel) cs1 ltac:(lia)) Hvalue).
Qed.

(** ** Keys and values that are read as they are written *)

(** A code unit that [checkKey] allows in a key. *)
Definition key_unit (u : Z) : bool :=
  is_lower u || is_upper u || is_digit u || (u =? 95) || (u =? 45).

(** A key that is not empty and has such code units only. *)
Definition plain_key (key : list Z) : bool :=
  match key with
  | [] => false
  | _ => forallb key_unit key
  end.

Lemma trimStart_id (s : list Z) :
  match s with u :: _ => is_space u = false | [] => True end -> trimStart s = s.
Proof. destruct s as [|u s]; [reflexivity |]. cbn. intros ->. reflexivity. Qed.

Lemma key_unit_not_space (u : Z) : key_unit u = true -> is_space u = false.
Proof. unfold key_unit, is_space, is_lower, is_upper, is_digit. lia. Qed.

Lemma trim_no_space (s : list Z) :
  forallb (fun u => negb (is_space u)) s = true -> trim s = s.
Proof.
  intros Hs. unfold trim, trimEnd.
  rewrite (trimStart_id s).
  2:{ destruct s as [|u s]; [exact I |]. cbn in Hs. destruct (is_space u);
        [discriminate | reflexivity]. }
  rewrite trimStart_id; [apply rev_involutive |].
  assert (Hrev : forallb (fun u => negb (is_space u)) (rev s) = true).
  { rewrite forallb_forall in *. intros u Hu. apply Hs, in_rev, Hu. }
  destruct (rev s) as [|u r]; [exact I |]. cbn in Hrev. destruct (is_space u);
    [discriminate | reflexivity].
Qed.

Lemma forallb_key_no_space (key : list Z) :
  forallb key_unit key = true -> forallb (fun u => negb (is_space u)) key = true.
Proof.
  rewrite !forallb_forall. intros H u Hu.
  rewrite (key_unit_not_space u (H u Hu)). reflexivity.
Qed.

(** White space at the end of a text is trimmed. *)
Lemma trimStart_spaces (space s : list Z) :
  forallb is_space space = true -> trimStart (space ++ s) = trimStart s.
Proof.
  induction space as [|u space IH]; [reflexivity |]. cbn [forallb app trimStart].
  intros [-> Hspace]%andb_true_iff. exact (IH Hspace).
Qed.

Lemma trimStart_app_spaces (s space : list Z) :
  forallb is_space space = true ->
  trimStart (s ++ space) = match trimStart s with [] => [] | t => t ++ space end.
Proof.
  intros Hspace. induction s as [|u s IH].
  - cbn [app trimStart]. rewrite <- (app_nil_r space), (trimStart_spaces space [] Hspace).
    reflexivity.
  - cbn [app trimStart]. destruct (is_space u); [exact IH | reflexivity].
Qed.

Lemma trim_app_spaces (s space : list Z) :
  forallb is_space space = true -> trim (s ++ space) = trim s.
Proof.
  intros Hspace. unfold trim, trimEnd. rewrite (trimStart_app_spaces s space Hspace).
  destruct (trimStart s) as [|u t]; [reflexivity |].
  rewrite rev_app_distr, trimStart_spaces; [reflexivity |].
  apply forallb_forall. intros x Hx%in_rev.
  exact (proj1 (forallb_forall _ _) Hspace x Hx).
Qed.

(** White space other than a line feed. *)
Definition blank (u : Z) : bool := is_space u && negb (u =? 10).

Lemma blanks_spaces (space : list Z) :
  forallb blank space = true -> forallb is_space space = true.
Proof.
  rewrite !forallb_forall. intros H u Hu. specialize (H u Hu).
  apply andb_true_iff in H as [H _]. exact H.
Qed.

(** [checkKey] returns such a key as it is. *)
Lemma checkKey_key_units (h : gmap nat object) (key : list Z) :
  forallb key_unit key = true -> checkKey h (JString key) = Ok key.
Proof.
  intros Hkey. unfold checkKey.
  rewrite (trim_no_space key (forallb_key_no_space key Hkey)).
  assert (H : search (fun u => negb (is_lower u || is_upper u || is_digit u
                                     || (u =? 95) || (u =? 45))) key = None).
  { induction key as [|u key IH]; [reflexivity |].
    cbn [forallb] in Hkey. apply andb_true_iff in Hkey as [Hu Hkey].
    cbn [search]. unfold key_unit in Hu. rewrite Hu. cbn [negb].
    rewrite (IH Hkey). reflexivity. }
  rewrite H. reflexivity.
Qed.

Lemma key_unit_plain (u : Z) : key_unit u = true -> plain_unit DELIMITERS u = true.
Proof.
  unfold key_unit, plain_unit, DELIMITERS, is_lower, is_upper, is_digit.
  cbn [existsb]. lia.
Qed.

Lemma forallb_key_plain (key : list Z) :
  forallb key_unit key = true -> forallb (plain_unit DELIMITERS) key = true.
Proof.
  rewrite !forallb_forall. intros H u Hu. apply key_unit_plain, H, Hu.
Qed.

Lemma checkMatch_expected (expected : list token_class) characters character type :
  type ∈ expected -> checkMatch expected characters character type = Ok tt.
Proof. intros H. unfold checkMatch. rewrite bool_decide_eq_true_2 by exact H. reflexivity. Qed.

(** How a text that is read up to a delimiter ends: white space, then a
    delimiter, which is read, or the end of the input. *)
Inductive ends_bare : stream -> list Z -> list Z -> stream -> Prop :=
| ends_delimiter (space : list Z) (d : Z) (rest : stream) :
    forallb blank space = true ->
    existsb (Z.eqb d) DELIMITERS = true ->
    ends_bare (yield_all (map (fun u => [u]) space) (SYield [d] rest)) space [d] rest
| ends_input (space : list Z) :
    forallb blank space = true ->
    ends_bare (yield_all (map (fun u => [u]) space) SDone) space [] SDone.

Lemma blank_plain (u : Z) : blank u = true -> plain_unit DELIMITERS u = true.
Proof. unfold blank, is_space, plain_unit, DELIMITERS. cbn [existsb]. lia. Qed.

Lemma blanks_plain (space : list Z) :
  forallb blank space = true ->
  Forall (fun c => plain_character DELIMITERS c = true) (map (fun u => [u]) space).
Proof.
  induction space as [|u space IH]; cbn [forallb map]; [constructor |].
  intros [Hu Hspace]%andb_true_iff.
  constructor; [apply plain_unit_character, blank_plain, Hu | exact (IH Hspace)].
Qed.

Lemma join_units (s : list Z) : join (map (fun u => [u]) s) = s.
Proof. unfold join. induction s as [|u s IH]; cbn; [| rewrite IH]; reflexivity. Qed.

Lemma matchUntil_ends_bare (text : list Z) (tail : stream) (space end_ : list Z)
    (rest : stream) :
  ends_bare tail space end_ rest ->
  forallb (plain_unit DELIMITERS) text = true ->
  matchUntil (yield_all (string_iter text) tail) DELIMITERS true []
  = Ok (text ++ space, end_, rest).
Proof.
  intros Hend Htext. unfold matchUntil.
  rewrite (matchUntil_loop_text _ _ _ _ _ (string_iter_plain _ _ Htext)).
  assert (Hjoin : forall space, join (([] ++ string_iter text) ++ map (fun u => [u]) space)
                                = text ++ space).
  { intros space'. unfold join. cbn [app]. rewrite concat_app.
    pose proof (join_string_iter text) as H. pose proof (join_units space') as H'.
    unfold join in H, H'. rewrite H, H'. reflexivity. }
  destruct Hend as [space d rest Hspace Hd | space Hspace];
    rewrite (matchUntil_loop_text _ _ _ _ _ (blanks_plain space Hspace)).
  - rewrite (matchUntil_loop_delimiter [] DELIMITERS true _ d rest eq_refl);
      [| intros ->; discriminate | exact Hd].
    rewrite app_nil_r, Hjoin. reflexivity.
  - rewrite (matchUntil_loop_end [] DELIMITERS _ eq_refl).
    rewrite app_nil_r, Hjoin. reflexivity.
Qed.

(** [matchNext] where a key is awaited, on the characters of a key, white
    space and the assignment character. *)
Lemma matchNext_key LocalTZA (fuel : nat) (key space : list Z) (rest : stream)
    (expected : list token_class) (level : key_level) (newLine : bool) :
  plain_key key = true -> forallb blank space = true -> KEY ∈ expected ->
  matchNext LocalTZA (S fuel)
    (yield_all (string_iter key) (yield_all (map (fun u => [u]) space) (SYield [61] rest)))
    expected (Some level) [] newLine
  = Ok (Entry (DString key) [61] KEY, rest).
Proof.
  destruct key as [|u key]; [discriminate |]. cbn [plain_key forallb].
  intros Hkey Hspace Hexpected.
  pose proof Hkey as Hall. apply andb_true_iff in Hkey as [Hu Hkey].
  assert (Hhigh : is_high_surrogate u = false).
  { unfold key_unit, is_lower, is_upper, is_digit in Hu. unfold is_high_surrogate. lia. }
  rewrite (string_iter_cons u key Hhigh). cbn [yield_all matchNext].
  unfold matchNext_body. cbn [next mbind completion_bind matches existsb].
  assert (T1 : ((u =? 10) || (u =? 35) || false) = false)
    by (unfold key_unit, is_lower, is_upper, is_digit in Hu; lia).
  assert (T2 : (is_space u || false) = false)
    by (rewrite (key_unit_not_space u Hu); reflexivity).
  assert (T3 : ((44 =? u) || false) = false)
    by (unfold key_unit, is_lower, is_upper, is_digit in Hu; lia).
  assert (T4 : ((u =? 93) || (u =? 41) || (u =? 125) || false) = false)
    by (unfold key_unit, is_lower, is_upper, is_digit in Hu; lia).
  rewrite T1, T2, T3, T4.
  rewrite (checkMatch_expected _ _ _ _ Hexpected).
  cbn [mbind completion_bind]. unfold matchKey.
  rewrite (matchUntil_ends_bare key _ space [61] rest
             (ends_delimiter space 61 rest Hspace eq_refl) (forallb_key_plain key Hkey)).
  cbn [mbind completion_bind].
  assert (T5 : jsstring_eqb [u] [91] = false).
  { unfold jsstring_eqb. apply bool_decide_eq_false_2. intros [= ->]. discriminate. }
  rewrite T5. cbn [mbind completion_bind app].
  change (u :: key ++ space) with ((u :: key) ++ space).
  rewrite (trim_app_spaces _ _ (blanks_spaces space Hspace)).
  rewrite (trim_no_space (u :: key) (forallb_key_no_space (u :: key) Hall)). reflexivity.
Qed.

(** The same on the header of a section. *)
Lemma matchNext_header LocalTZA (fuel : nat) (key : list Z) (rest : stream) :
  plain_key key = true ->
  matchNext LocalTZA (S fuel) (SYield [91] (yield_all (string_iter key) (SYield [93] rest)))
    [KEY; NEW_LINE; END_OF_INPUT] (Some FIRST_LEVEL) [] false
  = Ok (Entry (DString key) [93] KEY, rest).
Proof.
  intros Hkey.
  transitivity
    (_ ← checkMatch [KEY; NEW_LINE; END_OF_INPUT]
           (yield_all (string_iter key) (SYield [93] rest)) [91] KEY;
     matchKey (yield_all (string_iter key) (SYield [93] rest)) [91] FIRST_LEVEL);
    [reflexivity |].
  rewrite checkMatch_expected by apply list_elem_of_here.
  cbn [mbind completion_bind]. unfold matchKey, matchUntil.
  destruct key as [|u key]; [discriminate |]. cbn [plain_key] in Hkey.
  rewrite matchUntil_loop_delimiter;
    [| apply forallb_key_plain, Hkey | discriminate | reflexivity].
  reflexivity.
Qed.

(** The characters between the quotes of an encoded string, and the text
    they are read as: a quote is written after a backslash. *)
Inductive quoted_characters : list (list Z) -> list Z -> Prop :=
| quoted_nil : quoted_characters [] []
| quoted_plain c cs text :
    plain_character [34] c = true -> quoted_characters cs text ->
    quoted_characters (c :: cs) (c ++ text)
| quoted_quote cs text :
    quoted_characters cs text -> quoted_characters ([92] :: [34] :: cs) (34 :: text).

Lemma matchUntil_loop_quoted (cs : list (list Z)) (text : list Z) :
  quoted_characters cs text ->
  forall (rest : stream) (endOfInput : bool) (result : list (list Z)),
    matchUntil_loop (yield_all cs (SYield [34] rest)) [34] endOfInput result false
    = Ok (join result ++ text, [34], rest).
Proof.
  induction 1 as [|c cs text Hc _ IH | cs text _ IH]; intros rest endOfInput result.
  - cbn [yield_all matchUntil_loop]. rewrite app_nil_r. reflexivity.
  - cbn [yield_all matchUntil_loop]. unfold plain_character in Hc.
    apply andb_true_iff in Hc as [H92 Hd].
    apply negb_true_iff in H92. apply negb_true_iff in Hd. rewrite H92, Hd.
    rewrite IH. unfold join. rewrite concat_app. cbn [concat].
    rewrite app_nil_r, <- app_assoc. reflexivity.
  - cbn [yield_all matchUntil_loop].
    change (jsstring_eqb [92] [92]) with true. cbv iota.
    rewrite IH. unfold join. rewrite concat_app. cbn [concat].
    rewrite <- app_assoc. reflexivity.
Qed.

Lemma string_iter_cons_unpaired (u : Z) (s : list Z) :
  match s with
  | v :: _ => is_high_surrogate u && is_low_surrogate v = false
  | [] => True
  end ->
  string_iter (u :: s) = [u] :: string_iter s.
Proof.
  destruct s as [|v s]; [reflexivity |]. intros H. rewrite string_iter_two, H. reflexivity.
Qed.

(** The text of an encoded string that has no backslash is read back. *)
Lemma string_iter_quoted (s : list Z) :
  existsb (Z.eqb 92) s = false ->
  quoted_characters (string_iter (replace_unit 34 [92; 34] s)) s.
Proof.
  assert (H : forall n (s : list Z), (length s <= n)%nat ->
              existsb (Z.eqb 92) s = false ->
              quoted_characters (string_iter (replace_unit 34 [92; 34] s)) s).
  { clear s. unfold replace_unit.
    induction n as [|n IH]; intros [|u s] Hn Hs; cbn [length] in Hn;
      try lia; try constructor.
    cbn [existsb] in Hs. apply orb_false_iff in Hs as [Hu Hs].
    cbn [map concat]. destruct (Z.eqb_spec u 34) as [-> | H34].
    - cbn [app]. rewrite (string_iter_cons 92) by reflexivity.
      rewrite (string_iter_cons 34) by reflexivity.
      constructor. apply IH; [lia | exact Hs].
    - cbn [app].
      assert (Hplain : forall tl, plain_character [34] (u :: tl) = true).
      { intros tl. apply plain_unit_character. unfold plain_unit. cbn [existsb]. lia. }
      destruct s as [|v s].
      + cbn [map concat]. apply (quoted_plain [u] [] []); [apply Hplain | constructor].
      + destruct (is_high_surrogate u && is_low_surrogate v) eqn:Hpair.
        * assert (Hv : (v =? 34) = false).
          { apply andb_true_iff in Hpair as [_ Hlow]. unfold is_low_surrogate in Hlow.
            lia. }
          cbn [map concat]. rewrite Hv. cbn [app]. rewrite string_iter_two, Hpair.
          cbn [existsb] in Hs. apply orb_false_iff in Hs as [_ Hs].
          apply (quoted_plain [u; v] _ s); [apply Hplain |].
          apply IH; [cbn [length] in Hn; lia | exact Hs].
        * rewrite string_iter_cons_unpaired.
          -- apply (quoted_plain [u] _ (v :: s)); [apply Hplain |].
             apply (IH (v :: s)); [lia | exact Hs].
          -- cbn [map concat]. destruct (v =? 34); cbn [app];
               [rewrite andb_false_r; reflexivity | exact Hpair]. }
  intros Hs. apply (H (length s)); [lia | exact Hs].
Qed.

(** The end of a line: a line feed and the characters after it, or the end
    of the input. *)
Definition line_end (rest : option stream) : stream :=
  match rest with
  | Some characters => SYield [10] characters
  | None => SDone
  end.

Definition after_line (rest : option stream) : stream :=
  match rest with
  | Some characters => characters
  | None => SDone
  end.


(** ** Numbers that are written without an exponent *)

Lemma digits_fuel_value (fuel : nat) :
  forall (n : Z) (acc : list Z),
    0 <= n < 2 ^ Z.of_nat fuel ->
    fold_left (fun a d => a * 10 + digit_value d) (digits_fuel fuel n acc) 0
    = fold_left (fun a d => a * 10 + digit_value d) acc n.
Proof.
  induction fuel as [|fuel IH]; intros n acc Hn.
  - cbn [digits_fuel]. change (2 ^ Z.of_nat 0) with 1 in Hn. replace n with 0 by lia.
    reflexivity.
  - cbn [digits_fuel]. destruct (Z.ltb_spec n 10) as [H10 | H10].
    + cbn [fold_left]. f_equal. unfold digit_value, is_digit.
      destruct (Z.leb_spec 48 (48 + n)); [| lia].
      destruct (Z.leb_spec (48 + n) 57); [| lia]. cbn [andb]. lia.
    + rewrite IH.
      * cbn [fold_left]. f_equal. unfold digit_value, is_digit.
        pose proof (Z.mod_pos_bound n 10 ltac:(lia)) as Hmod.
        destruct (Z.leb_spec 48 (48 + n mod 10)); [| lia].
        destruct (Z.leb_spec (48 + n mod 10) 57); [| lia]. cbn [andb].
        pose proof (Z.div_mod n 10 ltac:(lia)). lia.
      * rewrite Nat2Z.inj_succ, Z.pow_succ_r in Hn by lia.
        split; [apply Z.div_pos; lia |].
        apply Z.div_lt_upper_bound; lia.
Qed.

Lemma digits_value (n : Z) : 0 < n -> radix_value 10 (digits n) = n.
Proof.
  intros Hn. unfold radix_value, digits. rewrite digits_fuel_value; [reflexivity |].
  rewrite Nat2Z.inj_succ, Z2Nat.id by apply Z.log2_nonneg.
  pose proof (Z.log2_spec n Hn). lia.
Qed.

Lemma digits_fuel_digits (fuel : nat) :
  forall (n : Z) (acc : list Z),
    0 <= n -> forallb is_digit acc = true ->
    forallb is_digit (digits_fuel fuel n acc) = true.
Proof.
  induction fuel as [|fuel IH]; intros n acc Hn Hacc; cbn [digits_fuel]; [exact Hacc |].
  destruct (Z.ltb_spec n 10) as [H10 | H10].
  - cbn [forallb]. rewrite Hacc. unfold is_digit. lia.
  - apply IH; [apply Z.div_pos; lia |]. cbn [forallb]. rewrite Hacc.
    pose proof (Z.mod_pos_bound n 10 ltac:(lia)). unfold is_digit. lia.
Qed.

Lemma digits_fuel_length (fuel : nat) :
  forall (n : Z) (acc : list Z), (length acc <= length (digits_fuel fuel n acc))%nat.
Proof.
  induction fuel as [|fuel IH]; intros n acc; cbn [digits_fuel]; [lia |].
  destruct (n <? 10); [cbn [length]; lia |].
  etransitivity; [| apply IH]. cbn [length]. lia.
Qed.

Lemma digits_digits (n : Z) : 0 <= n -> forallb is_digit (digits n) = true.
Proof. intros Hn. apply digits_fuel_digits; [exact Hn | reflexivity]. Qed.

Lemma digits_length (n : Z) : 0 < jslength (digits n).
Proof.
  unfold digits, jslength. cbn [digits_fuel].
  destruct (n <? 10); [cbn [length]; lia |].
  pose proof (digits_fuel_length (Z.to_nat (Z.log2 n)) (n / 10) [48 + n mod 10]) as H.
  cbn [length] in H. lia.
Qed.

(** The normal form of [m * 10^e] when [m] has no trailing zero. *)
Lemma strip_zeros_power (j : nat) :
  forall (fuel : nat) (m e : Z),
    m mod 10 <> 0 -> (j < fuel)%nat ->
    strip_zeros fuel (m * 10 ^ Z.of_nat j) e = (m, e + Z.of_nat j).
Proof.
  induction j as [|j IH]; intros [|fuel] m e Hm Hfuel; try lia.
  - cbn [strip_zeros]. change (10 ^ Z.of_nat 0) with 1. rewrite Z.mul_1_r.
    apply Z.eqb_neq in Hm. rewrite Hm. f_equal. lia.
  - cbn [strip_zeros]. rewrite Nat2Z.inj_succ, Z.pow_succ_r by lia.
    replace (m * (10 * 10 ^ Z.of_nat j)) with (m * 10 ^ Z.of_nat j * 10) by lia.
    rewrite Z.mod_mul by lia. cbn [Z.eqb]. rewrite Z.div_mul by lia.
    rewrite IH by (assumption || lia). f_equal. lia.
Qed.

Lemma finite_power (m e : Z) :
  0 < m -> m mod 10 <> 0 -> 0 <= e -> finite (m * 10 ^ e) 0 = Finite m e.
Proof.
  intros Hm Hmod He. unfold finite.
  assert (Hpow : 0 < 10 ^ e) by (apply Z.pow_pos_nonneg; lia).
  destruct (Z.eqb_spec (m * 10 ^ e) 0) as [H0 | _]; [nia |].
  assert (Hfuel : (Z.to_nat e < S (Z.to_nat (Z.log2 (Z.abs (m * 10 ^ e)))))%nat).
  { rewrite Z.abs_eq by nia.
    assert (Z.log2 (2 ^ e) <= Z.log2 (m * 10 ^ e)) as Hlog;
      [| rewrite Z.log2_pow2 in Hlog by exact He; lia].
    apply Z.log2_le_mono.
    transitivity (10 ^ e); [apply Z.pow_le_mono_l; lia |].
    rewrite <- (Z.mul_1_l (10 ^ e)) at 1. apply Z.mul_le_mono_nonneg_r; lia. }
  pose proof (strip_zeros_power (Z.to_nat e) _ m 0 Hmod Hfuel) as H.
  rewrite Z2Nat.id in H by exact He. rewrite H. reflexivity.
Qed.

Lemma finite_normal (m e : Z) : m mod 10 <> 0 -> finite m e = Finite m e.
Proof.
  intros Hmod. unfold finite.
  destruct (Z.eqb_spec m 0) as [-> | _]; [exfalso; apply Hmod; reflexivity |].
  cbn [strip_zeros]. apply Z.eqb_neq in Hmod. rewrite Hmod. reflexivity.
Qed.

(** The finite numbers that [numberToString] writes without an exponent:
    zero, and the numbers whose decimal point is at most 21 digits after
    and at most 5 zeros before their first digit. *)
Definition plain_number (m e : Z) : bool :=
  if m =? 0 then e =? 0
  else negb (m mod 10 =? 0)
       && (-6 <? jslength (digits (Z.abs m)) + e)
       && (jslength (digits (Z.abs m)) + e <=? 21).

Definition number_unit (u : Z) : bool := is_digit u || (u =? 46).

Lemma span_digits (a : list Z) (u : Z) (b : list Z) :
  forallb is_digit a = true -> is_digit u = false ->
  span is_digit (a ++ u :: b) = (a, u :: b).
Proof.
  intros Ha Hu. induction a as [|d a IH]; cbn [app span].
  - rewrite Hu. reflexivity.
  - cbn [forallb] in Ha. apply andb_true_iff in Ha as [-> Ha]. rewrite (IH Ha).
    reflexivity.
Qed.

Lemma span_digits_all (a : list Z) :
  forallb is_digit a = true -> span is_digit a = (a, []).
Proof.
  intros Ha. induction a as [|d a IH]; cbn [span]; [reflexivity |].
  cbn [forallb] in Ha. apply andb_true_iff in Ha as [-> Ha]. rewrite (IH Ha).
  reflexivity.
Qed.

Lemma number_units_not_Infinity (s : list Z) :
  forallb number_unit s = true -> jsstring_eqb s (str "Infinity") = false.
Proof.
  intros Hs. apply bool_decide_eq_false_2. intros ->. discriminate.
Qed.

Lemma digits_number_units (s : list Z) :
  forallb is_digit s = true -> forallb number_unit s = true.
Proof.
  intros Hs. apply forallb_forall. intros u Hu.
  unfold number_unit. rewrite (proj1 (forallb_forall _ _) Hs u Hu). reflexivity.
Qed.

Lemma parse_unsigned_decimal_integer (s : list Z) :
  forallb is_digit s = true -> s <> [] ->
  parse_unsigned_decimal s = Some (finite (radix_value 10 s) 0).
Proof.
  intros Hs Hne. unfold parse_unsigned_decimal.
  rewrite (number_units_not_Infinity s (digits_number_units s Hs)).
  rewrite (span_digits_all s Hs). rewrite app_nil_r.
  destruct s; [congruence | reflexivity].
Qed.

Lemma parse_unsigned_decimal_fraction (a b : list Z) :
  forallb is_digit a = true -> forallb is_digit b = true -> a ++ b <> [] ->
  parse_unsigned_decimal (a ++ 46 :: b)
  = Some (finite (radix_value 10 (a ++ b)) (- jslength b)).
Proof.
  intros Ha Hb Hne. unfold parse_unsigned_decimal.
  rewrite number_units_not_Infinity.
  2:{ rewrite forallb_app. cbn [forallb]. rewrite !digits_number_units by assumption.
      reflexivity. }
  rewrite (span_digits a 46 b Ha eq_refl). rewrite (span_digits_all b Hb).
  destruct (a ++ b); [congruence | reflexivity].
Qed.

Lemma radix_value_zeros (j : nat) (a : Z) :
  fold_left (fun a d => a * 10 + digit_value d) (repeat 48 j) a = a * 10 ^ Z.of_nat j.
Proof.
  revert a. induction j as [|j IH]; intros a; cbn [repeat fold_left].
  - change (10 ^ Z.of_nat 0) with 1. lia.
  - rewrite IH, Nat2Z.inj_succ, Z.pow_succ_r by lia.
    change (digit_value 48) with 0. lia.
Qed.

(** The text of a positive number with no exponent is read back by
    [Number]'s grammar. *)
Lemma parse_unsigned_decimal_text (m e : Z) :
  0 < m -> plain_number m e = true ->
  forallb number_unit (numberToString (Finite m e)) = true
  /\ numberToString (Finite m e) <> []
  /\ parse_unsigned_decimal (numberToString (Finite m e)) = Some (Finite m e).
Proof.
  intros Hm Hplain. unfold plain_number in Hplain. unfold numberToString.
  destruct (Z.eqb_spec m 0) as [? | _]; [lia |].
  destruct (Z.ltb_spec m 0) as [? | _]; [lia |].
  rewrite Z.abs_eq in * by lia.
  apply andb_true_iff in Hplain as [Hplain Hhigh].
  apply andb_true_iff in Hplain as [Hmod Hlow].
  apply negb_true_iff, Z.eqb_neq in Hmod.
  pose proof (digits_digits m ltac:(lia)) as Hdigits.
  pose proof (digits_length m) as Hlength.
  pose proof (digits_value m Hm) as Hvalue.
  set (s := digits m) in *. clearbody s. cbn [app].
  destruct (Z.leb_spec (jslength s) (jslength s + e)) as [He | He].
  - (* an integer *)
    rewrite Hhigh. cbn [andb].
    replace (jslength s + e - jslength s) with e by lia.
    assert (Hall : forallb is_digit (s ++ repeat 48 (Z.to_nat e)) = true).
    { rewrite forallb_app, Hdigits. apply forallb_forall. intros u Hu.
      apply repeat_spec in Hu as ->. reflexivity. }
    assert (Hne : s ++ repeat 48 (Z.to_nat e) <> []).
    { destruct s; [unfold jslength in Hlength; cbn in Hlength; lia | discriminate]. }
    split; [apply digits_number_units, Hall |]. split; [exact Hne |].
    rewrite (parse_unsigned_decimal_integer _ Hall Hne). f_equal.
    unfold radix_value in *. rewrite fold_left_app, Hvalue, radix_value_zeros.
    rewrite Z2Nat.id by lia. apply finite_power; lia.
  - cbn [andb]. destruct (Z.ltb_spec 0 (jslength s + e)) as [Hn | Hn].
    + (* digits on both sides of the point *)
      rewrite Hhigh. cbn [andb].
      set (n := Z.to_nat (jslength s + e)).
      change (str "." ++ drop n s) with (46 :: drop n s).
      assert (Hsplit : take n s ++ drop n s = s) by apply take_drop.
      assert (Htake : forallb is_digit (take n s) = true).
      { rewrite <- Hsplit, forallb_app in Hdigits.
        apply andb_true_iff in Hdigits as [H _]. exact H. }
      assert (Hdrop : forallb is_digit (drop n s) = true).
      { rewrite <- Hsplit, forallb_app in Hdigits.
        apply andb_true_iff in Hdigits as [_ H]. exact H. }
      assert (Hne : take n s ++ drop n s <> []).
      { rewrite Hsplit. destruct s; [unfold jslength in Hlength; cbn in Hlength; lia | discriminate]. }
      split; [| split].
      * rewrite forallb_app. cbn [forallb].
        rewrite !digits_number_units by assumption. reflexivity.
      * destruct (take n s); discriminate.
      * rewrite (parse_unsigned_decimal_fraction _ _ Htake Hdrop Hne).
        rewrite Hsplit, Hvalue. unfold jslength in *. rewrite length_drop.
        replace (- Z.of_nat (length s - n)) with e by (subst n; lia).
        f_equal. apply finite_normal, Hmod.
    + (* zeros between the point and the digits *)
      rewrite Hlow. cbn [andb].
      destruct (Z.leb_spec (jslength s + e) 0) as [_ | ?]; [| lia].
      set (zeros := repeat 48 (Z.to_nat (- (jslength s + e)))).
      change (str "0." ++ zeros ++ s) with (48 :: 46 :: zeros ++ s).
      assert (Hzeros : forallb is_digit zeros = true).
      { apply forallb_forall. intros u Hu. apply repeat_spec in Hu as ->. reflexivity. }
      assert (Hfrac : forallb is_digit (zeros ++ s) = true)
        by (rewrite forallb_app, Hzeros, Hdigits; reflexivity).
      split; [| split].
      * change (48 :: 46 :: zeros ++ s) with ([48; 46] ++ (zeros ++ s)).
        rewrite forallb_app, (digits_number_units _ Hfrac). reflexivity.
      * discriminate.
      * change (48 :: 46 :: zeros ++ s) with ([48] ++ 46 :: zeros ++ s).
        rewrite (parse_unsigned_decimal_fraction [48] _ eq_refl Hfrac) by discriminate.
        f_equal. unfold radix_value in *. cbn [app fold_left].
        rewrite fold_left_app. unfold zeros at 1. rewrite radix_value_zeros.
        change (0 * 10 + digit_value 48) with 0. rewrite Z.mul_0_l, Hvalue.
        unfold jslength in *. rewrite length_app. unfold zeros. rewrite repeat_length.
        replace (- Z.of_nat (Z.to_nat (- (Z.of_nat (length s) + e)) + length s)) with e
          by lia.
        apply finite_normal, Hmod.
Qed.

Lemma plain_number_text (m e : Z) :
  0 <= m -> plain_number m e = true ->
  forallb number_unit (numberToString (Finite m e)) = true
  /\ numberToString (Finite m e) <> []
  /\ parse_unsigned_decimal (numberToString (Finite m e)) = Some (Finite m e).
Proof.
  intros Hm Hplain. destruct (Z.eq_dec m 0) as [-> | Hm0].
  - cbn in Hplain. apply Z.eqb_eq in Hplain as ->.
    split; [reflexivity |]. split; [discriminate | reflexivity].
  - apply parse_unsigned_decimal_text; [lia | exact Hplain].
Qed.

Lemma numberToString_negative (m e : Z) :
  m < 0 -> numberToString (Finite m e) = 45 :: numberToString (Finite (- m) e).
Proof.
  intros Hm. unfold numberToString.
  destruct (Z.eqb_spec m 0) as [? | _]; [lia |].
  destruct (Z.eqb_spec (- m) 0) as [? | _]; [lia |].
  destruct (Z.ltb_spec m 0) as [_ | ?]; [| lia].
  destruct (Z.ltb_spec (- m) 0) as [? | _]; [lia |].
  rewrite Z.abs_opp. reflexivity.
Qed.

Lemma plain_number_opp (m e : Z) : plain_number (- m) e = plain_number m e.
Proof.
  unfold plain_number. rewrite Z.abs_opp.
  destruct (Z.eqb_spec m 0) as [-> | Hm]; [reflexivity |].
  destruct (Z.eqb_spec (- m) 0) as [? | _]; [lia |].
  f_equal. f_equal. f_equal.
  destruct (Z.eqb_spec (m mod 10) 0) as [H | H].
  - rewrite Z.mod_opp_l_z by (lia || exact H). reflexivity.
  - apply Z.eqb_neq. intros H'. apply H.
    rewrite <- (Z.opp_involutive m). apply Z.mod_opp_l_z; [lia | exact H'].
Qed.

Lemma number_unit_not_space (u : Z) : number_unit u = true -> is_space u = false.
Proof. unfold number_unit, is_digit, is_space. lia. Qed.

Lemma number_unit_plain (u : Z) : number_unit u = true -> plain_unit DELIMITERS u = true.
Proof. unfold number_unit, is_digit, plain_unit, DELIMITERS. cbn [existsb]. lia. Qed.

Lemma number_units_trim (s : list Z) : forallb number_unit s = true -> trim s = s.
Proof.
  intros Hs. apply trim_no_space. apply forallb_forall. intros u Hu.
  rewrite (number_unit_not_space u); [reflexivity |].
  apply (proj1 (forallb_forall _ _) Hs u Hu).
Qed.

Lemma strip_grouping_cons (sep u : Z) (s : list Z) :
  (u =? sep) = false -> strip_grouping sep (u :: s) = u :: strip_grouping sep s.
Proof.
  intros Hu. destruct s as [|d1 [|d2 [|d3 s]]]; try reflexivity.
  change (strip_grouping sep (u :: d1 :: d2 :: d3 :: s))
    with (if (u =? sep) && is_digit d1 && is_digit d2 && is_digit d3
          then d1 :: d2 :: d3 :: strip_grouping sep s
          else u :: strip_grouping sep (d1 :: d2 :: d3 :: s)).
  rewrite Hu. reflexivity.
Qed.

(** A text that has no separator has no digit grouping to undo. *)
Lemma strip_grouping_absent (sep : Z) (s : list Z) :
  forallb (fun u => negb (u =? sep)) s = true -> strip_grouping sep s = s.
Proof.
  induction s as [|u s IH]; [reflexivity |]. cbn [forallb]. intros H.
  apply andb_true_iff in H as [Hu Hs]. apply negb_true_iff in Hu.
  rewrite (strip_grouping_cons sep u s Hu), (IH Hs). reflexivity.
Qed.

Lemma search_absent (class : Z -> bool) (s : list Z) :
  forallb (fun u => negb (class u)) s = true -> search class s = None.
Proof.
  induction s as [|u s IH]; [reflexivity |]. cbn [forallb search]. intros H.
  apply andb_true_iff in H as [Hu Hs]. apply negb_true_iff in Hu.
  rewrite Hu, (IH Hs). reflexivity.
Qed.

Lemma forallb_number_units (p : Z -> bool) (s : list Z) :
  (forall u, number_unit u = true -> p u = true) ->
  forallb number_unit s = true -> forallb p s = true.
Proof.
  intros Hp Hs. apply forallb_forall. intros u Hu.
  apply Hp, (proj1 (forallb_forall _ _) Hs u Hu).
Qed.

Lemma number_units_no_keyword (keywords : list (list Z)) (s : list Z) :
  forallb (fun keyword => match keyword with
                          | u :: _ => negb (number_unit u)
                          | [] => false
                          end) keywords = true ->
  forallb number_unit s = true -> s <> [] ->
  is_keyword_i keywords s = false.
Proof.
  intros Hkeywords Hs Hne. apply bool_decide_eq_false_2. intros Hin.
  destruct s as [|u s]; [congruence |]. cbn [forallb] in Hs.
  apply andb_true_iff in Hs as [Hu _].
  apply list_elem_of_In in Hin.
  apply (proj1 (forallb_forall _ _) Hkeywords) in Hin as Hhead.
  unfold ascii_upper in Hhead. cbn [map] in Hhead.
  assert (Hlower : is_lower u = false)
    by (unfold number_unit, is_digit in Hu; unfold is_lower; lia).
  rewrite Hlower, Hu in Hhead. discriminate.
Qed.

(** [Number] on a text of digits and a point. *)
Lemma Number_number_units (s : list Z) :
  forallb number_unit s = true -> s <> [] ->
  Number s = default NaN (parse_unsigned_decimal s).
Proof.
  intros Hs Hne. unfold Number. rewrite (number_units_trim s Hs).
  destruct s as [|u s]; [congruence |].
  assert (Hnone : parse_non_decimal (u :: s) = None).
  { destruct s as [|p s].
    - destruct u as [|u|u]; try reflexivity.
      do 6 (destruct u as [u|u|]; try reflexivity).
    - cbn [forallb] in Hs. apply andb_true_iff in Hs as [_ Hs].
      apply andb_true_iff in Hs as [Hp _].
      assert (Hprefix : ((p =? 120) || (p =? 88) = false)
                        /\ ((p =? 111) || (p =? 79) = false)
                        /\ ((p =? 98) || (p =? 66) = false))
        by (unfold number_unit, is_digit in Hp; lia).
      destruct Hprefix as (Hx & Ho & Hb).
      destruct u as [|u|u]; try reflexivity.
      do 6 (destruct u as [u|u|]; try reflexivity).
      unfold parse_non_decimal. rewrite Hx, Ho, Hb. reflexivity. }
  rewrite Hnone.
  cbn [forallb] in Hs. apply andb_true_iff in Hs as [Hu _].
  destruct u as [|u|u]; try reflexivity.
  do 6 (destruct u as [u|u|]; try reflexivity); discriminate Hu.
Qed.

Lemma parseNumber_number_units (negative : bool) (s end_ : list Z) (m e : Z) :
  forallb number_unit s = true -> s <> [] ->
  parse_unsigned_decimal s = Some (Finite m e) ->
  parseNumber negative s end_
  = Ok (Entry (DNumber (Finite (if negative then - m else m) e)) end_ VALUE).
Proof.
  intros Hs Hne Hparse. unfold parseNumber.
  rewrite (strip_grouping_absent 95 s), (strip_grouping_absent 32 s).
  2, 3: apply (forallb_number_units _ s); [| exact Hs];
        intros u Hu; unfold number_unit, is_digit in Hu; lia.
  rewrite !number_units_no_keyword by (reflexivity || assumption).
  rewrite (Number_number_units s Hs Hne), Hparse. reflexivity.
Qed.

Lemma matchNumber_number_units LocalTZA (start : list Z) (text s : list Z) (m e : Z)
    (tail : stream) (space end_ : list Z) (rest : stream) :
  ends_bare tail space end_ rest ->
  forallb number_unit text = true ->
  number_raw start (text ++ space) = s ->
  forallb number_unit s = true -> s <> [] ->
  parse_unsigned_decimal s = Some (Finite m e) ->
  matchNumber LocalTZA (yield_all (string_iter text) tail) start
  = Ok (Entry (DNumber (Finite (if jsstring_eqb start [45] then - m else m) e)) end_ VALUE,
        rest).
Proof.
  intros Hend Htext Hraw Hs Hne Hparse. unfold matchNumber.
  rewrite (matchUntil_ends_bare text tail space end_ rest Hend).
  2:{ apply (forallb_number_units _ text); [apply number_unit_plain | exact Htext]. }
  cbn [mbind completion_bind]. rewrite Hraw.
  rewrite search_absent.
  2:{ apply (forallb_number_units _ s); [| exact Hs].
      intros u Hu. unfold number_unit, is_digit in Hu. unfold is_date_character. lia. }
  rewrite bool_decide_eq_false_2 by (intros [? [=]]).
  rewrite (parseNumber_number_units _ s end_ m e Hs Hne Hparse). reflexivity.
Qed.

(** [matchNext] on the text of a number that has no exponent. *)
Lemma matchNext_number LocalTZA (fuel : nat) (m e : Z) (expected : list token_class)
    (tail : stream) (space end_ : list Z) (rest : stream) :
  plain_number m e = true -> VALUE ∈ expected -> ends_bare tail space end_ rest ->
  matchNext LocalTZA (S fuel)
    (yield_all (string_iter (numberToString (Finite m e))) tail) expected None [] false
  = Ok (Entry (DNumber (Finite m e)) end_ VALUE, rest).
Proof.
  intros Hplain Hexpected Hend.
  assert (Hspace : forallb is_space space = true)
    by (destruct Hend; apply blanks_spaces; assumption).
  destruct (Z.ltb_spec m 0) as [Hm | Hm].
  - rewrite <- plain_number_opp in Hplain.
    destruct (plain_number_text (- m) e ltac:(lia) Hplain) as (Hunits & Hne & Hparse).
    rewrite (numberToString_negative m e Hm).
    rewrite (string_iter_cons 45) by reflexivity. cbn [yield_all].
    transitivity
      (_ ← checkMatch expected
             (yield_all (string_iter (numberToString (Finite (- m) e))) tail) [45] VALUE;
       matchNumber LocalTZA
         (yield_all (string_iter (numberToString (Finite (- m) e))) tail) [45]);
      [reflexivity |].
    rewrite (checkMatch_expected _ _ _ _ Hexpected). cbn [mbind completion_bind].
    rewrite (matchNumber_number_units LocalTZA [45] _ _ (- m) e tail space end_ rest Hend
               Hunits (eq_trans (trim_app_spaces _ _ Hspace) (number_units_trim _ Hunits))
               Hunits Hne Hparse).
    change (jsstring_eqb [45] [45]) with true. cbv iota. rewrite Z.opp_involutive.
    reflexivity.
  - destruct (plain_number_text m e Hm Hplain) as (Hunits & Hne & Hparse).
    destruct (numberToString (Finite m e)) as [|u text] eqn:Htext; [congruence |].
    pose proof Hunits as Hall. cbn [forallb] in Hunits.
    apply andb_true_iff in Hunits as [Hu Hunits].
    assert (Hhigh : is_high_surrogate u = false)
      by (unfold number_unit, is_digit in Hu; unfold is_high_surrogate; lia).
    rewrite (string_iter_cons u text Hhigh). cbn [yield_all matchNext].
    unfold matchNext_body. cbn [next mbind completion_bind matches existsb].
    assert (T1 : ((u =? 10) || (u =? 35) || false) = false)
      by (unfold number_unit, is_digit in Hu; lia).
    assert (T2 : (is_space u || false) = false)
      by (rewrite (number_unit_not_space u Hu); reflexivity).
    assert (T3 : ((44 =? u) || false) = false)
      by (unfold number_unit, is_digit in Hu; lia).
    assert (T4 : ((u =? 93) || (u =? 41) || (u =? 125) || false) = false)
      by (unfold number_unit, is_digit in Hu; lia).
    assert (T5 : ((u =? 39) || (u =? 34) || false) = false)
      by (unfold number_unit, is_digit in Hu; lia).
    assert (T6 : (is_digit u || (u =? 46) || (u =? 43) || (u =? 45) || false) = true)
      by (unfold number_unit in Hu; destruct (is_digit u); [reflexivity |];
          cbn [orb] in Hu |- *; rewrite Hu; reflexivity).
    rewrite T1, T2, T3, T4, T5, T6.
    rewrite (checkMatch_expected _ _ _ _ Hexpected). cbn [mbind completion_bind].
    assert (Hsign : jsstring_eqb [u] [45] = false /\ jsstring_eqb [u] [43] = false).
    { unfold jsstring_eqb. split; apply bool_decide_eq_false_2; intros [= ->]; discriminate. }
    destruct Hsign as [H45 H43].
    rewrite (matchNumber_number_units LocalTZA [u] text (u :: text) m e tail space end_
               rest Hend Hunits);
      [rewrite H45; reflexivity | | exact Hall | exact Hne | exact Hparse].
    unfold number_raw. rewrite H45, H43. cbn [orb app].
    change (u :: text ++ space) with ((u :: text) ++ space).
    rewrite (trim_app_spaces _ _ Hspace). apply (number_units_trim _ Hall).
Qed.

(** * Dates that are written and read back *)

(** ** The calendar *)

(** What holds of each of the [n] numbers from [first] on, checked one by
    one. *)
Fixpoint holds_from (P : Z -> bool) (n : nat) (first : Z) : bool :=
  match n with
  | O => true
  | S n => P first && holds_from P n (first + 1)
  end.

Lemma holds_from_all (P : Z -> bool) (n first : Z) :
  holds_from P (Z.to_nat n) first = true ->
  forall x, first <= x < first + n -> P x = true.
Proof.
  intros H x Hx. rewrite <- (Z2Nat.id n) in Hx by lia.
  revert first H Hx. induction (Z.to_nat n) as [|k IH]; intros first H Hx; [lia |].
  cbn [holds_from] in H. apply andb_true_iff in H as [Hfirst H].
  destruct (Z.eq_dec x first) as [-> | Hne]; [exact Hfirst |].
  apply (IH (first + 1) H). lia.
Qed.

(** The year of a day of an era of 400 years and the day of that year, the
    month and the day of a day of the year (the year starts in March). *)
Lemma year_of_era (doe : Z) :
  0 <= doe < 146097 ->
  let yoe := (doe - doe / 1460 + doe / 36524 - doe / 146096) / 365 in
  let doy := doe - (365 * yoe + yoe / 4 - yoe / 100) in
  0 <= yoe < 400 /\ 0 <= doy < 366.
Proof. intros Hdoe. cbv zeta. Z.div_mod_to_equations. lia. Qed.

Lemma month_of_year (doy : Z) :
  0 <= doy < 366 ->
  let mp := (5 * doy + 2) / 153 in
  let d := doy - (153 * mp + 2) / 5 + 1 in
  0 <= mp < 12 /\ 1 <= d <= 31.
Proof. intros Hdoy. cbv zeta. Z.div_mod_to_equations. lia. Qed.

(** The civil date of a day number is a date of the calendar, and the day
    number of that date is the one it comes from. *)
Lemma civil_from_days_inverse (z : Z) :
  let '(y, m, d) := civil_from_days z in
  days_from_civil y m d = z /\ 1 <= m <= 12 /\ 1 <= d <= 31.
Proof.
  unfold civil_from_days. cbv zeta.
  pose proof (Z.div_mod (z + 719468) 146097 ltac:(lia)) as Hz.
  pose proof (Z.mod_pos_bound (z + 719468) 146097 ltac:(lia)) as Hdoe.
  set (era := (z + 719468) / 146097) in *.
  replace (z + 719468 - era * 146097) with ((z + 719468) mod 146097) by lia.
  set (doe := (z + 719468) mod 146097) in *.
  destruct (year_of_era doe Hdoe) as [Hyoe Hdoy]. cbv zeta in Hyoe, Hdoy.
  set (yoe := (doe - doe / 1460 + doe / 36524 - doe / 146096) / 365) in *.
  set (doy := doe - (365 * yoe + yoe / 4 - yoe / 100)) in *.
  destruct (month_of_year doy Hdoy) as [Hmp Hd]. cbv zeta in Hmp, Hd.
  set (mp := (5 * doy + 2) / 153) in *.
  set (d := doy - (153 * mp + 2) / 5 + 1) in *.
  assert (Hera : (yoe + era * 400) / 400 = era)
    by (rewrite Z.div_add by lia; rewrite Z.div_small by lia; lia).
  unfold days_from_civil. cbv zeta.
  destruct (Z.ltb_spec mp 10) as [Hlt | Hge].
  - replace (mp + 3 <=? 2) with false by lia. replace (2 <? mp + 3) with true by lia.
    rewrite Hera. replace (mp + 3 - 3) with mp by ring.
    replace (yoe + era * 400 - era * 400) with yoe by ring.
    split; [subst d doy; lia | lia].
  - replace (mp - 9 <=? 2) with true by lia. replace (2 <? mp - 9) with false by lia.
    replace (yoe + era * 400 + 1 - 1) with (yoe + era * 400) by ring.
    rewrite Hera. replace (mp - 9 + 9) with mp by ring.
    replace (yoe + era * 400 - era * 400) with yoe by ring.
    split; [subst d doy; lia | lia].
Qed.

(** [MakeDay] of the fields of a time gives back its day. *)
Lemma MakeDay_fields (t : Z) :
  1000 <= getUTCFullYear t ->
  MakeDay (full_year (getUTCFullYear t)) (getUTCMonth t + 1 - 1) (getUTCDate t)
  = t / msPerDay
  /\ 1 <= getUTCMonth t + 1 <= 12 /\ 1 <= getUTCDate t <= 31.
Proof.
  unfold getUTCFullYear, getUTCMonth, getUTCDate. intros Hyear.
  pose proof (civil_from_days_inverse (t / msPerDay)) as Hok.
  destruct (civil_from_days (t / msPerDay)) as [[y m] d]. cbn [fst snd] in *.
  destruct Hok as (Hok & Hm & Hd).
  split; [| lia].
  unfold full_year. replace ((0 <=? y) && (y <=? 99)) with false by lia.
  unfold MakeDay. replace (m - 1 + 1 - 1) with (m - 1) by ring.
  rewrite (Z.div_small (m - 1) 12), (Z.mod_small (m - 1) 12) by lia.
  replace (y + 0) with y by ring. replace (m - 1 + 1) with m by ring.
  rewrite <- Hok. unfold days_from_civil. cbv zeta. ring.
Qed.

(** [MakeTime] of the fields of a time gives back its time within the
    day. *)
Lemma MakeTime_fields (t : Z) :
  MakeTime (getUTCHours t) (getUTCMinutes t) (getUTCSeconds t) (getUTCMilliseconds t)
  = t mod msPerDay
  /\ 0 <= getUTCHours t < 24 /\ 0 <= getUTCMinutes t < 60
  /\ 0 <= getUTCSeconds t < 60 /\ 0 <= getUTCMilliseconds t < 1000.
Proof.
  unfold MakeTime, getUTCHours, getUTCMinutes, getUTCSeconds, getUTCMilliseconds, msPerDay.
  Z.div_mod_to_equations. lia.
Qed.

(** ** The text of a date *)

(** [finite] keeps the value: what [truncate] and a comparison see of it. *)
Lemma strip_zeros_value (fuel : nat) (m e m' e' : Z) :
  strip_zeros fuel m e = (m', e') -> e <= e' /\ m = m' * 10 ^ (e' - e).
Proof.
  revert m e. induction fuel as [|fuel IH]; intros m e H; cbn [strip_zeros] in H.
  - injection H as <- <-. rewrite Z.sub_diag. lia.
  - destruct (Z.eqb_spec (m mod 10) 0) as [Hmod | _].
    + apply IH in H as [He Hm]. split; [lia |].
      replace (e' - e) with (Z.succ (e' - (e + 1))) by lia.
      rewrite Z.pow_succ_r by lia.
      pose proof (Z.div_mod m 10 ltac:(lia)) as Hdiv. lia.
    + injection H as <- <-. rewrite Z.sub_diag. lia.
Qed.

Lemma truncate_finite (m e : Z) : truncate (finite m e) = truncate (Finite m e).
Proof.
  unfold finite. destruct (Z.eqb_spec m 0) as [-> | Hm].
  - cbn. destruct (0 <=? e); [lia | reflexivity].
  - destruct (strip_zeros _ m e) as [m' e'] eqn:Hstrip.
    apply strip_zeros_value in Hstrip as [He ->]. unfold truncate.
    destruct (Z.leb_spec 0 e) as [He0 | He0].
    + destruct (Z.leb_spec 0 e') as [_ | ?]; [| lia].
      rewrite <- Z.mul_assoc, <- Z.pow_add_r by lia. f_equal. f_equal. lia.
    + destruct (Z.leb_spec 0 e') as [He0' | He0'].
      * replace (e' - e) with (e' + - e) by lia. rewrite Z.pow_add_r by lia.
        rewrite Z.mul_assoc. rewrite Z.quot_mul; [reflexivity |].
        apply Z.pow_nonzero; lia.
      * replace (- e) with (- e' + (e' - e)) by lia. rewrite Z.pow_add_r by lia.
        rewrite Z.quot_mul_cancel_r; [reflexivity | |]; apply Z.pow_nonzero; lia.
Qed.

Lemma number_gt_finite (m e k : Z) : number_gt (finite m e) k = number_gt (Finite m e) k.
Proof.
  unfold finite. destruct (Z.eqb_spec m 0) as [-> | Hm].
  - cbn. destruct (Z.leb_spec 0 e) as [He | He]; [rewrite Z.mul_0_l; reflexivity |].
    assert (0 < 10 ^ (- e)) by (apply Z.pow_pos_nonneg; lia).
    destruct (Z.ltb_spec k 0), (Z.ltb_spec (k * 10 ^ (- e)) 0); try reflexivity; nia.
  - destruct (strip_zeros _ m e) as [m' e'] eqn:Hstrip.
    apply strip_zeros_value in Hstrip as [He ->]. unfold number_gt.
    destruct (Z.leb_spec 0 e) as [He0 | He0].
    + destruct (Z.leb_spec 0 e') as [_ | ?]; [| lia].
      rewrite <- Z.mul_assoc, <- Z.pow_add_r by lia. do 3 f_equal. lia.
    + assert (Hpos : 0 < 10 ^ (- e)) by (apply Z.pow_pos_nonneg; lia).
      destruct (Z.leb_spec 0 e') as [He0' | He0'].
      * replace (e' - e) with (e' + - e) by lia. rewrite Z.pow_add_r by lia.
        rewrite Z.mul_assoc.
        destruct (Z.ltb_spec k (m' * 10 ^ e')),
          (Z.ltb_spec (k * 10 ^ (- e)) (m' * 10 ^ e' * 10 ^ (- e))); try reflexivity; nia.
      * replace (- e) with (- e' + (e' - e)) by lia. rewrite Z.pow_add_r by lia.
        assert (0 < 10 ^ (e' - e)) by (apply Z.pow_pos_nonneg; lia).
        rewrite Z.mul_assoc.
        destruct (Z.ltb_spec (k * 10 ^ (- e')) m'),
          (Z.ltb_spec (k * 10 ^ (- e') * 10 ^ (e' - e)) (m' * 10 ^ (e' - e)));
          try reflexivity; nia.
Qed.

(** What [Number] reads of digits, with a fraction or none. *)
Lemma Number_digits (s : jsstring) :
  forallb is_digit s = true -> s <> [] -> Number s = finite (radix_value 10 s) 0.
Proof.
  intros Hs Hne.
  rewrite (Number_number_units s (digits_number_units s Hs) Hne).
  rewrite (parse_unsigned_decimal_integer s Hs Hne). reflexivity.
Qed.

Lemma Number_fraction (a b : jsstring) :
  forallb is_digit a = true -> forallb is_digit b = true -> a <> [] ->
  Number (a ++ 46 :: b) = finite (radix_value 10 (a ++ b)) (- jslength b).
Proof.
  intros Ha Hb Hne. rewrite Number_number_units.
  - rewrite (parse_unsigned_decimal_fraction a b Ha Hb); [reflexivity |].
    destruct a; [congruence | discriminate].
  - rewrite forallb_app. cbn [forallb].
    rewrite !digits_number_units by assumption. reflexivity.
  - destruct a; discriminate.
Qed.

Lemma radix_value_app (a b : jsstring) :
  radix_value 10 (a ++ b) = radix_value 10 a * 10 ^ jslength b + radix_value 10 b.
Proof.
  unfold radix_value, jslength. rewrite fold_left_app. generalize (fold_left (fun acc d => acc * 10 + digit_value d) a 0).
  induction b as [|d b IH] using rev_ind; intros x.
  - cbn. lia.
  - rewrite !fold_left_app. cbn [fold_left]. rewrite IH, (IH 0).
    rewrite length_app, Nat2Z.inj_add. cbn [length]. rewrite Z.pow_add_r by lia.
    change (10 ^ Z.of_nat 1) with 10. lia.
Qed.

(** [n] digits that stand for [x]. *)
Definition digits_of (n : nat) (s : jsstring) (x : Z) : bool :=
  (length s =? n)%nat && forallb is_digit s && (radix_value 10 s =? x).

(** The hours of an offset that has no minutes: one digit where there is
    no more. *)
Definition short_hours (h : Z) : jsstring :=
  if jsstring_eqb (take 1 (pad h 2)) (str "0") then take 1 (drop 1 (pad h 2)) else pad h 2.

(** The fields of a date as [encodeDate] pads them, checked one by one. *)
Definition year_ok (y : Z) : bool := digits_of 4 (intToString y) y.

Definition field_ok (x : Z) : bool :=
  digits_of 2 (pad x 2) x && eqb (jsstring_eqb (pad x 2) (str "00")) (x =? 0)
  && (if x <? 10 then digits_of 1 (short_hours x) x else digits_of 2 (short_hours x) x).

Definition milliseconds_ok (ms : Z) : bool :=
  digits_of 3 (pad ms 3) ms && eqb (jsstring_eqb (pad ms 3) (str "000")) (ms =? 0)
  && (truncate (times_1000 (Number (str "0" ++ [46] ++ pad ms 3))) =? ms).

Lemma years_ok : holds_from year_ok (Z.to_nat 9000) 1000 = true.
Proof. vm_compute. reflexivity. Qed.

Lemma fields_ok : holds_from field_ok (Z.to_nat 100) 0 = true.
Proof. vm_compute. reflexivity. Qed.

Lemma all_milliseconds_ok : holds_from milliseconds_ok (Z.to_nat 1000) 0 = true.
Proof. vm_compute. reflexivity. Qed.

(** The text [encodeDate] gives for the time [t] where the local time is
    [offset] minutes ahead of UTC. *)
Definition date_text (t offset : Z) : jsstring :=
  concat (encodeDate (fun _ _ => offset) (Date t)).

Lemma encodeDate_text (LocalTZA : Z -> bool -> Z) (t : Z) :
  encodeDate LocalTZA (Date t) = [date_text t (LocalTZA t true)].
Proof. unfold date_text. cbn [encodeDate concat]. rewrite app_nil_r. reflexivity. Qed.

(** The times it is read back from: those of a year of four digits, with
    an offset of two digits of hours at most. *)
Definition date_ok (t offset : Z) : bool :=
  (1000 <=? getUTCFullYear t) && (getUTCFullYear t <=? 9999) && (Z.abs offset <? 6000).

Definition fraction_text (ms : Z) : jsstring :=
  if ms =? 0 then [] else [46] ++ pad ms 3.

Definition offset_text (offset : Z) : jsstring :=
  (if 0 <=? offset then [43] else [45])
  ++ (if Z.abs offset mod 60 =? 0 then short_hours (Z.abs offset / 60)
      else pad (Z.abs offset / 60) 2 ++ [58] ++ pad (Z.abs offset mod 60) 2).

Lemma date_text_fields (t offset : Z) :
  date_text t offset
  = intToString (getUTCFullYear t) ++ [45] ++ pad (getUTCMonth t + 1) 2 ++ [45]
    ++ pad (getUTCDate t) 2 ++ [32] ++ pad (getUTCHours t) 2 ++ [58]
    ++ pad (getUTCMinutes t) 2 ++ [58] ++ pad (getUTCSeconds t) 2
    ++ fraction_text (getUTCMilliseconds t) ++ str " UTC" ++ offset_text offset.
Proof.
  unfold date_text. cbn [encodeDate concat]. rewrite app_nil_r.
  unfold getTimezoneOffset. rewrite Z.opp_involutive.
  destruct (MakeTime_fields t) as (_ & _ & _ & _ & Hms).
  pose proof (holds_from_all _ 1000 0 all_milliseconds_ok (getUTCMilliseconds t) Hms) as Hm.
  unfold milliseconds_ok in Hm.
  apply andb_true_iff in Hm as [Hm _]. apply andb_true_iff in Hm as [_ Hm].
  apply eqb_prop in Hm.
  assert (Hminutes : 0 <= Z.abs offset mod 60 < 100)
    by (pose proof (Z.mod_pos_bound (Z.abs offset) 60 ltac:(lia)); lia).
  pose proof (holds_from_all _ 100 0 fields_ok _ Hminutes) as Hmin.
  unfold field_ok in Hmin. apply andb_true_iff in Hmin as [Hmin _].
  apply andb_true_iff in Hmin as [_ Hmin]. apply eqb_prop in Hmin.
  rewrite Hm, Hmin. unfold fraction_text, offset_text, short_hours.
  destruct (getUTCMilliseconds t =? 0), (Z.abs offset mod 60 =? 0);
    rewrite <- ?app_assoc; reflexivity.
Qed.

(** [n] digits. *)
Definition digit_text (n : nat) (s : jsstring) : bool :=
  (length s =? n)%nat && forallb is_digit s.

(** The fraction of the seconds as [encodeDate] writes it, and its
    offset. *)
Definition fraction_form (fraction : jsstring) : bool :=
  match fraction with
  | [] => true
  | u :: digits => (u =? 46) && digit_text 3 digits
  end.

Definition offset_form (offset : jsstring) : bool :=
  match offset with
  | sign :: hours =>
      ((sign =? 43) || (sign =? 45))
      && (digit_text 1 hours || digit_text 2 hours
          || match hours with
             | [a; b; colon; c; d] => (colon =? 58) && forallb is_digit [a; b; c; d]
             | _ => false
             end)
  | [] => false
  end.

Ltac digit_facts :=
  repeat match goal with
         | H : _ && _ = true |- _ => apply andb_true_iff in H as [? ?]
         | H : true = true |- _ => clear H
         end.

Lemma digit_not_space (x : Z) : is_digit x = true -> (32 =? x) = false.
Proof. unfold is_digit. lia. Qed.

(** A step of the match of a text made of digits that are known to be
    digits and of separators that are given. *)
Ltac literal_step :=
  match goal with
  | H : is_digit ?x = true |- context [is_digit ?x] => rewrite H
  | H : is_digit ?x = true |- context [32 =? ?x] => rewrite (digit_not_space x H)
  | |- context [is_digit (Z.pos ?a)] =>
      let v := eval vm_compute in (is_digit (Z.pos a)) in
      change (is_digit (Z.pos a)) with v
  | |- context [is_lower (Z.pos ?a)] =>
      let v := eval vm_compute in (is_lower (Z.pos a)) in
      change (is_lower (Z.pos a)) with v
  | |- context [Z.eqb (Z.pos ?a) (Z.pos ?b)] =>
      let v := eval vm_compute in (Z.eqb (Z.pos a) (Z.pos b)) in
      change (Z.eqb (Z.pos a) (Z.pos b)) with v
  | |- context [jsstring_eqb ?a ?b] =>
      let v := eval vm_compute in (jsstring_eqb a b) in
      match v with
      | true => change (jsstring_eqb a b) with true
      | false => change (jsstring_eqb a b) with false
      end
  end.

Ltac literal_steps :=
  repeat first
    [ literal_step
    | progress cbn [app take drop firstn skipn length Nat.eqb Nat.leb forallb andb orb
                    mbind option_bind span fst snd ascii_upper map] ].

Lemma match_date_regex_text (Y MM DD hh mi ss fraction offset : jsstring) :
  digit_text 4 Y = true -> digit_text 2 MM = true -> digit_text 2 DD = true ->
  digit_text 2 hh = true -> digit_text 2 mi = true -> digit_text 2 ss = true ->
  fraction_form fraction = true -> offset_form offset = true ->
  match_date_regex
    (Y ++ [45] ++ MM ++ [45] ++ DD ++ [32] ++ hh ++ [58] ++ mi ++ [58] ++ ss
     ++ fraction ++ str " UTC" ++ offset)
  = Some (DateMatch Y MM DD (Some (hh, mi, Some (ss ++ fraction)))
            (match fraction with [] => None | _ => Some fraction end) (Some offset)).
Proof.
  intros HY HMM HDD Hhh Hmi Hss Hfraction Hoffset.
  destruct Y as [|y1 [|y2 [|y3 [|y4 [|]]]]]; try discriminate HY.
  destruct MM as [|m1 [|m2 [|]]]; try discriminate HMM.
  destruct DD as [|d1 [|d2 [|]]]; try discriminate HDD.
  destruct hh as [|h1 [|h2 [|]]]; try discriminate Hhh.
  destruct mi as [|i1 [|i2 [|]]]; try discriminate Hmi.
  destruct ss as [|s1 [|s2 [|]]]; try discriminate Hss.
  assert (Hfr : fraction = [] \/ exists a b c, fraction = [46; a; b; c]
                /\ is_digit a = true /\ is_digit b = true /\ is_digit c = true).
  { destruct fraction as [|u digits]; [left; reflexivity |].
    cbn [fraction_form] in Hfraction. apply andb_true_iff in Hfraction as [Hu Hdigits].
    destruct digits as [|a [|b [|c [|]]]]; try discriminate Hdigits.
    unfold digit_text in Hdigits. cbn [length Nat.eqb forallb] in Hdigits.
    digit_facts. right. exists a, b, c. replace u with 46 by lia. auto. }
  assert (Hoff : exists sign hours, offset = sign :: hours /\ (sign = 43 \/ sign = 45)
                 /\ ((exists a, hours = [a] /\ is_digit a = true)
                     \/ (exists a b, hours = [a; b] /\ is_digit a = true /\ is_digit b = true)
                     \/ (exists a b c d, hours = [a; b; 58; c; d] /\ is_digit a = true
                          /\ is_digit b = true /\ is_digit c = true /\ is_digit d = true))).
  { destruct offset as [|sign hours]; [discriminate |]. exists sign, hours.
    cbn [offset_form] in Hoffset. apply andb_true_iff in Hoffset as [Hsign Hhours].
    split; [reflexivity |]. split; [lia |].
    apply orb_true_iff in Hhours as [[H | H]%orb_true_iff | H].
    - left. destruct hours as [|a [|]]; try discriminate H. exists a.
      unfold digit_text in H. cbn [length Nat.eqb forallb] in H. digit_facts. auto.
    - right. left. destruct hours as [|a [|b [|]]]; try discriminate H. exists a, b.
      unfold digit_text in H. cbn [length Nat.eqb forallb] in H. digit_facts. auto.
    - right. right. destruct hours as [|a [|b [|colon [|c [|d [|]]]]]]; try discriminate H.
      exists a, b, c, d. cbn [forallb] in H. digit_facts.
      replace colon with 58 by lia. auto. }
  clear Hfraction Hoffset.
  unfold digit_text in *. cbn [length Nat.eqb forallb] in *. digit_facts.
  destruct Hoff as (sign & hours & -> & Hsign & Hhours).
  destruct Hfr as [-> | (a & b & c & -> & Ha & Hb & Hc)];
    destruct Hsign as [-> | ->];
    destruct Hhours as [(p & -> & Hp) | [(p & q & -> & Hp & Hq)
                                        | (p & q & r & u & -> & Hp & Hq & Hr & Hu)]].
  all: change (str " UTC") with [32; 85; 84; 67].
  all: unfold match_date_regex, match_datePattern, match_timePattern, match_offsetPattern,
         take_digits, skip_spaces.
  all: literal_steps.
  all: reflexivity.
Qed.
  


(** The minutes that [matchDate] reads from an offset. *)
Definition offset_minutes (offset : jsstring) : Z :=
  let '(hOffset, minOffset) := split_colon (drop 1 offset) in
  let minutes :=
    truncate (Number hOffset) * 60
    + from_option (fun x => truncate (Number x)) 0 minOffset in
  if jsstring_eqb (take 1 offset) [45] then - minutes else minutes.

Lemma digits_of_inv (n : nat) (s : jsstring) (x : Z) :
  digits_of n s x = true ->
  digit_text n s = true /\ forallb is_digit s = true /\ radix_value 10 s = x.
Proof.
  unfold digits_of, digit_text. intros [[Hn Hs]%andb_true_iff Hx%Z.eqb_eq]%andb_true_iff.
  rewrite Hn, Hs. auto.
Qed.

(** What [matchDate] sees of a field of digits. *)
Lemma Number_digits_of (n : nat) (s : jsstring) (x : Z) :
  digits_of (S n) s x = true ->
  truncate (Number s) = x /\ forall k, number_gt (Number s) k = (k <? x).
Proof.
  intros (Hn & Hs & Hx)%digits_of_inv.
  assert (Hne : s <> []) by (destruct s; [discriminate | discriminate]).
  rewrite (Number_digits s Hs Hne), Hx. split.
  - rewrite truncate_finite. cbn. lia.
  - intros k. rewrite number_gt_finite. cbn. f_equal. lia.
Qed.

Lemma matchDate_fields LocalTZA (Y MM DD hh mi ss fraction offset end_ : jsstring)
    (year month day h m s ms : Z) :
  digits_of 4 Y year = true -> digits_of 2 MM month = true ->
  digits_of 2 DD day = true -> digits_of 2 hh h = true -> digits_of 2 mi m = true ->
  digits_of 2 ss s = true ->
  month <= 12 -> day <= 31 -> h <= 24 -> m <= 60 -> 0 <= s < 60 ->
  (fraction = [] /\ ms = 0
   \/ exists digits, fraction = 46 :: digits /\ digits_of 3 digits ms = true
                     /\ 0 <= ms < 1000
                     /\ truncate (times_1000 (Number (str "0" ++ [46] ++ digits))) = ms) ->
  offset_form offset = true ->
  matchDate LocalTZA
    (Y ++ [45] ++ MM ++ [45] ++ DD ++ [32] ++ hh ++ [58] ++ mi ++ [58] ++ ss
     ++ fraction ++ str " UTC" ++ offset) end_
  = Ok (Entry (DDate (Date (Date_UTC year (month - 1) day h m s ms
                            - offset_minutes offset * 60000))) end_ VALUE).
Proof.
  intros HY HMM HDD Hhh Hmi Hss Hmonth Hday Hh Hm Hs Hfraction Hoffset.
  unfold matchDate. rewrite match_date_regex_text.
  2-7: eapply digits_of_inv; eassumption.
  2:{ destruct Hfraction as [[-> _] | (digits & -> & Hd & _)]; [reflexivity |].
      cbn [fraction_form]. apply digits_of_inv in Hd as [-> _]. reflexivity. }
  2: exact Hoffset.
  cbn [dm_year dm_month dm_day dm_time dm_fractional dm_offset from_option].
  destruct (Number_digits_of 3 Y year HY) as [-> _].
  destruct (Number_digits_of 1 MM month HMM) as [-> ->].
  destruct (Number_digits_of 1 DD day HDD) as [-> ->].
  destruct (Number_digits_of 1 hh h Hhh) as [-> ->].
  destruct (Number_digits_of 1 mi m Hmi) as [-> ->].
  assert (Hseconds : truncate (Number (ss ++ fraction)) = s
                     /\ number_gt (Number (ss ++ fraction)) 60 = false).
  { destruct Hfraction as [[-> _] | (digits & -> & Hd & Hms & _)].
    - rewrite app_nil_r. destruct (Number_digits_of 1 ss s Hss) as [-> ->].
      split; [reflexivity | lia].
    - apply digits_of_inv in Hss as (Hlength & Hdigits & Hvalue).
      apply digits_of_inv in Hd as (Hlength' & Hdigits' & Hvalue').
      assert (Hne : ss <> []) by (destruct ss; [discriminate | discriminate]).
      rewrite (Number_fraction ss digits Hdigits Hdigits' Hne).
      rewrite truncate_finite, number_gt_finite, radix_value_app, Hvalue, Hvalue'.
      assert (Hthree : jslength digits = 3).
      { unfold digit_text in Hlength'. apply andb_true_iff in Hlength' as [H _].
        apply Nat.eqb_eq in H. unfold jslength. rewrite H. reflexivity. }
      rewrite Hthree. cbn [truncate number_gt].
      change (0 <=? - (3)) with false. change (10 ^ (- - (3))) with 1000.
      change (10 ^ 3) with 1000. cbv iota. split; [| lia].
      rewrite Z.quot_div_nonneg by lia. Z.div_mod_to_equations. lia. }
  destruct Hseconds as [-> ->].
  assert (Hmilliseconds :
            truncate (times_1000
                        (Number (str "0" ++ default (str ".0")
                                   match fraction with
                                   | [] => None
                                   | _ :: _ => Some fraction
                                   end))) = ms).
  { destruct Hfraction as [[-> ->] | (digits & -> & _ & _ & H)]; [reflexivity | exact H]. }
  rewrite Hmilliseconds.
  replace (12 <? month) with false by lia. replace (31 <? day) with false by lia.
  replace (24 <? h) with false by lia. replace (60 <? m) with false by lia.
  cbn [orb]. unfold offset_minutes.
  destruct (split_colon (drop 1 offset)) as [hOffset minOffset].
  destruct (jsstring_eqb (take 1 offset) [45]); do 4 f_equal; ring.
Qed.

Lemma split_colon_digits (s : jsstring) :
  forallb is_digit s = true -> split_colon s = (s, None).
Proof.
  intros Hs. unfold split_colon.
  assert (H : span (fun u => negb (u =? 58)) s = (s, [])).
  { induction s as [|u s IH]; [reflexivity |]. cbn [forallb span] in *.
    apply andb_true_iff in Hs as [Hu Hs]. rewrite (IH Hs).
    replace (u =? 58) with false by (unfold is_digit in Hu; lia). reflexivity. }
  rewrite H. reflexivity.
Qed.

Lemma split_colon_minutes (a b : jsstring) :
  forallb is_digit a = true -> split_colon (a ++ 58 :: b) = (a, Some b).
Proof.
  intros Ha. unfold split_colon.
  assert (H : span (fun u => negb (u =? 58)) (a ++ 58 :: b) = (a, 58 :: b)).
  { induction a as [|u a IH]; [reflexivity |]. cbn [forallb span app] in *.
    apply andb_true_iff in Ha as [Hu Ha]. rewrite (IH Ha).
    replace (u =? 58) with false by (unfold is_digit in Hu; lia). reflexivity. }
  rewrite H. reflexivity.
Qed.

(** The offset [encodeDate] writes is one that [matchDate] reads, as the
    same minutes. *)
Lemma offset_text_minutes (offset : Z) :
  Z.abs offset < 6000 ->
  offset_form (offset_text offset) = true /\ offset_minutes (offset_text offset) = offset.
Proof.
  intros Hoffset.
  pose proof (Z.div_mod (Z.abs offset) 60 ltac:(lia)) as Hdiv.
  pose proof (Z.mod_pos_bound (Z.abs offset) 60 ltac:(lia)) as Hmod.
  assert (Hhours : 0 <= Z.abs offset / 60 < 0 + 100)
    by (split; [apply Z.div_pos; lia | apply Z.div_lt_upper_bound; lia]).
  assert (Hminutes : 0 <= Z.abs offset mod 60 < 0 + 100) by lia.
  pose proof (holds_from_all _ 100 0 fields_ok _ Hhours) as Fh.
  pose proof (holds_from_all _ 100 0 fields_ok _ Hminutes) as Fm.
  set (h := Z.abs offset / 60) in *. set (m := Z.abs offset mod 60) in *.
  unfold field_ok in Fh, Fm.
  apply andb_true_iff in Fh as [Fh Fshort]. apply andb_true_iff in Fh as [Fh _].
  apply andb_true_iff in Fm as [Fm _]. apply andb_true_iff in Fm as [Fm _].
  unfold offset_text. fold h m.
  set (sign := if 0 <=? offset then [43] else [45]).
  assert (Hsign : exists u, sign = [u] /\ (u =? 43) || (u =? 45) = true
                            /\ jsstring_eqb [u] [45] = negb (0 <=? offset)).
  { subst sign. destruct (0 <=? offset); eexists; repeat split; reflexivity. }
  destruct Hsign as (u & -> & Hu & Hnegative).
  destruct (Z.eqb_spec m 0) as [Hm | Hm].
  - assert (Hshort : exists n, digits_of (S n) (short_hours h) h = true
                               /\ (digit_text 1 (short_hours h)
                                   || digit_text 2 (short_hours h) = true)).
    { destruct (h <? 10); [exists 0%nat | exists 1%nat]; (split; [exact Fshort |]);
        apply digits_of_inv in Fshort as [-> _]; [reflexivity | apply orb_true_r]. }
    destruct Hshort as (n & Hshort & Hform).
    split.
    + cbn [app offset_form]. rewrite Hu, Hform. reflexivity.
    + unfold offset_minutes. cbn [app drop take]. rewrite take_0, drop_0, Hnegative.
      rewrite split_colon_digits by (eapply digits_of_inv; exact Hshort).
      destruct (Number_digits_of n _ h Hshort) as [-> _]. cbn [from_option].
      destruct (Z.leb_spec 0 offset); cbn [negb]; lia.
  - pose proof Fh as Fh'. pose proof Fm as Fm'.
    apply digits_of_inv in Fh' as (Hh2 & Hhd & _).
    apply digits_of_inv in Fm' as (Hm2 & Hmd & _).
    split.
    + destruct (pad h 2) as [|a [|b [|]]]; try discriminate Hh2.
      destruct (pad m 2) as [|c [|d [|]]]; try discriminate Hm2.
      cbn [app offset_form forallb] in *. rewrite Hu.
      apply andb_true_iff in Hhd as [-> [-> _]%andb_true_iff].
      apply andb_true_iff in Hmd as [-> [-> _]%andb_true_iff].
      rewrite !orb_true_r. reflexivity.
    + unfold offset_minutes. cbn [app drop take]. rewrite take_0, drop_0, Hnegative.
      rewrite (split_colon_minutes _ _ Hhd).
      destruct (Number_digits_of 1 _ h Fh) as [-> _].
      cbn [from_option]. destruct (Number_digits_of 1 _ m Fm) as [-> _].
      destruct (Z.leb_spec 0 offset); cbn [negb]; lia.
Qed.

(** The text [encodeDate] gives for a date is read by [matchDate] as the
    date that is earlier by the offset: the fields of the text are those of
    the time in UTC, and the offset is taken off them again. *)
Lemma matchDate_date_text LocalTZA (t offset : Z) (end_ : jsstring) :
  date_ok t offset = true ->
  matchDate LocalTZA (date_text t offset) end_
  = Ok (Entry (DDate (Date (t - offset * 60000))) end_ VALUE).
Proof.
  unfold date_ok. intros [[Hlow Hhigh]%andb_true_iff Hoffset]%andb_true_iff.
  destruct (MakeDay_fields t ltac:(lia)) as (Hday & Hmonth & Hdate).
  destruct (MakeTime_fields t) as (Htime & Hh & Hm & Hs & Hms).
  destruct (offset_text_minutes offset ltac:(lia)) as [Hform Hminutes].
  assert (Fy : year_ok (getUTCFullYear t) = true)
    by (apply (holds_from_all _ 9000 1000 years_ok); lia).
  assert (Field : forall x, 0 <= x < 100 -> digits_of 2 (pad x 2) x = true).
  { intros x Hx. pose proof (holds_from_all _ 100 0 fields_ok x ltac:(lia)) as H.
    unfold field_ok in H. apply andb_true_iff in H as [H _].
    apply andb_true_iff in H as [H _]. exact H. }
  pose proof (holds_from_all _ 1000 0 all_milliseconds_ok (getUTCMilliseconds t) ltac:(lia))
    as Fms.
  unfold milliseconds_ok in Fms. apply andb_true_iff in Fms as [Fms Hvalue].
  apply andb_true_iff in Fms as [Fms _]. apply Z.eqb_eq in Hvalue.
  rewrite date_text_fields.
  rewrite (matchDate_fields LocalTZA _ _ _ _ _ _ _ _ end_ (getUTCFullYear t)
             (getUTCMonth t + 1) (getUTCDate t) (getUTCHours t) (getUTCMinutes t)
             (getUTCSeconds t) (getUTCMilliseconds t));
    try (apply Field; lia); try lia; try assumption.
  - rewrite Hminutes. unfold Date_UTC. rewrite Hday, Htime.
    pose proof (Z.div_mod t msPerDay ltac:(unfold msPerDay; lia)) as Hdiv.
    do 4 f_equal. lia.
  - unfold fraction_text. destruct (Z.eqb_spec (getUTCMilliseconds t) 0) as [H0 | H0].
    + left. split; [reflexivity | exact H0].
    + right. exists (pad (getUTCMilliseconds t) 3). repeat split; try assumption; lia.
Qed.

Example date_text_ex :
  date_text 1793607720000 0 = str "2026-11-02 08:22:00 UTC+0"
  /\ date_text 1793607720123 (-330) = str "2026-11-02 08:22:00.123 UTC-05:30"
  /\ matchDate UTC_zone (str "2026-11-02 08:22:00.123 UTC-05:30") []
     = Ok (Entry (DDate (Date (1793607720123 + 330 * 60000))) [] VALUE).
Proof. vm_compute. auto. Qed.


(** A zone that is an hour ahead of UTC. *)
Definition hour_ahead : Z -> bool -> Z := fun _ _ => 60.


(** The text of that date, and what [matchDate] computes for it. *)
Example matchDate_encodeDate_ex :
  encodeDate hour_ahead (Date 1793607720123) = [str "2026-11-02 08:22:00.123 UTC+1"]
  /\ matchDate hour_ahead (str "2026-11-02 08:22:00.123 UTC+1") []
     = Ok (Entry (DDate (Date 1793604120123)) [] VALUE).
Proof. vm_compute. auto. Qed.

(** The values that are read as they are written: strings with no
    backslash, booleans, [null] ([undefined] is written as [null] is), NaN,
    Infinity and the finite numbers that are written without an exponent;
    with what they are read as. *)
Definition decoded (value : jvalue) : option dvalue :=
  match value with
  | JString s => if existsb (Z.eqb 92) s then None else Some (DString s)
  | JBool b => Some (DBool b)
  | JNull | JUndefined => Some DNull
  | JNumber NaN => Some (DNumber NaN)
  | JNumber (Infinity false) => Some (DNumber (Infinity false))
  | JNumber (Finite m e) => if plain_number m e then Some (DNumber (Finite m e)) else None
  | _ => None
  end.

(** The text [encodeValue] gives for them. *)
Definition scalar_text (value : jvalue) : list Z :=
  match value with
  | JString s => [34] ++ replace_unit 34 [92; 34] s ++ [34]
  | JNumber n => if isFinite n then numberToString n else toUpperCase (numberToString n)
  | JBool true => str "TRUE"
  | JBool false => str "FALSE"
  | _ => str "NULL"
  end.

Lemma encodeValue_scalar LocalTZA (fuel : nat) (h : heap) (value : jvalue)
    (references : gset nat) (level : nat) (levelUpIfNotMap : bool) (d : dvalue) :
  decoded value = Some d ->
  exists type,
    type <> MAP
    /\ encodeValue LocalTZA fuel h value references level levelUpIfNotMap
       = Ok (type, [scalar_text value], references).
Proof.
  intros Hd.
  destruct value as [| | [|] | s | [| [|] | m e] | | |]; try discriminate;
    destruct fuel; eexists; (split; [| reflexivity]); discriminate.
Qed.

(** A value between quotes is read up to its closing quote. *)
Definition quoted_value (value : jvalue) : bool :=
  match value with JString _ => true | _ => false end.

Lemma matchNext_quoted LocalTZA (fuel : nat) (value : jvalue) (d : dvalue)
    (expected : list token_class) (rest : stream) :
  decoded value = Some d -> quoted_value value = true -> VALUE ∈ expected ->
  matchNext LocalTZA (S fuel) (yield_all (string_iter (scalar_text value)) rest)
    expected None [] false
  = Ok (Entry d [] VALUE, rest).
Proof.
  intros Hd Hquoted Hexpected. destruct value as [| | | s | | | |]; try discriminate.
  cbn [decoded] in Hd. destruct (existsb (Z.eqb 92) s) eqn:Hs; [discriminate |].
  injection Hd as <-. unfold scalar_text.
  cbn [app]. rewrite (string_iter_cons 34) by reflexivity.
  rewrite (string_iter_middle _ 34 []) by reflexivity.
  cbn [yield_all]. rewrite yield_all_app. cbn [yield_all].
  transitivity
    (_ ← checkMatch expected
           (yield_all (string_iter (replace_unit 34 [92; 34] s)) (SYield [34] rest))
           [34] VALUE;
     matchString
       (yield_all (string_iter (replace_unit 34 [92; 34] s)) (SYield [34] rest)) [34]);
    [reflexivity |].
  rewrite (checkMatch_expected _ _ _ _ Hexpected). cbn [mbind completion_bind].
  unfold matchString, matchUntil.
  rewrite (matchUntil_loop_quoted _ _ (string_iter_quoted s Hs)). reflexivity.
Qed.

(** [matchNext] on a keyword of the encoder, given by its first letter and
    the letters after it. *)
Lemma matchNext_keyword LocalTZA (fuel : nat) (first : Z) (letters : list Z) (d : dvalue)
    (expected : list token_class) (tail : stream) (space end_ : list Z) (rest : stream) :
  VALUE ∈ expected -> ends_bare tail space end_ rest ->
  is_upper first = true ->
  forallb (plain_unit DELIMITERS) letters = true ->
  matchKeyword (yield_all (string_iter letters) SDone) [first]
  = Ok (Entry d [] VALUE, SDone) ->
  matchNext LocalTZA (S fuel) (SYield [first] (yield_all (string_iter letters) tail))
    expected None [] false
  = Ok (Entry d end_ VALUE, rest).
Proof.
  intros Hexpected Hend Hfirst Hletters Hkeyword.
  cbn [matchNext]. unfold matchNext_body.
  cbn [next mbind completion_bind matches existsb].
  assert (T1 : ((first =? 10) || (first =? 35) || false) = false)
    by (unfold is_upper in Hfirst; lia).
  assert (T2 : (is_space first || false) = false)
    by (unfold is_upper in Hfirst; unfold is_space; lia).
  assert (T3 : ((44 =? first) || false) = false)
    by (unfold is_upper in Hfirst; lia).
  assert (T4 : ((first =? 93) || (first =? 41) || (first =? 125) || false) = false)
    by (unfold is_upper in Hfirst; lia).
  assert (T5 : ((first =? 39) || (first =? 34) || false) = false)
    by (unfold is_upper in Hfirst; lia).
  assert (T6 : (is_digit first || (first =? 46) || (first =? 43) || (first =? 45) || false)
               = false)
    by (unfold is_upper in Hfirst; unfold is_digit; lia).
  rewrite T1, T2, T3, T4, T5, T6, Hfirst, orb_true_r.
  cbn [orb]. rewrite (checkMatch_expected _ _ _ _ Hexpected).
  cbn [mbind completion_bind].
  unfold matchKeyword in *.
  rewrite (matchUntil_ends_bare letters tail space end_ rest Hend Hletters).
  rewrite (matchUntil_ends_bare letters SDone [] [] SDone (ends_input [] eq_refl) Hletters)
    in Hkeyword.
  cbn [mbind completion_bind] in *. rewrite app_nil_r in Hkeyword.
  rewrite app_assoc, trim_app_spaces
    by (destruct Hend; apply blanks_spaces; assumption).
  destruct (if jsstring_eqb (toUpperCase (trim ([first] ++ letters))) (str "TRUE")
            then _ else _) as [keyword |]; [| discriminate].
  injection Hkeyword as <-. reflexivity.
Qed.


(** [matchNext] on a value that is written without quotes. *)
Lemma matchNext_bare LocalTZA (fuel : nat) (value : jvalue) (d : dvalue)
    (expected : list token_class) (tail : stream) (space end_ : list Z) (rest : stream) :
  decoded value = Some d -> quoted_value value = false ->
  VALUE ∈ expected -> ends_bare tail space end_ rest ->
  matchNext LocalTZA (S fuel) (yield_all (string_iter (scalar_text value)) tail)
    expected None [] false
  = Ok (Entry d end_ VALUE, rest).
Proof.
  intros Hd Hquoted Hexpected Hend.
  destruct value as [| | [|] | s | [| [|] | m e] | | |]; try discriminate;
    cbn [decoded] in Hd.
  all: try (destruct (plain_number m e) eqn:Hplain; [| discriminate]);
    injection Hd as <-.
  - apply (matchNext_keyword LocalTZA fuel 78 (str "ULL") _ _ _ space); auto.
  - apply (matchNext_keyword LocalTZA fuel 78 (str "ULL") _ _ _ space); auto.
  - apply (matchNext_keyword LocalTZA fuel 84 (str "RUE") _ _ _ space); auto.
  - apply (matchNext_keyword LocalTZA fuel 70 (str "ALSE") _ _ _ space); auto.
  - apply (matchNext_keyword LocalTZA fuel 78 (str "AN") _ _ _ space); auto.
  - apply (matchNext_keyword LocalTZA fuel 73 (str "NFINITY") _ _ _ space); auto.
  - apply (matchNext_number LocalTZA fuel m e _ _ space); assumption.
Qed.

Lemma matchNext_bare_delimiter LocalTZA (fuel : nat) (value : jvalue) (d : dvalue)
    (expected : list token_class) (delimiter : Z) (rest : stream) :
  decoded value = Some d -> quoted_value value = false ->
  VALUE ∈ expected -> existsb (Z.eqb delimiter) DELIMITERS = true ->
  matchNext LocalTZA (S fuel)
    (yield_all (string_iter (scalar_text value)) (SYield [delimiter] rest))
    expected None [] false
  = Ok (Entry d [delimiter] VALUE, rest).
Proof.
  intros Hd Hquoted Hexpected Hdelimiter.
  exact (matchNext_bare LocalTZA fuel value d expected _ [] [delimiter] rest Hd Hquoted
           Hexpected (ends_delimiter [] delimiter rest eq_refl Hdelimiter)).
Qed.

(** A white space character other than a line feed is skipped. *)
Lemma matchNext_blank LocalTZA (fuel : nat) (u : Z) cs ex ek nl :
  is_space u = true -> u <> 10 ->
  matchNext LocalTZA (S fuel) (SYield [u] cs) ex ek [] nl
  = matchNext LocalTZA fuel cs ex ek [] nl.
Proof.
  intros Hu H10. cbn [matchNext]. unfold matchNext_body.
  cbn [next mbind completion_bind matches existsb].
  assert (T1 : ((u =? 10) || (u =? 35) || false) = false)
    by (unfold is_space in Hu; lia).
  rewrite T1, Hu. reflexivity.
Qed.

(** ** Arrays of such values *)

(** What is awaited in an array before a value and after one. *)
Abbreviation BEFORE_VALUE := [VALUE; LIST_DELIMITER; NEW_LINE] (only parsing).
Abbreviation AFTER_VALUE := [LIST_DIVIDER; LIST_DELIMITER; NEW_LINE] (only parsing).

Lemma matchArray_fuel_le LocalTZA (fuel fuel' : nat) cs d r st ex :
  (fuel <= fuel')%nat ->
  approx (matchArray LocalTZA fuel cs d r st ex) (matchArray LocalTZA fuel' cs d r st ex).
Proof.
  induction 1 as [|fuel' _ IH]; [apply approx_refl |].
  eapply approx_trans; [exact IH |]. apply decoder_fuel_succ.
Qed.

(** A comma or a closing bracket or brace, read from the characters or left
    by the value before it. *)
Lemma matchNext_comma LocalTZA (fuel : nat) cs ex ek nl :
  LIST_DIVIDER ∈ ex ->
  matchNext LocalTZA (S fuel) (SYield [44] cs) ex ek [] nl
  = Ok (Entry (DString []) [44] LIST_DIVIDER, cs)
  /\ matchNext LocalTZA (S fuel) cs ex ek [44] nl
     = Ok (Entry (DString []) [44] LIST_DIVIDER, cs).
Proof.
  intros Hex.
  split.
  - transitivity (_ ← checkMatch ex cs [44] LIST_DIVIDER;
                  Ok (Entry (DString []) [44] LIST_DIVIDER, cs)); [reflexivity |].
    rewrite (checkMatch_expected _ _ _ _ Hex). reflexivity.
  - transitivity (_ ← checkMatch ex cs [44] LIST_DIVIDER;
                  Ok (Entry (DString []) [44] LIST_DIVIDER, cs)); [reflexivity |].
    rewrite (checkMatch_expected _ _ _ _ Hex). reflexivity.
Qed.

Lemma matchNext_closing LocalTZA (fuel : nat) (closing : Z) cs ex ek nl :
  closing = 93 \/ closing = 125 ->
  LIST_DELIMITER ∈ ex ->
  matchNext LocalTZA (S fuel) (SYield [closing] cs) ex ek [] nl
  = Ok (Entry (DString []) [closing] LIST_DELIMITER, cs)
  /\ matchNext LocalTZA (S fuel) cs ex ek [closing] nl
     = Ok (Entry (DString []) [closing] LIST_DELIMITER, cs).
Proof.
  intros Hclosing Hex.
  assert (H : forall cs',
    (_ ← checkMatch ex cs' [closing] LIST_DELIMITER;
     Ok (Entry (DString []) [closing] LIST_DELIMITER, cs'))
    = Ok (Entry (DString []) [closing] LIST_DELIMITER, cs')).
  { intros cs'. rewrite (checkMatch_expected _ _ _ _ Hex). reflexivity. }
  destruct Hclosing as [-> | ->]; (split; [rewrite <- (H cs) | rewrite <- (H cs)]);
    reflexivity.
Qed.

Lemma matchNext_bracket LocalTZA (fuel : nat) cs ex nl :
  LIST_DELIMITER ∈ ex ->
  matchNext LocalTZA (S fuel) (SYield [93] cs) ex None [] nl
  = Ok (Entry (DString []) [93] LIST_DELIMITER, cs)
  /\ matchNext LocalTZA (S fuel) cs ex None [93] nl
     = Ok (Entry (DString []) [93] LIST_DELIMITER, cs).
Proof. apply matchNext_closing. left. reflexivity. Qed.

Lemma elem_of_BEFORE_VALUE :
  VALUE ∈ BEFORE_VALUE /\ LIST_DELIMITER ∈ BEFORE_VALUE /\ NEW_LINE ∈ BEFORE_VALUE.
Proof. repeat split; repeat constructor. Qed.

Lemma elem_of_AFTER_VALUE :
  LIST_DIVIDER ∈ AFTER_VALUE /\ LIST_DELIMITER ∈ AFTER_VALUE /\ NEW_LINE ∈ AFTER_VALUE.
Proof. repeat split; repeat constructor. Qed.

(** A turn of the loop of [matchArray] on a value, and the next one on the
    comma after it. *)
Lemma matchArray_value_comma LocalTZA (fuel : nat) (value : jvalue) (d : dvalue)
    (cs : stream) (delimiter : option (list Z)) (result : list dvalue) :
  decoded value = Some d ->
  matchArray LocalTZA (S (S (S fuel)))
    (yield_all (string_iter (scalar_text value)) (SYield [44] cs))
    delimiter result [] BEFORE_VALUE
  = matchArray LocalTZA (S fuel) cs delimiter (result ++ [d]) [] BEFORE_VALUE.
Proof.
  intros Hd.
  change (matchArray LocalTZA (S (S (S fuel))) ?c ?dl ?r ?st ?ex)
    with (matchArray_body (matchNext LocalTZA (S (S fuel)))
            (matchArray LocalTZA (S (S fuel))) c dl r st ex).
  unfold matchArray_body at 1.
  destruct (quoted_value value) eqn:Hquoted.
  - rewrite (matchNext_quoted LocalTZA (S fuel) value d _ _ Hd Hquoted
               (proj1 elem_of_BEFORE_VALUE)).
    cbn [mbind completion_bind entry_type entry_value entry_end].
    change (matchArray LocalTZA (S (S fuel)) ?c ?dl ?r ?st ?ex)
      with (matchArray_body (matchNext LocalTZA (S fuel))
              (matchArray LocalTZA (S fuel)) c dl r st ex).
    unfold matchArray_body at 1.
    rewrite (proj1 (matchNext_comma LocalTZA fuel cs _ None false
                      (proj1 elem_of_AFTER_VALUE))).
    reflexivity.
  - rewrite (matchNext_bare_delimiter LocalTZA (S fuel) value d _ 44 cs Hd Hquoted
               (proj1 elem_of_BEFORE_VALUE) eq_refl).
    cbn [mbind completion_bind entry_type entry_value entry_end].
    change (matchArray LocalTZA (S (S fuel)) ?c ?dl ?r ?st ?ex)
      with (matchArray_body (matchNext LocalTZA (S fuel))
              (matchArray LocalTZA (S fuel)) c dl r st ex).
    unfold matchArray_body at 1.
    rewrite (proj2 (matchNext_comma LocalTZA fuel cs _ None false
                      (proj1 elem_of_AFTER_VALUE))).
    reflexivity.
Qed.

(** The same on the last value of an array that is written in one line,
    and the bracket after it. *)
Lemma matchArray_value_bracket LocalTZA (fuel : nat) (value : jvalue) (d : dvalue)
    (cs : stream) (result : list dvalue) :
  decoded value = Some d ->
  matchArray LocalTZA (S (S (S fuel)))
    (yield_all (string_iter (scalar_text value)) (SYield [93] cs))
    (Some [93]) result [] BEFORE_VALUE
  = Ok (Entry (DArray (result ++ [d])) [] VALUE, cs).
Proof.
  intros Hd.
  change (matchArray LocalTZA (S (S (S fuel))) ?c ?dl ?r ?st ?ex)
    with (matchArray_body (matchNext LocalTZA (S (S fuel)))
            (matchArray LocalTZA (S (S fuel))) c dl r st ex).
  unfold matchArray_body at 1.
  destruct (quoted_value value) eqn:Hquoted.
  - rewrite (matchNext_quoted LocalTZA (S fuel) value d _ _ Hd Hquoted
               (proj1 elem_of_BEFORE_VALUE)).
    cbn [mbind completion_bind entry_type entry_value entry_end].
    change (matchArray LocalTZA (S (S fuel)) ?c ?dl ?r ?st ?ex)
      with (matchArray_body (matchNext LocalTZA (S fuel))
              (matchArray LocalTZA (S fuel)) c dl r st ex).
    unfold matchArray_body at 1.
    rewrite (proj1 (matchNext_bracket LocalTZA fuel cs _ false
                      (proj1 (proj2 elem_of_AFTER_VALUE)))).
    reflexivity.
  - rewrite (matchNext_bare_delimiter LocalTZA (S fuel) value d _ 93 cs Hd Hquoted
               (proj1 elem_of_BEFORE_VALUE) eq_refl).
    cbn [mbind completion_bind entry_type entry_value entry_end].
    change (matchArray LocalTZA (S (S fuel)) ?c ?dl ?r ?st ?ex)
      with (matchArray_body (matchNext LocalTZA (S fuel))
              (matchArray LocalTZA (S fuel)) c dl r st ex).
    unfold matchArray_body at 1.
    rewrite (proj2 (matchNext_bracket LocalTZA fuel cs _ false
                      (proj1 (proj2 elem_of_AFTER_VALUE)))).
    reflexivity.
Qed.

(** A closing bracket where a value may come: the array ends. *)
Lemma matchArray_bracket LocalTZA (fuel : nat) (cs : stream) (result : list dvalue) :
  matchArray LocalTZA (S (S fuel)) (SYield [93] cs) (Some [93]) result [] BEFORE_VALUE
  = Ok (Entry (DArray result) [] VALUE, cs).
Proof.
  change (matchArray LocalTZA (S (S fuel)) ?c ?dl ?r ?st ?ex)
    with (matchArray_body (matchNext LocalTZA (S fuel))
            (matchArray LocalTZA (S fuel)) c dl r st ex).
  unfold matchArray_body at 1.
  rewrite (proj1 (matchNext_bracket LocalTZA fuel cs _ false
                    (proj1 (proj2 elem_of_BEFORE_VALUE)))).
  reflexivity.
Qed.

(** White space and line feeds in an array, where a value may come, are
    skipped. *)
Lemma matchNext_array_space LocalTZA (fuel : nat) (u : Z) cs :
  is_space u = true ->
  matchNext LocalTZA (S fuel) (SYield [u] cs) BEFORE_VALUE None [] false
  = matchNext LocalTZA fuel cs BEFORE_VALUE None [] false.
Proof.
  intros Hu. destruct (Z.eq_dec u 10) as [-> | H10]; [reflexivity |].
  apply matchNext_blank; assumption.
Qed.

Lemma matchArray_space LocalTZA (fuel : nat) (u : Z) cs delimiter result r :
  is_space u = true ->
  matchArray LocalTZA fuel cs delimiter result [] BEFORE_VALUE = Ok r ->
  matchArray LocalTZA (S fuel) (SYield [u] cs) delimiter result [] BEFORE_VALUE = Ok r.
Proof.
  intros Hu Hrest. destruct fuel as [|fuel]; [discriminate |].
  change (matchArray LocalTZA (S (S fuel)) ?c ?dl ?r ?st ?ex)
    with (matchArray_body (matchNext LocalTZA (S fuel))
            (matchArray LocalTZA (S fuel)) c dl r st ex).
  unfold matchArray_body at 1. rewrite (matchNext_array_space _ _ _ _ Hu).
  change (matchArray LocalTZA (S fuel) ?c ?dl ?r ?st ?ex)
    with (matchArray_body (matchNext LocalTZA fuel)
            (matchArray LocalTZA fuel) c dl r st ex) in Hrest.
  refine (approx_Ok _ _ _ _ Hrest).
  apply matchArray_body_approx; intros.
  - apply approx_refl.
  - apply decoder_fuel_succ.
Qed.

Lemma matchArray_spaces LocalTZA (space : list Z) :
  forallb is_space space = true ->
  forall (fuel : nat) cs delimiter result r,
    matchArray LocalTZA fuel cs delimiter result [] BEFORE_VALUE = Ok r ->
    matchArray LocalTZA (length space + fuel) (yield_all (map (fun u => [u]) space) cs)
      delimiter result [] BEFORE_VALUE
    = Ok r.
Proof.
  induction space as [|u space IH]; cbn [forallb]; intros Hspace fuel cs delimiter result r
    Hrest; [exact Hrest |].
  apply andb_true_iff in Hspace as [Hu Hspace].
  cbn [length map yield_all Nat.add]. apply matchArray_space; [exact Hu |].
  apply IH; assumption.
Qed.

(** The characters of an array after its opening bracket, when it is
    written in one line: the values with a comma and a space between two of
    them, the closing bracket. *)
Fixpoint inline_stream (items : list jvalue) (rest : stream) : stream :=
  match items with
  | [] => SYield [93] rest
  | value :: items =>
      yield_all (string_iter (scalar_text value))
        match items with
        | [] => SYield [93] rest
        | _ => SYield [44] (SYield [32] (inline_stream items rest))
        end
  end.

(** The same when it is written with a value per line: after a line feed,
    each value after four spaces and before a comma and a line feed, the
    closing bracket. *)
Fixpoint multiline_stream (items : list jvalue) (rest : stream) : stream :=
  match items with
  | [] => SYield [93] rest
  | value :: items =>
      yield_all (map (fun u => [u]) (str "    "))
        (yield_all (string_iter (scalar_text value))
           (SYield [44] (SYield [10] (multiline_stream items rest))))
  end.

(** What the values of an array are read as. *)
Definition decoded_items (items : list jvalue) : option (list dvalue) :=
  mapM decoded items.

Lemma decoded_items_cons (value : jvalue) (items : list jvalue) (ds : list dvalue) :
  decoded_items (value :: items) = Some ds ->
  exists d ds', decoded value = Some d /\ decoded_items items = Some ds' /\ ds = d :: ds'.
Proof.
  unfold decoded_items. cbn [mapM].
  destruct (decoded value) as [d |]; [| discriminate]. cbn.
  destruct (mapM decoded items) as [ds' |]; [| discriminate]. cbn.
  intros [= <-]. eauto.
Qed.

Lemma matchArray_inline_stream LocalTZA (items : list jvalue) :
  forall (ds : list dvalue) (rest : stream) (result : list dvalue),
    decoded_items items = Some ds ->
    exists fuel,
      matchArray LocalTZA fuel (inline_stream items rest) (Some [93]) result []
        BEFORE_VALUE
      = Ok (Entry (DArray (result ++ ds)) [] VALUE, rest).
Proof.
  induction items as [|value items IH]; intros ds rest result Hds.
  - injection Hds as <-. exists 2%nat. rewrite app_nil_r. apply matchArray_bracket.
  - apply decoded_items_cons in Hds as (d & ds' & Hd & Hds' & ->).
    destruct items as [|value' items].
    + injection Hds' as <-. exists 3%nat. cbn [inline_stream].
      apply matchArray_value_bracket, Hd.
    + destruct (IH ds' rest (result ++ [d]) Hds') as [fuel Hrest].
      exists (S (S (S (S fuel)))).
      change (inline_stream (value :: value' :: items) rest)
        with (yield_all (string_iter (scalar_text value))
                (SYield [44] (SYield [32] (inline_stream (value' :: items) rest)))).
      rewrite (matchArray_value_comma LocalTZA (S fuel) value d _ _ _ Hd).
      apply matchArray_space; [reflexivity |]. rewrite <- app_assoc in Hrest.
      refine (approx_Ok _ _ _ _ Hrest). apply matchArray_fuel_le. lia.
Qed.

Lemma matchArray_multiline_stream LocalTZA (items : list jvalue) :
  forall (ds : list dvalue) (rest : stream) (result : list dvalue),
    decoded_items items = Some ds ->
    exists fuel,
      matchArray LocalTZA fuel (SYield [10] (multiline_stream items rest)) (Some [93])
        result [] BEFORE_VALUE
      = Ok (Entry (DArray (result ++ ds)) [] VALUE, rest).
Proof.
  induction items as [|value items IH]; intros ds rest result Hds.
  - injection Hds as <-. exists 3%nat. rewrite app_nil_r.
    apply matchArray_space; [reflexivity |]. apply matchArray_bracket.
  - apply decoded_items_cons in Hds as (d & ds' & Hd & Hds' & ->).
    destruct (IH ds' rest (result ++ [d]) Hds') as [fuel Hrest].
    exists (S (4 + S (S (S fuel))))%nat.
    apply matchArray_space; [reflexivity |]. cbn [multiline_stream].
    apply (matchArray_spaces LocalTZA (str "    ") eq_refl).
    rewrite (matchArray_value_comma LocalTZA fuel value d _ _ _ Hd).
    rewrite <- app_assoc in Hrest.
    refine (approx_Ok _ _ _ _ Hrest). apply matchArray_fuel_le. lia.
Qed.

(** The encoded values of the entries of an array, and the text of the
    array where it is the value of an entry of the document or of a
    section. *)
Definition array_pieces (items : list jvalue) : list (list (list Z)) :=
  map (fun value => [scalar_text value]) items.

Definition array_text (items : list jvalue) : list Z :=
  join (layoutArray 1 (array_pieces items)).

Lemma inline_array_stream (items : list jvalue) (rest : stream) :
  yield_all (string_iter (inline_array (array_pieces items))) rest
  = SYield [91] (inline_stream items rest).
Proof.
  unfold inline_array. change (str "[" ++ ?s) with (91 :: s).
  rewrite (string_iter_cons 91) by reflexivity. cbn [yield_all]. f_equal.
  change (str "]") with [93].
  destruct items as [|value items]; [reflexivity |].
  revert value. induction items as [|value' items IH]; intros value.
  - cbn [array_pieces map join_with inline_stream]. unfold join. cbn [concat].
    rewrite app_nil_r, (string_iter_middle _ 93 []) by reflexivity.
    rewrite yield_all_app. reflexivity.
  - change (join_with (str ", ") (map join (array_pieces (value :: value' :: items))))
      with (join [scalar_text value] ++ 44 :: 32
            :: join_with (str ", ") (map join (array_pieces (value' :: items)))).
    change (inline_stream (value :: value' :: items) rest)
      with (yield_all (string_iter (scalar_text value))
              (SYield [44] (SYield [32] (inline_stream (value' :: items) rest)))).
    unfold join at 1. cbn [concat]. rewrite app_nil_r, <- app_assoc. cbn [app].
    rewrite string_iter_middle by reflexivity.
    rewrite (string_iter_cons 32) by reflexivity.
    rewrite yield_all_app. cbn [yield_all]. rewrite IH. reflexivity.
Qed.

Lemma multiline_array_stream (items : list jvalue) (rest : stream) :
  yield_all (string_iter (multiline_array (array_pieces items))) rest
  = SYield [91] (SYield [10] (multiline_stream items rest)).
Proof.
  unfold multiline_array. change (str "[" ++ nl ++ ?s) with (91 :: 10 :: s).
  rewrite (string_iter_cons 91), (string_iter_cons 10) by reflexivity.
  cbn [yield_all]. do 2 f_equal. change (str "]") with [93].
  induction items as [|value items IH]; [reflexivity |].
  cbn [array_pieces map concat multiline_stream]. fold (array_pieces items).
  set (others := concat (map _ (array_pieces items)) ++ [93]) in *.
  transitivity
    (yield_all
       (string_iter (32 :: 32 :: 32 :: 32 :: (scalar_text value ++ 44 :: 10 :: others)))
       rest).
  { do 2 f_equal. unfold join. cbn [concat]. rewrite app_nil_r, <- !app_assoc.
    reflexivity. }
  rewrite !(string_iter_cons 32) by reflexivity.
  rewrite string_iter_middle by reflexivity.
  rewrite (string_iter_cons 10) by reflexivity.
  cbn [yield_all map]. rewrite yield_all_app. cbn [yield_all]. rewrite IH. reflexivity.
Qed.

(** An opening bracket where a value is awaited: [matchArray] reads the
    array. *)
Lemma matchNext_array LocalTZA (fuel : nat) cs ex nl :
  VALUE ∈ ex ->
  matchNext LocalTZA (S fuel) (SYield [91] cs) ex None [] nl
  = matchArray LocalTZA fuel cs (Some [93]) [] [] [VALUE; LIST_DELIMITER; NEW_LINE].
Proof.
  intros Hex.
  transitivity (_ ← checkMatch ex cs [91] VALUE;
                matchArray LocalTZA fuel cs (Some [93]) [] []
                  [VALUE; LIST_DELIMITER; NEW_LINE]); [reflexivity |].
  rewrite (checkMatch_expected _ _ _ _ Hex). reflexivity.
Qed.

(** [matchNext] reads the text of an array of values that are read as they
    are written, in one line or in lines. *)
Lemma matchNext_array_text LocalTZA (items : list jvalue) (ds : list dvalue)
    (ex : list token_class) (rest : stream) :
  decoded_items items = Some ds -> VALUE ∈ ex ->
  exists fuel,
    matchNext LocalTZA fuel (yield_all (string_iter (array_text items)) rest) ex None []
      false
    = Ok (Entry (DArray ds) [] VALUE, rest).
Proof.
  intros Hds Hex. unfold array_text. rewrite layoutArray_join.
  assert (Hinline :
    exists fuel,
      matchNext LocalTZA fuel
        (yield_all (string_iter (inline_array (array_pieces items))) rest) ex None []
        false
      = Ok (Entry (DArray ds) [] VALUE, rest)).
  { destruct (matchArray_inline_stream LocalTZA items ds rest [] Hds) as [fuel Hfuel].
    exists (S fuel). rewrite inline_array_stream, (matchNext_array _ _ _ _ _ Hex).
    exact Hfuel. }
  destruct (array_pieces items) as [|piece pieces] eqn:Hpieces.
  - destruct items; [| discriminate]. exact Hinline.
  - rewrite <- Hpieces in *.
    destruct ((1 =? 1)%nat && (80 <? jslength (inline_array (array_pieces items))));
      [| exact Hinline].
    destruct (matchArray_multiline_stream LocalTZA items ds rest [] Hds) as [fuel Hfuel].
    exists (S fuel). rewrite multiline_array_stream, (matchNext_array _ _ _ _ _ Hex).
    exact Hfuel.
Qed.

(** ** Tables of such values *)

Abbreviation BEFORE_KEY := [KEY; LIST_DELIMITER; NEW_LINE] (only parsing).

Lemma matchMap_unfold LocalTZA (fuel : nat) cs r st ex :
  matchMap LocalTZA (S fuel) cs r st ex
  = matchMap_body (matchNext LocalTZA fuel) (matchMap LocalTZA fuel) cs r st ex.
Proof. reflexivity. Qed.

(** White space, a line feed too, is skipped where a line feed may come. *)
Lemma matchNext_skip_space LocalTZA (fuel : nat) (u : Z) cs ex ek :
  is_space u = true -> NEW_LINE ∈ ex ->
  matchNext LocalTZA (S fuel) (SYield [u] cs) ex ek [] false
  = matchNext LocalTZA fuel cs ex ek [] false.
Proof.
  intros Hu Hex. destruct (Z.eq_dec u 10) as [-> | H10].
  - transitivity (_ ← checkMatch ex cs [10] NEW_LINE;
                  matchNext LocalTZA fuel cs ex ek [] false); [reflexivity |].
    rewrite (checkMatch_expected _ _ _ _ Hex). reflexivity.
  - apply matchNext_blank; assumption.
Qed.

(** The characters of an entry [key = value]. *)
Definition entry_stream (key : list Z) (value : jvalue) (tail : stream) : stream :=
  yield_all (string_iter key)
    (SYield [32]
       (SYield [61] (SYield [32] (yield_all (string_iter (scalar_text value)) tail)))).

Lemma elem_of_BEFORE_KEY :
  KEY ∈ BEFORE_KEY /\ LIST_DELIMITER ∈ BEFORE_KEY /\ NEW_LINE ∈ BEFORE_KEY.
Proof. repeat split; repeat constructor. Qed.

(** A turn of the loop of [matchMap] on an entry: to the turn after its
    value. *)
Lemma matchMap_body_entry LocalTZA (fuel : nat) (M : matchMap_type) (key : list Z)
    (value : jvalue) (d : dvalue) (result : list (list Z * dvalue)) :
  plain_key key = true -> decoded value = Some d ->
  (quoted_value value = true ->
   forall tail,
     matchMap_body (matchNext LocalTZA (S (S fuel))) M (entry_stream key value tail)
       result [] BEFORE_KEY
     = M tail (map_set key d result) [] AFTER_VALUE)
  /\ (quoted_value value = false ->
      forall tail space end_ rest,
        ends_bare tail space end_ rest ->
        matchMap_body (matchNext LocalTZA (S (S fuel))) M (entry_stream key value tail)
          result [] BEFORE_KEY
        = M rest (map_set key d result) end_ AFTER_VALUE).
Proof.
  intros Hkey Hd.
  assert (Hstart : forall tail,
    matchMap_body (matchNext LocalTZA (S (S fuel))) M (entry_stream key value tail)
      result [] BEFORE_KEY
    = '(entryValue, characters) ←
        matchNext LocalTZA (S fuel) (yield_all (string_iter (scalar_text value)) tail)
          [VALUE] None [] false;
      M characters (map_set key (entry_value entryValue) result) (entry_end entryValue)
        AFTER_VALUE).
  { intros tail. unfold matchMap_body, entry_stream.
    pose proof (matchNext_key LocalTZA (S fuel) key [32]
                  (SYield [32] (yield_all (string_iter (scalar_text value)) tail))
                  BEFORE_KEY HIGHER_LEVEL false Hkey eq_refl
                  (proj1 elem_of_BEFORE_KEY)) as Hread.
    cbn [map yield_all] in Hread. rewrite Hread.
    cbn [mbind completion_bind entry_type entry_end entry_key entry_value].
    change (jsstring_eqb [61] [61]) with true. cbn [negb].
    rewrite matchNext_blank by (reflexivity || discriminate). reflexivity. }
  split.
  - intros Hquoted tail. rewrite Hstart.
    rewrite (matchNext_quoted LocalTZA fuel value d _ _ Hd Hquoted)
      by apply list_elem_of_here.
    reflexivity.
  - intros Hquoted tail space end_ rest Hend. rewrite Hstart.
    rewrite (matchNext_bare LocalTZA fuel value d _ _ _ _ _ Hd Hquoted
               ltac:(apply list_elem_of_here) Hend).
    reflexivity.
Qed.

(** An entry of a table and the comma after it. *)
Lemma matchMap_entry_comma LocalTZA (fuel : nat) (key : list Z) (value : jvalue)
    (d : dvalue) (cs : stream) (result : list (list Z * dvalue)) :
  plain_key key = true -> decoded value = Some d ->
  matchMap LocalTZA (S (S (S fuel))) (entry_stream key value (SYield [44] cs)) result
    [] BEFORE_KEY
  = matchMap LocalTZA (S fuel) cs (map_set key d result) [] BEFORE_KEY.
Proof.
  intros Hkey Hd. rewrite (matchMap_unfold LocalTZA (S (S fuel))).
  destruct (matchMap_body_entry LocalTZA fuel (matchMap LocalTZA (S (S fuel)))
              key value d result Hkey Hd) as [Hquoted Hbare].
  destruct (quoted_value value).
  - rewrite (Hquoted eq_refl). rewrite (matchMap_unfold LocalTZA (S fuel)).
    unfold matchMap_body at 1.
    rewrite (proj1 (matchNext_comma LocalTZA fuel cs _ _ false
                      (proj1 elem_of_AFTER_VALUE))).
    reflexivity.
  - pose proof (Hbare eq_refl _ [] [44] cs (ends_delimiter [] 44 cs eq_refl eq_refl)) as H.
    cbn [map yield_all] in H. rewrite H.
    rewrite (matchMap_unfold LocalTZA (S fuel)). unfold matchMap_body at 1.
    rewrite (proj2 (matchNext_comma LocalTZA fuel cs _ _ false
                      (proj1 elem_of_AFTER_VALUE))).
    reflexivity.
Qed.

(** The last entry of a table that is written in one line, the space and
    the closing brace after it. *)
Lemma matchMap_entry_brace LocalTZA (fuel : nat) (key : list Z) (value : jvalue)
    (d : dvalue) (cs : stream) (result : list (list Z * dvalue)) :
  plain_key key = true -> decoded value = Some d ->
  matchMap LocalTZA (S (S (S (S fuel))))
    (entry_stream key value (SYield [32] (SYield [125] cs))) result [] BEFORE_KEY
  = Ok (Entry (DMap (map_set key d result)) [] VALUE, cs).
Proof.
  intros Hkey Hd. rewrite (matchMap_unfold LocalTZA (S (S (S fuel)))).
  destruct (matchMap_body_entry LocalTZA (S fuel) (matchMap LocalTZA (S (S (S fuel))))
              key value d result Hkey Hd) as [Hquoted Hbare].
  destruct (quoted_value value).
  - rewrite (Hquoted eq_refl). rewrite (matchMap_unfold LocalTZA (S (S fuel))).
    unfold matchMap_body at 1.
    rewrite matchNext_blank by (reflexivity || discriminate).
    rewrite (proj1 (matchNext_closing LocalTZA fuel 125 cs _ _ false
                      ltac:(right; reflexivity) (proj1 (proj2 elem_of_AFTER_VALUE)))).
    reflexivity.
  - pose proof (Hbare eq_refl _ [32] [125] cs
                  (ends_delimiter [32] 125 cs eq_refl eq_refl)) as H.
    cbn [map yield_all] in H. rewrite H.
    rewrite (matchMap_unfold LocalTZA (S (S fuel))). unfold matchMap_body at 1.
    rewrite (proj2 (matchNext_closing LocalTZA (S fuel) 125 cs _ _ false
                      ltac:(right; reflexivity) (proj1 (proj2 elem_of_AFTER_VALUE)))).
    reflexivity.
Qed.

(** A closing brace where a key may come: the table ends. *)
Lemma matchMap_brace LocalTZA (fuel : nat) (cs : stream) (result : list (list Z * dvalue)) :
  matchMap LocalTZA (S (S fuel)) (SYield [125] cs) result [] BEFORE_KEY
  = Ok (Entry (DMap result) [] VALUE, cs).
Proof.
  rewrite matchMap_unfold. unfold matchMap_body at 1.
  rewrite (proj1 (matchNext_closing LocalTZA fuel 125 cs _ _ false
                    ltac:(right; reflexivity) (proj1 (proj2 elem_of_BEFORE_KEY)))).
  reflexivity.
Qed.

Lemma matchMap_space LocalTZA (fuel : nat) (u : Z) cs result r :
  is_space u = true ->
  matchMap LocalTZA fuel cs result [] BEFORE_KEY = Ok r ->
  matchMap LocalTZA (S fuel) (SYield [u] cs) result [] BEFORE_KEY = Ok r.
Proof.
  intros Hu Hrest. destruct fuel as [|fuel]; [discriminate |].
  rewrite matchMap_unfold. unfold matchMap_body at 1.
  rewrite (matchNext_skip_space _ _ _ _ _ _ Hu (proj2 (proj2 elem_of_BEFORE_KEY))).
  rewrite matchMap_unfold in Hrest. unfold matchMap_body in Hrest.
  refine (approx_Ok _ _ _ _ Hrest).
  destruct (decoder_fuel_succ LocalTZA fuel) as (Hn & _ & Hm).
  apply approx_bind; [apply approx_refl |]. intros [entryKey characters].
  repeat approx_step.
Qed.

Lemma matchMap_spaces LocalTZA (space : list Z) :
  forallb is_space space = true ->
  forall (fuel : nat) cs result r,
    matchMap LocalTZA fuel cs result [] BEFORE_KEY = Ok r ->
    matchMap LocalTZA (length space + fuel) (yield_all (map (fun u => [u]) space) cs)
      result [] BEFORE_KEY
    = Ok r.
Proof.
  induction space as [|u space IH]; cbn [forallb]; intros Hspace fuel cs result r Hrest;
    [exact Hrest |].
  apply andb_true_iff in Hspace as [Hu Hspace].
  cbn [length map yield_all Nat.add]. apply matchMap_space; [exact Hu |].
  apply IH; assumption.
Qed.

(** The characters of a table after its opening brace, when it is written
    in one line: each entry after a space, a comma between two of them, a
    space and the closing brace; or the closing brace alone. *)
Fixpoint inline_table_stream (entries : list (list Z * jvalue)) (rest : stream)
    : stream :=
  match entries with
  | [] => SYield [125] rest
  | (key, value) :: entries =>
      SYield [32]
        (entry_stream key value
           match entries with
           | [] => SYield [32] (SYield [125] rest)
           | _ => SYield [44] (inline_table_stream entries rest)
           end)
  end.

(** The same when it is written with an entry per line: after a line feed,
    each entry after four spaces and before a comma and a line feed, the
    closing brace. *)
Fixpoint multiline_table_stream (entries : list (list Z * jvalue)) (rest : stream)
    : stream :=
  match entries with
  | [] => SYield [125] rest
  | (key, value) :: entries =>
      yield_all (map (fun u => [u]) (str "    "))
        (entry_stream key value
           (SYield [44] (SYield [10] (multiline_table_stream entries rest))))
  end.

(** What the entries of a table are read as, and the table when they are
    set one after the other. *)
Definition decoded_entries (entries : list (list Z * jvalue))
    : option (list (list Z * dvalue)) :=
  mapM (fun entry => if plain_key entry.1 then d ← decoded entry.2; Some (entry.1, d)
                     else None) entries.

Definition table_set (written : list (list Z * dvalue)) (result : list (list Z * dvalue))
    : list (list Z * dvalue) :=
  fold_left (fun result entry => map_set entry.1 entry.2 result) written result.

Lemma decoded_entries_cons (key : list Z) (value : jvalue)
    (entries : list (list Z * jvalue)) (ds : list (list Z * dvalue)) :
  decoded_entries ((key, value) :: entries) = Some ds ->
  exists d ds',
    plain_key key = true /\ decoded value = Some d
    /\ decoded_entries entries = Some ds' /\ ds = (key, d) :: ds'.
Proof.
  unfold decoded_entries. cbn [mapM fst snd].
  destruct (plain_key key); [| discriminate].
  destruct (decoded value) as [d |]; [| discriminate]. cbn.
  destruct (mapM _ entries) as [ds' |]; [| discriminate]. cbn.
  intros [= <-]. exists d, ds'. auto.
Qed.

Lemma matchMap_inline_stream LocalTZA (entries : list (list Z * jvalue)) :
  forall (ds : list (list Z * dvalue)) (rest : stream) (result : list (list Z * dvalue)),
    decoded_entries entries = Some ds ->
    exists fuel,
      matchMap LocalTZA fuel (inline_table_stream entries rest) result [] BEFORE_KEY
      = Ok (Entry (DMap (table_set ds result)) [] VALUE, rest).
Proof.
  induction entries as [|[key value] entries IH]; intros ds rest result Hds.
  - injection Hds as <-. exists 2%nat. apply matchMap_brace.
  - apply decoded_entries_cons in Hds as (d & ds' & Hkey & Hd & Hds' & ->).
    destruct entries as [|entry entries].
    + injection Hds' as <-. exists 5%nat. cbn [inline_table_stream].
      apply matchMap_space; [reflexivity |].
      apply matchMap_entry_brace; assumption.
    + destruct (IH ds' rest (map_set key d result) Hds') as [fuel Hrest].
      exists (S (S (S (S fuel)))).
      change (inline_table_stream ((key, value) :: entry :: entries) rest)
        with (SYield [32]
                (entry_stream key value
                   (SYield [44] (inline_table_stream (entry :: entries) rest)))).
      apply matchMap_space; [reflexivity |].
      rewrite (matchMap_entry_comma LocalTZA fuel key value d _ _ Hkey Hd).
      refine (approx_Ok _ _ _ _ Hrest). apply matchMap_fuel_le. lia.
Qed.

Lemma matchMap_multiline_stream LocalTZA (entries : list (list Z * jvalue)) :
  forall (ds : list (list Z * dvalue)) (rest : stream) (result : list (list Z * dvalue)),
    decoded_entries entries = Some ds ->
    exists fuel,
      matchMap LocalTZA fuel (SYield [10] (multiline_table_stream entries rest)) result
        [] BEFORE_KEY
      = Ok (Entry (DMap (table_set ds result)) [] VALUE, rest).
Proof.
  induction entries as [|[key value] entries IH]; intros ds rest result Hds.
  - injection Hds as <-. exists 3%nat.
    apply matchMap_space; [reflexivity |]. apply matchMap_brace.
  - apply decoded_entries_cons in Hds as (d & ds' & Hkey & Hd & Hds' & ->).
    destruct (IH ds' rest (map_set key d result) Hds') as [fuel Hrest].
    exists (S (4 + S (S (S fuel))))%nat.
    apply matchMap_space; [reflexivity |]. cbn [multiline_table_stream].
    apply (matchMap_spaces LocalTZA (str "    ") eq_refl).
    rewrite (matchMap_entry_comma LocalTZA fuel key value d _ _ Hkey Hd).
    refine (approx_Ok _ _ _ _ Hrest). apply matchMap_fuel_le. lia.
Qed.

(** The encoded entries of a table, and the text of the table where it is
    the value of an entry of a section. *)
Definition table_pieces (entries : list (list Z * jvalue))
    : list (list Z * list (list Z)) :=
  map (fun entry => (entry.1, [scalar_text entry.2])) entries.

Definition table_text (entries : list (list Z * jvalue)) : list Z :=
  join (layoutMap 2 (table_pieces entries)).

Lemma entry_text_stream (key : list Z) (value : jvalue) (u : Z) (others : list Z)
    (rest : stream) :
  is_high_surrogate u = false -> is_low_surrogate u = false ->
  yield_all (string_iter (key ++ str " = " ++ join [scalar_text value] ++ u :: others))
    rest
  = entry_stream key value (SYield [u] (yield_all (string_iter others) rest)).
Proof.
  intros Hhigh Hlow. unfold entry_stream, join. cbn [concat]. rewrite app_nil_r.
  change (str " = " ++ ?s) with (32 :: 61 :: 32 :: s).
  rewrite string_iter_middle by reflexivity.
  rewrite (string_iter_cons 61), (string_iter_cons 32) by reflexivity.
  rewrite (string_iter_middle _ u others Hhigh Hlow).
  rewrite !yield_all_app. cbn [yield_all]. rewrite yield_all_app. reflexivity.
Qed.

Lemma inline_entries_stream (entries : list (list Z * jvalue)) (rest : stream) :
  entries <> [] ->
  yield_all
    (string_iter
       (32 :: join_with (str ", ")
                (map (fun entry : list Z * list (list Z) =>
                        entry.1 ++ str " = " ++ join entry.2) (table_pieces entries))
        ++ [32; 125])) rest
  = inline_table_stream entries rest.
Proof.
  destruct entries as [|[key value] entries]; [congruence |]. intros _.
  revert key value. induction entries as [|[key' value'] entries IH]; intros key value;
    rewrite (string_iter_cons 32) by reflexivity; cbn [yield_all].
  - change (join_with ?sep (map ?f (table_pieces [(key, value)])))
      with (key ++ str " = " ++ join [scalar_text value]).
    rewrite <- !app_assoc.
    rewrite (entry_text_stream key value 32 [125] rest eq_refl eq_refl). reflexivity.
  - change (join_with ?sep (map ?f (table_pieces ((key, value) :: (key', value') :: entries))))
      with ((key ++ str " = " ++ join [scalar_text value]) ++ 44 :: 32
            :: join_with sep (map f (table_pieces ((key', value') :: entries)))).
    change (inline_table_stream ((key, value) :: (key', value') :: entries) rest)
      with (SYield [32]
              (entry_stream key value
                 (SYield [44] (inline_table_stream ((key', value') :: entries) rest)))).
    rewrite <- !app_assoc. cbn [app].
    rewrite (entry_text_stream key value 44 _ rest eq_refl eq_refl).
    rewrite (IH key' value'). reflexivity.
Qed.

Lemma inline_table_stream_text (entries : list (list Z * jvalue)) (rest : stream) :
  entries <> [] ->
  yield_all (string_iter (inline_table (table_pieces entries))) rest
  = SYield [123] (inline_table_stream entries rest).
Proof.
  intros Hne. unfold inline_table.
  change (str "{ " ++ ?s ++ str " }") with (123 :: 32 :: s ++ [32; 125]).
  rewrite (string_iter_cons 123) by reflexivity.
  cbn [yield_all]. f_equal. apply inline_entries_stream, Hne.
Qed.

Lemma multiline_table_stream_text (entries : list (list Z * jvalue)) (rest : stream) :
  yield_all (string_iter (multiline_table (table_pieces entries))) rest
  = SYield [123] (SYield [10] (multiline_table_stream entries rest)).
Proof.
  unfold multiline_table. change (str "{" ++ nl ++ ?s) with (123 :: 10 :: s).
  rewrite (string_iter_cons 123), (string_iter_cons 10) by reflexivity.
  cbn [yield_all]. do 2 f_equal. change (str "}") with [125].
  induction entries as [|[key value] entries IH]; [reflexivity |].
  cbn [table_pieces map concat multiline_table_stream fst snd].
  fold (table_pieces entries).
  set (others := concat (map _ (table_pieces entries)) ++ [125]) in *.
  transitivity
    (yield_all
       (string_iter
          (32 :: 32 :: 32 :: 32
           :: (key ++ str " = " ++ join [scalar_text value] ++ 44 :: 10 :: others)))
       rest).
  { do 2 f_equal. rewrite <- !app_assoc. reflexivity. }
  rewrite !(string_iter_cons 32) by reflexivity.
  cbn [yield_all map].
  rewrite (entry_text_stream key value 44 _ rest eq_refl eq_refl).
  rewrite (string_iter_cons 10) by reflexivity. cbn [yield_all]. rewrite IH. reflexivity.
Qed.

(** An opening brace where a value is awaited: [matchMap] reads the
    table. *)
Lemma matchNext_table LocalTZA (fuel : nat) cs ex nl :
  VALUE ∈ ex ->
  matchNext LocalTZA (S fuel) (SYield [123] cs) ex None [] nl
  = matchMap LocalTZA fuel cs [] [] [KEY; LIST_DELIMITER; NEW_LINE].
Proof.
  intros Hex.
  transitivity (_ ← checkMatch ex cs [123] VALUE;
                matchMap LocalTZA fuel cs [] [] [KEY; LIST_DELIMITER; NEW_LINE]);
    [reflexivity |].
  rewrite (checkMatch_expected _ _ _ _ Hex). reflexivity.
Qed.

(** [matchNext] reads the text of a table of values that are read as they
    are written, in one line or in lines. *)
Lemma matchNext_table_text LocalTZA (entries : list (list Z * jvalue))
    (ds : list (list Z * dvalue)) (ex : list token_class) (rest : stream) :
  decoded_entries entries = Some ds -> VALUE ∈ ex ->
  exists fuel,
    matchNext LocalTZA fuel (yield_all (string_iter (table_text entries)) rest) ex None []
      false
    = Ok (Entry (DMap (table_set ds [])) [] VALUE, rest).
Proof.
  intros Hds Hex. unfold table_text.
  destruct entries as [|entry entries].
  - injection Hds as <-. exists 3%nat.
    change (yield_all (string_iter (join (layoutMap 2 (table_pieces [])))) rest)
      with (SYield [123] (SYield [125] rest)).
    rewrite (matchNext_table _ _ _ _ _ Hex). apply matchMap_brace.
  - rewrite layoutMap_join by discriminate.
    destruct ((2 =? 2)%nat
              && (82 <? jslength (inline_table (table_pieces (entry :: entries))))).
    + destruct (matchMap_multiline_stream LocalTZA (entry :: entries) ds rest [] Hds)
        as [fuel Hfuel].
      exists (S fuel).
      rewrite multiline_table_stream_text, (matchNext_table _ _ _ _ _ Hex). exact Hfuel.
    + destruct (matchMap_inline_stream LocalTZA (entry :: entries) ds rest [] Hds)
        as [fuel Hfuel].
      exists (S fuel).
      rewrite inline_table_stream_text by discriminate.
      rewrite (matchNext_table _ _ _ _ _ Hex). exact Hfuel.
Qed.

(** ** Texts made of entries, headers and empty lines *)

(** A value as it is written: a value in one piece, an array or a table of
    such values. *)
Inductive written :=
| Scalar (value : jvalue)
| Items (items : list jvalue)
| Table (entries : list (list Z * jvalue)).

(** Its text, as [encodeValue] writes it where it is the value of an entry of
    the document or of a section. *)
Definition written_text (value : written) : list Z :=
  match value with
  | Scalar value => scalar_text value
  | Items items => array_text items
  | Table entries => table_text entries
  end.

(** What it is read as. *)
Definition written_decoded (value : written) : option dvalue :=
  match value with
  | Scalar value => decoded value
  | Items items => ds ← decoded_items items; Some (DArray ds)
  | Table entries => ds ← decoded_entries entries; Some (DMap (table_set ds []))
  end.

Inductive text_line :=
| Line_entry (key : list Z) (value : written)
| Line_header (key : list Z)
| Line_blank.

(** How a line is laid out: the white space before its content, between
    the key and the assignment character, between that character and the
    value, and after the content; the text of a comment that ends the
    line. *)
Record layout := Layout {
  indent : list Z;
  after_key : list Z;
  before_value : list Z;
  trailing : list Z;
  comment : option (list Z)
}.

(** The layout of the encoder: [key = value]. *)
Definition standard : layout := Layout [] [32] [32] [] None.

(** The white space has no line feed, the comment no line feed and no
    backslash. *)
Definition layout_ok (l : layout) : bool :=
  forallb blank (indent l) && forallb blank (after_key l)
  && forallb blank (before_value l) && forallb blank (trailing l)
  && match comment l with
     | Some text => forallb (plain_unit [10]) text
     | None => true
     end.

Definition trailer (l : layout) : list Z :=
  trailing l
  ++ match comment l with
     | Some text => 35 :: text
     | None => []
     end.

(** A line as text (an array or a table may take several lines of the
    text). *)
Definition render (l : layout) (line : text_line) : list Z :=
  indent l
  ++ match line with
     | Line_entry key value =>
         key ++ after_key l ++ [61] ++ before_value l ++ written_text value
     | Line_header key => [91] ++ key ++ [93]
     | Line_blank => []
     end
  ++ trailer l.

(** The lines, with a line feed between two of them: as the encoder lays
    them out, and each with a layout of its own. *)
Definition document_text (lines : list text_line) : list Z :=
  join_with nl (map (render standard) lines).

Definition layout_text (lines : list (layout * text_line)) : list Z :=
  join_with nl (map (fun line => render line.1 line.2) lines).

Lemma document_layout_text (lines : list text_line) :
  document_text lines = layout_text (map (pair standard) lines).
Proof. unfold document_text, layout_text. rewrite map_map. reflexivity. Qed.

(** What a line is read as, when its key and its value are such that they
    are read as they are written. *)
Definition line_items (line : text_line) : option (list item) :=
  match line with
  | Line_entry key value =>
      if plain_key key then d ← written_decoded value; Some [Assignment key d] else None
  | Line_header key => if plain_key key then Some [Section_header key] else None
  | Line_blank => Some []
  end.

Fixpoint lines_items (lines : list text_line) : option (list item) :=
  match lines with
  | [] => Some []
  | line :: lines =>
      items ← line_items line;
      items' ← lines_items lines;
      Some (items ++ items')
  end.

(** *** The characters of a line *)

Abbreviation units := (map (fun u : Z => [u])) (only parsing).

Definition trailer_stream (l : layout) (tail : stream) : stream :=
  yield_all (units (trailing l))
    match comment l with
    | Some text => SYield [35] (yield_all (string_iter text) tail)
    | None => tail
    end.

Definition line_stream (l : layout) (line : text_line) (tail : stream) : stream :=
  yield_all (units (indent l))
    match line with
    | Line_entry key value =>
        yield_all (string_iter key)
          (yield_all (units (after_key l))
             (SYield [61]
                (yield_all (units (before_value l))
                   (yield_all (string_iter (written_text value)) (trailer_stream l tail)))))
    | Line_header key =>
        SYield [91] (yield_all (string_iter key) (SYield [93] (trailer_stream l tail)))
    | Line_blank => trailer_stream l tail
    end.

Fixpoint lines_stream (lines : list (layout * text_line)) : stream :=
  match lines with
  | [] => SDone
  | line :: lines =>
      line_stream line.1 line.2
        (line_end (match lines with [] => None | _ => Some (lines_stream lines) end))
  end.

(** A text that is empty or starts with a code unit that is no half of a
    surrogate pair: the characters before it are those of the text before
    it. *)
Definition starts_plain (s : list Z) : Prop :=
  match s with
  | [] => True
  | u :: _ => is_high_surrogate u = false /\ is_low_surrogate u = false
  end.

Lemma string_iter_app_plain (s s' : list Z) :
  starts_plain s' -> string_iter (s ++ s') = string_iter s ++ string_iter s'.
Proof.
  destruct s' as [|u s']; [intros _; rewrite !app_nil_r; reflexivity |].
  intros [Hhigh Hlow]. rewrite (string_iter_middle s u s' Hhigh Hlow).
  rewrite (string_iter_cons u s' Hhigh). reflexivity.
Qed.

Lemma string_iter_blanks (space s : list Z) :
  forallb blank space = true -> string_iter (space ++ s) = units space ++ string_iter s.
Proof.
  induction space as [|u space IH]; [reflexivity |]. cbn [forallb app map].
  intros [Hu Hspace]%andb_true_iff. rewrite string_iter_cons, (IH Hspace); [reflexivity |].
  unfold blank in Hu. apply andb_true_iff in Hu as [Hu _].
  apply (is_space_not_surrogate u Hu).
Qed.

Lemma starts_plain_blanks (space s : list Z) :
  forallb blank space = true -> starts_plain s -> starts_plain (space ++ s).
Proof.
  destruct space as [|u space]; [intros _ H; exact H |]. cbn [forallb app starts_plain].
  intros [Hu _]%andb_true_iff _. unfold blank in Hu. apply andb_true_iff in Hu as [Hu _].
  apply (is_space_not_surrogate u Hu).
Qed.

Lemma layout_ok_inv (l : layout) :
  layout_ok l = true ->
  forallb blank (indent l) = true /\ forallb blank (after_key l) = true
  /\ forallb blank (before_value l) = true /\ forallb blank (trailing l) = true
  /\ match comment l with
     | Some text => forallb (plain_unit [10]) text = true
     | None => True
     end.
Proof.
  unfold layout_ok. intros [[[[H1 H2]%andb_true_iff H3]%andb_true_iff H4]%andb_true_iff H5]
                             %andb_true_iff.
  repeat split; try assumption. destruct (comment l); [exact H5 | exact I].
Qed.

Lemma starts_plain_trailer (l : layout) (s : list Z) :
  layout_ok l = true -> starts_plain s -> starts_plain (trailer l ++ s).
Proof.
  intros (_ & _ & _ & Htrailing & _)%layout_ok_inv Hs. unfold trailer.
  rewrite <- app_assoc. apply starts_plain_blanks; [exact Htrailing |].
  destruct (comment l); [split; reflexivity | exact Hs].
Qed.

Lemma trailer_stream_text (l : layout) (s : list Z) (rest : stream) :
  layout_ok l = true -> starts_plain s ->
  yield_all (string_iter (trailer l ++ s)) rest
  = trailer_stream l (yield_all (string_iter s) rest).
Proof.
  intros (_ & _ & _ & Htrailing & _)%layout_ok_inv Hs. unfold trailer, trailer_stream.
  rewrite <- app_assoc, (string_iter_blanks _ _ Htrailing), yield_all_app.
  destruct (comment l) as [text |]; [| reflexivity].
  cbn [app]. rewrite (string_iter_cons 35) by reflexivity.
  rewrite (string_iter_app_plain text s Hs). cbn [yield_all]. rewrite yield_all_app.
  reflexivity.
Qed.

Lemma line_stream_text (l : layout) (line : text_line) (s : list Z) (rest : stream) :
  layout_ok l = true -> starts_plain s ->
  yield_all (string_iter (render l line ++ s)) rest
  = line_stream l line (yield_all (string_iter s) rest).
Proof.
  intros Hl Hs. pose proof (starts_plain_trailer l s Hl Hs) as Htrailer.
  pose proof (trailer_stream_text l s rest Hl Hs) as Hstream.
  destruct (layout_ok_inv l Hl) as (Hindent & Hafter & Hbefore & _ & _).
  unfold render, line_stream.
  rewrite <- !app_assoc, (string_iter_blanks _ _ Hindent), yield_all_app. f_equal.
  destruct line as [key value | key |].
  - rewrite <- !app_assoc.
    rewrite (string_iter_app_plain key).
    2:{ apply starts_plain_blanks; [exact Hafter | split; reflexivity]. }
    rewrite (string_iter_blanks _ _ Hafter). cbn [app].
    rewrite (string_iter_cons 61) by reflexivity.
    rewrite (string_iter_blanks _ _ Hbefore).
    rewrite (string_iter_app_plain _ _ Htrailer).
    rewrite !yield_all_app. cbn [yield_all]. rewrite !yield_all_app, Hstream.
    reflexivity.
  - rewrite <- !app_assoc. cbn [app]. rewrite (string_iter_cons 91) by reflexivity.
    rewrite (string_iter_middle key 93) by reflexivity.
    cbn [yield_all]. rewrite yield_all_app. cbn [yield_all]. rewrite Hstream.
    reflexivity.
  - cbn [app]. exact Hstream.
Qed.

Lemma generateFrom_layout_text (lines : list (layout * text_line)) :
  forallb (fun line => layout_ok line.1) lines = true ->
  generateFrom (layout_text lines) = lines_stream lines.
Proof.
  unfold generateFrom, layout_text.
  induction lines as [|line lines IH]; [reflexivity |]. cbn [forallb].
  intros [Hline Hlines]%andb_true_iff.
  destruct lines as [|line' lines].
  - cbn [map join_with lines_stream line_end].
    pose proof (line_stream_text line.1 line.2 [] SDone Hline I) as H.
    rewrite app_nil_r in H. exact H.
  - change (join_with nl (map ?f (line :: line' :: lines)))
      with (f line ++ 10 :: join_with nl (map f (line' :: lines))).
    pose proof (line_stream_text line.1 line.2
                  (10 :: join_with nl
                           (map (fun line => render line.1 line.2) (line' :: lines)))
                  SDone Hline ltac:(split; reflexivity)) as H.
    cbn beta. rewrite H. rewrite (string_iter_cons 10) by reflexivity.
    cbn [yield_all]. rewrite (IH Hlines). reflexivity.
Qed.

(** *** Reading a line *)

Abbreviation AT_KEY := [KEY; NEW_LINE; END_OF_INPUT] (only parsing).
Abbreviation AT_LINE_END := [NEW_LINE; END_OF_INPUT] (only parsing).

Lemma reads_items_done LocalTZA : reads_items LocalTZA SDone [].
Proof.
  apply (reads_end LocalTZA 1 SDone (Entry (DString []) [] END_OF_INPUT) SDone);
    reflexivity.
Qed.

(** What the first call of [matchNext] in a turn of the loop skips is not
    seen. *)
Lemma reads_items_skip LocalTZA (cs' cs : stream) (items : list item) :
  (forall fuel,
     matchNext LocalTZA (S fuel) cs' AT_KEY (Some FIRST_LEVEL) [] false
     = matchNext LocalTZA fuel cs AT_KEY (Some FIRST_LEVEL) [] false) ->
  reads_items LocalTZA cs items -> reads_items LocalTZA cs' items.
Proof.
  intros Hskip Hitems.
  destruct Hitems as [fuel cs entryKey cs1 Hkey Htype
                     | fuel cs entryKey cs1 items Hkey Htype Hend Hrest
                     | fuel cs entryKey cs1 entryValue cs2 items Hkey Htype Hend Hvalue Hrest].
  - apply (reads_end LocalTZA (S fuel) _ entryKey cs1); [| exact Htype].
    rewrite Hskip. exact Hkey.
  - apply (reads_header LocalTZA (S fuel) _ entryKey cs1); try assumption.
    rewrite Hskip. exact Hkey.
  - apply (reads_assignment LocalTZA (S fuel) _ entryKey cs1 entryValue cs2);
      try assumption.
    + rewrite Hskip. exact Hkey.
    + exact (approx_Ok _ _ _
               (matchEntryValue_fuel_le LocalTZA fuel (S fuel) cs1 ltac:(lia)) Hvalue).
Qed.

Lemma reads_items_spaces LocalTZA (space : list Z) (cs : stream) (items : list item) :
  forallb is_space space = true ->
  reads_items LocalTZA cs items -> reads_items LocalTZA (yield_all (units space) cs) items.
Proof.
  induction space as [|u space IH]; cbn [forallb map yield_all]; [intros _ H; exact H |].
  intros [Hu Hspace]%andb_true_iff Hitems.
  apply (reads_items_skip LocalTZA _ (yield_all (units space) cs)).
  - intros fuel. apply matchNext_space, Hu.
  - exact (IH Hspace Hitems).
Qed.

(** A comment that ends the input is skipped as one that ends a line is. *)
Lemma matchNext_last_comment LocalTZA (fuel : nat) (comment : list (list Z)) ek :
  Forall (fun c => plain_character [10] c = true) comment ->
  matchNext LocalTZA (S fuel) (SYield [35] (yield_all comment SDone)) AT_KEY ek [] false
  = matchNext LocalTZA fuel SDone AT_KEY ek [] false.
Proof.
  intros Hcomment. cbn [matchNext]. unfold matchNext_body.
  cbn [next mbind completion_bind matches existsb Z.eqb Pos.eqb orb].
  unfold checkMatch. rewrite bool_decide_eq_true_2
    by (apply list_elem_of_further, list_elem_of_here).
  cbn [mbind completion_bind]. unfold matchUntil.
  rewrite (matchUntil_loop_text _ _ _ _ _ Hcomment). reflexivity.
Qed.

(** What follows the content of a line, where a key is awaited. *)
Lemma reads_items_trailer LocalTZA (l : layout) (rest : option stream)
    (items : list item) :
  layout_ok l = true ->
  reads_items LocalTZA (after_line rest) items ->
  (rest = None -> items = []) ->
  reads_items LocalTZA (trailer_stream l (line_end rest)) items.
Proof.
  intros (_ & _ & _ & Htrailing & Hcomment)%layout_ok_inv Hitems Hlast.
  unfold trailer_stream.
  apply reads_items_spaces; [apply blanks_spaces, Htrailing |].
  destruct (comment l) as [text |].
  - apply string_iter_plain in Hcomment.
    destruct rest as [cs |]; cbn [line_end after_line] in *.
    + apply (reads_items_skip LocalTZA _ cs); [| exact Hitems].
      intros fuel. apply matchNext_comment, Hcomment.
    + apply (reads_items_skip LocalTZA _ SDone); [| exact Hitems].
      intros fuel. apply matchNext_last_comment, Hcomment.
  - destruct rest as [cs |]; cbn [line_end after_line] in *; [| exact Hitems].
    apply reads_items_line_feed, Hitems.
Qed.

(** The end of a line where it is awaited after a value: white space, a
    comment, the line feed or the end of the input. *)
Lemma matchNext_blanks LocalTZA (space : list Z) :
  forallb blank space = true ->
  forall (fuel : nat) cs ex ek nl,
    matchNext LocalTZA (length space + fuel) (yield_all (units space) cs) ex ek [] nl
    = matchNext LocalTZA fuel cs ex ek [] nl.
Proof.
  induction space as [|u space IH]; cbn [forallb]; [reflexivity |].
  intros [Hu Hspace]%andb_true_iff fuel cs ex ek nl.
  cbn [length map yield_all Nat.add]. unfold blank in Hu.
  apply andb_true_iff in Hu as [Hu H10]. rewrite matchNext_blank; [apply IH, Hspace | exact Hu |].
  intros ->. discriminate.
Qed.

Lemma matchNext_comment_line_end LocalTZA (fuel : nat) (text : list Z)
    (rest : option stream) :
  forallb (plain_unit [10]) text = true ->
  matchNext LocalTZA (S fuel) (SYield [35] (yield_all (string_iter text) (line_end rest)))
    AT_LINE_END None [] true
  = Ok (Entry (DString []) [10] NEW_LINE, after_line rest)
  /\ matchNext LocalTZA (S fuel) (yield_all (string_iter text) (line_end rest))
       AT_LINE_END None [35] true
     = Ok (Entry (DString []) [10] NEW_LINE, after_line rest).
Proof.
  intros Htext. apply string_iter_plain in Htext.
  assert (H : (characters ←
                 ('(_, _, characters) ←
                    matchUntil (yield_all (string_iter text) (line_end rest)) [10] true [];
                  Ok characters);
               Ok (Entry (DString []) [10] NEW_LINE, characters))
              = Ok (Entry (DString []) [10] NEW_LINE, after_line rest)).
  { unfold matchUntil. rewrite (matchUntil_loop_text _ _ _ _ _ Htext).
    destruct rest; reflexivity. }
  split; rewrite <- H; reflexivity.
Qed.

Lemma matchNext_trailer LocalTZA (l : layout) (rest : option stream) :
  layout_ok l = true ->
  exists fuel e,
    matchNext LocalTZA fuel (trailer_stream l (line_end rest)) AT_LINE_END None [] true
    = Ok (e, after_line rest).
Proof.
  intros (_ & _ & _ & Htrailing & Hcomment)%layout_ok_inv. unfold trailer_stream.
  exists (length (trailing l) + 1)%nat. rewrite (matchNext_blanks _ _ Htrailing).
  destruct (comment l) as [text |].
  - eexists. apply (matchNext_comment_line_end LocalTZA 0 text rest Hcomment).
  - destruct rest; eexists; reflexivity.
Qed.

(** The same after a value that is read up to a delimiter. *)
Lemma ends_bare_trailer LocalTZA (l : layout) (rest : option stream) :
  layout_ok l = true ->
  exists end_ cs,
    ends_bare (trailer_stream l (line_end rest)) (trailing l) end_ cs
    /\ (end_ = [10] /\ cs = after_line rest
        \/ end_ <> [10]
           /\ exists e, matchNext LocalTZA 1 cs AT_LINE_END None end_ true
                        = Ok (e, after_line rest)).
Proof.
  intros (_ & _ & _ & Htrailing & Hcomment)%layout_ok_inv. unfold trailer_stream.
  destruct (comment l) as [text |].
  - exists [35], (yield_all (string_iter text) (line_end rest)).
    split; [apply ends_delimiter; [exact Htrailing | reflexivity] |].
    right. split; [discriminate |]. eexists.
    apply (matchNext_comment_line_end LocalTZA 0 text rest Hcomment).
  - destruct rest as [cs |]; cbn [line_end after_line].
    + exists [10], cs. split; [apply ends_delimiter; [exact Htrailing | reflexivity] |].
      left. split; reflexivity.
    + exists [], SDone. split; [apply ends_input, Htrailing |].
      right. split; [discriminate |]. eexists. reflexivity.
Qed.

(** A value that is read up to a delimiter. *)
Definition bare (value : written) : bool :=
  match value with
  | Scalar value => negb (quoted_value value)
  | _ => false
  end.

Lemma matchNext_written LocalTZA (value : written) (d : dvalue) (ex : list token_class) :
  written_decoded value = Some d -> VALUE ∈ ex ->
  if bare value
  then forall tail space end_ rest,
         ends_bare tail space end_ rest ->
         matchNext LocalTZA 1 (yield_all (string_iter (written_text value)) tail) ex None
           [] false
         = Ok (Entry d end_ VALUE, rest)
  else forall tail,
         exists fuel,
           matchNext LocalTZA fuel (yield_all (string_iter (written_text value)) tail) ex
             None [] false
           = Ok (Entry d [] VALUE, tail).
Proof.
  intros Hd Hex. destruct value as [value | items | entries]; cbn [bare written_text].
  - cbn [written_decoded] in Hd. destruct (quoted_value value) eqn:Hquoted; cbn [negb].
    + intros tail. exists 1%nat. apply matchNext_quoted; assumption.
    + intros tail space end_ rest Hend.
      apply (matchNext_bare LocalTZA 0 value d ex tail space); assumption.
  - cbn [written_decoded] in Hd.
    destruct (decoded_items items) as [ds |] eqn:Hds; [| discriminate].
    injection Hd as <-. intros tail. apply matchNext_array_text; assumption.
  - cbn [written_decoded] in Hd.
    destruct (decoded_entries entries) as [ds |] eqn:Hds; [| discriminate].
    injection Hd as <-. intros tail. apply matchNext_table_text; assumption.
Qed.

(** The second call of [matchNext] in a turn of the loop, and the third:
    the value of the entry and the end of its line. *)
Lemma matchEntryValue_written LocalTZA (l : layout) (value : written) (d : dvalue)
    (rest : option stream) :
  layout_ok l = true -> written_decoded value = Some d ->
  exists fuel entryValue,
    matchEntryValue (matchNext LocalTZA (S fuel))
      (yield_all (units (before_value l))
         (yield_all (string_iter (written_text value)) (trailer_stream l (line_end rest))))
    = Ok (entryValue, after_line rest)
    /\ entry_value entryValue = d.
Proof.
  intros Hl Hd.
  destruct (layout_ok_inv l Hl) as (_ & _ & Hbefore & _ & _).
  pose proof (matchNext_written LocalTZA value d [VALUE] Hd ltac:(apply list_elem_of_here))
    as Hvalue.
  assert (Hlift : forall fuel fuel' cs ex ek st nl r,
            matchNext LocalTZA fuel cs ex ek st nl = Ok r -> (fuel <= fuel')%nat ->
            matchNext LocalTZA fuel' cs ex ek st nl = Ok r).
  { intros fuel fuel' cs ex ek st nl r H Hle.
    exact (approx_Ok _ _ _ (matchNext_fuel_le LocalTZA fuel fuel' _ _ _ _ _ Hle) H). }
  unfold matchEntryValue. destruct (bare value).
  - destruct (ends_bare_trailer LocalTZA l rest Hl) as (end_ & cs & Hend & Hafter).
    specialize (Hvalue _ _ _ _ Hend).
    exists (length (before_value l) + 1)%nat, (Entry d end_ VALUE). split; [| reflexivity].
    replace (S (length (before_value l) + 1)) with (length (before_value l) + 2)%nat by lia.
    rewrite (matchNext_blanks _ _ Hbefore).
    rewrite (Hlift _ 2%nat _ _ _ _ _ _ Hvalue) by lia.
    cbn [mbind completion_bind entry_end].
    destruct Hafter as [[-> ->] | [Hne [e He]]]; [reflexivity |].
    unfold jsstring_eqb. rewrite bool_decide_eq_false_2 by exact Hne. cbn [negb].
    rewrite (Hlift _ (length (before_value l) + 2)%nat _ _ _ _ _ _ He) by lia.
    reflexivity.
  - destruct (Hvalue (trailer_stream l (line_end rest))) as [fuel1 Hfuel1].
    destruct (matchNext_trailer LocalTZA l rest Hl) as (fuel2 & e & Hfuel2).
    exists (length (before_value l) + (fuel1 + fuel2))%nat, (Entry d [] VALUE).
    split; [| reflexivity].
    replace (S (length (before_value l) + (fuel1 + fuel2)))
      with (length (before_value l) + S (fuel1 + fuel2))%nat by lia.
    rewrite (matchNext_blanks _ _ Hbefore).
    rewrite (Hlift _ (S (fuel1 + fuel2)) _ _ _ _ _ _ Hfuel1) by lia.
    cbn [mbind completion_bind entry_end].
    change (negb (jsstring_eqb [] [10])) with true. cbv iota.
    rewrite (Hlift _ (length (before_value l) + S (fuel1 + fuel2))%nat _ _ _ _ _ _ Hfuel2)
      by lia.
    reflexivity.
Qed.

(** A line is read, then what follows it. *)
Lemma reads_items_line LocalTZA (l : layout) (line : text_line) (rest : option stream)
    (items others : list item) :
  layout_ok l = true -> line_items line = Some items ->
  reads_items LocalTZA (after_line rest) others ->
  (rest = None -> others = []) ->
  reads_items LocalTZA (line_stream l line (line_end rest)) (items ++ others).
Proof.
  intros Hl Hline Hothers Hlast.
  destruct (layout_ok_inv l Hl) as (Hindent & Hafter & _ & _ & _).
  unfold line_stream. apply reads_items_spaces; [apply blanks_spaces, Hindent |].
  destruct line as [key value | key |]; cbn [line_items] in Hline.
  - destruct (plain_key key) eqn:Hkey; [| discriminate].
    destruct (written_decoded value) as [d |] eqn:Hd; [| discriminate].
    cbn in Hline. injection Hline as <-.
    destruct (matchEntryValue_written LocalTZA l value d rest Hl Hd)
      as (fuel & entryValue & Hvalue & <-).
    eapply (reads_assignment LocalTZA (S fuel) _ (Entry (DString key) [61] KEY) _
              entryValue (after_line rest)).
    + apply matchNext_key; [exact Hkey | exact Hafter | apply list_elem_of_here].
    + discriminate.
    + reflexivity.
    + exact Hvalue.
    + exact Hothers.
  - destruct (plain_key key) eqn:Hkey; [| discriminate].
    injection Hline as <-.
    eapply (reads_header LocalTZA 1 _ (Entry (DString key) [93] KEY) _).
    + apply matchNext_header, Hkey.
    + discriminate.
    + reflexivity.
    + apply reads_items_trailer; assumption.
  - injection Hline as <-. apply reads_items_trailer; assumption.
Qed.

Lemma after_line_lines (lines : list (layout * text_line)) :
  after_line (match lines with [] => None | _ => Some (lines_stream lines) end)
  = lines_stream lines.
Proof. destruct lines; reflexivity. Qed.

Lemma reads_items_lines LocalTZA (lines : list (layout * text_line)) :
  forall items,
    forallb (fun line => layout_ok line.1) lines = true ->
    lines_items (map snd lines) = Some items ->
    reads_items LocalTZA (lines_stream lines) items.
Proof.
  induction lines as [|[l line] lines IH]; intros items Hlayouts Hitems.
  - injection Hitems as <-. apply reads_items_done.
  - cbn [forallb fst] in Hlayouts. apply andb_true_iff in Hlayouts as [Hl Hlayouts].
    cbn [map snd lines_items] in Hitems.
    destruct (line_items line) as [first |] eqn:Hline; [| discriminate].
    destruct (lines_items (map snd lines)) as [others |] eqn:Hlines; [| discriminate].
    cbn in Hitems. injection Hitems as <-.
    specialize (IH others Hlayouts eq_refl).
    cbn [lines_stream fst snd].
    apply reads_items_line; [exact Hl | exact Hline | |].
    + rewrite after_line_lines. exact IH.
    + destruct lines; [| discriminate]. intros _. cbn in Hlines. congruence.
Qed.

(** A number of 15 digits at most: the double nearest to it is written as
    it is, so that the decimal of the model is the number the code reads.
    (A number of more digits may be read as another: the code reads
    9007199254740993 as 9007199254740992.) *)
Definition short_number (value : jvalue) : bool :=
  match value with
  | JNumber (Finite m e) => jslength (digits (Z.abs m)) <=? 15
  | _ => true
  end.

Definition short_numbers (value : written) : bool :=
  match value with
  | Scalar value => short_number value
  | Items items => forallb short_number items
  | Table entries => forallb (fun entry => short_number entry.2) entries
  end.

Definition line_numbers (line : text_line) : bool :=
  match line with
  | Line_entry _ value => short_numbers value
  | _ => true
  end.

(** X3: a text of lines that are entries, headers [[key]] and empty lines,
    with white space (no line feed) before and after the content of a
    line and around the assignment character, and with comments.  The keys
    are made of letters, digits, [_] and [-]; the values are strings with
    no backslash, keywords, numbers with no exponent and 15 digits at most,
    or arrays or tables of these as the encoder writes them.  The text is
    decoded as the writes of its lines in their order: an entry is set in
    the Map of the last header above it, or in the document if there is
    none; a header sets a new Map in the document. *)
Theorem decode_layout_text LocalTZA (lines : list (layout * text_line))
    (items : list item) :
  forallb (fun line => layout_ok line.1) lines = true ->
  forallb (fun line => line_numbers line.2) lines = true ->
  lines_items (map snd lines) = Some items ->
  decode LocalTZA (InputString (layout_text lines))
  = Ok (matchEntries_items items [] None).
Proof.
  intros Hlayouts _ Hitems. unfold decode.
  rewrite (generateFrom_layout_text lines Hlayouts).
  apply matchEntries_reads_items, reads_items_lines; assumption.
Qed.

(** Lines with tabs, a carriage return before the line feed, comments, and
    no space or several around the assignment character. *)
Definition sample_lines : list (layout * text_line) :=
  [(Layout [] [] [] [] (Some (str " settings")), Line_blank);
   (Layout [9] [] [32; 32] [32] (Some (str " the name")),
    Line_entry (str "name") (Scalar (JString (str "a " ++ [34] ++ str "b" ++ [34]))));
   (Layout [] [32] [32] [13] None, Line_entry (str "on") (Scalar (JBool true)));
   (Layout [] [32; 32] [] [] (Some []),
    Line_entry (str "sizes") (Items [JNumber (Finite 15 (-1)); JNumber (Finite (-2) 2)]));
   (Layout [32] [] [] [32] None, Line_blank);
   (Layout [] [] [] [9] (Some (str "a section")), Line_header (str "s"));
   (Layout [] [32] [32] [32; 32] (Some (str "twice")),
    Line_entry (str "x-1") (Scalar JNull));
   (standard,
    Line_entry (str "x-1")
      (Table [(str "n", JNumber NaN); (str "port", JNumber (Finite 8 1))]))].

Example sample_text :
  layout_text sample_lines
  = str "# settings" ++ nl
    ++ [9] ++ str "name=  " ++ [34] ++ str "a " ++ [92; 34] ++ str "b" ++ [92; 34; 34]
    ++ str " # the name" ++ nl
    ++ str "on = TRUE" ++ [13; 10]
    ++ str "sizes  =[1.5, -200]#" ++ nl
    ++ str "  " ++ nl
    ++ str "[s]" ++ [9] ++ str "#a section" ++ nl
    ++ str "x-1 = NULL  #twice" ++ nl
    ++ str "x-1 = { n = NAN, port = 80 }".
Proof. vm_compute. reflexivity. Qed.

Lemma decode_layout_text_witness :
  forallb (fun line => layout_ok line.1) sample_lines = true
  /\ forallb (fun line => line_numbers line.2) sample_lines = true
  /\ decode UTC_zone (InputString (layout_text sample_lines))
     = Ok [(str "name", DString (str "a " ++ [34] ++ str "b" ++ [34]));
           (str "on", DBool true);
           (str "sizes", DArray [DNumber (Finite 15 (-1)); DNumber (Finite (-2) 2)]);
           (str "s", DMap [(str "x-1",
                            DMap [(str "n", DNumber NaN);
                                  (str "port", DNumber (Finite 8 1))])])].
Proof.
  split; [reflexivity |]. split; [reflexivity |].
  exact (decode_layout_text UTC_zone sample_lines _ eq_refl eq_refl eq_refl).
Defined.

(** What [decode] computes for the text agrees. *)
Example decode_sample_text :
  decode UTC_zone (InputString (layout_text sample_lines))
  = Ok [(str "name", DString (str "a " ++ [34] ++ str "b" ++ [34]));
        (str "on", DBool true);
        (str "sizes", DArray [DNumber (Finite 15 (-1)); DNumber (Finite (-2) 2)]);
        (str "s", DMap [(str "x-1",
                         DMap [(str "n", DNumber NaN);
                               (str "port", DNumber (Finite 8 1))])])].
Proof. vm_compute. reflexivity. Qed.

(** A header given again puts a new Map under its key: what the section
    held is lost, and the section stays where it was. *)
Example decode_section_twice :
  decode UTC_zone
    (InputString
       (document_text [Line_header (str "s"); Line_entry (str "a") (Scalar (JBool true));
                       Line_header (str "t");
                       Line_header (str "s"); Line_entry (str "b") (Scalar (JBool false))]))
  = Ok [(str "s", DMap [(str "b", DBool false)]); (str "t", DMap [])].
Proof. vm_compute. reflexivity. Qed.

(** The key of a header is taken as it stands between the brackets, with
    its white space. *)
Example decode_header_spaces :
  decode UTC_zone (InputString (str "[ s ]" ++ nl ++ str "a = 1"))
  = Ok [(str " s ", DMap [(str "a", DNumber (Finite 1 0))])].
Proof. vm_compute. reflexivity. Qed.

(** * Documents that are written and read back *)

(** ** The text of a document of entries and sections *)

(** The key of an entry whose key is a string. *)
Definition key_text (entry : jvalue * jvalue) : list Z :=
  match entry.1 with
  | JString key => key
  | _ => []
  end.

(** What the value of an entry is written as: an array, a table (a Map, for
    an entry of a section) or a value in one piece. *)
Definition written_of (h : gmap nat object) (entry : jvalue * jvalue) : written :=
  match entry.2 with
  | JRef l =>
      match h !! l with
      | Some (OArray items) => Items items
      | Some (OMap entries) => Table (map (fun e => (key_text e, e.2)) entries)
      | None => Scalar entry.2
      end
  | value => Scalar value
  end.

(** An entry [key = value] that is read as it is written. *)
Definition scalar_entry_ok (entry : jvalue * jvalue) : bool :=
  match entry.1 with
  | JString key => plain_key key
  | _ => false
  end
  && match decoded entry.2 with
     | Some _ => true
     | None => false
     end.

(** An entry whose value is an array of values that are read as they are
    written; the array is none of the objects [within] which the entry is
    encoded. *)
Definition array_entry_ok (h : gmap nat object) (within : list nat)
    (entry : jvalue * jvalue) : bool :=
  match entry with
  | (JString key, JRef l) =>
      plain_key key && bool_decide (l ∉ within)
      && match h !! l with
         | Some (OArray items) =>
             match decoded_items items with
             | Some _ => true
             | None => false
             end
         | _ => false
         end
  | _ => false
  end.

(** An entry whose value is a Map of entries that are read as they are
    written. *)
Definition table_entry_ok (h : gmap nat object) (within : list nat)
    (entry : jvalue * jvalue) : bool :=
  match entry with
  | (JString key, JRef l) =>
      plain_key key && bool_decide (l ∉ within)
      && match h !! l with
         | Some (OMap entries) => forallb scalar_entry_ok entries
         | _ => false
         end
  | _ => false
  end.

(** An entry of the root that takes a line of the text, or the lines of its
    array; an entry of a section, which may hold a table too. *)
Definition line_entry_ok (h : gmap nat object) (within : list nat)
    (entry : jvalue * jvalue) : bool :=
  scalar_entry_ok entry || array_entry_ok h within entry.

Definition section_line_ok (h : gmap nat object) (within : list nat)
    (entry : jvalue * jvalue) : bool :=
  line_entry_ok h within entry || table_entry_ok h within entry.

(** The entries of the Map an entry holds. *)
Definition section_of (h : gmap nat object) (entry : jvalue * jvalue)
    : list (jvalue * jvalue) :=
  match entry.2 with
  | JRef l =>
      match h !! l with
      | Some (OMap entries) => entries
      | _ => []
      end
  | _ => []
  end.

(** An entry of the root that is a section of such entries: a Map, other
    than the root. *)
Definition section_entry_ok (h : gmap nat object) (input : nat)
    (entry : jvalue * jvalue) : bool :=
  match entry with
  | (JString key, JRef l) =>
      plain_key key && bool_decide (l <> input)
      && match h !! l with
         | Some (OMap entries) => forallb (section_line_ok h [input; l]) entries
         | _ => false
         end
  | _ => false
  end.

Definition line_of (h : gmap nat object) (entry : jvalue * jvalue) : text_line :=
  Line_entry (key_text entry) (written_of h entry).

(** The lines of a section: an empty line unless it opens the text, the
    header, the entries. *)
Definition section_lines (h : gmap nat object) (opens_text : bool)
    (entry : jvalue * jvalue) : list text_line :=
  (if opens_text then [] else [Line_blank])
  ++ Line_header (key_text entry) :: map (line_of h) (section_of h entry).

(** The lines of the entry of index [i] among those of the root. *)
Definition entry_lines (h : gmap nat object) (i : nat) (entry : jvalue * jvalue)
    : list text_line :=
  if is_section h entry then section_lines h (i =? 0)%nat entry else [line_of h entry].

(** The lines of a document: those of the entries that are no sections,
    then those of the sections. *)
Definition document_lines (h : gmap nat object) (entries : list (jvalue * jvalue))
    : list text_line :=
  concat (imap (entry_lines h)
            (List.filter (fun e => negb (is_section h e)) entries
             ++ List.filter (is_section h) entries)).

Lemma plain_key_units (key : list Z) :
  plain_key key = true -> forallb key_unit key = true.
Proof. destruct key; [discriminate | intros H; exact H]. Qed.

(** The pieces of the value of an entry, and those of the entry less the
    line feed that ends them. *)
Definition value_pieces (h : gmap nat object) (entry : jvalue * jvalue)
    : list (list Z) :=
  match written_of h entry with
  | Scalar value => [scalar_text value]
  | Items items => layoutArray 1 (array_pieces items)
  | Table entries => layoutMap 2 (table_pieces entries)
  end.

Definition entry_pieces (h : gmap nat object) (entry : jvalue * jvalue)
    : list (list Z) :=
  [key_text entry; str " = "] ++ value_pieces h entry.

Lemma scalar_entry_ok_inv (entry : jvalue * jvalue) :
  scalar_entry_ok entry = true ->
  exists key d,
    entry.1 = JString key /\ plain_key key = true /\ decoded entry.2 = Some d.
Proof.
  unfold scalar_entry_ok. destruct entry as [[| | | key | | | |] value]; cbn; try discriminate.
  intros [Hkey Hd]%andb_true_iff.
  destruct (decoded value) as [d |]; [| discriminate]. eauto.
Qed.

Lemma array_entry_ok_inv (h : gmap nat object) (within : list nat)
    (entry : jvalue * jvalue) :
  array_entry_ok h within entry = true ->
  exists key l items ds,
    entry = (JString key, JRef l) /\ plain_key key = true /\ (l ∉ within)
    /\ h !! l = Some (OArray items) /\ decoded_items items = Some ds.
Proof.
  unfold array_entry_ok.
  destruct entry as [[| | | key | | | |] [| | | | | | l |]]; try discriminate.
  destruct (h !! l) as [[items | entries] |] eqn:Hl;
    rewrite ?andb_false_r; try discriminate.
  destruct (decoded_items items) as [ds |] eqn:Hds; rewrite ?andb_false_r;
    [| discriminate].
  intros [[Hkey Hl']%andb_true_iff _]%andb_true_iff.
  apply bool_decide_eq_true_1 in Hl'. exists key, l, items, ds. auto.
Qed.

Lemma table_entry_ok_inv (h : gmap nat object) (within : list nat)
    (entry : jvalue * jvalue) :
  table_entry_ok h within entry = true ->
  exists key l entries,
    entry = (JString key, JRef l) /\ plain_key key = true /\ (l ∉ within)
    /\ h !! l = Some (OMap entries) /\ forallb scalar_entry_ok entries = true.
Proof.
  unfold table_entry_ok.
  destruct entry as [[| | | key | | | |] [| | | | | | l |]]; try discriminate.
  destruct (h !! l) as [[items | entries] |] eqn:Hl;
    rewrite ?andb_false_r; try discriminate.
  intros [[Hkey Hl']%andb_true_iff Hentries]%andb_true_iff.
  apply bool_decide_eq_true_1 in Hl'. exists key, l, entries. auto.
Qed.

Lemma scalar_entry_written (h : gmap nat object) (entry : jvalue * jvalue) :
  scalar_entry_ok entry = true -> written_of h entry = Scalar entry.2.
Proof.
  intros (key & d & _ & _ & Hd)%scalar_entry_ok_inv. unfold written_of.
  destruct entry as [k [| | | | | | l |]]; cbn in *; try discriminate; reflexivity.
Qed.

Lemma decoded_items_lookup (items : list jvalue) (ds : list dvalue) (k : nat)
    (value : jvalue) :
  decoded_items items = Some ds -> items !! k = Some value ->
  exists d, decoded value = Some d.
Proof.
  revert ds k. induction items as [|v items IH]; intros ds k Hds Hk; [discriminate |].
  apply decoded_items_cons in Hds as (d & ds' & Hd & Hds' & _).
  destruct k as [|k]; [injection Hk as <-; eauto |].
  exact (IH ds' k Hds' Hk).
Qed.

(** [encodeValue] on the value of such an entry, where an array is at
    level 1. *)
Lemma encodeValue_line LocalTZA (fuel : nat) (h : gmap nat object) (within : list nat)
    (entry : jvalue * jvalue) (references : gset nat) (level : nat)
    (levelUpIfNotMap : bool) :
  line_entry_ok h within entry = true ->
  (forall l, l ∈ references -> l ∈ within) ->
  (level + (if levelUpIfNotMap then 1 else 0) = 1)%nat ->
  exists type,
    type <> MAP
    /\ encodeValue LocalTZA (S fuel) h entry.2 references level levelUpIfNotMap
       = Ok (type, value_pieces h entry, references).
Proof.
  intros [H | H]%orb_true_iff Hwithin Hlevel.
  - unfold value_pieces. rewrite (scalar_entry_written h entry H).
    apply scalar_entry_ok_inv in H as (key & d & _ & _ & Hd).
    exact (encodeValue_scalar LocalTZA (S fuel) h entry.2 references level
             levelUpIfNotMap d Hd).
  - apply array_entry_ok_inv in H as (key & l & items & ds & -> & _ & Hl & Hobj & Hds).
    exists ARRAY. split; [discriminate |].
    unfold value_pieces, written_of. cbn [fst snd encodeValue getValueType].
    rewrite Hobj. cbn [mbind completion_bind]. rewrite Hlevel.
    unfold encodeArray.
    assert (Hnew : l ∉ references) by (intros Hin; exact (Hl (Hwithin l Hin))).
    rewrite bool_decide_eq_false_2 by exact Hnew. rewrite Hobj.
    rewrite (array_from_imap _ (fun _ value => [scalar_text value])).
    + cbn [mbind completion_bind].
      change (imap _ items) with (imap (const (fun value => [scalar_text value])) items).
      rewrite imap_const, (register_remove _ _ Hnew). reflexivity.
    + intros k value Hk.
      destruct (decoded_items_lookup items ds k value Hds Hk) as [d Hd].
      unfold encodeArrayEntry.
      destruct (encodeValue_scalar LocalTZA fuel h value (references ∪ {[l]}) 1 true d Hd)
        as (type & _ & ->).
      reflexivity.
Qed.

(** The same on a table, the value of an entry of a section: it is at
    level 2. *)
Lemma encodeValue_table LocalTZA (fuel : nat) (h : gmap nat object) (within : list nat)
    (entry : jvalue * jvalue) (references : gset nat) :
  table_entry_ok h within entry = true ->
  (forall l, l ∈ references -> l ∈ within) ->
  encodeValue LocalTZA (S fuel) h entry.2 references 1 false
  = Ok (MAP, value_pieces h entry, references).
Proof.
  intros (key & l & entries & -> & _ & Hl & Hobj & Hentries)%table_entry_ok_inv Hwithin.
  unfold value_pieces, written_of. cbn [fst snd encodeValue getValueType].
  rewrite Hobj. cbn [mbind completion_bind]. unfold encodeMap.
  assert (Hnew : l ∉ references) by (intros Hin; exact (Hl (Hwithin l Hin))).
  rewrite bool_decide_eq_false_2 by exact Hnew.
  cbn [Nat.add]. unfold iterOverMap. rewrite Hobj. cbn [mbind completion_bind].
  rewrite (array_from_imap _ (fun _ e => (key_text e, [scalar_text e.2]))).
  - cbn [mbind completion_bind].
    change (imap _ entries)
      with (imap (const (fun e : jvalue * jvalue => (key_text e, [scalar_text e.2])))
              entries).
    rewrite imap_const, (register_remove _ _ Hnew).
    unfold table_pieces. rewrite map_map. reflexivity.
  - intros k e Hk.
    assert (He : scalar_entry_ok e = true).
    { rewrite forallb_forall in Hentries. apply Hentries, list_elem_of_In.
      apply list_elem_of_lookup. eauto. }
    apply scalar_entry_ok_inv in He as (key' & d & Hk' & Hkey' & Hd).
    destruct e as [k' value]. cbn [fst snd] in *. subst k'.
    unfold encodeInlineEntry, key_text. cbn [fst].
    rewrite (checkKey_key_units h key' (plain_key_units key' Hkey')).
    cbn [mbind completion_bind].
    destruct (encodeValue_scalar LocalTZA fuel h value (references ∪ {[l]}) 2 true d Hd)
      as (type & _ & ->).
    reflexivity.
Qed.

Lemma section_line_key (h : gmap nat object) (within : list nat)
    (entry : jvalue * jvalue) :
  section_line_ok h within entry = true ->
  checkKey h entry.1 = Ok (key_text entry) /\ plain_key (key_text entry) = true.
Proof.
  intros [[H | H]%orb_true_iff | H]%orb_true_iff.
  - apply scalar_entry_ok_inv in H as (key & d & Hk & Hkey & _).
    unfold key_text. rewrite Hk.
    split; [apply checkKey_key_units, plain_key_units, Hkey | exact Hkey].
  - apply array_entry_ok_inv in H as (key & l & items & ds & -> & Hkey & _).
    split; [apply checkKey_key_units, plain_key_units, Hkey | exact Hkey].
  - apply table_entry_ok_inv in H as (key & l & entries & -> & Hkey & _).
    split; [apply checkKey_key_units, plain_key_units, Hkey | exact Hkey].
Qed.

Lemma encodeSectionEntry_line LocalTZA (fuel : nat) (h : gmap nat object)
    (within : list nat) (entry : jvalue * jvalue) (i : nat) (references : gset nat) :
  section_line_ok h within entry = true ->
  (forall l, l ∈ references -> l ∈ within) ->
  encodeSectionEntry (encodeValue LocalTZA (S fuel) h) h 1 entry i references
  = Ok (entry_pieces h entry ++ [nl], references).
Proof.
  intros Hentry Hwithin.
  destruct (section_line_key h within entry Hentry) as [Hkey _].
  assert (Hvalue : exists type,
            encodeValue LocalTZA (S fuel) h entry.2 references 1 false
            = Ok (type, value_pieces h entry, references)).
  { apply orb_true_iff in Hentry as [H | H].
    - destruct (encodeValue_line LocalTZA fuel h within entry references 1 false H
                  Hwithin eq_refl) as (type & _ & Hvalue).
      eauto.
    - exists MAP. apply (encodeValue_table LocalTZA fuel h within); assumption. }
  destruct Hvalue as [type Hvalue].
  destruct entry as [k value]. cbn [fst snd] in *.
  unfold encodeSectionEntry. rewrite Hkey. cbn [mbind completion_bind].
  rewrite Hvalue. reflexivity.
Qed.

Lemma encodeRootEntry_line LocalTZA (fuel : nat) (h : gmap nat object)
    (within : list nat) (entry : jvalue * jvalue) (i : nat) (references : gset nat) :
  line_entry_ok h within entry = true ->
  (forall l, l ∈ references -> l ∈ within) ->
  encodeRootEntry (encodeValue LocalTZA (S fuel) h) h 0 entry i references
  = Ok (entry_pieces h entry ++ [nl], references).
Proof.
  intros Hentry Hwithin.
  destruct (section_line_key h within entry) as [Hkey _].
  { unfold section_line_ok. rewrite Hentry. reflexivity. }
  destruct (encodeValue_line LocalTZA fuel h within entry references 0 true Hentry
              Hwithin eq_refl) as (type & Htype & Hvalue).
  destruct entry as [k value]. cbn [fst snd] in *.
  unfold encodeRootEntry. rewrite Hkey. cbn [mbind completion_bind].
  rewrite Hvalue. cbn [mbind completion_bind]. unfold rootEntry.
  rewrite bool_decide_eq_false_2 by exact Htype. reflexivity.
Qed.

(** The pieces of the value of a section. *)
Definition section_pieces (h : gmap nat object) (entry : jvalue * jvalue)
    : list (list Z) :=
  concat (pop_last (map (fun e => entry_pieces h e ++ [nl]) (section_of h entry))).

Lemma section_entry_ok_inv (h : gmap nat object) (input : nat)
    (entry : jvalue * jvalue) :
  section_entry_ok h input entry = true ->
  exists key l entries,
    entry = (JString key, JRef l) /\ plain_key key = true /\ l <> input
    /\ h !! l = Some (OMap entries)
    /\ forallb (section_line_ok h [input; l]) entries = true.
Proof.
  unfold section_entry_ok.
  destruct entry as [[| | | key | | | |] [| | | | | | l |]]; try discriminate.
  destruct (h !! l) as [[items | entries] |] eqn:Hl;
    rewrite ?andb_false_r; try discriminate.
  intros [[Hkey Hl']%andb_true_iff Hentries]%andb_true_iff.
  apply bool_decide_eq_true_1 in Hl'. exists key, l, entries. auto.
Qed.

Lemma encodeRootEntry_section LocalTZA (fuel : nat) (h : gmap nat object) (input : nat)
    (entry : jvalue * jvalue) (i : nat) :
  section_entry_ok h input entry = true ->
  encodeRootEntry (encodeValue LocalTZA (S (S fuel)) h) h 0 entry i {[input]}
  = Ok (rootEntry i (key_text entry) MAP (section_pieces h entry), {[input]}).
Proof.
  intros (key & l & entries & -> & Hkey & Hl & Hobj & Hentries)%section_entry_ok_inv.
  unfold encodeRootEntry, section_pieces, section_of, key_text. cbn [fst snd].
  rewrite (checkKey_key_units h key (plain_key_units key Hkey)), Hobj.
  cbn [mbind completion_bind encodeValue getValueType]. rewrite Hobj.
  cbn [mbind completion_bind]. unfold encodeMap.
  rewrite bool_decide_eq_false_2 by (rewrite elem_of_singleton; exact Hl).
  cbn [Nat.add]. unfold iterOverMap. rewrite Hobj. cbn [mbind completion_bind].
  rewrite (array_from_imap _ (fun _ e => entry_pieces h e ++ [nl])).
  - cbn [mbind completion_bind].
    change (imap _ entries) with (imap (const (fun e => entry_pieces h e ++ [nl])) entries).
    rewrite imap_const.
    rewrite register_remove by (rewrite elem_of_singleton; exact Hl). reflexivity.
  - intros k e Hk. apply (encodeSectionEntry_line LocalTZA fuel h [input; l]).
    + rewrite forallb_forall in Hentries. apply Hentries, list_elem_of_In.
      apply list_elem_of_lookup. eauto.
    + intros x [->%elem_of_singleton | ->%elem_of_singleton]%elem_of_union;
        repeat constructor.
Qed.

(** Pieces that each end with a separator, the last separator taken off:
    the pieces joined with the separator between them. *)
Lemma join_pop_last (sep : list Z) (bodies : list (list (list Z))) :
  join (concat (pop_last (map (fun body => body ++ [sep]) bodies)))
  = join_with sep (map join bodies).
Proof.
  unfold join.
  destruct bodies as [|e bodies]; [reflexivity |].
  revert e. induction bodies as [|e' bodies IH]; intros e.
  - cbn [map pop_last join_with]. rewrite removelast_last.
    cbn [concat]. rewrite app_nil_r. reflexivity.
  - change (pop_last (map ?g (e :: e' :: bodies)))
      with (g e :: pop_last (map g (e' :: bodies))).
    change (join_with ?s (map ?g (e :: e' :: bodies)))
      with (g e ++ s ++ join_with s (map g (e' :: bodies))).
    rewrite concat_cons, concat_app, IH, concat_app. cbn [concat].
    rewrite app_nil_r, <- app_assoc. reflexivity.
Qed.

Lemma join_with_app (sep : list Z) (pieces pieces' : list (list Z)) :
  pieces <> [] -> pieces' <> [] ->
  join_with sep (pieces ++ pieces')
  = join_with sep pieces ++ sep ++ join_with sep pieces'.
Proof.
  intros Hne Hne'. destruct pieces as [|p pieces]; [congruence |]. clear Hne.
  revert p. induction pieces as [|q pieces IH]; intros p.
  - destruct pieces' as [|p' pieces']; [congruence | reflexivity].
  - change (join_with sep ((p :: q :: pieces) ++ pieces'))
      with (p ++ sep ++ join_with sep ((q :: pieces) ++ pieces')).
    rewrite IH.
    change (join_with sep (p :: q :: pieces))
      with (p ++ sep ++ join_with sep (q :: pieces)).
    rewrite <- !app_assoc. reflexivity.
Qed.

(** Groups of pieces joined, then the groups joined: all the pieces
    joined. *)
Lemma join_with_concat (sep : list Z) (groups : list (list (list Z))) :
  Forall (fun group => group <> []) groups ->
  join_with sep (map (join_with sep) groups) = join_with sep (concat groups).
Proof.
  induction 1 as [|group groups Hgroup Hgroups IH]; [reflexivity |].
  destruct groups as [|group' groups].
  - cbn [map join_with concat]. rewrite app_nil_r. reflexivity.
  - change (join_with sep (map (join_with sep) (group :: group' :: groups)))
      with (join_with sep group ++ sep
            ++ join_with sep (map (join_with sep) (group' :: groups))).
    rewrite IH.
    change (concat (group :: group' :: groups))
      with (group ++ concat (group' :: groups)).
    rewrite join_with_app; [reflexivity | exact Hgroup |].
    inversion Hgroups as [|? ? Hgroup' _]; subst.
    destruct group'; [congruence | discriminate].
Qed.

(** What [rootEntry] gives for a section, less the line feed that ends
    it. *)
Definition section_body (i : nat) (key : list Z) (value : list (list Z))
    : list (list Z) :=
  let header :=
    match i with
    | O => str "[" ++ key ++ str "]"
    | _ => nl ++ str "[" ++ key ++ str "]"
    end in
  match value with
  | [] => [header]
  | _ => [header; nl] ++ value
  end.

Lemma rootEntry_section_body (i : nat) (key : list Z) (value : list (list Z)) :
  rootEntry i key MAP value = section_body i key value ++ [nl].
Proof. destruct i, value; reflexivity. Qed.

(** The lines in the layout of the encoder. *)
Lemma render_standard (line : text_line) :
  render standard line
  = match line with
    | Line_entry key value => key ++ str " = " ++ written_text value
    | Line_header key => str "[" ++ key ++ str "]"
    | Line_blank => []
    end.
Proof.
  unfold render, standard, trailer. cbn [indent after_key before_value trailing comment app].
  rewrite app_nil_r. destruct line; reflexivity.
Qed.

Lemma entry_pieces_text (h : gmap nat object) (entry : jvalue * jvalue) :
  join (entry_pieces h entry) = render standard (line_of h entry).
Proof.
  rewrite render_standard. unfold entry_pieces, value_pieces, line_of.
  change (join ([?key; ?sep] ++ ?value)) with (key ++ sep ++ join value).
  do 2 f_equal.
  destruct (written_of h entry); cbn [written_text]; [| reflexivity | reflexivity].
  unfold join. cbn [concat]. apply app_nil_r.
Qed.

Lemma section_body_text (h : gmap nat object) (i : nat) (entry : jvalue * jvalue) :
  join (section_body i (key_text entry) (section_pieces h entry))
  = join_with nl (map (render standard) (section_lines h (i =? 0)%nat entry)).
Proof.
  unfold section_pieces, section_lines.
  assert (Hlines : forall lines,
    map (render standard)
      ((if (i =? 0)%nat then [] else [Line_blank]) ++ Line_header (key_text entry) :: lines)
    = (if (i =? 0)%nat then [] else [[]])
      ++ (str "[" ++ key_text entry ++ str "]") :: map (render standard) lines).
  { intros lines. rewrite map_app. cbn [map]. rewrite !render_standard.
    destruct (i =? 0)%nat; reflexivity. }
  rewrite Hlines. clear Hlines.
  destruct (section_of h entry) as [|e entries] eqn:Hsection.
  - destruct i; cbn; rewrite ?app_nil_r; reflexivity.
  - assert (Hvalue :
      join (concat (pop_last (map (fun e => entry_pieces h e ++ [nl]) (e :: entries))))
      = join_with nl (map (render standard) (map (line_of h) (e :: entries)))).
    { rewrite <- (map_map (entry_pieces h) (fun body => body ++ [nl])), join_pop_last.
      rewrite !map_map. f_equal. apply map_ext. intros e'. apply entry_pieces_text. }
    assert (Hne : exists p value,
               concat (pop_last (map (fun e => entry_pieces h e ++ [nl]) (e :: entries)))
               = p :: value).
    { destruct entries; eexists; eexists; reflexivity. }
    destruct Hne as (p & value & Hpieces). rewrite Hpieces in *.
    unfold section_body. cbv zeta.
    change (join ([?header; nl] ++ p :: value))
      with (header ++ nl ++ join (p :: value)).
    rewrite Hvalue.
    destruct i; reflexivity.
Qed.

(** An entry of a document: an entry that is read as written, or a section
    of such entries. *)
Definition document_entry_ok (h : gmap nat object) (input : nat)
    (entry : jvalue * jvalue) : bool :=
  line_entry_ok h [input] entry || section_entry_ok h input entry.

Lemma line_entry_not_section (h : gmap nat object) (within : list nat)
    (entry : jvalue * jvalue) :
  line_entry_ok h within entry = true -> is_section h entry = false.
Proof.
  intros [H | H]%orb_true_iff.
  - apply scalar_entry_ok_inv in H as (key & d & _ & _ & Hd). unfold is_section.
    destruct entry as [k [| | | | | | l |]]; cbn in *; try discriminate; reflexivity.
  - apply array_entry_ok_inv in H as (key & l & items & ds & -> & _ & _ & Hobj & _).
    unfold is_section. cbn. rewrite Hobj. reflexivity.
Qed.

Lemma section_entry_is_section (h : gmap nat object) (input : nat)
    (entry : jvalue * jvalue) :
  section_entry_ok h input entry = true -> is_section h entry = true.
Proof.
  intros (key & l & entries & -> & _ & _ & Hobj & _)%section_entry_ok_inv.
  unfold is_section. cbn. rewrite Hobj. reflexivity.
Qed.

Lemma document_entry_cases (h : gmap nat object) (input : nat) (entry : jvalue * jvalue) :
  document_entry_ok h input entry = true ->
  (is_section h entry = false /\ line_entry_ok h [input] entry = true)
  \/ (is_section h entry = true /\ section_entry_ok h input entry = true).
Proof.
  unfold document_entry_ok. intros [H | H]%orb_true_iff.
  - left. split; [apply (line_entry_not_section h [input]), H | exact H].
  - right. split; [apply (section_entry_is_section h input), H | exact H].
Qed.

(** What the callback of [encodeMap] gives at the root for an entry of a
    document, less the line feed that ends it. *)
Definition root_body (h : gmap nat object) (i : nat) (entry : jvalue * jvalue)
    : list (list Z) :=
  if is_section h entry
  then section_body i (key_text entry) (section_pieces h entry)
  else entry_pieces h entry.

Lemma encodeRootEntry_document LocalTZA (h : gmap nat object) (input : nat)
    (entry : jvalue * jvalue) (i : nat) :
  is_Some (h !! input) ->
  document_entry_ok h input entry = true ->
  encodeRootEntry (encodeValue LocalTZA (encode_fuel h) h) h 0 entry i {[input]}
  = Ok (root_body h i entry ++ [nl], {[input]}).
Proof.
  intros [root Hroot]. unfold root_body, encode_fuel.
  destruct (size h) as [|fuel] eqn:Hsize.
  { apply map_size_empty_iff in Hsize. subst h. rewrite lookup_empty in Hroot.
    discriminate. }
  intros [[-> H] | [-> H]]%document_entry_cases.
  - apply (encodeRootEntry_line LocalTZA (S fuel) h [input]); [exact H |].
    intros l ->%elem_of_singleton. repeat constructor.
  - rewrite (encodeRootEntry_section _ _ _ _ _ _ H).
    rewrite rootEntry_section_body. reflexivity.
Qed.

Lemma root_body_text (h : gmap nat object) (i : nat) (entry : jvalue * jvalue) :
  join (root_body h i entry)
  = join_with nl (map (render standard) (entry_lines h i entry)).
Proof.
  unfold root_body, entry_lines. destruct (is_section h entry).
  - apply section_body_text.
  - apply entry_pieces_text.
Qed.

Lemma entry_lines_not_nil (h : gmap nat object) (i : nat) (entry : jvalue * jvalue) :
  entry_lines h i entry <> [].
Proof.
  unfold entry_lines, section_lines.
  destruct (is_section h entry); [destruct (i =? 0)%nat |]; discriminate.
Qed.

(** The pieces of the root, joined: the text of the lines of the
    document. *)
Lemma root_pieces_text (h : gmap nat object) (entries : list (jvalue * jvalue)) :
  join (concat (pop_last (imap (fun i e => root_body h i e ++ [nl]) entries)))
  = document_text (concat (imap (entry_lines h) entries)).
Proof.
  change (imap (fun i e => root_body h i e ++ [nl]) entries)
    with (imap (fun i => (fun body => body ++ [nl]) ∘ root_body h i) entries).
  rewrite <- (fmap_imap (root_body h) (fun body => body ++ [nl])).
  change (?f <$> ?l) with (map f l). rewrite join_pop_last.
  unfold document_text. rewrite concat_map.
  rewrite <- (join_with_concat nl).
  2:{ apply Forall_map, Forall_forall. intros group Hgroup.
      apply elem_of_lookup_imap in Hgroup as (j & e & -> & _).
      destruct (entry_lines h j e) eqn:Hlines; [| discriminate].
      exfalso. exact (entry_lines_not_nil _ _ _ Hlines). }
  f_equal. rewrite map_map.
  change (map ?f (imap ?g entries)) with (f <$> imap g entries).
  rewrite !fmap_imap. apply imap_ext. intros j e _. apply root_body_text.
Qed.

Lemma encode_document_lines LocalTZA (h : gmap nat object) (input : nat)
    (entries : list (jvalue * jvalue)) :
  h !! input = Some (OMap entries) ->
  forallb (document_entry_ok h input) entries = true ->
  encode LocalTZA h input = Ok (document_text (document_lines h entries)).
Proof.
  intros Hobj Hentries. rewrite forallb_forall in Hentries.
  unfold encode, encodeMap.
  rewrite bool_decide_eq_false_2 by apply not_elem_of_empty.
  rewrite (left_id_L ∅ (∪)).
  unfold iterOverMap. rewrite Hobj. cbn [mbind completion_bind].
  rewrite groupInput_total; cycle 1.
  { intros entry Hentry%list_elem_of_In.
    destruct (document_entry_cases h input entry (Hentries _ Hentry))
      as [[_ H] | [_ H]].
    - apply orb_true_iff in H as [H | H].
      + apply scalar_entry_ok_inv in H as (key & d & _ & _ & Hd).
        destruct entry as [k [| | | | | | l |]]; cbn in *; try discriminate; eauto.
      + apply array_entry_ok_inv in H as (key & l & items & ds & -> & _ & _ & Hl & _).
        exists ARRAY. cbn. rewrite Hl. reflexivity.
    - apply section_entry_ok_inv in H as (key & l & es & -> & _ & _ & Hl & _).
      exists MAP. cbn. rewrite Hl. reflexivity. }
  cbn [mbind completion_bind fst snd].
  rewrite (array_from_imap _ (fun i e => root_body h i e ++ [nl])).
  - cbn [mbind completion_bind]. rewrite root_pieces_text. reflexivity.
  - intros k e Hk. rewrite Nat.add_0_l.
    apply encodeRootEntry_document; [rewrite Hobj; eauto |].
    apply Hentries, list_elem_of_In, (elem_of_filter_groups h).
    apply list_elem_of_lookup. eauto.
Qed.


(** A document with entries around two sections, one of them empty; a
    short array, one that is written in lines, and a table. *)
Definition config_heap : gmap nat object :=
  list_to_map
    [(0%nat, OMap [(JString (str "title"), JString (str "say " ++ [34] ++ str "hi" ++ [34]));
                   (JString (str "server"), JRef 1%nat);
                   (JString (str "debug"), JBool false);
                   (JString (str "ratio"), JNumber (Finite (-25) (-2)));
                   (JString (str "empty"), JRef 2%nat);
                   (JString (str "ports"), JRef 3%nat)]);
     (1%nat, OMap [(JString (str "host"), JString (str "example.org"));
                   (JString (str "limit"), JNumber (Infinity false));
                   (JString (str "proxy"), JUndefined);
                   (JString (str "mirrors"), JRef 4%nat);
                   (JString (str "retries"), JNumber (Finite 3 1));
                   (JString (str "tls"), JRef 5%nat)]);
     (2%nat, OMap []);
     (3%nat, OArray [JNumber (Finite 8 1); JNumber (Finite 443 0); JBool true]);
     (4%nat, OArray [JString (str "https://mirror-one.example.org/releases");
                     JString (str "https://mirror-two.example.org/releases");
                     JNull]);
     (5%nat, OMap [(JString (str "verify"), JBool true);
                   (JString (str "version"), JNumber (Finite 13 (-1)))])].

Definition config_entries : list (jvalue * jvalue) :=
  [(JString (str "title"), JString (str "say " ++ [34] ++ str "hi" ++ [34]));
   (JString (str "server"), JRef 1%nat);
   (JString (str "debug"), JBool false);
   (JString (str "ratio"), JNumber (Finite (-25) (-2)));
   (JString (str "empty"), JRef 2%nat);
   (JString (str "ports"), JRef 3%nat)].


Example encode_config :
  document_text (document_lines config_heap config_entries)
  = str "title = " ++ [34] ++ str "say " ++ [92; 34] ++ str "hi" ++ [92; 34; 34; 10]
    ++ str "debug = FALSE" ++ nl
    ++ str "ratio = -0.25" ++ nl
    ++ str "ports = [80, 443, TRUE]" ++ nl ++ nl
    ++ str "[server]" ++ nl
    ++ str "host = " ++ [34] ++ str "example.org" ++ [34; 10]
    ++ str "limit = INFINITY" ++ nl
    ++ str "proxy = NULL" ++ nl
    ++ str "mirrors = [" ++ nl
    ++ str "    " ++ [34] ++ str "https://mirror-one.example.org/releases" ++ [34; 44; 10]
    ++ str "    " ++ [34] ++ str "https://mirror-two.example.org/releases" ++ [34; 44; 10]
    ++ str "    NULL," ++ nl
    ++ str "]" ++ nl
    ++ str "retries = 30" ++ nl
    ++ str "tls = { verify = TRUE, version = 1.3 }" ++ nl ++ nl
    ++ str "[empty]".
Proof. vm_compute. reflexivity. Qed.

(** ** Reading the text of a document back *)

(** What the values and the entries of a document are read as. *)
Definition scalar_value (value : jvalue) : dvalue := default DNull (decoded value).

Definition decoded_value (h : gmap nat object) (entry : jvalue * jvalue) : dvalue :=
  match written_of h entry with
  | Scalar value => scalar_value value
  | Items items => DArray (map scalar_value items)
  | Table entries => DMap (map (fun e => (e.1, scalar_value e.2)) entries)
  end.

Definition decoded_entry (h : gmap nat object) (entry : jvalue * jvalue)
    : list Z * dvalue :=
  (key_text entry, decoded_value h entry).

Definition decoded_root_entry (h : gmap nat object) (entry : jvalue * jvalue)
    : list Z * dvalue :=
  if is_section h entry
  then (key_text entry, DMap (map (decoded_entry h) (section_of h entry)))
  else decoded_entry h entry.

(** The document read back: the entries that are no sections, then the
    sections. *)
Definition decoded_document (h : gmap nat object) (entries : list (jvalue * jvalue))
    : list (list Z * dvalue) :=
  map (decoded_root_entry h)
    (List.filter (fun e => negb (is_section h e)) entries
     ++ List.filter (is_section h) entries).

Definition assignment_of (h : gmap nat object) (entry : jvalue * jvalue) : item :=
  Assignment (key_text entry) (decoded_value h entry).

(** The items of an entry of the root. *)
Definition entry_items (h : gmap nat object) (entry : jvalue * jvalue) : list item :=
  if is_section h entry
  then Section_header (key_text entry) :: map (assignment_of h) (section_of h entry)
  else [assignment_of h entry].

Lemma lines_items_app (lines lines' : list text_line) (items items' : list item) :
  lines_items lines = Some items -> lines_items lines' = Some items' ->
  lines_items (lines ++ lines') = Some (items ++ items').
Proof.
  revert items. induction lines as [|line lines IH]; intros items Hitems Hitems'.
  - injection Hitems as <-. exact Hitems'.
  - cbn [lines_items app] in *.
    destruct (line_items line) as [first |]; [| discriminate].
    destruct (lines_items lines) as [others |]; [| discriminate].
    cbn in Hitems. injection Hitems as <-.
    rewrite (IH others eq_refl Hitems'). cbn. rewrite app_assoc. reflexivity.
Qed.

(** [map.set] of a key that the Map does not hold. *)
Lemma map_set_new (key : list Z) (value : dvalue) (map : list (list Z * dvalue)) :
  key ∉ map.*1 -> map_set key value map = map ++ [(key, value)].
Proof.
  induction map as [|[k v] map IH]; intros Hkey; [reflexivity |].
  cbn in Hkey. apply not_elem_of_cons in Hkey as [Hne Hkey].
  cbn [map_set]. unfold jsstring_eqb.
  rewrite bool_decide_eq_false_2 by congruence. rewrite (IH Hkey). reflexivity.
Qed.

(** [map.set] of the key the Map holds last. *)
Lemma map_set_last (key : list Z) (value value' : dvalue)
    (map : list (list Z * dvalue)) :
  key ∉ map.*1 -> map_set key value' (map ++ [(key, value)]) = map ++ [(key, value')].
Proof.
  induction map as [|[k v] map IH]; intros Hkey.
  - cbn. unfold jsstring_eqb. rewrite bool_decide_eq_true_2 by reflexivity. reflexivity.
  - cbn in Hkey. apply not_elem_of_cons in Hkey as [Hne Hkey].
    cbn [map_set app]. unfold jsstring_eqb.
    rewrite bool_decide_eq_false_2 by congruence. rewrite (IH Hkey). reflexivity.
Qed.

Lemma decoded_items_values (items : list jvalue) (ds : list dvalue) :
  decoded_items items = Some ds -> ds = map scalar_value items.
Proof.
  revert ds. induction items as [|value items IH]; intros ds Hds.
  - injection Hds as <-. reflexivity.
  - apply decoded_items_cons in Hds as (d & ds' & Hd & Hds' & ->).
    cbn [map]. unfold scalar_value at 1. rewrite Hd, (IH ds' Hds'). reflexivity.
Qed.

Lemma decoded_entries_values (entries : list (jvalue * jvalue)) :
  forallb scalar_entry_ok entries = true ->
  decoded_entries (map (fun e => (key_text e, e.2)) entries)
  = Some (map (fun e => (key_text e, scalar_value e.2)) entries).
Proof.
  unfold decoded_entries.
  induction entries as [|e entries IH]; [reflexivity |]. cbn [forallb map mapM fst snd].
  intros [He Hentries]%andb_true_iff. rewrite (IH Hentries).
  apply scalar_entry_ok_inv in He as (key & d & Hk & Hkey & Hd).
  unfold key_text, scalar_value. rewrite Hk, Hkey, Hd. reflexivity.
Qed.

(** Entries with keys that are new and different are set one after the
    other. *)
Lemma table_set_new (written result : list (list Z * dvalue)) :
  NoDup (result.*1 ++ written.*1) -> table_set written result = result ++ written.
Proof.
  unfold table_set. revert result.
  induction written as [|[key value] written IH]; intros result Hkeys; cbn [fold_left].
  - rewrite app_nil_r. reflexivity.
  - cbn [fst snd]. rewrite map_set_new.
    + rewrite IH; [rewrite <- app_assoc; reflexivity |].
      rewrite fmap_app. cbn [fmap list_fmap]. rewrite <- app_assoc. exact Hkeys.
    + apply NoDup_app in Hkeys as (_ & Hdisjoint & _).
      intros Hin. apply (Hdisjoint _ Hin). cbn. apply list_elem_of_here.
Qed.

(** The value of an entry is read as what it stands for. *)
Lemma written_decoded_of (h : gmap nat object) (within : list nat)
    (entry : jvalue * jvalue) :
  section_line_ok h within entry = true ->
  NoDup (map key_text (section_of h entry)) ->
  written_decoded (written_of h entry) = Some (decoded_value h entry).
Proof.
  intros [[H | H]%orb_true_iff | H]%orb_true_iff Hkeys; unfold decoded_value.
  - rewrite (scalar_entry_written h entry H).
    apply scalar_entry_ok_inv in H as (key & d & _ & _ & Hd).
    cbn [written_decoded]. unfold scalar_value. rewrite Hd. reflexivity.
  - apply array_entry_ok_inv in H as (key & l & items & ds & -> & _ & _ & Hobj & Hds).
    unfold written_of. cbn [fst snd]. rewrite Hobj. cbn [written_decoded].
    rewrite Hds, (decoded_items_values items ds Hds). reflexivity.
  - apply table_entry_ok_inv in H as (key & l & entries & -> & _ & _ & Hobj & Hentries).
    unfold written_of, section_of in *. cbn [fst snd] in *. rewrite Hobj in *.
    cbn [written_decoded]. rewrite (decoded_entries_values entries Hentries).
    cbn [mbind option_bind]. rewrite map_map. cbn [fst snd].
    rewrite (table_set_new _ []); [reflexivity |].
    cbn [fmap list_fmap app].
    replace ((map (fun e => (key_text e, scalar_value e.2)) entries).*1)
      with (map key_text entries); [exact Hkeys |].
    clear. induction entries as [|e entries IH]; [reflexivity |].
    cbn. rewrite IH. reflexivity.
Qed.

Lemma line_items_line_of (h : gmap nat object) (within : list nat)
    (entry : jvalue * jvalue) :
  section_line_ok h within entry = true ->
  NoDup (map key_text (section_of h entry)) ->
  line_items (line_of h entry) = Some [assignment_of h entry].
Proof.
  intros Hentry Hkeys. unfold line_of, assignment_of. cbn [line_items].
  rewrite (proj2 (section_line_key h within entry Hentry)).
  rewrite (written_decoded_of h within entry Hentry Hkeys). reflexivity.
Qed.

Lemma lines_items_lines_of (h : gmap nat object) (within : list nat)
    (entries : list (jvalue * jvalue)) :
  forallb (section_line_ok h within) entries = true ->
  Forall (fun e => NoDup (map key_text (section_of h e))) entries ->
  lines_items (map (line_of h) entries) = Some (map (assignment_of h) entries).
Proof.
  intros Hentries Hkeys. induction Hkeys as [|e entries He _ IH]; [reflexivity |].
  cbn [forallb] in Hentries. apply andb_true_iff in Hentries as [Hok Hentries].
  cbn [map lines_items]. rewrite (line_items_line_of h within e Hok He), (IH Hentries).
  reflexivity.
Qed.

(** The Maps of an entry of the root hold each of their keys once: the
    section, and the tables of its entries. *)
Definition entry_maps_ok (h : gmap nat object) (entry : jvalue * jvalue) : Prop :=
  NoDup (map key_text (section_of h entry))
  /\ Forall (fun e => NoDup (map key_text (section_of h e))) (section_of h entry).

Lemma lines_items_entry (h : gmap nat object) (input : nat) (i : nat)
    (entry : jvalue * jvalue) :
  document_entry_ok h input entry = true -> entry_maps_ok h entry ->
  lines_items (entry_lines h i entry) = Some (entry_items h entry).
Proof.
  unfold entry_lines, entry_items.
  intros [[-> H] | [-> H]]%document_entry_cases [Hkeys Htables].
  - cbn [lines_items]. rewrite (line_items_line_of h [input] entry); [reflexivity | |].
    + unfold section_line_ok. rewrite H. reflexivity.
    + exact Hkeys.
  - apply section_entry_ok_inv in H as (key & l & es & -> & Hkey & _ & Hl & Hes).
    unfold section_lines, section_of in *. unfold key_text. cbn [fst snd] in *.
    rewrite Hl in *.
    apply (lines_items_app _ _ [] _).
    + destruct (i =? 0)%nat; reflexivity.
    + cbn [lines_items line_items].
      rewrite Hkey, (lines_items_lines_of h [input; l] es Hes Htables).
      reflexivity.
Qed.

Lemma lines_items_document (h : gmap nat object) (P : jvalue * jvalue -> Prop)
    (entries : list (jvalue * jvalue)) :
  Forall P entries ->
  forall F : nat -> jvalue * jvalue -> list text_line,
    (forall i e, P e -> lines_items (F i e) = Some (entry_items h e)) ->
    lines_items (concat (imap F entries)) = Some (concat (map (entry_items h) entries)).
Proof.
  induction 1 as [|e entries He _ IH]; intros F HF; [reflexivity |].
  rewrite imap_cons. cbn [concat map].
  apply lines_items_app; [apply HF, He |].
  apply IH. intros i e' He'. apply HF, He'.
Qed.

(** The entries of the root that are no sections are written one after the
    other. *)
Lemma matchEntries_items_scalars (h : gmap nat object)
    (entries : list (jvalue * jvalue)) (rest : list item) :
  forall result,
    NoDup (result.*1 ++ map key_text entries) ->
    matchEntries_items (map (assignment_of h) entries ++ rest) result None
    = matchEntries_items rest (result ++ map (decoded_entry h) entries) None.
Proof.
  induction entries as [|e entries IH]; intros result Hkeys.
  - cbn. rewrite app_nil_r. reflexivity.
  - cbn [map app matchEntries_items assignment_of target_set].
    assert (Hnew : key_text e ∉ result.*1).
    { apply NoDup_app in Hkeys as (_ & Hdisjoint & _).
      intros Hin. apply (Hdisjoint _ Hin). cbn. apply list_elem_of_here. }
    rewrite (map_set_new _ _ _ Hnew). fold (assignment_of h e).
    rewrite IH.
    + rewrite <- app_assoc. reflexivity.
    + rewrite fmap_app. cbn [fmap list_fmap]. rewrite <- app_assoc. exact Hkeys.
Qed.

(** The entries of a section are written to the Map of the section, which
    the document holds last. *)
Lemma matchEntries_items_section (h : gmap nat object)
    (entries : list (jvalue * jvalue)) (rest : list item) (key : list Z) :
  forall result written,
    key ∉ result.*1 ->
    NoDup (written.*1 ++ map key_text entries) ->
    matchEntries_items (map (assignment_of h) entries ++ rest)
      (result ++ [(key, DMap written)]) (Some (key, written))
    = matchEntries_items rest
        (result ++ [(key, DMap (written ++ map (decoded_entry h) entries))])
        (Some (key, written ++ map (decoded_entry h) entries)).
Proof.
  induction entries as [|e entries IH]; intros result written Hkey Hkeys.
  - cbn. rewrite app_nil_r. reflexivity.
  - cbn [map app matchEntries_items assignment_of target_set].
    assert (Hnew : key_text e ∉ written.*1).
    { apply NoDup_app in Hkeys as (_ & Hdisjoint & _).
      intros Hin. apply (Hdisjoint _ Hin). cbn. apply list_elem_of_here. }
    rewrite (map_set_new _ _ written Hnew), (map_set_last _ _ _ _ Hkey).
    fold (assignment_of h e). rewrite IH.
    + rewrite <- app_assoc. reflexivity.
    + exact Hkey.
    + rewrite fmap_app. cbn [fmap list_fmap]. rewrite <- app_assoc. exact Hkeys.
Qed.

(** The sections are written one after the other, each under its key. *)
Lemma matchEntries_items_sections (h : gmap nat object)
    (sections : list (jvalue * jvalue)) :
  forall result target,
    Forall (fun e => is_section h e = true) sections ->
    Forall (fun e => NoDup (map key_text (section_of h e))) sections ->
    NoDup (result.*1 ++ map key_text sections) ->
    matchEntries_items (concat (map (entry_items h) sections)) result target
    = result ++ map (decoded_root_entry h) sections.
Proof.
  induction sections as [|e sections IH]; intros result target Hsections Hinner Hkeys.
  - cbn. rewrite app_nil_r. reflexivity.
  - inversion Hsections as [|? ? He Hsections']; subst.
    inversion Hinner as [|? ? Hsec Hinner']; subst.
    cbn [map concat]. unfold entry_items at 1, decoded_root_entry at 1. rewrite He.
    cbn [app matchEntries_items].
    assert (Hnew : key_text e ∉ result.*1).
    { apply NoDup_app in Hkeys as (_ & Hdisjoint & _).
      intros Hin. apply (Hdisjoint _ Hin). cbn. apply list_elem_of_here. }
    rewrite (map_set_new _ _ _ Hnew).
    rewrite (matchEntries_items_section h _ _ _ result [] Hnew Hsec).
    cbn [app]. rewrite IH; [| exact Hsections' | exact Hinner' |].
    + rewrite <- app_assoc. reflexivity.
    + rewrite fmap_app. cbn [fmap list_fmap]. rewrite <- app_assoc. exact Hkeys.
Qed.

Lemma filter_groups_Permutation {A} (p : A -> bool) (l : list A) :
  List.filter (fun x => negb (p x)) l ++ List.filter p l ≡ₚ l.
Proof.
  induction l as [|x l IH]; [reflexivity |].
  cbn [List.filter]. destruct (p x); cbn [negb app].
  - rewrite <- Permutation_middle. constructor. exact IH.
  - constructor. exact IH.
Qed.

(** The writes of the items of a document. *)
Lemma matchEntries_items_document (h : gmap nat object)
    (entries : list (jvalue * jvalue)) :
  NoDup (map key_text entries) ->
  Forall (fun e => NoDup (map key_text (section_of h e))) entries ->
  matchEntries_items
    (concat (map (entry_items h)
               (List.filter (fun e => negb (is_section h e)) entries
                ++ List.filter (is_section h) entries))) [] None
  = decoded_document h entries.
Proof.
  intros Hkeys Hinner. unfold decoded_document.
  set (scalars := List.filter (fun e => negb (is_section h e)) entries).
  set (sections := List.filter (is_section h) entries).
  assert (Hscalars : Forall (fun e => is_section h e = false) scalars).
  { apply Forall_forall. intros e He%list_elem_of_In.
    apply filter_In in He as [_ He]. apply negb_true_iff, He. }
  assert (Hsections : Forall (fun e => is_section h e = true) sections).
  { apply Forall_forall. intros e He%list_elem_of_In.
    apply filter_In in He as [_ He]. exact He. }
  assert (Hitems : concat (map (entry_items h) scalars) = map (assignment_of h) scalars).
  { clear -Hscalars. induction Hscalars as [|e scalars He _ IH]; [reflexivity |].
    cbn [map concat]. unfold entry_items at 1. rewrite He, IH. reflexivity. }
  assert (Hdecoded : map (decoded_root_entry h) scalars = map (decoded_entry h) scalars).
  { clear -Hscalars. induction Hscalars as [|e scalars He _ IH]; [reflexivity |].
    cbn [map]. unfold decoded_root_entry at 1. rewrite He, IH. reflexivity. }
  assert (Hgrouped : NoDup (map key_text (scalars ++ sections))).
  { eapply NoDup_Permutation_proper; [| exact Hkeys].
    apply Permutation_map, filter_groups_Permutation. }
  rewrite map_app, concat_app, Hitems, matchEntries_items_scalars.
  - cbn [app]. rewrite matchEntries_items_sections.
    + rewrite map_app, Hdecoded. reflexivity.
    + exact Hsections.
    + apply Forall_forall. intros e He%list_elem_of_In.
      apply filter_In in He as [He _]. rewrite Forall_forall in Hinner.
      apply Hinner, list_elem_of_In, He.
    + rewrite map_app in Hgrouped.
      replace ((map (decoded_entry h) scalars).*1) with (map key_text scalars);
        [exact Hgrouped |].
      clear. induction scalars as [|e scalars IH]; [reflexivity |].
      cbn. rewrite IH. reflexivity.
  - cbn [fmap list_fmap app]. rewrite map_app in Hgrouped.
    apply NoDup_app in Hgrouped as (H & _ & _). exact H.
Qed.

(** The Maps of a document: the document, its sections, the tables of
    their entries. *)
Definition maps_of (h : gmap nat object) (entries : list (jvalue * jvalue))
    : list (list (jvalue * jvalue)) :=
  entries
  :: concat (map (fun e => section_of h e :: map (section_of h) (section_of h e)) entries).

Lemma maps_of_inv (h : gmap nat object) (entries : list (jvalue * jvalue)) :
  Forall (fun es => NoDup (map key_text es)) (maps_of h entries) ->
  NoDup (map key_text entries) /\ Forall (entry_maps_ok h) entries.
Proof.
  unfold maps_of. intros Hmaps. apply List.Forall_cons_iff in Hmaps as [Hkeys Hmaps].
  split; [exact Hkeys |]. clear Hkeys.
  induction entries as [|e entries IH]; [constructor |].
  cbn [map concat] in Hmaps. apply List.Forall_app in Hmaps as [He Hmaps].
  apply List.Forall_cons_iff in He as [Hsection Htables].
  constructor; [| exact (IH Hmaps)].
  split; [exact Hsection |]. exact (proj1 (List.Forall_map (section_of h) _ _) Htables).
Qed.

(** X1: a document whose entries are entries that are read as written
    (strings with no backslash, keywords, numbers with no exponent, arrays
    of these) and sections of such entries and of tables of these, where no
    Map holds a key twice, is encoded into a text that [decode] reads back:
    the same keys and values, the entries that are no sections first, then
    the sections. *)
Theorem decode_encode_document LocalTZA (h : gmap nat object) (input : nat)
    (entries : list (jvalue * jvalue)) :
  h !! input = Some (OMap entries) ->
  forallb (document_entry_ok h input) entries = true ->
  Forall (fun es => NoDup (map key_text es)) (maps_of h entries) ->
  exists text,
    encode LocalTZA h input = Ok text
    /\ decode LocalTZA (InputString text) = Ok (decoded_document h entries).
Proof.
  intros Hobj Hentries [Hkeys Hmaps]%maps_of_inv.
  exists (document_text (document_lines h entries)).
  split; [apply encode_document_lines; assumption |].
  unfold decode. rewrite document_layout_text, generateFrom_layout_text.
  2:{ apply forallb_forall. intros line (x & <- & _)%in_map_iff. reflexivity. }
  rewrite <- (matchEntries_items_document h entries Hkeys).
  2:{ eapply List.Forall_impl; [| exact Hmaps]. intros e [He _]. exact He. }
  apply matchEntries_reads_items, reads_items_lines.
  { apply forallb_forall. intros line (x & <- & _)%in_map_iff. reflexivity. }
  rewrite map_map, map_id. unfold document_lines.
  apply (lines_items_document h
           (fun e => document_entry_ok h input e = true /\ entry_maps_ok h e)).
  - apply Forall_forall. intros e He. rewrite forallb_forall in Hentries.
    pose proof (proj1 (elem_of_filter_groups h entries e) He) as Hin.
    split; [apply Hentries, list_elem_of_In, Hin |].
    rewrite List.Forall_forall in Hmaps. apply Hmaps, list_elem_of_In, Hin.
  - intros i e [He Hmaps']. apply (lines_items_entry h input); assumption.
Qed.

Lemma decode_encode_document_witness :
  config_heap !! 0%nat = Some (OMap config_entries)
  /\ forallb (document_entry_ok config_heap 0) config_entries = true
  /\ exists text,
       encode UTC_zone config_heap 0%nat = Ok text
       /\ decode UTC_zone (InputString text)
          = Ok (decoded_document config_heap config_entries).
Proof.
  split; [reflexivity |]. split; [reflexivity |].
  apply (decode_encode_document UTC_zone config_heap 0%nat config_entries).
  - reflexivity.
  - reflexivity.
  - vm_compute.
    repeat (apply List.Forall_cons; [compute_done |]). apply List.Forall_nil.
Defined.

Example decoded_config :
  decoded_document config_heap config_entries
  = [(str "title", DString (str "say " ++ [34] ++ str "hi" ++ [34]));
     (str "debug", DBool false);
     (str "ratio", DNumber (Finite (-25) (-2)));
     (str "ports", DArray [DNumber (Finite 8 1); DNumber (Finite 443 0); DBool true]);
     (str "server",
      DMap [(str "host", DString (str "example.org"));
            (str "limit", DNumber (Infinity false));
            (str "proxy", DNull);
            (str "mirrors",
             DArray [DString (str "https://mirror-one.example.org/releases");
                     DString (str "https://mirror-two.example.org/releases");
                     DNull]);
            (str "retries", DNumber (Finite 3 1));
            (str "tls", DMap [(str "verify", DBool true);
                              (str "version", DNumber (Finite 13 (-1)))])]);
     (str "empty", DMap [])].
Proof. vm_compute. reflexivity. Qed.

(** The text of the sample document, and what [decode] returns for it. *)
Example decode_encode_config :
  (text ← encode UTC_zone config_heap 0%nat; decode UTC_zone (InputString text))
  = Ok (decoded_document config_heap config_entries).
Proof. vm_compute. reflexivity. Qed.

(** * The parsers consume their input *)

(** X7: whatever [matchNext] returns is of a class that was awaited; it
    leaves no more characters than it was given, and fewer unless it
    returns the end of the input. *)
Theorem matchNext_progress LocalTZA (fuel : nat) (characters characters' : stream)
    (expected : list token_class) (entryKey : option key_level) (newLine : bool)
    (e : entry) :
  matchNext LocalTZA fuel characters expected entryKey [] newLine = Ok (e, characters') ->
  entry_type e ∈ expected
  /\ (stream_length characters' <= stream_length characters)%nat
  /\ (entry_type e <> END_OF_INPUT ->
      (stream_length characters' < stream_length characters)%nat).
Proof.
  intros Hnext.
  set (enough := Nat.max fuel (2 * stream_length characters + 1)).
  pose proof (approx_Ok _ _ _
                (matchNext_fuel_le LocalTZA fuel enough characters expected entryKey []
                   newLine ltac:(lia)) Hnext) as Henough.
  destruct (decoder_total LocalTZA enough (stream_length characters)) as (Hn & _ & _).
  destruct (Hn ltac:(lia) characters expected entryKey [] newLine
              ltac:(unfold vlen; lia)) as [_ Hpost].
  destruct (Hpost _ Henough) as (H1 & H2 & H3 & _).
  unfold vlen in *. cbn [fst snd] in *.
  repeat split; [exact H1 | lia | intros H; specialize (H3 H); lia].
Qed.

Definition commented_entry : stream :=
  generateFrom (str "  # c" ++ [10] ++ str "k = 1").

Lemma matchNext_progress_witness :
  matchNext UTC_zone 5 commented_entry [KEY; NEW_LINE] (Some FIRST_LEVEL) [] false
  = Ok (Entry (DString (str "k")) [61] KEY, generateFrom (str " 1"))
  /\ KEY ∈ [KEY; NEW_LINE]
  /\ (stream_length (generateFrom (str " 1")) <= stream_length commented_entry)%nat.
Proof.
  split; [reflexivity |].
  pose proof (matchNext_progress UTC_zone 5 commented_entry
                (generateFrom (str " 1")) [KEY; NEW_LINE] (Some FIRST_LEVEL) false
                (Entry (DString (str "k")) [61] KEY) eq_refl) as (H1 & H2 & _).
  split; [exact H1 | exact H2].
Defined.

(** X8: [decode] returns a document or throws, whatever the input: no input
    keeps the loops of the parsers turning. *)
Theorem decode_returns_or_throws LocalTZA (input : input) :
  (exists document, decode LocalTZA input = Ok document)
  \/ (exists error, decode LocalTZA input = Throw error).
Proof.
  pose proof (decode_not_OutOfFuel LocalTZA input) as H.
  destruct (decode LocalTZA input) as [document | error |]; [eauto | eauto | congruence].
Qed.

Lemma decode_unique_keys_witness :
  decode UTC_zone (InputString (str "a = {x = 1, x = 2}" ++ [10] ++ str "a = {y = 3}"))
  = Ok [(str "a", DMap [(str "y", DNumber (Finite 3 0))])]
  /\ unique_keys (DMap [(str "a", DMap [(str "y", DNumber (Finite 3 0))])]).
Proof.
  split; [vm_compute; reflexivity |].
  apply (decode_unique_keys UTC_zone
           (InputString (str "a = {x = 1, x = 2}" ++ [10] ++ str "a = {y = 3}"))).
  vm_compute. reflexivity.
Defined.
